(** * MyLang: the lexer, the recursive-descent parser and the tree-walking
      evaluator of [mylang_interpreter.py], embedded as Rocq functions.

    Python text is a sequence of Unicode code points, integers are unbounded
    and floats are IEEE binary64; the embedding uses [list N], [Z] and
    primitive floats for them.  Exceptions are an explicit result type, the
    interpreter's mutable fields are an explicit state that is returned
    also when an exception is raised. *)

From Stdlib Require Import String Ascii DecimalString.
From Stdlib Require Import List ZArith NArith Bool Lia.
From Stdlib Require Import PrimFloat SpecFloat FloatOps.
Import ListNotations.

Set Implicit Arguments.
Local Open Scope Z_scope.

(** ** Text *)

Module Text.

(** A Python [str]: its code points, in order. *)
Definition char := N.
Definition pystr := list char.

Definition char_eqb (a b : char) : bool := N.eqb a b.

Fixpoint str_eqb (a b : pystr) : bool :=
  match a, b with
  | [], [] => true
  | x :: a', y :: b' => char_eqb x y && str_eqb a' b'
  | _, _ => false
  end.

Lemma str_eqb_spec (a b : pystr) : reflect (a = b) (str_eqb a b).
Proof.
  revert b; induction a as [|x a IH]; intros [|y b]; simpl;
    try (constructor; congruence).
  unfold char_eqb. destruct (N.eqb_spec x y) as [->|Hxy]; simpl.
  - destruct (IH b) as [->|Hab]; constructor; congruence.
  - constructor; congruence.
Qed.

Lemma str_eqb_refl (a : pystr) : str_eqb a a = true.
Proof. destruct (str_eqb_spec a a); congruence. Qed.

Lemma str_eqb_eq (a b : pystr) : str_eqb a b = true <-> a = b.
Proof. destruct (str_eqb_spec a b); split; congruence. Qed.

(** String literals of the source are written here as UTF-8 text and
    decoded to code points. *)
Fixpoint utf8_decode (bs : list N) (need : nat) (acc : N) : pystr :=
  match bs with
  | [] => []
  | b :: bs' =>
      match need with
      | O =>
          if (b <? 128)%N then b :: utf8_decode bs' 0 0%N
          else if (b <? 224)%N then utf8_decode bs' 1 (b - 192)%N
          else if (b <? 240)%N then utf8_decode bs' 2 (b - 224)%N
          else utf8_decode bs' 3 (b - 240)%N
      | S O => (acc * 64 + (b - 128))%N :: utf8_decode bs' 0 0%N
      | S n => utf8_decode bs' n (acc * 64 + (b - 128))%N
      end
  end.

Definition utf8 (s : string) : pystr :=
  utf8_decode (map N_of_ascii (list_ascii_of_string s)) 0 0%N.

(** [str(n)] for an [int]. *)
Definition str_of_Z (z : Z) : pystr :=
  utf8 (NilZero.string_of_int (Z.to_int z)).

(** [s.startswith(p)] and [s.endswith(p)]. *)
Fixpoint startswith (s p : pystr) : bool :=
  match p, s with
  | [], _ => true
  | y :: p', x :: s' => char_eqb x y && startswith s' p'
  | _ :: _, [] => false
  end.

Definition endswith (s p : pystr) : bool := startswith (rev s) (rev p).

(** [sep.join(l)]. *)
Fixpoint join (sep : pystr) (l : list pystr) : pystr :=
  match l with
  | [] => []
  | [x] => x
  | x :: l' => x ++ sep ++ join sep l'
  end.

(** [a in b] for two strings, as a proposition. *)
Definition contains (msg part : pystr) : Prop :=
  exists pre post, msg = pre ++ part ++ post.

Definition ch (a : ascii) : char := N_of_ascii a.

End Text.
Export Text.

Arguments utf8 s : simpl never.
Arguments str_of_Z z : simpl never.

(** ** Runtime values, exceptions, results *)

(** What a Python variable of the interpreter can hold.  [bool] is kept
    apart from [int] because [type(x)] distinguishes them, although
    [isinstance(True, int)] holds. *)
Inductive value : Type :=
| VInt (z : Z)
| VFloat (f : float)
| VStr (s : pystr)
| VBool (b : bool)
| VNone.

Inductive pytype : Type := TInt | TFloat | TStr | TBool | TNoneType.

Definition type_of (v : value) : pytype :=
  match v with
  | VInt _ => TInt
  | VFloat _ => TFloat
  | VStr _ => TStr
  | VBool _ => TBool
  | VNone => TNoneType
  end.

Definition pytype_eqb (a b : pytype) : bool :=
  match a, b with
  | TInt, TInt | TFloat, TFloat | TStr, TStr | TBool, TBool
  | TNoneType, TNoneType => true
  | _, _ => false
  end.

(** [type(v).__name__] *)
Definition type_name (v : value) : pystr :=
  match v with
  | VInt _ => utf8 "int"
  | VFloat _ => utf8 "float"
  | VStr _ => utf8 "str"
  | VBool _ => utf8 "bool"
  | VNone => utf8 "NoneType"
  end.

(** The exception classes of the source; [HostError] stands for any other
    subclass of [Exception] raised by a builtin ([ValueError],
    [OverflowError]); only its [str()] is ever observed. *)
Inductive exn : Type :=
| LexerError (msg : pystr)
| ParserError (msg : pystr)
| RuntimeError (msg : pystr)
| HostError (msg : pystr).

(** [str(e)] *)
Definition exn_str (e : exn) : pystr :=
  match e with
  | LexerError m | ParserError m | RuntimeError m | HostError m => m
  end.

(** [isinstance(e, MyLangError)] *)
Definition is_MyLangError (e : exn) : bool :=
  match e with
  | HostError _ => false
  | _ => true
  end.

(** Outcome of a call: a value, a raised exception, or [Diverge] when the
    recursion budget of the model is used up. *)
Inductive outcome (A : Type) : Type :=
| Ok (a : A)
| Raise (e : exn)
| Diverge.
Arguments Raise {A} e.
Arguments Diverge {A}.

Definition bind {A B} (r : outcome A) (k : A -> outcome B) : outcome B :=
  match r with
  | Ok a => k a
  | Raise e => Raise e
  | Diverge => Diverge
  end.

Notation "x <- c ;; k" := (bind c (fun x => k))
  (at level 61, c at next level, right associativity).
Notation "' p <- c ;; k" := (bind c (fun x => let 'p := x in k))
  (at level 61, p pattern, c at next level, right associativity).

(** ** Host builtins

    The Unicode predicates of [str] and the [repr] of a float are builtins
    of the host language; the development is parametric in them. *)
Class Host : Type := {
  isspace : char -> bool;
  isdigit : char -> bool;
  isalpha : char -> bool;
  isalnum : char -> bool;
  (** [unicodedata.decimal(c)], which [int()] and [float()] accept *)
  decimal : char -> option Z;
  (** [repr(x)] of a float *)
  float_repr : float -> pystr;
  (** a letter is alphanumeric: [isalnum] is [isalpha] or one of the
      numeric classes *)
  isalpha_isalnum : forall c, isalpha c = true -> isalnum c = true
}.

(** ** Numbers of the host *)

Definition SF_of_Z (z : Z) : spec_float :=
  match z with
  | Z0 => S754_zero false
  | Zpos p => S754_finite false p 0
  | Zneg p => S754_finite true p 0
  end.

(** [float(n)] for an [int]: nearest binary64, [OverflowError] beyond. *)
Definition float_of_int (z : Z) : outcome float :=
  match binary_normalize prec emax z 0 false with
  | S754_infinity _ => Raise (HostError (utf8 "int too large to convert to float"))
  | sf => Ok (SF2Prim sf)
  end.

(** [a / b] for two [int]s, [b] not zero: the correctly rounded quotient,
    [OverflowError] when it is out of range. *)
Definition int_true_divide (a b : Z) : outcome float :=
  match SFdiv prec emax (SF_of_Z a) (SF_of_Z b) with
  | S754_infinity _ =>
      Raise (HostError (utf8 "integer division result too large for a float"))
  | sf => Ok (SF2Prim sf)
  end.

(** The digits of a literal as a number, most significant first. *)
Definition digits_value (ds : list Z) : Z :=
  fold_left (fun acc d => 10 * acc + d) ds 0.

Section HostNumbers.
Context {H : Host}.

Fixpoint decimals (s : pystr) : option (list Z) :=
  match s with
  | [] => Some []
  | c :: s' =>
      match decimal c, decimals s' with
      | Some d, Some ds => Some (d :: ds)
      | _, _ => None
      end
  end.

(** [int(s)] on a run of [isdigit] characters. *)
Definition int_of_str (s : pystr) : outcome Z :=
  match decimals s with
  | Some ds => Ok (digits_value ds)
  | None =>
      Raise (HostError (utf8 "invalid literal for int() with base 10: '"
                          ++ s ++ utf8 "'"))
  end.

(** [float(ip + "." + fp)]: the nearest binary64 to the decimal. *)
Definition float_of_str (ip fp : pystr) : outcome float :=
  match decimals ip, decimals fp with
  | Some di, Some df =>
      Ok (SF2Prim (SFdiv prec emax
                     (SF_of_Z (digits_value (di ++ df)))
                     (SF_of_Z (10 ^ Z.of_nat (List.length df)))))
  | _, _ =>
      Raise (HostError (utf8 "could not convert string to float: '"
                          ++ ip ++ utf8 "." ++ fp ++ utf8 "'"))
  end.

End HostNumbers.

(** ** Tokens *)

Inductive TokenType : Type :=
| PRINT | STRING | NUMBER | IDENTIFIER | SEMICOLON | LPAREN | RPAREN
| LBRACE | RBRACE | EOF | ASSIGN | IF | ELSE | WHILE | COMPARISON
| PLUS | MINUS | MULTIPLY | DIVIDE | IMPORT | TRY | CATCH.

(** The string each [TokenType] constant of the source holds; it is what
    error messages show. *)
Definition TokenType_str (t : TokenType) : pystr :=
  match t with
  | PRINT => utf8 "打印"
  | STRING => utf8 "字符串"
  | NUMBER => utf8 "数字"
  | IDENTIFIER => utf8 "标识符"
  | SEMICOLON => utf8 "分号"
  | LPAREN => utf8 "左括号"
  | RPAREN => utf8 "右括号"
  | LBRACE => utf8 "左大括号"
  | RBRACE => utf8 "右大括号"
  | EOF => utf8 "文件结束"
  | ASSIGN => utf8 "赋值"
  | IF => utf8 "如果"
  | ELSE => utf8 "否则"
  | WHILE => utf8 "循环"
  | COMPARISON => utf8 "比较"
  | PLUS => utf8 "加号"
  | MINUS => utf8 "减号"
  | MULTIPLY => utf8 "乘号"
  | DIVIDE => utf8 "除号"
  | IMPORT => utf8 "导入"
  | TRY => utf8 "尝试"
  | CATCH => utf8 "捕获"
  end.

Definition TokenType_eqb (a b : TokenType) : bool :=
  match a, b with
  | PRINT, PRINT | STRING, STRING | NUMBER, NUMBER
  | IDENTIFIER, IDENTIFIER | SEMICOLON, SEMICOLON | LPAREN, LPAREN
  | RPAREN, RPAREN | LBRACE, LBRACE | RBRACE, RBRACE | EOF, EOF
  | ASSIGN, ASSIGN | IF, IF | ELSE, ELSE | WHILE, WHILE
  | COMPARISON, COMPARISON | PLUS, PLUS | MINUS, MINUS
  | MULTIPLY, MULTIPLY | DIVIDE, DIVIDE | IMPORT, IMPORT | TRY, TRY
  | CATCH, CATCH => true
  | _, _ => false
  end.

Lemma TokenType_eqb_eq (a b : TokenType) : TokenType_eqb a b = true <-> a = b.
Proof. destruct a, b; simpl; split; congruence. Qed.

Record Token : Type := mkToken {
  tok_type : TokenType;
  tok_value : value;
  tok_line : Z;
  tok_column : Z
}.

(** The text a token carries; the tokens whose value the parser uses as a
    name or an operator always carry a [str]. *)
Definition text_of (v : value) : pystr :=
  match v with
  | VStr s => s
  | _ => []
  end.

(** ** Lexer *)

(** The lexer object.  [rest] is [text[pos:]], so that [current_char] is
    its head ([None] at the end of the text). *)
Record Lexer : Type := mkLexer {
  rest : pystr;
  filename : pystr;
  pos : Z;
  line : Z;
  column : Z
}.

(** [Lexer(text, filename)] *)
Definition Lexer_init (text filename : pystr) : Lexer :=
  mkLexer text filename 0 1 1.

Definition current_char (lx : Lexer) : option char := hd_error (rest lx).

Definition newline : char := 10%N.
Definition dquote : char := 34%N.

(** [current_char == a], false at the end of the text *)
Definition is_char (c : option char) (a : char) : bool :=
  match c with
  | Some x => char_eqb x a
  | None => false
  end.

(** [self.error(msg)] *)
Definition lexer_error {A} (lx : Lexer) (msg : pystr) : outcome A :=
  Raise (LexerError (filename lx ++ utf8 ":" ++ str_of_Z (line lx) ++ utf8 ":"
                       ++ str_of_Z (column lx) ++ utf8 ": " ++ msg)).

Definition advance (lx : Lexer) : Lexer :=
  let lc :=
    if is_char (current_char lx) newline
    then (line lx + 1, 1)
    else (line lx, column lx + 1) in
  mkLexer (tl (rest lx)) (filename lx) (pos lx + 1) (fst lc) (snd lc).

Section Lexer.
Context {H : Host}.

(** The loops of the lexer consume one character per round, so the number
    of characters left bounds their rounds; with no round left the text is
    at its end and the loop condition is false. *)
Fixpoint skip_whitespace_loop (n : nat) (lx : Lexer) : Lexer :=
  match n, current_char lx with
  | S n', Some c =>
      if isspace c then skip_whitespace_loop n' (advance lx) else lx
  | _, _ => lx
  end.

Definition skip_whitespace (lx : Lexer) : Lexer :=
  skip_whitespace_loop (List.length (rest lx)) lx.

Fixpoint skip_comment_loop (n : nat) (lx : Lexer) : Lexer :=
  match n, current_char lx with
  | S n', Some c =>
      if negb (char_eqb c newline) then skip_comment_loop n' (advance lx)
      else lx
  | _, _ => lx
  end.

Definition skip_comment (lx : Lexer) : Lexer :=
  let lx1 := skip_comment_loop (List.length (rest lx)) lx in
  if is_char (current_char lx1) newline then advance lx1 else lx1.

Definition show_char (c : option char) : pystr :=
  match c with
  | Some x => [x]
  | None => utf8 "None"
  end.

Fixpoint string_loop (n : nat) (result : pystr) (lx : Lexer)
  : outcome (pystr * Lexer) :=
  match n, current_char lx with
  | S n', Some c =>
      if negb (char_eqb c dquote) then
        if char_eqb c (ch "\") then
          let lx1 := advance lx in
          let e := current_char lx1 in
          r <- (if is_char e (ch "n") then Ok (result ++ [newline])
                else if is_char e (ch "t") then Ok (result ++ [9%N])
                else if is_char e dquote then Ok (result ++ [dquote])
                else if is_char e (ch "\") then Ok (result ++ [ch "\"])
                else lexer_error lx1 (utf8 "未知的转义序列: \" ++ show_char e)) ;;
          string_loop n' r (advance lx1)
        else string_loop n' (result ++ [c]) (advance lx)
      else Ok (result, lx)
  | _, _ => Ok (result, lx)
  end.

Definition string_ (lx : Lexer) : outcome (pystr * Lexer) :=
  let lx0 := advance lx in
  '(result, lx1) <- string_loop (List.length (rest lx0)) [] lx0 ;;
  if is_char (current_char lx1) dquote then Ok (result, advance lx1)
  else lexer_error lx1 (utf8 "未结束的字符串").

Fixpoint digits_loop (n : nat) (result : pystr) (lx : Lexer) : pystr * Lexer :=
  match n, current_char lx with
  | S n', Some c =>
      if isdigit c then digits_loop n' (result ++ [c]) (advance lx)
      else (result, lx)
  | _, _ => (result, lx)
  end.

Definition number (lx : Lexer) : outcome (value * Lexer) :=
  let '(ip, lx1) := digits_loop (List.length (rest lx)) [] lx in
  if is_char (current_char lx1) (ch ".") then
    let lx2 := advance lx1 in
    let '(fp, lx3) := digits_loop (List.length (rest lx2)) [] lx2 in
    f <- float_of_str ip fp ;;
    Ok (VFloat f, lx3)
  else
    z <- int_of_str ip ;;
    Ok (VInt z, lx1).

Fixpoint identifier_loop (n : nat) (result : pystr) (lx : Lexer)
  : pystr * Lexer :=
  match n, current_char lx with
  | S n', Some c =>
      if isalnum c || char_eqb c (ch "_")
      then identifier_loop n' (result ++ [c]) (advance lx)
      else (result, lx)
  | _, _ => (result, lx)
  end.

Definition keywords : list (pystr * TokenType) :=
  [ (utf8 "打印", PRINT); (utf8 "如果", IF); (utf8 "否则", ELSE);
    (utf8 "循环", WHILE); (utf8 "导入", IMPORT); (utf8 "尝试", TRY);
    (utf8 "捕获", CATCH) ].

Fixpoint keywords_get (d : list (pystr * TokenType)) (k : pystr)
  (default : TokenType) : TokenType :=
  match d with
  | [] => default
  | (k', t) :: d' => if str_eqb k k' then t else keywords_get d' k default
  end.

Definition identifier (lx : Lexer) : TokenType * pystr * Lexer :=
  let '(result, lx1) := identifier_loop (List.length (rest lx)) [] lx in
  (keywords_get keywords result IDENTIFIER, result, lx1).

(** A one-character token: built at the current position, then
    [advance]. *)
Definition single (t : TokenType) (s : string) (lx : Lexer)
  : outcome (Token * Lexer) :=
  Ok (mkToken t (VStr (utf8 s)) (line lx) (column lx), advance lx).

(** One pass of the [while] of [get_next_token] either returns or skips
    at least one character and goes round again.  The arguments of
    [Token(...)] are evaluated left to right: where a helper method is one
    of them, [self.line] and [self.column] are read after it has run. *)
Fixpoint get_next_token_loop (n : nat) (lx : Lexer) : outcome (Token * Lexer) :=
  match n, current_char lx with
  | S n', Some c =>
      if isspace c then get_next_token_loop n' (skip_whitespace lx)
      else if char_eqb c (ch "#") then get_next_token_loop n' (skip_comment lx)
      else if char_eqb c dquote then
        '(s, lx1) <- string_ lx ;;
        Ok (mkToken STRING (VStr s) (line lx1) (column lx1), lx1)
      else if isdigit c then
        '(v, lx1) <- number lx ;;
        Ok (mkToken NUMBER v (line lx1) (column lx1), lx1)
      else if isalpha c || char_eqb c (ch "_") then
        let '(token_type, v, lx1) := identifier lx in
        Ok (mkToken token_type (VStr v) (line lx1) (column lx1), lx1)
      else if char_eqb c (ch ";") then single SEMICOLON ";" lx
      else if char_eqb c (ch "(") then single LPAREN "(" lx
      else if char_eqb c (ch ")") then single RPAREN ")" lx
      else if char_eqb c (ch "{") then single LBRACE "{" lx
      else if char_eqb c (ch "}") then single RBRACE "}" lx
      else if char_eqb c (ch "+") then single PLUS "+" lx
      else if char_eqb c (ch "-") then single MINUS "-" lx
      else if char_eqb c (ch "*") then single MULTIPLY "*" lx
      else if char_eqb c (ch "/") then single DIVIDE "/" lx
      else if char_eqb c (ch "=") then
        let start_line := line lx in
        let start_column := column lx in
        let lx1 := advance lx in
        if is_char (current_char lx1) (ch "=") then
          Ok (mkToken COMPARISON (VStr (utf8 "==")) start_line start_column,
              advance lx1)
        else Ok (mkToken ASSIGN (VStr (utf8 "=")) start_line start_column, lx1)
      else if char_eqb c (ch "<") || char_eqb c (ch ">") || char_eqb c (ch "!")
      then
        let start_line := line lx in
        let start_column := column lx in
        let op := [c] in
        let lx1 := advance lx in
        if is_char (current_char lx1) (ch "=") then
          Ok (mkToken COMPARISON (VStr (op ++ [ch "="])) start_line
                start_column, advance lx1)
        else Ok (mkToken COMPARISON (VStr op) start_line start_column, lx1)
      else lexer_error lx (utf8 "无法识别的字符: '" ++ [c] ++ utf8 "'")
  | _, _ => Ok (mkToken EOF VNone (line lx) (column lx), lx)
  end.

Definition get_next_token (lx : Lexer) : outcome (Token * Lexer) :=
  get_next_token_loop (List.length (rest lx)) lx.

End Lexer.

(** ** AST *)

(** The node classes.  A block is a Python list of nodes; [false_block] is
    [None] or a list.  The class [Variable] is [Variable_] here, its name
    being a keyword of Rocq. *)
#[warnings="-register-all"]
Inductive AST : Type :=
| Print (expr : AST)
| Assign (var : pystr) (expr : AST)
| Variable_ (name : pystr)
| Number (v : value)
| String (v : value)
| If (condition : AST) (true_block : list AST)
     (false_block : option (list AST))
| While (condition : AST) (block : list AST)
| Comparison (left : AST) (op : pystr) (right : AST)
| BinOp (left : AST) (op : pystr) (right : AST)
| Import (module_name : pystr)
| TryCatch (try_block catch_block : list AST) (error_var : pystr).

(** ** Parser *)

Record Parser : Type := mkParser {
  lexer : Lexer;
  current_token : Token
}.

Definition parsing := outcome (AST * Parser).

(** [self.error(msg)] with the current token *)
Definition parser_error {A} (p : Parser) (msg : pystr) : outcome A :=
  let token := current_token p in
  Raise (ParserError (filename (lexer p) ++ utf8 ":"
                        ++ str_of_Z (tok_line token) ++ utf8 ":"
                        ++ str_of_Z (tok_column token) ++ utf8 ": " ++ msg)).

Definition type_in (t : TokenType) (l : list TokenType) : bool :=
  existsb (TokenType_eqb t) l.

Section Parser.
Context {H : Host}.

(** [Parser(lexer)] *)
Definition Parser_init (lx : Lexer) : outcome Parser :=
  '(tok, lx1) <- get_next_token lx ;;
  Ok (mkParser lx1 tok).

Definition eat (p : Parser) (token_type : TokenType) : outcome Parser :=
  if TokenType_eqb (tok_type (current_token p)) token_type then
    '(tok, lx1) <- get_next_token (lexer p) ;;
    Ok (mkParser lx1 tok)
  else
    parser_error p (utf8 "期望 " ++ TokenType_str token_type ++ utf8 ", 得到 "
                      ++ TokenType_str (tok_type (current_token p))).

(** The grammar functions call each other recursively; each takes the
    functions it calls as arguments, and the recursion is tied below with
    a budget of nested calls and loop rounds. *)
Definition factor (expr : Parser -> parsing) (p : Parser) : parsing :=
  let token := current_token p in
  match tok_type token with
  | NUMBER =>
      p1 <- eat p NUMBER ;;
      Ok (Number (tok_value token), p1)
  | STRING =>
      p1 <- eat p STRING ;;
      Ok (String (tok_value token), p1)
  | IDENTIFIER =>
      p1 <- eat p IDENTIFIER ;;
      Ok (Variable_ (text_of (tok_value token)), p1)
  | LPAREN =>
      p1 <- eat p LPAREN ;;
      '(node, p2) <- expr p1 ;;
      p3 <- eat p2 RPAREN ;;
      Ok (node, p3)
  | t => parser_error p (utf8 "意外的标记: " ++ TokenType_str t)
  end.

(** The [while] of [term] and of [expr]: [ops] are the operator tokens,
    [operand] parses the right operand. *)
Fixpoint binop_loop (ops : list TokenType) (operand : Parser -> parsing)
  (n : nat) (node : AST) (p : Parser) : parsing :=
  if type_in (tok_type (current_token p)) ops then
    match n with
    | O => Diverge
    | S n' =>
        let token := current_token p in
        p1 <- eat p (tok_type token) ;;
        '(r, p2) <- operand p1 ;;
        binop_loop ops operand n' (BinOp node (text_of (tok_value token)) r) p2
    end
  else Ok (node, p).

Definition term (expr : Parser -> parsing) (n : nat) (p : Parser) : parsing :=
  '(node, p1) <- factor expr p ;;
  binop_loop [MULTIPLY; DIVIDE] (factor expr) n node p1.

Fixpoint expr (n : nat) (p : Parser) : parsing :=
  match n with
  | O => Diverge
  | S n' =>
      '(node, p1) <- term (expr n') n' p ;;
      binop_loop [PLUS; MINUS] (term (expr n') n') n' node p1
  end.

Definition comparison (n : nat) (p : Parser) : parsing :=
  '(node, p1) <- expr n p ;;
  if TokenType_eqb (tok_type (current_token p1)) COMPARISON then
    let token := current_token p1 in
    p2 <- eat p1 COMPARISON ;;
    '(r, p3) <- expr n p2 ;;
    Ok (Comparison node (text_of (tok_value token)) r, p3)
  else Ok (node, p1).

(** The [while] of [block] and of [parse]: statements until one of the
    [stop] tokens. *)
Fixpoint statements_loop (stop : list TokenType) (statement : Parser -> parsing)
  (n : nat) (statements : list AST) (p : Parser)
  : outcome (list AST * Parser) :=
  if negb (type_in (tok_type (current_token p)) stop) then
    match n with
    | O => Diverge
    | S n' =>
        '(s, p1) <- statement p ;;
        statements_loop stop statement n' (statements ++ [s]) p1
    end
  else Ok (statements, p).

Definition block (statement : Parser -> parsing) (n : nat) (p : Parser)
  : outcome (list AST * Parser) :=
  statements_loop [RBRACE; EOF] statement n [] p.

Fixpoint statement (n : nat) (p : Parser) : parsing :=
  match n with
  | O => Diverge
  | S n' =>
      let token := current_token p in
      match tok_type token with
      | PRINT =>
          p1 <- eat p PRINT ;;
          p2 <- eat p1 LPAREN ;;
          '(e, p3) <- expr n' p2 ;;
          p4 <- eat p3 RPAREN ;;
          p5 <- eat p4 SEMICOLON ;;
          Ok (Print e, p5)
      | IDENTIFIER =>
          let var_name := text_of (tok_value token) in
          p1 <- eat p IDENTIFIER ;;
          p2 <- eat p1 ASSIGN ;;
          '(e, p3) <- expr n' p2 ;;
          p4 <- eat p3 SEMICOLON ;;
          Ok (Assign var_name e, p4)
      | IF =>
          p1 <- eat p IF ;;
          p2 <- eat p1 LPAREN ;;
          '(condition, p3) <- comparison n' p2 ;;
          p4 <- eat p3 RPAREN ;;
          p5 <- eat p4 LBRACE ;;
          '(true_block, p6) <- block (statement n') n' p5 ;;
          p7 <- eat p6 RBRACE ;;
          if TokenType_eqb (tok_type (current_token p7)) ELSE then
            p8 <- eat p7 ELSE ;;
            p9 <- eat p8 LBRACE ;;
            '(false_block, p10) <- block (statement n') n' p9 ;;
            p11 <- eat p10 RBRACE ;;
            Ok (If condition true_block (Some false_block), p11)
          else Ok (If condition true_block None, p7)
      | WHILE =>
          p1 <- eat p WHILE ;;
          p2 <- eat p1 LPAREN ;;
          '(condition, p3) <- comparison n' p2 ;;
          p4 <- eat p3 RPAREN ;;
          p5 <- eat p4 LBRACE ;;
          '(body, p6) <- block (statement n') n' p5 ;;
          p7 <- eat p6 RBRACE ;;
          Ok (While condition body, p7)
      | IMPORT =>
          p1 <- eat p IMPORT ;;
          if negb (TokenType_eqb (tok_type (current_token p1)) STRING) then
            parser_error p1 (utf8 "期望字符串作为模块名")
          else
            let module_name := text_of (tok_value (current_token p1)) in
            p2 <- eat p1 STRING ;;
            p3 <- eat p2 SEMICOLON ;;
            Ok (Import module_name, p3)
      | TRY =>
          p1 <- eat p TRY ;;
          p2 <- eat p1 LBRACE ;;
          '(try_block, p3) <- block (statement n') n' p2 ;;
          p4 <- eat p3 RBRACE ;;
          p5 <- eat p4 CATCH ;;
          '(error_var, p6) <-
            (if TokenType_eqb (tok_type (current_token p5)) LPAREN then
               q1 <- eat p5 LPAREN ;;
               '(ev, q2) <-
                 (if TokenType_eqb (tok_type (current_token q1)) IDENTIFIER
                  then
                    q <- eat q1 IDENTIFIER ;;
                    Ok (text_of (tok_value (current_token q1)), q)
                  else Ok (utf8 "_error", q1)) ;;
               q3 <- eat q2 RPAREN ;;
               Ok (ev, q3)
             else Ok (utf8 "_error", p5)) ;;
          p7 <- eat p6 LBRACE ;;
          '(catch_block, p8) <- block (statement n') n' p7 ;;
          p9 <- eat p8 RBRACE ;;
          Ok (TryCatch try_block catch_block error_var, p9)
      | t => parser_error p (utf8 "意外的语句: " ++ TokenType_str t)
      end
  end.

Definition parse (n : nat) (p : Parser) : outcome (list AST) :=
  '(statements, _) <- statements_loop [EOF] (statement n) n [] p ;;
  Ok statements.

(** The front end as [visit_Import] and [main] run it: [Lexer(text,
    filename)], [Parser(lexer)], [parser.parse()].  Every loop round and
    every nested call of the parser consumes a token, so the length of
    the text bounds them. *)
Definition parse_text (text filename : pystr) : outcome (list AST) :=
  p <- Parser_init (Lexer_init text filename) ;;
  parse (S (List.length text)) p.

End Parser.

(** ** Interpreter state *)

(** A Python [dict] with text keys: insertion-ordered, a key set again
    keeps its place. *)
Definition dict := list (pystr * value).

Fixpoint dict_get (d : dict) (k : pystr) : option value :=
  match d with
  | [] => None
  | (k', v) :: d' => if str_eqb k k' then Some v else dict_get d' k
  end.

Fixpoint dict_set (d : dict) (k : pystr) (v : value) : dict :=
  match d with
  | [] => [(k, v)]
  | (k', v') :: d' =>
      if str_eqb k k' then (k', v) :: d' else (k', v') :: dict_set d' k v
  end.

Definition dict_keys (d : dict) : list pystr := map fst d.

(** A Python [set] of texts. *)
Definition pyset := list pystr.

Definition set_in (k : pystr) (s : pyset) : bool := existsb (str_eqb k) s.

Definition set_add (k : pystr) (s : pyset) : pyset :=
  if set_in k s then s else s ++ [k].

(** The fields of an [Interpreter] object, together with the two effects
    on the outside world that the evaluator has: the lines printed, and
    the files opened for reading (in order, one entry per [open]). *)
Record State : Type := mkState {
  variables : dict;
  imported_modules : pyset;
  stdout : list pystr;
  opened : list pystr
}.

(** [Interpreter()] in a world with nothing printed or opened yet. *)
Definition Interpreter_init : State := mkState [] [] [] [].

Definition set_variables (st : State) (d : dict) : State :=
  mkState d (imported_modules st) (stdout st) (opened st).

(** The file system the evaluator reads; it never writes to it.  A call
    that raises gives the [str()] of the exception on the right. *)
Class FileSystem : Type := {
  (** [os.path.exists(path)] *)
  path_exists : pystr -> bool;
  (** [os.listdir(path)] *)
  listdir : pystr -> list pystr + pystr;
  (** [os.path.expanduser("~")] *)
  home : pystr;
  (** [open(path, 'r', encoding='utf-8')] followed by [read()] *)
  read_text : pystr -> pystr + pystr
}.

(** [os.path.join(a, b)] on POSIX *)
Definition path_join (a b : pystr) : pystr :=
  if startswith b (utf8 "/") then b
  else if match a with [] => true | _ => endswith a (utf8 "/") end then a ++ b
  else a ++ utf8 "/" ++ b.

(** ** Operators on values *)

(** [str(v)] *)
Definition py_str {H : Host} (v : value) : pystr :=
  match v with
  | VInt z => str_of_Z z
  | VFloat f => float_repr f
  | VStr s => s
  | VBool true => utf8 "True"
  | VBool false => utf8 "False"
  | VNone => utf8 "None"
  end.

(** [bool(v)], the truth value a [while] or [if] tests *)
Definition truthy (v : value) : bool :=
  match v with
  | VInt z => negb (z =? 0)
  | VFloat f => negb (PrimFloat.eqb f 0%float)
  | VStr s => match s with [] => false | _ => true end
  | VBool b => b
  | VNone => false
  end.

(** [isinstance(v, bool)] *)
Definition is_bool (v : value) : bool :=
  match v with VBool _ => true | _ => false end.

(** [isinstance(v, str)] *)
Definition is_str (v : value) : bool :=
  match v with VStr _ => true | _ => false end.

(** [isinstance(v, int)]: [bool] is a subclass of [int] *)
Definition is_int (v : value) : bool :=
  match v with VInt _ | VBool _ => true | _ => false end.

(** [isinstance(v, (int, float))] *)
Definition is_int_or_float (v : value) : bool :=
  match v with VInt _ | VBool _ | VFloat _ => true | _ => false end.

(** A number as arithmetic sees it: [True] is 1 and [False] is 0. *)
Inductive num : Type := NInt (z : Z) | NFloat (f : float).

Definition as_num (v : value) : option num :=
  match v with
  | VInt z => Some (NInt z)
  | VBool b => Some (NInt (if b then 1 else 0))
  | VFloat f => Some (NFloat f)
  | _ => None
  end.

Definition int_val (v : value) : Z :=
  match v with
  | VInt z => z
  | VBool true => 1
  | _ => 0
  end.

(** [a + b], [a - b], [a * b] on numbers: exact on two [int]s, binary64
    otherwise, an [int] operand converted first. *)
Definition arith (iop : Z -> Z -> Z) (fop : float -> float -> float)
  (a b : num) : outcome value :=
  match a, b with
  | NInt x, NInt y => Ok (VInt (iop x y))
  | NFloat x, NFloat y => Ok (VFloat (fop x y))
  | NInt x, NFloat y => fx <- float_of_int x ;; Ok (VFloat (fop fx y))
  | NFloat x, NInt y => fy <- float_of_int y ;; Ok (VFloat (fop x fy))
  end.

(** [b == 0] *)
Definition num_is_zero (b : num) : bool :=
  match b with
  | NInt y => y =? 0
  | NFloat y => PrimFloat.eqb y 0%float
  end.

(** [a / b], [b] not zero *)
Definition true_divide (a b : num) : outcome value :=
  f <- match a, b with
       | NInt x, NInt y => int_true_divide x y
       | NFloat x, NFloat y => Ok (PrimFloat.div x y)
       | NInt x, NFloat y => fx <- float_of_int x ;; Ok (PrimFloat.div fx y)
       | NFloat x, NInt y => fy <- float_of_int y ;; Ok (PrimFloat.div x fy)
       end ;;
  Ok (VFloat f).

Definition maxsize : Z := 2 ^ 63 - 1.

(** [s * n] for a [str] and an [int] *)
Definition str_repeat (s : pystr) (n : Z) : outcome value :=
  if (n >? maxsize) || (n <? - maxsize - 1) then
    Raise (HostError (utf8 "cannot fit 'int' into an index-sized integer"))
  else if Z.of_nat (List.length s) * n >? maxsize then
    Raise (HostError (utf8 "repeated string is too long"))
  else Ok (VStr (concat (repeat s (Z.to_nat n)))).

(** [a == b] for two values of one type *)
Definition py_eq (a b : value) : bool :=
  match a, b with
  | VInt x, VInt y => x =? y
  | VFloat x, VFloat y => PrimFloat.eqb x y
  | VStr x, VStr y => str_eqb x y
  | VBool x, VBool y => Bool.eqb x y
  | VNone, VNone => true
  | _, _ => false
  end.

(** [a < b] and [a <= b] for two numbers of one type *)
Definition py_lt (a b : value) : bool :=
  match a, b with
  | VFloat x, VFloat y => PrimFloat.ltb x y
  | _, _ => int_val a <? int_val b
  end.

Definition py_le (a b : value) : bool :=
  match a, b with
  | VFloat x, VFloat y => PrimFloat.leb x y
  | _, _ => int_val a <=? int_val b
  end.

Definition max_iterations : Z := 10000.

Definition loop_limit_message : pystr := utf8 "循环次数过多，可能陷入无限循环".

(** ** Interpreter *)

Definition effect := (outcome value * State)%type.

Definition raise_RuntimeError (msg : pystr) (st : State) : effect :=
  (Raise (RuntimeError msg), st).

(** The [try]/[except] of [visit]: a [RuntimeError] passes, any other
    exception becomes one. *)
Definition visit_guard (r : effect) : effect :=
  match r with
  | (Raise (RuntimeError m), st) => (Raise (RuntimeError m), st)
  | (Raise e, st) =>
      (Raise (RuntimeError (utf8 "运行时错误: " ++ exn_str e)), st)
  | _ => r
  end.

Section Statements.
Variable visit : AST -> State -> effect.

(** [for stmt in block: self.visit(stmt)] *)
Fixpoint for_each (stmts : list AST) (st : State) : effect :=
  match stmts with
  | [] => (Ok VNone, st)
  | stmt :: stmts' =>
      match visit stmt st with
      | (Ok _, st1) => for_each stmts' st1
      | r => r
      end
  end.

End Statements.

Section WhileLoop.
Variable condition : State -> effect.
Variable body : State -> effect.

(** The [while] of [visit_While], [iterations] rounds done.  The guard
    raises once [iterations] passes [max_iterations], so [budget] rounds
    more are enough when [budget + iterations >= max_iterations]. *)
Fixpoint while_loop (budget : nat) (iterations : Z) (st : State) : effect :=
  match condition st with
  | (Ok c, st1) =>
      if truthy c then
        match body st1 with
        | (Ok _, st2) =>
            let iterations := iterations + 1 in
            if iterations >? max_iterations then
              raise_RuntimeError loop_limit_message st2
            else
              match budget with
              | O => (Diverge, st2)
              | S budget' => while_loop budget' iterations st2
              end
        | r => r
        end
      else (Ok VNone, st1)
  | r => r
  end.

End WhileLoop.

Section Interpreter.
Context {H : Host} {F : FileSystem}.

Definition find_module (module_name : pystr) : option pystr + pystr :=
  if path_exists (module_name ++ utf8 ".mylang") then
    inl (Some (module_name ++ utf8 ".mylang"))
  else
    let package_dir :=
      path_join (path_join home (utf8 ".mylang")) (utf8 "packages") in
    if path_exists (path_join package_dir (module_name ++ utf8 ".mylang")) then
      inl (Some (path_join package_dir (module_name ++ utf8 ".mylang")))
    else if path_exists package_dir then
      match listdir package_dir with
      | inl names =>
          inl (option_map (path_join package_dir)
                 (find (fun filename =>
                          startswith filename (module_name ++ utf8 "-")
                          && endswith filename (utf8 ".mylang")) names))
      | inr msg => inr msg
      end
    else inl None.

Definition visit_Variable (name : pystr) (st : State) : effect :=
  match dict_get (variables st) name with
  | Some v => (Ok v, st)
  | None =>
      let available_vars := join (utf8 ", ") (dict_keys (variables st)) in
      raise_RuntimeError
        (utf8 "未定义的变量: '" ++ name ++ utf8 "'。可用的变量: ["
           ++ available_vars ++ utf8 "]") st
  end.

(** [visit_Comparison] once both operands are evaluated *)
Definition compare_values (op : pystr) (left right : value) : outcome value :=
  if negb (pytype_eqb (type_of left) (type_of right)) then
    Raise (RuntimeError (utf8 "比较运算类型不匹配: " ++ type_name left
                           ++ utf8 " 和 " ++ type_name right))
  else
    let unsupported :=
      Raise (RuntimeError (utf8 "不支持的类型比较: " ++ type_name left
                             ++ utf8 " " ++ op ++ utf8 " "
                             ++ type_name right)) in
    let numeric := is_int_or_float left && is_int_or_float right in
    if str_eqb op (utf8 "==") then Ok (VBool (py_eq left right))
    else if str_eqb op (utf8 "!=") then Ok (VBool (negb (py_eq left right)))
    else if str_eqb op (utf8 "<") then
      if numeric then Ok (VBool (py_lt left right)) else unsupported
    else if str_eqb op (utf8 "<=") then
      if numeric then Ok (VBool (py_le left right)) else unsupported
    else if str_eqb op (utf8 ">") then
      if numeric then Ok (VBool (py_lt right left)) else unsupported
    else if str_eqb op (utf8 ">=") then
      if numeric then Ok (VBool (py_le right left)) else unsupported
    else Raise (RuntimeError (utf8 "未知的比较运算符: " ++ op)).

(** [visit_BinOp] once both operands are evaluated *)
Definition binop_values (op : pystr) (left right : value) : outcome value :=
  let unsupported (what : pystr) :=
    Raise (RuntimeError (what ++ type_name left ++ utf8 " " ++ op
                           ++ utf8 " " ++ type_name right)) in
  if str_eqb op (utf8 "+") then
    if is_str left || is_str right then
      Ok (VStr (py_str left ++ py_str right))
    else
      match as_num left, as_num right with
      | Some a, Some b => arith Z.add PrimFloat.add a b
      | _, _ => unsupported (utf8 "不支持的类型相加: ")
      end
  else if str_eqb op (utf8 "-") then
    match as_num left, as_num right with
    | Some a, Some b => arith Z.sub PrimFloat.sub a b
    | _, _ => unsupported (utf8 "不支持的类型相减: ")
    end
  else if str_eqb op (utf8 "*") then
    if is_str left && is_int right then
      str_repeat (text_of left) (int_val right)
    else if is_int left && is_str right then
      str_repeat (text_of right) (int_val left)
    else
      match as_num left, as_num right with
      | Some a, Some b => arith Z.mul PrimFloat.mul a b
      | _, _ => unsupported (utf8 "不支持的类型相乘: ")
      end
  else if str_eqb op (utf8 "/") then
    match as_num left, as_num right with
    | Some a, Some b =>
        if num_is_zero b then Raise (RuntimeError (utf8 "除以零错误"))
        else true_divide a b
    | _, _ => unsupported (utf8 "不支持的类型相除: ")
    end
  else Raise (RuntimeError (utf8 "未知的运算符: " ++ op)).

(** [module_interpreter.interpret(ast)], the recursive call of
    [visit_Import] on the statements of another file. *)
Variable interpret_module : list AST -> State -> effect.

Definition visit_Import (module_name : pystr) (st : State) : effect :=
  if set_in module_name (imported_modules st) then (Ok VNone, st)
  else
    let st1 := mkState (variables st)
                 (set_add module_name (imported_modules st))
                 (stdout st) (opened st) in
    match find_module module_name with
    | inr msg => (Raise (HostError msg), st1)
    | inl None | inl (Some []) =>
        raise_RuntimeError (utf8 "找不到模块: " ++ module_name) st1
    | inl (Some module_path) =>
        let st2 := mkState (variables st1) (imported_modules st1)
                     (stdout st1) (opened st1 ++ [module_path]) in
        match read_text module_path with
        | inr msg =>
            raise_RuntimeError
              (utf8 "无法读取模块文件 '" ++ module_path ++ utf8 "': " ++ msg)
              st2
        | inl module_code =>
            (* a new interpreter: the same dict, its own empty set *)
            let module_interpreter :=
              mkState (variables st2) [] (stdout st2) (opened st2) in
            let '(r, m) :=
              match parse_text module_code module_path with
              | Ok ast => interpret_module ast module_interpreter
              | Raise e => (Raise e, module_interpreter)
              | Diverge => (Diverge, module_interpreter)
              end in
            let st3 := mkState (variables m) (imported_modules st2)
                         (stdout m) (opened m) in
            match r with
            | Ok _ => (Ok VNone, st3)
            | Raise e =>
                if is_MyLangError e then
                  raise_RuntimeError
                    (utf8 "导入模块 '" ++ module_name ++ utf8 "' 时出错: "
                       ++ exn_str e) st3
                else (Raise e, st3)
            | Diverge => (Diverge, st3)
            end
        end
    end.

Fixpoint visit (node : AST) (st : State) {struct node} : effect :=
  visit_guard
    match node with
    | Number v => (Ok v, st)
    | String v => (Ok v, st)
    | Variable_ name => visit_Variable name st
    | Assign var e =>
        match visit e st with
        | (Ok v, st1) => (Ok v, set_variables st1 (dict_set (variables st1) var v))
        | r => r
        end
    | Print e =>
        match visit e st with
        | (Ok v, st1) =>
            (Ok v, mkState (variables st1) (imported_modules st1)
                     (stdout st1 ++ [py_str v]) (opened st1))
        | r => r
        end
    | Comparison l op r =>
        match visit l st with
        | (Ok vl, st1) =>
            match visit r st1 with
            | (Ok vr, st2) => (compare_values op vl vr, st2)
            | e => e
            end
        | e => e
        end
    | BinOp l op r =>
        match visit l st with
        | (Ok vl, st1) =>
            match visit r st1 with
            | (Ok vr, st2) => (binop_values op vl vr, st2)
            | e => e
            end
        | e => e
        end
    | If c true_block false_block =>
        match visit c st with
        | (Ok condition, st1) =>
            if negb (is_bool condition) then
              raise_RuntimeError
                (utf8 "条件表达式必须为布尔值，得到: " ++ type_name condition)
                st1
            else if truthy condition then for_each visit true_block st1
            else
              match false_block with
              | Some ((_ :: _) as stmts) => for_each visit stmts st1
              | _ => (Ok VNone, st1)
              end
        | r => r
        end
    | While c body =>
        while_loop (visit c) (for_each visit body)
          (Z.to_nat max_iterations) 0 st
    | Import module_name => visit_Import module_name st
    | TryCatch try_block catch_block error_var =>
        match for_each visit try_block st with
        | (Raise e, st1) =>
            for_each visit catch_block
              (set_variables st1
                 (dict_set (variables st1) error_var (VStr (exn_str e))))
        | r => r
        end
    end.

Definition interpret_with (ast : list AST) (st : State) : effect :=
  for_each visit ast st.

End Interpreter.

Section Modules.
Context {H : Host} {F : FileSystem}.

(** [interpret], with [depth] nested module interpreters available below
    this one. *)
Fixpoint interpret (depth : nat) (ast : list AST) (st : State) : effect :=
  interpret_with
    (match depth with
     | O => fun _ st' => (Diverge, st')
     | S depth' => interpret depth'
     end) ast st.

End Modules.

(** ** A concrete host

    [repr] of a float is the shortest decimal that reads back as the same
    binary64, the nearest one among the shortest; the character classes
    are those of CPython on ASCII, on the other white space of Unicode and
    on the CJK unified ideographs (the script of the keywords). *)

Module Repr.

(** The decimal ([num], [j]) stands for [num * 10^(-j)]; read it as a
    binary64, rounding to nearest even. *)
Definition read (num j : Z) : spec_float :=
  if j >=? 0 then SFdiv prec emax (SF_of_Z num) (SF_of_Z (10 ^ j))
  else SFdiv prec emax (SF_of_Z (num * 10 ^ (- j))) (SF_of_Z 1).

(** [x * 10^j] for the positive [x = n / d], as a fraction *)
Definition scaled (n d j : Z) : Z * Z :=
  if j >=? 0 then (n * 10 ^ j, d) else (n, d * 10 ^ (- j)).

(** The least [k] from [k0] on with [n / d < 10^k]. *)
Fixpoint decpt_from (rounds : nat) (k0 n d : Z) : Z :=
  match rounds with
  | O => k0
  | S r =>
      let '(n', d') := scaled n d (- k0) in
      if n' <? d' then k0 else decpt_from r (k0 + 1) n d
  end.

(** The shortest digits from [nd] digits on: the integer [D] and the [j]
    with [D * 10^(-j)] reading back as [x = n / d]. *)
Fixpoint shortest (rounds : nat) (nd k n d : Z) (x : spec_float) : Z * Z :=
  let j := nd - k in
  let '(n', d') := scaled n d j in
  let lo := n' / d' in
  let r := n' - lo * d' in
  let hi := lo + 1 in
  let ok_lo := SFeqb (read lo j) x in
  let ok_hi := SFeqb (read hi j) x in
  let nearer_lo := (2 * r <? d') || ((2 * r =? d') && Z.even lo) in
  match rounds with
  | O => (lo, j)
  | S rounds' =>
      if ok_lo && (negb ok_hi || nearer_lo) then (lo, j)
      else if ok_hi then (hi, j)
      else shortest rounds' (nd + 1) k n d x
  end.

Fixpoint strip_zeros (fuel : nat) (D j : Z) : Z * Z :=
  match fuel with
  | O => (D, j)
  | S f => if (D mod 10 =? 0) && negb (D =? 0) then strip_zeros f (D / 10) (j - 1)
           else (D, j)
  end.

Definition zeros (n : Z) : pystr := repeat (ch "0") (Z.to_nat n).

(** The text of the digits [ds] with the decimal point after the first
    [decpt] of them, as [repr] lays it out. *)
Definition layout (ds : pystr) (decpt : Z) : pystr :=
  let len := Z.of_nat (List.length ds) in
  if (decpt <=? -4) || (decpt >? 16) then
    let e := decpt - 1 in
    let mant := match ds with
                | [] => []
                | [c] => [c]
                | c :: tl => c :: ch "." :: tl
                end in
    let ee := str_of_Z (Z.abs e) in
    mant ++ utf8 "e" ++ (if e <? 0 then utf8 "-" else utf8 "+")
      ++ (if Z.abs e <? 10 then utf8 "0" else []) ++ ee
  else if decpt <=? 0 then utf8 "0." ++ zeros (- decpt) ++ ds
  else if decpt >=? len then ds ++ zeros (decpt - len) ++ utf8 ".0"
  else firstn (Z.to_nat decpt) ds ++ utf8 "." ++ skipn (Z.to_nat decpt) ds.

Definition float_repr (f : float) : pystr :=
  match Prim2SF f with
  | S754_nan => utf8 "nan"
  | S754_infinity s => if s then utf8 "-inf" else utf8 "inf"
  | S754_zero s => if s then utf8 "-0.0" else utf8 "0.0"
  | S754_finite s m e =>
      let n := if e >=? 0 then Zpos m * 2 ^ e else Zpos m in
      let d := if e >=? 0 then 1 else 2 ^ (- e) in
      let k := decpt_from 700 (-330) n d in
      let '(D0, j0) := shortest 17 1 k n d (S754_finite false m e) in
      let '(D, j) := strip_zeros 20 D0 j0 in
      let ds := str_of_Z D in
      (if s then utf8 "-" else [])
        ++ layout ds (Z.of_nat (List.length ds) - j)
  end.

End Repr.

Definition in_range (c lo hi : N) : bool := ((lo <=? c) && (c <=? hi))%N.

Definition ascii_digit (c : char) : bool := in_range c 48 57.

Definition cjk_or_ascii_letter (c : char) : bool :=
  in_range c 65 90 || in_range c 97 122 || in_range c 19968 40959.

Definition unicode_space (c : char) : bool :=
  in_range c 9 13 || in_range c 28 32 || (c =? 133)%N || (c =? 160)%N
  || (c =? 5760)%N || in_range c 8192 8202 || (c =? 8232)%N
  || (c =? 8233)%N || (c =? 8239)%N || (c =? 8287)%N || (c =? 12288)%N.

#[export] Instance CPython : Host := {|
  isspace := unicode_space;
  isdigit := ascii_digit;
  isalpha := cjk_or_ascii_letter;
  isalnum := fun c => cjk_or_ascii_letter c || ascii_digit c;
  decimal := fun c => if ascii_digit c then Some (Z.of_N c - 48) else None;
  float_repr := Repr.float_repr;
  isalpha_isalnum := fun c Hc => orb_true_intro _ _ (or_introl Hc)
|}.

(** A file system holding the given files in the current directory, and
    no package directory. *)
Definition files_get (files : list (pystr * pystr)) (path : pystr)
  : option pystr :=
  option_map snd (find (fun kv => str_eqb path (fst kv)) files).

Definition Files (files : list (pystr * pystr)) : FileSystem := {|
  path_exists := fun p => match files_get files p with
                          | Some _ => true
                          | None => false
                          end;
  listdir := fun p =>
    inr (utf8 "[Errno 2] No such file or directory: '" ++ p ++ utf8 "'");
  home := utf8 "/home/user";
  read_text := fun p =>
    match files_get files p with
    | Some text => inl text
    | None =>
        inr (utf8 "[Errno 2] No such file or directory: '" ++ p ++ utf8 "'")
    end
|}.

(** [main] on the text of a file: the front end, then a new interpreter. *)
Definition run {H : Host} {F : FileSystem} (depth : nat) (text : pystr)
  : effect :=
  match parse_text text (utf8 "<stdin>") with
  | Ok ast => interpret depth ast Interpreter_init
  | Raise e => (Raise e, Interpreter_init)
  | Diverge => (Diverge, Interpreter_init)
  end.

(** * Properties *)

Arguments compare_values op left right : simpl never.
Arguments binop_values {H} op left right : simpl never.
Arguments visit_Variable name st : simpl never.
Arguments visit_Import {H F} interpret_module module_name st : simpl never.
Arguments parse_text {H} text filename : simpl never.
Arguments max_iterations : simpl never.

(** ** Induction on nodes, through their blocks *)

Section AST_induction.
Variable P : AST -> Prop.
Hypothesis HPrint : forall e, P e -> P (Print e).
Hypothesis HAssign : forall x e, P e -> P (Assign x e).
Hypothesis HVariable : forall x, P (Variable_ x).
Hypothesis HNumber : forall v, P (Number v).
Hypothesis HString : forall v, P (String v).
Hypothesis HIf : forall c t f,
  P c -> Forall P t -> (forall l, f = Some l -> Forall P l) -> P (If c t f).
Hypothesis HWhile : forall c b, P c -> Forall P b -> P (While c b).
Hypothesis HComparison : forall l op r, P l -> P r -> P (Comparison l op r).
Hypothesis HBinOp : forall l op r, P l -> P r -> P (BinOp l op r).
Hypothesis HImport : forall m, P (Import m).
Hypothesis HTryCatch : forall t c x,
  Forall P t -> Forall P c -> P (TryCatch t c x).

Fixpoint AST_induction (n : AST) : P n :=
  let all := fix all (l : list AST) : Forall P l :=
    match l with
    | [] => Forall_nil P
    | x :: l' => Forall_cons x (AST_induction x) (all l')
    end in
  match n with
  | Print e => HPrint (AST_induction e)
  | Assign x e => HAssign x (AST_induction e)
  | Variable_ x => HVariable x
  | Number v => HNumber v
  | String v => HString v
  | If c t f =>
      HIf (AST_induction c) (all t)
        (match f as f' return forall l, f' = Some l -> Forall P l with
         | Some l' => fun l E =>
             match E in _ = s return
                   match s with Some l0 => Forall P l0 | None => True end
             with eq_refl => all l' end
         | None => fun l E =>
             match E in _ = s return
                   match s with Some _ => Forall P l | None => True end
             with eq_refl => I end
         end)
  | While c b => HWhile (AST_induction c) (all b)
  | Comparison l op r => HComparison op (AST_induction l) (AST_induction r)
  | BinOp l op r => HBinOp op (AST_induction l) (AST_induction r)
  | Import m => HImport m
  | TryCatch t c x => HTryCatch x (all t) (all c)
  end.

End AST_induction.

Unset Implicit Arguments.

(** ** The guard of [visit] and the equations of the visitor *)

Lemma visit_guard_Ok (v : value) (st : State) :
  visit_guard (Ok v, st) = (Ok v, st).
Proof. reflexivity. Qed.

Lemma visit_guard_RuntimeError (m : pystr) (st : State) :
  visit_guard (Raise (RuntimeError m), st) = (Raise (RuntimeError m), st).
Proof. reflexivity. Qed.

Lemma visit_guard_idem (r : effect) : visit_guard (visit_guard r) = visit_guard r.
Proof. destruct r as [[v|[m|m|m|m]|] st]; reflexivity. Qed.

Lemma visit_guard_state (r : effect) : snd (visit_guard r) = snd r.
Proof. destruct r as [[v|[m|m|m|m]|] st]; reflexivity. Qed.

(** What [visit] can raise is a [RuntimeError]. *)
Lemma visit_guard_raises (r : effect) (e : exn) (st : State) :
  visit_guard r = (Raise e, st) -> exists m, e = RuntimeError m.
Proof.
  destruct r as [[v|[m|m|m|m]|] st0]; simpl; intros E; inversion E; eauto.
Qed.

Section VisitEquations.
Context {H : Host} {F : FileSystem}.
Variable hook : list AST -> State -> effect.

Lemma visit_is_guarded (node : AST) (st : State) :
  visit_guard (visit hook node st) = visit hook node st.
Proof. destruct node; exact (visit_guard_idem _). Qed.

Lemma visit_raises (node : AST) (st st' : State) (e : exn) :
  visit hook node st = (Raise e, st') -> exists m, e = RuntimeError m.
Proof.
  rewrite <- visit_is_guarded. apply visit_guard_raises.
Qed.

Lemma for_each_is_guarded (stmts : list AST) (st : State) :
  visit_guard (for_each (visit hook) stmts st) = for_each (visit hook) stmts st.
Proof.
  revert st; induction stmts as [|s l IH]; intros st; simpl; [reflexivity|].
  destruct (visit hook s st) as [[v|e|] st1] eqn:E; auto.
  destruct (visit_raises _ _ _ _ E) as [m ->]. reflexivity.
Qed.

Lemma visit_Comparison_eq (l r : AST) (op : pystr) (st st1 st2 : State)
  (vl vr : value) :
  visit hook l st = (Ok vl, st1) ->
  visit hook r st1 = (Ok vr, st2) ->
  visit hook (Comparison l op r) st
  = visit_guard (compare_values op vl vr, st2).
Proof. intros E1 E2. simpl. rewrite E1, E2. reflexivity. Qed.

Lemma visit_BinOp_eq (l r : AST) (op : pystr) (st st1 st2 : State)
  (vl vr : value) :
  visit hook l st = (Ok vl, st1) ->
  visit hook r st1 = (Ok vr, st2) ->
  visit hook (BinOp l op r) st = visit_guard (binop_values op vl vr, st2).
Proof. intros E1 E2. simpl. rewrite E1, E2. reflexivity. Qed.

Lemma visit_TryCatch_eq (t c : list AST) (x : pystr) (st : State) :
  visit hook (TryCatch t c x) st
  = match for_each (visit hook) t st with
    | (Raise e, st1) =>
        for_each (visit hook) c
          (set_variables st1
             (dict_set (variables st1) x (VStr (exn_str e))))
    | r => r
    end.
Proof.
  simpl. destruct (for_each (visit hook) t st) as [[v|e|] st1] eqn:E.
  - reflexivity.
  - apply for_each_is_guarded.
  - reflexivity.
Qed.

Lemma visit_While_eq (c : AST) (body : list AST) (st : State) :
  visit hook (While c body) st
  = visit_guard (while_loop (visit hook c) (for_each (visit hook) body)
                   (Z.to_nat max_iterations) 0 st).
Proof. reflexivity. Qed.

Lemma visit_If_eq (c : AST) (t : list AST) (f : option (list AST))
  (st st1 : State) (condition : value) :
  visit hook c st = (Ok condition, st1) ->
  visit hook (If c t f) st
  = if negb (is_bool condition) then
      raise_RuntimeError
        (utf8 "条件表达式必须为布尔值，得到: " ++ type_name condition) st1
    else if truthy condition then for_each (visit hook) t st1
    else match f with
         | Some ((_ :: _) as stmts) => for_each (visit hook) stmts st1
         | _ => (Ok VNone, st1)
         end.
Proof.
  intros E. simpl. rewrite E.
  destruct (negb (is_bool condition)); [reflexivity|].
  destruct (truthy condition); [apply for_each_is_guarded|].
  destruct f as [[|s l]|]; try reflexivity.
  apply (for_each_is_guarded (s :: l)).
Qed.

(** A failing statement ends the block with its exception. *)
Lemma for_each_app_raise (pre post : list AST) (bad : AST)
  (st st1 st2 : State) (v : value) (e : exn) :
  for_each (visit hook) pre st = (Ok v, st1) ->
  visit hook bad st1 = (Raise e, st2) ->
  for_each (visit hook) (pre ++ bad :: post) st = (Raise e, st2).
Proof.
  revert st; induction pre as [|s l IH]; intros st; simpl.
  - intros E1 E2. inversion E1; subst. rewrite E2. reflexivity.
  - destruct (visit hook s st) as [[w|e'|] st'] eqn:E; try discriminate; auto.
Qed.

End VisitEquations.

(** ** Unbound variables *)

Lemma contains_middle (a part b : pystr) : contains (a ++ part ++ b) part.
Proof. exists a, b. reflexivity. Qed.

(** The spec's words: a name is bound in the environment, and names
    separated by a comma and a space. *)
Definition bound (st : State) (k : pystr) : Prop :=
  exists v, dict_get (variables st) k = Some v.

Inductive comma_separated : list pystr -> pystr -> Prop :=
| no_name : comma_separated [] []
| one_name (x : pystr) : comma_separated [x] x
| more_names (x y : pystr) (l : list pystr) (s : pystr) :
    comma_separated (y :: l) s ->
    comma_separated (x :: y :: l) (x ++ utf8 ", " ++ s).

Lemma join_comma_separated (l : list pystr) :
  comma_separated l (join (utf8 ", ") l).
Proof.
  induction l as [|x [|y l] IH].
  - constructor.
  - constructor.
  - change (join (utf8 ", ") (x :: y :: l))
      with (x ++ utf8 ", " ++ join (utf8 ", ") (y :: l)).
    constructor. exact IH.
Qed.

Lemma contains_trans (a b c : pystr) :
  contains a b -> contains b c -> contains a c.
Proof.
  intros (p & q & ->) (p' & q' & ->). exists (p ++ p'), (q' ++ q).
  rewrite <- !app_assoc. reflexivity.
Qed.

Lemma comma_separated_contains (l : list pystr) (s k : pystr) :
  comma_separated l s -> In k l -> contains s k.
Proof.
  induction 1 as [|x|x y l s Hs IH]; intros Hin.
  - destruct Hin.
  - destruct Hin as [->|[]]. exists [], []. symmetry. apply app_nil_r.
  - destruct Hin as [->|Hin].
    + exists [], (utf8 ", " ++ s). reflexivity.
    + destruct (IH Hin) as (p & q & ->).
      exists (x ++ utf8 ", " ++ p), q. rewrite <- !app_assoc. reflexivity.
Qed.

Lemma dict_keys_bound (d : dict) (k : pystr) :
  In k (dict_keys d) <-> exists v, dict_get d k = Some v.
Proof.
  induction d as [|[k' v'] d IH]; cbn [dict_keys map fst In dict_get].
  - split; [intros []|intros [v E]; discriminate E].
  - destruct (str_eqb_spec k k') as [->|Hk].
    + split; [eauto|auto].
    + fold (dict_keys d). rewrite IH. split; [intros [E|E]|]; auto.
      congruence.
Qed.

Section Variables.
Context {H : Host} {F : FileSystem}.
Variable hook : list AST -> State -> effect.

(** C7: evaluating [Variable(n)] for a name [n] that is not bound fails
    with a [RuntimeError] and leaves the state as it is.  The message
    contains [n] and a listing of names separated by a comma and a space;
    the names listed are those that are bound, all of them, so that every
    bound name is in the message. *)
Theorem C7_unbound_variable_message (n : pystr) (st : State) :
  dict_get (variables st) n = None ->
  exists msg names listing,
    visit hook (Variable_ n) st = (Raise (RuntimeError msg), st)
    /\ contains msg n
    /\ contains msg listing
    /\ comma_separated names listing
    /\ (forall k, In k names <-> bound st k)
    /\ (forall k, bound st k -> contains msg k)
    /\ listing = join (utf8 ", ") (dict_keys (variables st)).
Proof.
  intros Hn. simpl. unfold visit_Variable. rewrite Hn.
  eexists. exists (dict_keys (variables st)).
  exists (join (utf8 ", ") (dict_keys (variables st))).
  assert (Hl : contains
                 (utf8 "未定义的变量: '" ++ n ++ utf8 "'。可用的变量: ["
                    ++ join (utf8 ", ") (dict_keys (variables st))
                    ++ utf8 "]")
                 (join (utf8 ", ") (dict_keys (variables st)))).
  { rewrite (app_assoc _ n), (app_assoc _ (utf8 "'。可用的变量: [")).
    apply contains_middle. }
  split; [reflexivity|]. split; [apply contains_middle|].
  split; [exact Hl|]. split; [apply join_comma_separated|].
  split; [intros k; apply dict_keys_bound|]. split; [|reflexivity].
  intros k Hk. apply (contains_trans _ _ _ Hl).
  apply (comma_separated_contains (dict_keys (variables st))).
  - apply join_comma_separated.
  - apply dict_keys_bound. exact Hk.
Qed.

(** A bound name evaluates to its value. *)
Lemma visit_Variable_bound (n : pystr) (st : State) (v : value) :
  dict_get (variables st) n = Some v ->
  visit hook (Variable_ n) st = (Ok v, st).
Proof. intros Hn. simpl. unfold visit_Variable. rewrite Hn. reflexivity. Qed.

End Variables.

(** ** Rounding to binary64

    What [SFdiv] and [binary_normalize] return, for the quotient of two
    integers and for an integer: the nearest binary64, or an infinity from
    [2^1024 - 2^970] on. *)

Lemma fexp_eq (e : Z) : fexp prec emax e = Z.max (e - 53) (-1074).
Proof. reflexivity. Qed.

Lemma digits2_pos_bounds (p : positive) :
  2 ^ (Zpos (digits2_pos p) - 1) <= Zpos p < 2 ^ Zpos (digits2_pos p).
Proof.
  induction p as [p IH|p IH|]; cbn [digits2_pos].
  - rewrite Pos2Z.inj_succ, (Pos2Z.inj_xI p).
    replace (Z.succ (Zpos (digits2_pos p)) - 1)
      with (Z.succ (Zpos (digits2_pos p) - 1)) by lia.
    rewrite !Z.pow_succ_r by lia. lia.
  - rewrite Pos2Z.inj_succ, (Pos2Z.inj_xO p).
    replace (Z.succ (Zpos (digits2_pos p)) - 1)
      with (Z.succ (Zpos (digits2_pos p) - 1)) by lia.
    rewrite !Z.pow_succ_r by lia. lia.
  - split; [reflexivity|reflexivity].
Qed.

(** The number of binary digits of a natural number. *)
Lemma Zdigits2_bounds (m : Z) :
  0 < m -> 2 ^ (Zdigits2 m - 1) <= m < 2 ^ Zdigits2 m /\ 0 < Zdigits2 m.
Proof.
  destruct m as [|p|p]; try lia. intros _. cbn [Zdigits2].
  split; [apply digits2_pos_bounds|lia].
Qed.

Lemma Zdigits2_unique (m k : Z) :
  2 ^ (k - 1) <= m < 2 ^ k -> 0 < k -> Zdigits2 m = k.
Proof.
  intros Hm Hk.
  assert (H0 : 0 < m).
  { assert (0 < 2 ^ (k - 1)) by (apply Z.pow_pos_nonneg; lia). lia. }
  destruct (Zdigits2_bounds m H0) as [Hd Hp].
  destruct (Z.lt_trichotomy (Zdigits2 m) k) as [Hlt|[Heq|Hgt]]; [|exact Heq|].
  - assert (2 ^ Zdigits2 m <= 2 ^ (k - 1)) by (apply Z.pow_le_mono_r; lia).
    lia.
  - assert (2 ^ k <= 2 ^ (Zdigits2 m - 1)) by (apply Z.pow_le_mono_r; lia).
    lia.
Qed.

Lemma Zdigits2_le (m k : Z) : 0 <= m < 2 ^ k -> 0 <= k -> Zdigits2 m <= k.
Proof.
  intros Hm Hk. destruct (Z.eq_dec m 0) as [->|Hne]; [exact Hk|].
  destruct (Zdigits2_bounds m ltac:(lia)) as [Hd Hp].
  destruct (Z_le_gt_dec (Zdigits2 m) k) as [Hle|Hgt]; [exact Hle|].
  assert (2 ^ k <= 2 ^ (Zdigits2 m - 1)) by (apply Z.pow_le_mono_r; lia).
  lia.
Qed.

(** ** Shifting with a round bit and a sticky bit

    A record [(m, r, s)] stands for a fraction [N / D] when [m] is its
    integer part and the two bits place what remains below, at or above
    one half. *)

Definition placed (r s : bool) (rest D : Z) : Prop :=
  match r, s with
  | false, false => rest = 0
  | false, true => 0 < 2 * rest < D
  | true, false => 2 * rest = D
  | true, true => D < 2 * rest
  end.

Definition stands_for (x : shr_record) (N D : Z) : Prop :=
  0 < D /\ 0 <= shr_m x
  /\ exists rest, N = shr_m x * D + rest /\ 0 <= rest < D
                  /\ placed (shr_r x) (shr_s x) rest D.

Lemma shr_1_stands_for (x : shr_record) (N D : Z) :
  stands_for x N D -> stands_for (shr_1 x) N (2 * D).
Proof.
  destruct x as [m r s]. intros (HD & Hm & rest & HN & Hr & Hp).
  cbn [shr_m shr_r shr_s] in *.
  destruct m as [|[p|p|]|]; unfold stands_for;
    cbn [shr_1 shr_m shr_r shr_s]; try (exfalso; lia).
  - split; [lia|]. split; [lia|]. exists rest. split; [lia|]. split; [lia|].
    destruct r, s; cbn [orb placed] in *; lia.
  - rewrite (Pos2Z.inj_xI p) in HN.
    split; [lia|]. split; [lia|]. exists (D + rest).
    split; [lia|]. split; [lia|].
    destruct r, s; cbn [orb placed] in *; lia.
  - rewrite (Pos2Z.inj_xO p) in HN.
    split; [lia|]. split; [lia|]. exists rest. split; [lia|]. split; [lia|].
    destruct r, s; cbn [orb placed] in *; lia.
  - split; [lia|]. split; [lia|]. exists (D + rest).
    split; [lia|]. split; [lia|].
    destruct r, s; cbn [orb placed] in *; lia.
Qed.

Lemma iter_pos_shr_1 (p : positive) :
  forall (x : shr_record) (N D : Z),
    stands_for x N D ->
    stands_for (iter_pos shr_1 p x) N (D * 2 ^ Zpos p).
Proof.
  induction p as [p IH|p IH|]; intros x N D Hx; cbn [iter_pos].
  - replace (D * 2 ^ Zpos p~1) with (2 * D * 2 ^ Zpos p * 2 ^ Zpos p).
    + apply IH, IH, shr_1_stands_for, Hx.
    + rewrite (Pos2Z.inj_xI p), Z.pow_add_r, Z.pow_mul_r by lia.
      change (2 ^ 2) with 4. change (2 ^ 1) with 2.
      replace (4 ^ Zpos p) with (2 ^ Zpos p * 2 ^ Zpos p).
      * ring.
      * rewrite <- Z.pow_mul_l. reflexivity.
  - replace (D * 2 ^ Zpos p~0) with (D * 2 ^ Zpos p * 2 ^ Zpos p).
    + apply IH, IH, Hx.
    + rewrite (Pos2Z.inj_xO p), Z.pow_mul_r by lia.
      change (2 ^ 2) with 4.
      replace (4 ^ Zpos p) with (2 ^ Zpos p * 2 ^ Zpos p).
      * ring.
      * rewrite <- Z.pow_mul_l. reflexivity.
  - replace (D * 2 ^ 1) with (2 * D) by (change (2 ^ 1) with 2; ring).
    apply shr_1_stands_for, Hx.
Qed.

(** What is left of a division, as a location. *)
Lemma new_location_stands_for (q r b : Z) :
  0 < b -> 0 <= q -> 0 <= r < b ->
  stands_for (shr_record_of_loc q (new_location b r)) (q * b + r) b.
Proof.
  intros Hb Hq Hr.
  assert (Hm : forall l, shr_m (shr_record_of_loc q l) = q).
  { intros [|[| |]]; reflexivity. }
  split; [exact Hb|]. rewrite Hm. split; [exact Hq|].
  exists r. split; [reflexivity|]. split; [exact Hr|].
  unfold new_location. destruct (Z.even b) eqn:Eb.
  - unfold new_location_even. destruct (Z.eqb_spec r 0) as [->|Hr0].
    + reflexivity.
    + destruct (Z.compare_spec (2 * r) b);
        cbn [shr_record_of_loc shr_r shr_s placed]; lia.
  - unfold new_location_odd. destruct (Z.eqb_spec r 0) as [->|Hr0].
    + reflexivity.
    + assert (Hodd : b <> 2 * r).
      { intros ->. rewrite Z.even_mul in Eb. discriminate Eb. }
      destruct (Z.compare_spec (2 * r + 1) b);
        cbn [shr_record_of_loc shr_r shr_s placed]; lia.
Qed.

Lemma exact_stands_for (m : Z) :
  0 <= m -> stands_for (shr_record_of_loc m loc_Exact) m 1.
Proof.
  intros Hm. split; [lia|]. split; [exact Hm|].
  exists 0. cbn [shr_record_of_loc shr_m shr_r shr_s placed]. lia.
Qed.

(** Rounding to the nearest integer, to the even one from half way. *)
Lemma round_nearest_even_stands_for (x : shr_record) (N D : Z) :
  stands_for x N D ->
  let m := round_nearest_even (shr_m x) (loc_of_shr_record x) in
  shr_m x <= m <= shr_m x + 1
  /\ Z.abs (2 * (m * D - N)) <= D
  /\ (Z.abs (2 * (m * D - N)) = D -> Z.even m = true).
Proof.
  destruct x as [m r s]. intros (HD & Hm & rest & HN & Hr & Hp).
  cbn [shr_m shr_r shr_s] in *. cbn zeta.
  destruct r, s; cbn [loc_of_shr_record round_nearest_even placed] in *.
  - split; [lia|]. split; [lia|]. intros E. exfalso. lia.
  - destruct (Z.even m) eqn:Em.
    + split; [lia|]. split; [lia|]. intros _. exact Em.
    + split; [lia|]. split; [lia|]. intros _.
      rewrite Z.even_add, Em. reflexivity.
  - split; [lia|]. split; [lia|]. intros E. exfalso. lia.
  - split; [lia|]. split; [lia|]. intros E. exfalso. lia.
Qed.

Lemma shr_record_of_loc_m (m : Z) (l : location) :
  shr_m (shr_record_of_loc m l) = m.
Proof. destruct l as [|[| |]]; reflexivity. Qed.

Lemma shr_fexp_stands_for (mx ex : Z) (lx : location) (N D : Z) :
  stands_for (shr_record_of_loc mx lx) N D ->
  ex <= fexp prec emax (Zdigits2 mx + ex) ->
  exists x1,
    shr_fexp prec emax mx ex lx = (x1, fexp prec emax (Zdigits2 mx + ex))
    /\ stands_for x1 N (D * 2 ^ (fexp prec emax (Zdigits2 mx + ex) - ex)).
Proof.
  intros Hx He. unfold shr_fexp, shr.
  destruct (fexp prec emax (Zdigits2 mx + ex) - ex) as [|p|p] eqn:En.
  - exists (shr_record_of_loc mx lx). split; [f_equal; lia|].
    change (2 ^ 0) with 1. rewrite Z.mul_1_r. exact Hx.
  - exists (iter_pos shr_1 p (shr_record_of_loc mx lx)).
    split; [f_equal; lia|]. apply iter_pos_shr_1. exact Hx.
  - exfalso. lia.
Qed.

(** The integer part after a shift is the integer part shifted. *)
Lemma shifted_integer_part (x0 x1 : shr_record) (N D T : Z) :
  stands_for x0 N D -> stands_for x1 N (D * T) -> 0 < T ->
  shr_m x1 * T <= shr_m x0 < (shr_m x1 + 1) * T.
Proof.
  intros (HD & Hm0 & r0 & HN0 & Hr0 & _) (_ & Hm1 & r1 & HN1 & Hr1 & _) HT.
  split.
  - destruct (Z_le_gt_dec (shr_m x1 * T) (shr_m x0)) as [Hle|Hgt];
      [exact Hle|exfalso].
    assert ((shr_m x0 + 1) * D <= shr_m x1 * T * D)
      by (apply Z.mul_le_mono_nonneg_r; lia).
    lia.
  - destruct (Z_lt_ge_dec (shr_m x0) ((shr_m x1 + 1) * T)) as [Hlt|Hge];
      [exact Hlt|exfalso].
    assert ((shr_m x1 + 1) * T * D <= shr_m x0 * D)
      by (apply Z.mul_le_mono_nonneg_r; lia).
    lia.
Qed.

(** What [binary_round_aux] returns for a mantissa [m] rounded at the
    exponent [e]. *)
Definition rounded (sx : bool) (m e : Z) : spec_float :=
  if m =? 0 then S754_zero sx
  else if m <? 2 ^ 53 then
    if e <=? 971 then S754_finite sx (Z.to_pos m) e else S754_infinity sx
  else
    if e + 1 <=? 971 then S754_finite sx (Z.to_pos (2 ^ 52)) (e + 1)
    else S754_infinity sx.

Lemma binary_round_aux_rounded (sx : bool) (mx ex : Z) (lx : location)
  (N D : Z) :
  stands_for (shr_record_of_loc mx lx) N D ->
  ex <= fexp prec emax (Zdigits2 mx + ex) ->
  exists m e,
    binary_round_aux prec emax sx mx ex lx = rounded sx m e
    /\ ex <= e /\ -1074 <= e
    /\ 0 <= m <= 2 ^ 53
    /\ Z.abs (2 * (m * (D * 2 ^ (e - ex)) - N)) <= D * 2 ^ (e - ex)
    /\ (Z.abs (2 * (m * (D * 2 ^ (e - ex)) - N)) = D * 2 ^ (e - ex) ->
        Z.even m = true)
    /\ (-1074 < e -> 2 ^ 52 * (D * 2 ^ (e - ex)) <= N).
Proof.
  intros Hx He.
  destruct (shr_fexp_stands_for mx ex lx N D Hx He) as (x1 & E1 & H1).
  set (e := fexp prec emax (Zdigits2 mx + ex)) in *.
  set (T := 2 ^ (e - ex)) in *.
  assert (HT : 0 < T) by (apply Z.pow_pos_nonneg; lia).
  assert (Hee : e = Z.max (Zdigits2 mx + ex - 53) (-1074)) by reflexivity.
  pose proof (shifted_integer_part _ _ N D T Hx H1 HT) as Hs.
  rewrite shr_record_of_loc_m in Hs.
  pose proof (round_nearest_even_stands_for x1 N (D * T) H1) as Hr.
  cbn zeta in Hr.
  set (m := round_nearest_even (shr_m x1) (loc_of_shr_record x1)) in *.
  destruct Hr as (Hm & Habs & Heven).
  assert (Hx1 : 0 <= shr_m x1) by apply H1.
  assert (Hmx : 0 <= mx).
  { destruct Hx as (_ & Hmx & _). rewrite shr_record_of_loc_m in Hmx.
    exact Hmx. }
  (* the shifted mantissa has at most 53 digits, and 53 above the least
     exponent *)
  assert (Hlt : shr_m x1 < 2 ^ 53).
  { destruct (Z.eq_dec mx 0) as [E0|Hne].
    - assert (shr_m x1 * T <= 0) by lia.
      assert (0 < 2 ^ 53) by (apply Z.pow_pos_nonneg; lia). nia.
    - destruct (Zdigits2_bounds mx ltac:(lia)) as [Hd Hp].
      assert (Hpow : 2 ^ Zdigits2 mx <= 2 ^ 53 * T).
      { unfold T. rewrite <- Z.pow_add_r by lia.
        apply Z.pow_le_mono_r; lia. }
      assert (shr_m x1 * T < 2 ^ 53 * T) by lia.
      apply (Z.mul_lt_mono_pos_r T); assumption. }
  assert (Hnormal : -1074 < e -> 2 ^ 52 <= shr_m x1).
  { intros Hn.
    assert (Hd : e = Zdigits2 mx + ex - 53) by lia.
    destruct (Z.eq_dec mx 0) as [E0|Hne].
    { exfalso. rewrite E0 in Hd. cbn [Zdigits2] in Hd. lia. }
    destruct (Zdigits2_bounds mx ltac:(lia)) as [Hb Hp].
    assert (Hpow : 2 ^ (Zdigits2 mx - 1) = 2 ^ 52 * T).
    { unfold T. rewrite <- Z.pow_add_r by lia. f_equal. lia. }
    assert (2 ^ 52 * T < (shr_m x1 + 1) * T) by lia.
    assert (2 ^ 52 < shr_m x1 + 1)
      by (apply (Z.mul_lt_mono_pos_r T); assumption).
    lia. }
  exists m, e. split.
  { unfold binary_round_aux. rewrite E1. fold m.
    unfold shr_fexp, shr.
    destruct (Z.ltb_spec m (2 ^ 53)) as [Hm53|Hm53].
    - assert (Hd : Zdigits2 m <= 53) by (apply Zdigits2_le; lia).
      assert (Hf : fexp prec emax (Zdigits2 m + e) - e <= 0).
      { rewrite fexp_eq. lia. }
      assert (Hres : match fexp prec emax (Zdigits2 m + e) - e with
                     | Z.pos p =>
                         (iter_pos shr_1 p (shr_record_of_loc m loc_Exact),
                          e + (fexp prec emax (Zdigits2 m + e) - e))
                     | _ => (shr_record_of_loc m loc_Exact, e)
                     end = (shr_record_of_loc m loc_Exact, e)).
      { destruct (fexp prec emax (Zdigits2 m + e) - e) as [|p|p];
          [reflexivity|exfalso; lia|reflexivity]. }
      rewrite Hres. cbn [shr_record_of_loc shr_m]. unfold rounded.
      destruct m as [|p|p]; [reflexivity| |exfalso; lia].
      destruct (Z.ltb_spec (Z.pos p) (2 ^ 53)) as [_|Hc]; [|exfalso; lia].
      change (Z.pos p =? 0) with false. reflexivity.
    - assert (Em : m = 2 ^ 53) by lia.
      rewrite Em. change (Zdigits2 (2 ^ 53)) with 54.
      assert (Hf : fexp prec emax (54 + e) - e = 1).
      { rewrite fexp_eq. lia. }
      rewrite Hf. unfold rounded.
      change (2 ^ 53 =? 0) with false. change (2 ^ 53 <? 2 ^ 53) with false.
      reflexivity. }
  split; [exact He|]. split; [lia|]. split; [lia|].
  split; [exact Habs|]. split; [exact Heven|].
  intros Hn. specialize (Hnormal Hn).
  destruct H1 as (HD & _ & r1 & HN & Hr1 & _).
  assert (2 ^ 52 * (D * T) <= shr_m x1 * (D * T))
    by (apply Z.mul_le_mono_nonneg_r; lia).
  lia.
Qed.

(** ** Nearest

    In units of [2^-1074] the number to round is [A / D]; [m * 2^E] is it
    rounded when [m] is a nearest integer to [A / (D * 2^E)], the even one
    from half way, and the exponent is the least one or leaves [m] its 53
    digits. *)

Definition rounds_to (A D m E : Z) : Prop :=
  0 <= E /\ 0 <= m <= 2 ^ 53
  /\ Z.abs (2 * (m * (D * 2 ^ E) - A)) <= D * 2 ^ E
  /\ (Z.abs (2 * (m * (D * 2 ^ E) - A)) = D * 2 ^ E -> Z.even m = true)
  /\ (0 < E -> 2 ^ 52 * (D * 2 ^ E) <= A).

Lemma nearest_integer (A W m k : Z) :
  0 < W -> Z.abs (2 * (m * W - A)) <= W ->
  Z.abs (m * W - A) <= Z.abs (k * W - A)
  /\ (Z.abs (m * W - A) = Z.abs (k * W - A) -> k <> m ->
      Z.abs (2 * (m * W - A)) = W).
Proof.
  intros HW Hm.
  destruct (Z.lt_trichotomy k m) as [Hlt|[->|Hgt]].
  - assert (0 <= (m - k - 1) * W) by (apply Z.mul_nonneg_nonneg; lia).
    lia.
  - split; [lia|]. intros _ Hne. exfalso. apply Hne. reflexivity.
  - assert (0 <= (k - m - 1) * W) by (apply Z.mul_nonneg_nonneg; lia).
    lia.
Qed.

Lemma rounds_to_nearest (A D m E mg eg G : Z) :
  0 <= A -> 0 < D -> rounds_to A D m E ->
  0 <= mg < 2 ^ 53 -> 0 <= eg ->
  G = mg * 2 ^ eg \/ G = - (mg * 2 ^ eg) ->
  Z.abs (m * 2 ^ E * D - A) <= Z.abs (G * D - A)
  /\ (Z.abs (m * 2 ^ E * D - A) = Z.abs (G * D - A) -> G <> m * 2 ^ E ->
      Z.even m = true).
Proof.
  intros HA HD (HE & Hm & Habs & Heven & Hnormal) Hmg Heg HG.
  set (P := 2 ^ E) in *.
  assert (HP : 0 < P) by (apply Z.pow_pos_nonneg; lia).
  set (W := D * P) in *.
  assert (HW : 0 < W) by (apply Z.mul_pos_pos; assumption).
  replace (m * P * D) with (m * W) by (unfold W; ring).
  assert (Hpg : 0 < 2 ^ eg) by (apply Z.pow_pos_nonneg; lia).
  assert (HG0 : 0 <= mg * 2 ^ eg) by (apply Z.mul_nonneg_nonneg; lia).
  destruct (Z_le_gt_dec G 0) as [Hneg|Hpos].
  - (* nothing at or below zero is nearer *)
    assert (HGD : G * D <= 0).
    { rewrite Z.mul_comm. apply Z.mul_nonneg_nonpos; lia. }
    assert (HmA : Z.abs (m * W - A) <= A).
    { destruct (Z.eq_dec m 0) as [->|Hm0]; [lia|].
      assert (0 <= (m - 1) * W) by (apply Z.mul_nonneg_nonneg; lia).
      lia. }
    split; [lia|]. intros Heq Hne.
    destruct (Z.eq_dec G 0) as [->|HG1].
    + assert (Hm0 : m <> 0) by (intros ->; apply Hne; reflexivity).
      assert (0 <= (m - 1) * W) by (apply Z.mul_nonneg_nonneg; lia).
      apply Heven. lia.
    + exfalso. assert (G * D <= - D).
      { assert (0 <= (- G - 1) * D) by (apply Z.mul_nonneg_nonneg; lia).
        lia. }
      lia.
  - assert (EG : G = mg * 2 ^ eg) by lia. clear HG.
    destruct (Z_le_gt_dec E eg) as [Hge|Hlt].
    + (* a multiple of the unit in the last place *)
      assert (Ek : 2 ^ eg = 2 ^ (eg - E) * P).
      { unfold P. rewrite <- Z.pow_add_r by lia. f_equal. lia. }
      assert (EGD : G * D = mg * 2 ^ (eg - E) * W).
      { rewrite EG, Ek. unfold W. ring. }
      rewrite EGD.
      destruct (nearest_integer A W m (mg * 2 ^ (eg - E)) HW Habs)
        as [Hle Htie].
      split; [exact Hle|]. intros Heq Hne. apply Heven. apply Htie.
      * exact Heq.
      * intros Ec. apply Hne. rewrite EG, Ek, <- Ec. ring.
    + (* a number below the binade *)
      assert (HE0 : 0 < E) by lia. specialize (Hnormal HE0). fold P W in Hnormal.
      assert (HGlt : G < 2 ^ 52 * P).
      { assert (Hp : 2 ^ (53 + eg) <= 2 ^ (52 + E))
          by (apply Z.pow_le_mono_r; lia).
        rewrite !Z.pow_add_r in Hp by lia. fold P in Hp.
        assert (mg * 2 ^ eg < 2 ^ 53 * 2 ^ eg)
          by (apply Z.mul_lt_mono_pos_r; lia).
        lia. }
      assert (HGD : G * D < 2 ^ 52 * W).
      { replace (2 ^ 52 * W) with (2 ^ 52 * P * D) by (unfold W; ring).
        apply Z.mul_lt_mono_pos_r; lia. }
      destruct (nearest_integer A W m (2 ^ 52) HW Habs) as [Hle _].
      assert (0 <= G * D) by (apply Z.mul_nonneg_nonneg; lia).
      split; [lia|]. intros Heq _. exfalso. lia.
Qed.

Lemma rounds_to_units (N D m e ex : Z) :
  0 < D -> -1074 <= ex <= e -> 0 <= m <= 2 ^ 53 ->
  Z.abs (2 * (m * (D * 2 ^ (e - ex)) - N)) <= D * 2 ^ (e - ex) ->
  (Z.abs (2 * (m * (D * 2 ^ (e - ex)) - N)) = D * 2 ^ (e - ex) ->
   Z.even m = true) ->
  (-1074 < e -> 2 ^ 52 * (D * 2 ^ (e - ex)) <= N) ->
  rounds_to (N * 2 ^ (ex + 1074)) D m (e + 1074).
Proof.
  intros HD He Hm Habs Heven Hnormal.
  set (Sc := 2 ^ (ex + 1074)).
  assert (HS : 0 < Sc) by (apply Z.pow_pos_nonneg; lia).
  set (D1 := D * 2 ^ (e - ex)) in *.
  assert (EW : D * 2 ^ (e + 1074) = D1 * Sc).
  { unfold D1, Sc. rewrite <- Z.mul_assoc, <- Z.pow_add_r by lia.
    do 2 f_equal. lia. }
  assert (Eabs : Z.abs (2 * (m * (D1 * Sc) - N * Sc))
                 = Z.abs (2 * (m * D1 - N)) * Sc).
  { replace (2 * (m * (D1 * Sc) - N * Sc)) with (2 * (m * D1 - N) * Sc) by ring.
    rewrite Z.abs_mul, (Z.abs_eq Sc) by lia. reflexivity. }
  unfold rounds_to. rewrite EW, Eabs.
  split; [lia|]. split; [exact Hm|]. split.
  { apply Z.mul_le_mono_nonneg_r; lia. }
  split.
  { intros E. apply Heven. apply (Z.mul_cancel_r _ _ Sc); [lia|exact E]. }
  intros Hn. rewrite Z.mul_assoc. apply Z.mul_le_mono_nonneg_r; [lia|].
  apply Hnormal. lia.
Qed.

(** A mantissa of 53 digits above the least exponent. *)
Lemma rounds_to_normal (A D m E : Z) :
  0 < D -> rounds_to A D m E -> 0 < E -> 2 ^ 52 <= m.
Proof.
  intros HD (HE & Hm & Habs & _ & Hnormal) HE0. specialize (Hnormal HE0).
  set (W := D * 2 ^ E) in *.
  assert (HW : 0 < W).
  { apply Z.mul_pos_pos; [exact HD|apply Z.pow_pos_nonneg; lia]. }
  destruct (Z_le_gt_dec (2 ^ 52) m) as [Hle|Hgt]; [exact Hle|exfalso].
  assert (0 <= (2 ^ 52 - 1 - m) * W) by (apply Z.mul_nonneg_nonneg; lia).
  lia.
Qed.

(** The numbers of binary64 in units of [2^-1074]. *)
Definition units (q : spec_float) : Z :=
  match q with
  | S754_finite s m e => cond_Zopp s (Zpos m * 2 ^ (e + 1074))
  | _ => 0
  end.

Definition finite (q : spec_float) : bool :=
  match q with
  | S754_zero _ | S754_finite _ _ _ => true
  | _ => false
  end.

Definition sign_of (q : spec_float) : bool :=
  match q with
  | S754_zero s | S754_infinity s | S754_finite s _ _ => s
  | S754_nan => false
  end.

Definition even_mantissa (q : spec_float) : bool :=
  match q with
  | S754_finite _ m _ => Z.even (Zpos m)
  | _ => true
  end.

(** From [2^1024 - 2^970] on a number rounds beyond the largest binary64;
    in units of [2^-1074] this is: *)
Definition beyond : Z := (2 ^ 54 - 1) * 2 ^ 2044.

Lemma rounded_beyond (sx : bool) (A D m e : Z) :
  0 <= A -> 0 < D -> rounds_to A D m (e + 1074) ->
  beyond * D <= A -> rounded sx m e = S754_infinity sx.
Proof.
  intros HA HD Hr Hb.
  pose proof Hr as (HE & Hm & Habs & Heven & Hnormal).
  set (P := 2 ^ (e + 1074)) in *.
  assert (HP : 0 < P) by (apply Z.pow_pos_nonneg; lia).
  set (W := D * P) in *.
  assert (HW : 0 < W) by (apply Z.mul_pos_pos; assumption).
  assert (Hbig : 0 < 2 ^ 2044) by (apply Z.pow_pos_nonneg; lia).
  (* were the exponent at most [k], the number would be below *)
  assert (Hsmall : forall k c, e + 1074 <= k -> 0 <= k -> 0 <= c ->
                     c * W <= c * (D * 2 ^ k)).
  { intros k c Hk Hk0 Hc. apply Z.mul_le_mono_nonneg_l; [exact Hc|].
    apply Z.mul_le_mono_nonneg_l; [lia|]. apply Z.pow_le_mono_r; lia. }
  unfold rounded.
  destruct (Z.eqb_spec m 0) as [Em|Hm0].
  { exfalso. subst m.
    assert (E0 : e + 1074 = 0).
    { destruct (Z.eq_dec (e + 1074) 0) as [E0|Hne]; [exact E0|].
      assert (2 ^ 52 <= 0)
        by (apply (rounds_to_normal A D 0 (e + 1074)); [exact HD|exact Hr|lia]).
      lia. }
    assert (EP : P = 1) by (unfold P; rewrite E0; reflexivity).
    unfold beyond in Hb.
    assert (1 * D <= (2 ^ 54 - 1) * 2 ^ 2044 * D)
      by (apply Z.mul_le_mono_nonneg_r; lia).
    unfold W in Habs. rewrite EP in Habs. lia. }
  destruct (Z.ltb_spec m (2 ^ 53)) as [Hlt|Hge].
  - destruct (Z.leb_spec e 971) as [Hle|_]; [exfalso|reflexivity].
    pose proof (Hsmall 2045 (2 * m + 1) ltac:(lia) ltac:(lia) ltac:(lia))
      as Hs.
    assert (Ep : 2 ^ 2045 = 2 * 2 ^ 2044).
    { change 2045 with (Z.succ 2044). apply Z.pow_succ_r. lia. }
    assert (HmW : (2 * m + 1) * (D * 2 ^ 2045)
                  <= (2 ^ 54 - 1) * (D * 2 ^ 2045)).
    { apply Z.mul_le_mono_nonneg_r; [|lia].
      apply Z.mul_nonneg_nonneg; [lia|]. apply Z.pow_nonneg. lia. }
    unfold beyond in Hb.
    assert (Hb2 : (2 ^ 54 - 1) * (D * 2 ^ 2045) = 2 * ((2 ^ 54 - 1) * 2 ^ 2044 * D)).
    { rewrite Ep. ring. }
    (* equality all along: the odd mantissa [2^53 - 1] from half way *)
    assert (Htie : Z.abs (2 * (m * W - A)) = W /\ m = 2 ^ 53 - 1).
    { assert (E1 : (2 * m + 1) * W = 2 * A) by lia.
      split; [lia|].
      destruct (Z.eq_dec m (2 ^ 53 - 1)) as [Em|Hne]; [exact Em|exfalso].
      assert ((2 * m + 1 + 2) * (D * 2 ^ 2045)
              <= (2 ^ 54 - 1) * (D * 2 ^ 2045)).
      { apply Z.mul_le_mono_nonneg_r; [|lia].
        apply Z.mul_nonneg_nonneg; [lia|]. apply Z.pow_nonneg. lia. }
      assert (0 < D * 2 ^ 2045).
      { apply Z.mul_pos_pos; [lia|]. apply Z.pow_pos_nonneg; lia. }
      lia. }
    destruct Htie as [Htie Em]. specialize (Heven Htie). rewrite Em in Heven.
    discriminate Heven.
  - destruct (Z.leb_spec (e + 1) 971) as [Hle|_]; [exfalso|reflexivity].
    pose proof (Hsmall 2044 (2 * m + 1) ltac:(lia) ltac:(lia) ltac:(lia))
      as Hs.
    assert (Em : m = 2 ^ 53) by lia.
    unfold beyond in Hb.
    assert (Hc : (2 * m + 1) * (D * 2 ^ 2044)
                 < 2 * ((2 ^ 54 - 1) * 2 ^ 2044 * D)).
    { replace (2 * ((2 ^ 54 - 1) * 2 ^ 2044 * D))
        with ((2 * (2 ^ 54 - 1)) * (D * 2 ^ 2044)) by ring.
      apply Z.mul_lt_mono_pos_r.
      - apply Z.mul_pos_pos; lia.
      - rewrite Em. reflexivity. }
    lia.
Qed.

(** A binary64 number is [m * 2^e] with a sign, [m] below [2^53] and [e]
    from -1074 to 971; in units of [2^-1074] it is an integer. *)
Definition binary64 (G : Z) : Prop :=
  exists m e, 0 <= m < 2 ^ 53 /\ 0 <= e <= 2045 /\ Z.abs G = m * 2 ^ e.

Lemma bounded_from_digits (p : positive) (e : Z) :
  fexp prec emax (Zdigits2 (Zpos p) + e) = e -> e <= 971 ->
  bounded prec emax p e = true.
Proof.
  intros Hf He. unfold bounded, canonical_mantissa.
  change (Zpos (digits2_pos p)) with (Zdigits2 (Zpos p)).
  rewrite Hf, Z.eqb_refl. apply Z.leb_le. exact He.
Qed.

Lemma rounded_within (sx : bool) (A D m e : Z) :
  0 <= A -> 0 < D -> rounds_to A D m (e + 1074) ->
  A < beyond * D ->
  finite (rounded sx m e) = true
  /\ valid_binary prec emax (rounded sx m e) = true
  /\ units (rounded sx m e) = cond_Zopp sx (m * 2 ^ (e + 1074))
  /\ (Z.even m = true -> even_mantissa (rounded sx m e) = true)
  /\ binary64 (units (rounded sx m e))
  /\ sign_of (rounded sx m e) = sx.
Proof.
  intros HA HD Hr Hb.
  pose proof Hr as (HE & Hm & Habs & Heven & Hnormal).
  set (P := 2 ^ (e + 1074)) in *.
  assert (HP : 0 < P) by (apply Z.pow_pos_nonneg; lia).
  set (W := D * P) in *.
  assert (HW : 0 < W) by (apply Z.mul_pos_pos; assumption).
  assert (Hlarge : forall k c, k <= e + 1074 -> 0 <= k -> 0 <= c ->
                     c * (D * 2 ^ k) <= c * W).
  { intros k c Hk Hk0 Hc. apply Z.mul_le_mono_nonneg_l; [exact Hc|].
    apply Z.mul_le_mono_nonneg_l; [lia|]. apply Z.pow_le_mono_r; lia. }
  unfold beyond in Hb. unfold rounded.
  destruct (Z.eqb_spec m 0) as [Em|Hm0].
  { subst m. split; [reflexivity|]. split; [reflexivity|].
    split; [destruct sx; reflexivity|]. split; [reflexivity|].
    split; [|reflexivity].
    exists 0, 0. cbn [rounded units Z.eqb Z.abs]. lia. }
  destruct (Z.ltb_spec m (2 ^ 53)) as [Hlt|Hge].
  - assert (He : e <= 971).
    { destruct (Z_le_gt_dec e 971) as [Hle|Hgt]; [exact Hle|exfalso].
      pose proof (Hlarge 2046 (2 ^ 52) ltac:(lia) ltac:(lia) ltac:(lia))
        as Hl.
      specialize (Hnormal ltac:(lia)).
      assert (Hc : (2 ^ 54 - 1) * 2 ^ 2044 * D < 2 ^ 52 * (D * 2 ^ 2046)).
      { replace (2 ^ 52 * (D * 2 ^ 2046))
          with (2 ^ 54 * 2 ^ 2044 * D).
        - apply Z.mul_lt_mono_pos_r; [exact HD|].
          apply Z.mul_lt_mono_pos_r; [apply Z.pow_pos_nonneg; lia|lia].
        - change 2046 with (2 + 2044). rewrite (Z.pow_add_r 2 2 2044) by lia.
          change (2 ^ 54) with (2 ^ 52 * 2 ^ 2). ring. }
      lia. }
    destruct (Z.leb_spec e 971) as [_|Hc]; [|exfalso; lia].
    assert (Hp : Zpos (Z.to_pos m) = m) by (apply Z2Pos.id; lia).
    split; [reflexivity|]. split.
    { cbn [valid_binary]. apply bounded_from_digits; [|exact He].
      rewrite Hp, fexp_eq.
      destruct (Z.eq_dec e (-1074)) as [Ee|Hne].
      - assert (Zdigits2 m <= 53) by (apply Zdigits2_le; lia). lia.
      - assert (2 ^ 52 <= m)
          by (apply (rounds_to_normal A D m (e + 1074)); [exact HD|exact Hr|lia]).
        rewrite (Zdigits2_unique m 53); [lia| |lia].
        change (53 - 1) with 52. lia. }
    split.
    { cbn [units]. rewrite Hp. reflexivity. }
    split.
    { intros Ev. cbn [even_mantissa]. rewrite Hp. exact Ev. }
    split; [|reflexivity].
    exists m, (e + 1074). cbn [units]. rewrite Hp.
    split; [lia|]. split; [lia|].
    assert (0 <= m * 2 ^ (e + 1074)) by (apply Z.mul_nonneg_nonneg; lia).
    destruct sx; cbn [cond_Zopp]; lia.
  - assert (Em : m = 2 ^ 53) by lia.
    assert (He : e + 1 <= 971).
    { destruct (Z_le_gt_dec (e + 1) 971) as [Hle|Hgt]; [exact Hle|exfalso].
      pose proof (Hlarge 2045 (2 ^ 54 - 1) ltac:(lia) ltac:(lia) ltac:(lia))
        as Hl.
      assert (Ep : 2 ^ 2045 = 2 * 2 ^ 2044).
      { change 2045 with (Z.succ 2044). apply Z.pow_succ_r. lia. }
      assert (Hc : (2 ^ 54 - 1) * (D * 2 ^ 2045)
                   = 2 * ((2 ^ 54 - 1) * 2 ^ 2044 * D)).
      { rewrite Ep. ring. }
      assert (Hm2 : (2 ^ 54 - 1) * W = 2 * (m * W) - W).
      { rewrite Em. change (2 ^ 54) with (2 * 2 ^ 53). ring. }
      lia. }
    destruct (Z.leb_spec (e + 1) 971) as [_|Hc]; [|exfalso; lia].
    split; [reflexivity|]. split.
    { cbn [valid_binary]. apply bounded_from_digits; [|exact He].
      change (Zdigits2 (Zpos (Z.to_pos (2 ^ 52)))) with 53.
      rewrite fexp_eq. lia. }
    split.
    { cbn [units]. f_equal. rewrite Em.
      replace (e + 1 + 1074) with (Z.succ (e + 1074)) by lia.
      rewrite Z.pow_succ_r by lia.
      change (Zpos (Z.to_pos (2 ^ 52))) with (2 ^ 52).
      change (2 ^ 53) with (2 ^ 52 * 2). fold P. ring. }
    split; [intros _; reflexivity|]. split; [|reflexivity].
    exists (2 ^ 52), (e + 1 + 1074). cbn [units].
    change (Zpos (Z.to_pos (2 ^ 52))) with (2 ^ 52).
    split; [lia|]. split; [lia|].
    assert (0 < 2 ^ (e + 1 + 1074)) by (apply Z.pow_pos_nonneg; lia).
    destruct sx; cbn [cond_Zopp]; lia.
Qed.

(** ** The quotient of two integers *)

Lemma fexp_monotone (x y : Z) :
  x <= y -> fexp prec emax x <= fexp prec emax y.
Proof. intros Hxy. rewrite !fexp_eq. lia. Qed.

Lemma SFdiv_core_binary_stands_for (a b : positive) :
  exists q e l N,
    SFdiv_core_binary prec emax (Zpos a) 0 (Zpos b) 0 = (q, e, l)
    /\ stands_for (shr_record_of_loc q l) N (Zpos b)
    /\ N * 2 ^ (e + 1074) = Zpos a * 2 ^ 1074
    /\ -1074 <= e
    /\ e <= fexp prec emax (Zdigits2 q + e).
Proof.
  unfold SFdiv_core_binary.
  set (d1 := Zdigits2 (Zpos a)). set (d2 := Zdigits2 (Zpos b)).
  set (e := Z.min (fexp prec emax (d1 + 0 - (d2 + 0))) (0 - 0)).
  assert (He : -1074 <= e <= 0).
  { unfold e. rewrite fexp_eq. lia. }
  assert (Em : match 0 - 0 - e with
               | 0 => Zpos a
               | Zpos _ => Z.shiftl (Zpos a) (0 - 0 - e)
               | Zneg _ => 0
               end = Zpos a * 2 ^ (- e)).
  { replace (0 - 0 - e) with (- e) by lia.
    destruct (- e) as [|p|p] eqn:Es.
    - change (2 ^ 0) with 1. lia.
    - apply Z.shiftl_mul_pow2. lia.
    - exfalso. lia. }
  rewrite Em. set (N := Zpos a * 2 ^ (- e)).
  assert (Hpe : 0 < 2 ^ (- e)) by (apply Z.pow_pos_nonneg; lia).
  assert (HN : 0 < N) by (apply Z.mul_pos_pos; lia).
  pose proof (Z_div_mod N (Zpos b) ltac:(lia)) as Hdiv.
  destruct (Z.div_eucl N (Zpos b)) as [q r]. destruct Hdiv as [EN Hr].
  assert (Hq : 0 <= q).
  { destruct (Z_le_gt_dec 0 q) as [Hle|Hgt]; [exact Hle|exfalso].
    assert (Zpos b * q <= Zpos b * (-1))
      by (apply Z.mul_le_mono_nonneg_l; lia).
    lia. }
  exists q, e, (new_location (Zpos b) r), N.
  split; [reflexivity|]. split.
  { replace N with (q * Zpos b + r) by lia.
    apply new_location_stands_for; lia. }
  split.
  { unfold N. rewrite <- Z.mul_assoc, <- Z.pow_add_r by lia.
    do 2 f_equal. lia. }
  split; [lia|].
  (* the quotient has the digits that the operands leave it *)
  assert (Hd : d1 - d2 - e <= Zdigits2 q).
  { destruct (Zdigits2_bounds (Zpos a) ltac:(lia)) as [Ha Hpa].
    destruct (Zdigits2_bounds (Zpos b) ltac:(lia)) as [Hb Hpb].
    fold d1 in Ha, Hpa. fold d2 in Hb, Hpb.
    destruct (Z_le_gt_dec (d1 - d2 - e) 0) as [Hle|Hgt].
    { destruct q as [|p|p]; cbn [Zdigits2]; lia. }
    set (k := d1 - 1 - e - d2).
    assert (Hk : 0 <= k) by (unfold k; lia).
    assert (HNk : 2 ^ k * 2 ^ d2 <= N).
    { unfold N. rewrite <- Z.pow_add_r by lia.
      replace (k + d2) with (d1 - 1 + - e) by (unfold k; lia).
      rewrite Z.pow_add_r by lia.
      apply Z.mul_le_mono_nonneg_r; lia. }
    assert (Hpk : 0 < 2 ^ k) by (apply Z.pow_pos_nonneg; lia).
    assert (Hqk : 2 ^ k <= q).
    { destruct (Z_le_gt_dec (2 ^ k) q) as [Hle|Hlt]; [exact Hle|exfalso].
      assert (Zpos b * (q + 1) <= Zpos b * 2 ^ k)
        by (apply Z.mul_le_mono_nonneg_l; lia).
      assert (2 ^ k * Zpos b < 2 ^ k * 2 ^ d2)
        by (apply Z.mul_lt_mono_pos_l; lia).
      lia. }
    destruct (Zdigits2_bounds q ltac:(lia)) as [Hbq Hpq].
    destruct (Z_le_gt_dec (d1 - d2 - e) (Zdigits2 q)) as [Hle|Hlt];
      [exact Hle|exfalso].
    assert (2 ^ Zdigits2 q <= 2 ^ k)
      by (apply Z.pow_le_mono_r; unfold k; lia).
    lia. }
  apply Z.le_trans with (fexp prec emax (d1 + 0 - (d2 + 0))).
  - unfold e. lia.
  - apply fexp_monotone. lia.
Qed.

Lemma SFdiv_rounded (sa sb : bool) (a b : positive) :
  exists m e,
    SFdiv prec emax (S754_finite sa a 0) (S754_finite sb b 0)
    = rounded (xorb sa sb) m e
    /\ rounds_to (Zpos a * 2 ^ 1074) (Zpos b) m (e + 1074).
Proof.
  destruct (SFdiv_core_binary_stands_for a b)
    as (q & ex & l & N & Ec & Hs & EN & Hex & Hf).
  cbn [SFdiv]. rewrite Ec.
  destruct (binary_round_aux_rounded (xorb sa sb) q ex l N (Zpos b) Hs Hf)
    as (m & e & Er & He & He2 & Hm & Habs & Heven & Hnormal).
  exists m, e. split; [exact Er|]. rewrite <- EN.
  apply rounds_to_units; try assumption; lia.
Qed.

(** ** An integer as a binary64 *)

Lemma Pos_iter_xO (m d : positive) :
  Zpos (Pos.iter xO m d) = Zpos m * 2 ^ Zpos d.
Proof.
  induction d as [|d IH] using Pos.peano_ind.
  - cbn [Pos.iter]. rewrite (Pos2Z.inj_xO m). change (2 ^ 1) with 2. ring.
  - rewrite Pos.iter_succ, Pos2Z.inj_succ, Z.pow_succ_r by lia.
    rewrite (Pos2Z.inj_xO (Pos.iter xO m d)), IH. ring.
Qed.

Lemma binary_round_rounded (sx : bool) (z : positive) :
  exists m e,
    binary_round prec emax sx z 0 = rounded sx m e
    /\ rounds_to (Zpos z * 2 ^ 1074) 1 m (e + 1074).
Proof.
  unfold binary_round, shl_align.
  change (Zpos (digits2_pos z)) with (Zdigits2 (Zpos z)).
  destruct (Zdigits2_bounds (Zpos z) ltac:(lia)) as [Hz Hpz].
  set (dz := Zdigits2 (Zpos z)) in *.
  assert (Hf : -1074 <= fexp prec emax (dz + 0)) by (rewrite fexp_eq; lia).
  assert (Ef : fexp prec emax (dz + 0) = fexp prec emax dz)
    by (f_equal; lia).
  destruct (fexp prec emax (dz + 0) - 0) as [|d|d] eqn:Ed.
  - destruct (binary_round_aux_rounded sx (Zpos z) 0 loc_Exact (Zpos z) 1)
      as (m & e & Er & He & He2 & Hm & Habs & Heven & Hnormal).
    + apply exact_stands_for. lia.
    + fold dz. lia.
    + exists m, e. split; [exact Er|].
      replace (Zpos z * 2 ^ 1074) with (Zpos z * 2 ^ (0 + 1074))
        by reflexivity.
      apply rounds_to_units; try assumption; lia.
  - destruct (binary_round_aux_rounded sx (Zpos z) 0 loc_Exact (Zpos z) 1)
      as (m & e & Er & He & He2 & Hm & Habs & Heven & Hnormal).
    + apply exact_stands_for. lia.
    + fold dz. lia.
    + exists m, e. split; [exact Er|].
      replace (Zpos z * 2 ^ 1074) with (Zpos z * 2 ^ (0 + 1074))
        by reflexivity.
      apply rounds_to_units; try assumption; lia.
  - assert (Ee : fexp prec emax (dz + 0) = - Zpos d) by lia.
    rewrite Ee.
    assert (Hpd : 0 < 2 ^ Zpos d) by (apply Z.pow_pos_nonneg; lia).
    assert (Hdig : Zdigits2 (Zpos (Pos.iter xO z d)) = dz + Zpos d).
    { apply Zdigits2_unique; [|lia]. rewrite Pos_iter_xO.
      replace (dz + Zpos d - 1) with (dz - 1 + Zpos d) by lia.
      rewrite !Z.pow_add_r by lia. split.
      - apply Z.mul_le_mono_nonneg_r; lia.
      - apply Z.mul_lt_mono_pos_r; lia. }
    destruct (binary_round_aux_rounded sx (Zpos (Pos.iter xO z d))
                (- Zpos d) loc_Exact (Zpos (Pos.iter xO z d)) 1)
      as (m & e & Er & He & He2 & Hm & Habs & Heven & Hnormal).
    + apply exact_stands_for. lia.
    + rewrite Hdig.
      replace (dz + Zpos d + - Zpos d) with dz by lia. rewrite <- Ef. lia.
    + exists m, e. split; [exact Er|].
      replace (Zpos z * 2 ^ 1074)
        with (Zpos (Pos.iter xO z d) * 2 ^ (- Zpos d + 1074)).
      * apply rounds_to_units; try assumption; lia.
      * rewrite Pos_iter_xO, <- Z.mul_assoc, <- Z.pow_add_r by lia.
        do 2 f_equal. lia.
Qed.

(** ** The spec's words

    [q] is the binary64 nearest to [a / b]: it has the sign of [a / b], no
    binary64 is nearer, and where another is as near the mantissa of [q]
    is even.  Distances are compared after multiplying by [b] and by
    [2^1074]. *)

Definition nearest_binary64 (a b : Z) (q : spec_float) : Prop :=
  finite q = true
  /\ valid_binary prec emax q = true
  /\ sign_of q = xorb (a <? 0) (b <? 0)
  /\ binary64 (units q)
  /\ forall G, binary64 G ->
       Z.abs (units q * b - a * 2 ^ 1074) <= Z.abs (G * b - a * 2 ^ 1074)
       /\ (Z.abs (units q * b - a * 2 ^ 1074)
           = Z.abs (G * b - a * 2 ^ 1074) ->
           G <> units q -> even_mantissa q = true).

(** [a / b] is too large when it is [2^1024 - 2^970] or more, half way
    from the largest binary64 to [2^1024]. *)
Definition too_large (a b : Z) : bool :=
  (2 ^ 1024 - 2 ^ 970) * Z.abs b <=? Z.abs a.

Lemma beyond_eq : beyond = (2 ^ 1024 - 2 ^ 970) * 2 ^ 1074.
Proof. vm_compute. reflexivity. Qed.

Lemma too_large_beyond (sa sb : bool) (a b : positive) :
  too_large (cond_Zopp sa (Zpos a)) (cond_Zopp sb (Zpos b)) = true
  <-> beyond * Zpos b <= Zpos a * 2 ^ 1074.
Proof.
  unfold too_large. rewrite beyond_eq.
  replace (Z.abs (cond_Zopp sa (Zpos a))) with (Zpos a)
    by (destruct sa; reflexivity).
  replace (Z.abs (cond_Zopp sb (Zpos b))) with (Zpos b)
    by (destruct sb; reflexivity).
  set (c := 2 ^ 1024 - 2 ^ 970).
  assert (HT : 0 < 2 ^ 1074) by (apply Z.pow_pos_nonneg; lia).
  replace (c * 2 ^ 1074 * Zpos b) with (c * Zpos b * 2 ^ 1074) by ring.
  rewrite Z.leb_le. split.
  - intros Hle. apply Z.mul_le_mono_nonneg_r; lia.
  - intros Hle. apply (Z.mul_le_mono_pos_r _ _ (2 ^ 1074)); assumption.
Qed.

Lemma rounded_nearest (sa sb : bool) (a b : positive) (m e : Z) :
  rounds_to (Zpos a * 2 ^ 1074) (Zpos b) m (e + 1074) ->
  if too_large (cond_Zopp sa (Zpos a)) (cond_Zopp sb (Zpos b))
  then rounded (xorb sa sb) m e = S754_infinity (xorb sa sb)
  else nearest_binary64 (cond_Zopp sa (Zpos a)) (cond_Zopp sb (Zpos b))
         (rounded (xorb sa sb) m e).
Proof.
  intros Hr.
  assert (HA : 0 <= Zpos a * 2 ^ 1074).
  { apply Z.mul_nonneg_nonneg; [lia|]. apply Z.pow_nonneg. lia. }
  pose proof (too_large_beyond sa sb a b) as Hb.
  destruct (too_large (cond_Zopp sa (Zpos a)) (cond_Zopp sb (Zpos b))).
  - apply (rounded_beyond _ (Zpos a * 2 ^ 1074) (Zpos b));
      [exact HA|lia|exact Hr|]. apply Hb. reflexivity.
  - assert (Hlt : Zpos a * 2 ^ 1074 < beyond * Zpos b).
    { destruct (Z_lt_ge_dec (Zpos a * 2 ^ 1074) (beyond * Zpos b))
        as [Hlt|Hge]; [exact Hlt|exfalso].
      assert (false = true) by (apply Hb; lia). discriminate. }
    destruct (rounded_within (xorb sa sb) _ _ m e HA (Pos2Z.is_pos b) Hr Hlt)
      as (Hfin & Hvalid & Hunits & Heven & H64 & Hsign).
    split; [exact Hfin|]. split; [exact Hvalid|]. split.
    { rewrite Hsign. destruct sa, sb; reflexivity. }
    split; [exact H64|].
    intros G (mg & eg & Hmg & Heg & HG).
    rewrite Hunits.
    set (Q := m * 2 ^ (e + 1074)).
    set (T := 2 ^ 1074) in *.
    destruct (rounds_to_nearest (Zpos a * T) (Zpos b) m (e + 1074) mg eg
                (cond_Zopp (xorb sa sb) G) HA (Pos2Z.is_pos b) Hr Hmg
                (proj1 Heg)) as [Hle Htie].
    { destruct (xorb sa sb); cbn [cond_Zopp]; lia. }
    fold Q in Hle, Htie.
    assert (E1 : Z.abs (cond_Zopp (xorb sa sb) Q * cond_Zopp sb (Zpos b)
                        - cond_Zopp sa (Zpos a) * T)
                 = Z.abs (Q * Zpos b - Zpos a * T)).
    { destruct sa, sb; cbn [xorb cond_Zopp]; lia. }
    assert (E2 : Z.abs (G * cond_Zopp sb (Zpos b)
                        - cond_Zopp sa (Zpos a) * T)
                 = Z.abs (cond_Zopp (xorb sa sb) G * Zpos b - Zpos a * T)).
    { destruct sa, sb; cbn [xorb cond_Zopp]; lia. }
    rewrite E1, E2. split; [exact Hle|].
    intros Heq Hne. apply Heven, Htie; [exact Heq|].
    intros Ec. apply Hne. destruct (xorb sa sb); cbn [cond_Zopp] in *; lia.
Qed.

Lemma nearest_binary64_zero (b : Z) :
  b <> 0 -> nearest_binary64 0 b (S754_zero (b <? 0)).
Proof.
  intros Hb. split; [reflexivity|]. split; [reflexivity|].
  split; [reflexivity|]. split.
  { exists 0, 0. cbn [units Z.abs]. lia. }
  intros G _. cbn [units]. split; [lia|]. intros Heq Hne. exfalso.
  apply Hne. assert (E : G * b = 0) by lia.
  apply Z.mul_eq_0 in E. destruct E; [assumption|contradiction].
Qed.

(** ** Comparisons and division *)

Definition ordering_ops : list pystr :=
  [utf8 "<"; utf8 "<="; utf8 ">"; utf8 ">="].

(** The order an ordering operator stands for, on integers and on
    binary64 numbers. *)
Definition Z_order (op : pystr) (a b : Z) : bool :=
  if str_eqb op (utf8 "<") then a <? b
  else if str_eqb op (utf8 "<=") then a <=? b
  else if str_eqb op (utf8 ">") then b <? a
  else b <=? a.

Definition float_order (op : pystr) (x y : float) : bool :=
  if str_eqb op (utf8 "<") then PrimFloat.ltb x y
  else if str_eqb op (utf8 "<=") then PrimFloat.leb x y
  else if str_eqb op (utf8 ">") then PrimFloat.ltb y x
  else PrimFloat.leb y x.

(** Whether the binary64 [q] is exactly the rational [a / b]: a finite
    binary64 is [m * 2^e] with a sign. *)
Definition exact_quotient (q : float) (a b : Z) : bool :=
  match Prim2SF q with
  | S754_zero _ => a =? 0
  | S754_finite s m e =>
      let v := if s then Zneg m else Zpos m in
      if e >=? 0 then v * 2 ^ e * b =? a else v * b =? a * 2 ^ (- e)
  | _ => false
  end.

(** A number in the sense of the language: an integer or a fraction. *)
Definition number_of (v : value) : option num :=
  match v with
  | VInt z => Some (NInt z)
  | VFloat f => Some (NFloat f)
  | _ => None
  end.

(** The host's division and conversion, in the spec's words. *)

Lemma threshold_positive : 0 < 2 ^ 1024 - 2 ^ 970.
Proof. vm_compute. reflexivity. Qed.

Lemma too_large_zero (b : Z) : b <> 0 -> too_large 0 b = false.
Proof.
  intros Hb. unfold too_large. apply Z.leb_gt. cbn [Z.abs].
  apply Z.mul_pos_pos; [exact threshold_positive|lia].
Qed.

(** [a / b] for two integers is [a / b] rounded to the nearest binary64,
    unless that is too large. *)
Lemma SFdiv_integers (a b : Z) :
  b <> 0 ->
  if too_large a b
  then exists s, SFdiv prec emax (SF_of_Z a) (SF_of_Z b) = S754_infinity s
  else nearest_binary64 a b (SFdiv prec emax (SF_of_Z a) (SF_of_Z b)).
Proof.
  intros Hb.
  assert (Hpos : forall sa sb pa pb,
            if too_large (cond_Zopp sa (Zpos pa)) (cond_Zopp sb (Zpos pb))
            then exists s,
                SFdiv prec emax (S754_finite sa pa 0) (S754_finite sb pb 0)
                = S754_infinity s
            else nearest_binary64 (cond_Zopp sa (Zpos pa))
                   (cond_Zopp sb (Zpos pb))
                   (SFdiv prec emax (S754_finite sa pa 0)
                      (S754_finite sb pb 0))).
  { intros sa sb pa pb.
    destruct (SFdiv_rounded sa sb pa pb) as (m & e & Er & Hr).
    rewrite Er. pose proof (rounded_nearest sa sb pa pb m e Hr) as Hn.
    destruct (too_large (cond_Zopp sa (Zpos pa)) (cond_Zopp sb (Zpos pb)));
      [eauto|exact Hn]. }
  destruct a as [|pa|pa].
  - rewrite (too_large_zero b Hb).
    destruct b as [|pb|pb]; [contradiction| |].
    + apply (nearest_binary64_zero (Zpos pb)). discriminate.
    + apply (nearest_binary64_zero (Zneg pb)). discriminate.
  - destruct b as [|pb|pb]; [contradiction| |].
    + exact (Hpos false false pa pb).
    + exact (Hpos false true pa pb).
  - destruct b as [|pb|pb]; [contradiction| |].
    + exact (Hpos true false pa pb).
    + exact (Hpos true true pa pb).
Qed.

(** [float(z)] is [z] rounded to the nearest binary64, unless that is too
    large. *)
Lemma binary_normalize_integer (z : Z) :
  if too_large z 1
  then exists s, binary_normalize prec emax z 0 false = S754_infinity s
  else nearest_binary64 z 1 (binary_normalize prec emax z 0 false).
Proof.
  assert (Hpos : forall sx p,
            if too_large (cond_Zopp sx (Zpos p)) 1
            then exists s, binary_round prec emax sx p 0 = S754_infinity s
            else nearest_binary64 (cond_Zopp sx (Zpos p)) 1
                   (binary_round prec emax sx p 0)).
  { intros sx p.
    destruct (binary_round_rounded sx p) as (m & e & Er & Hr).
    rewrite Er. pose proof (rounded_nearest sx false p 1 m e Hr) as Hn.
    rewrite xorb_false_r in Hn.
    change (cond_Zopp false (Zpos 1)) with 1 in Hn.
    destruct (too_large (cond_Zopp sx (Zpos p)) 1); [eauto|exact Hn]. }
  destruct z as [|p|p].
  - rewrite too_large_zero by discriminate.
    apply (nearest_binary64_zero 1). discriminate.
  - exact (Hpos false p).
  - exact (Hpos true p).
Qed.

Lemma finite_not_infinity (q : spec_float) (A : Type) (x : A)
  (f : spec_float -> A) :
  finite q = true ->
  match q with
  | S754_infinity _ => x
  | sf => f sf
  end = f q.
Proof. destruct q; intros E; try reflexivity; discriminate E. Qed.

Definition division_too_large : pystr :=
  utf8 "integer division result too large for a float".
Definition int_too_large : pystr :=
  utf8 "int too large to convert to float".

Lemma int_true_divide_nearest (a b : Z) :
  b <> 0 ->
  if too_large a b
  then int_true_divide a b = Raise (HostError division_too_large)
  else exists q, nearest_binary64 a b q
                 /\ int_true_divide a b = Ok (SF2Prim q).
Proof.
  intros Hb. pose proof (SFdiv_integers a b Hb) as Hs.
  unfold int_true_divide, division_too_large.
  destruct (too_large a b).
  - destruct Hs as [s ->]. reflexivity.
  - exists (SFdiv prec emax (SF_of_Z a) (SF_of_Z b)). split; [exact Hs|].
    destruct Hs as (Hfin & _).
    destruct (SFdiv prec emax (SF_of_Z a) (SF_of_Z b));
      try reflexivity; discriminate Hfin.
Qed.

Lemma float_of_int_nearest (z : Z) :
  if too_large z 1
  then float_of_int z = Raise (HostError int_too_large)
  else exists q, nearest_binary64 z 1 q /\ float_of_int z = Ok (SF2Prim q).
Proof.
  pose proof (binary_normalize_integer z) as Hs.
  unfold float_of_int, int_too_large.
  destruct (too_large z 1).
  - destruct Hs as [s ->]. reflexivity.
  - exists (binary_normalize prec emax z 0 false). split; [exact Hs|].
    destruct Hs as (Hfin & _).
    destruct (binary_normalize prec emax z 0 false);
      try reflexivity; discriminate Hfin.
Qed.

Section Operators.
Context {H : Host} {F : FileSystem}.
Variable hook : list AST -> State -> effect.

(** C5, as the code has it: an ordering comparison of two integers or of
    two fractions gives the boolean of the numeric order; operands of two
    different types (an integer and a fraction among them) and operands
    that are text fail with a [RuntimeError]. *)
Theorem C5_ordering_same_numeric_type (l r : AST) (op : pystr)
  (st st1 st2 : State) (vl vr : value) :
  In op ordering_ops ->
  visit hook l st = (Ok vl, st1) ->
  visit hook r st1 = (Ok vr, st2) ->
  match vl, vr with
  | VInt a, VInt b =>
      visit hook (Comparison l op r) st = (Ok (VBool (Z_order op a b)), st2)
  | VFloat x, VFloat y =>
      visit hook (Comparison l op r) st
      = (Ok (VBool (float_order op x y)), st2)
  | VBool _, VBool _ => True
  | _, _ =>
      exists msg,
        visit hook (Comparison l op r) st = (Raise (RuntimeError msg), st2)
  end.
Proof.
  intros Hop E1 E2. erewrite visit_Comparison_eq; [|exact E1|exact E2].
  simpl in Hop.
  destruct Hop as [<-|[<-|[<-|[<-|[]]]]];
    destruct vl, vr; try exact I; try reflexivity;
    (eexists; reflexivity).
Qed.

(** C8, as the code has it: a division with an operand that is text fails
    with a [RuntimeError]; with two numbers it fails with a [RuntimeError]
    when the right one is zero.  Otherwise the result is a binary64, never
    an exact quotient as such: for two integers [x] and [y] the binary64
    nearest to [x / y], and a [RuntimeError] exactly when [x / y] is too
    large, whatever the size of [x] and [y]; for two fractions their
    IEEE 754 quotient; for an integer and a fraction the same once the
    integer is converted to the nearest binary64, a [RuntimeError] exactly
    when the integer is too large. *)
Theorem C8_division (l r : AST) (st st1 st2 : State) (vl vr : value) :
  visit hook l st = (Ok vl, st1) ->
  visit hook r st1 = (Ok vr, st2) ->
  let result := visit hook (BinOp l (utf8 "/") r) st in
  let fails (m : pystr) :=
    result = (Raise (RuntimeError (utf8 "运行时错误: " ++ m)), st2) in
  match number_of vl, number_of vr with
  | Some a, Some b =>
      if num_is_zero b then
        result = (Raise (RuntimeError (utf8 "除以零错误")), st2)
      else
        match a, b with
        | NInt x, NInt y =>
            if too_large x y then fails division_too_large
            else exists q, nearest_binary64 x y q
                           /\ result = (Ok (VFloat (SF2Prim q)), st2)
        | NInt x, NFloat y =>
            if too_large x 1 then fails int_too_large
            else exists q, nearest_binary64 x 1 q
                           /\ result
                              = (Ok (VFloat (SF2Prim q / y)%float), st2)
        | NFloat x, NInt y =>
            if too_large y 1 then fails int_too_large
            else exists q, nearest_binary64 y 1 q
                           /\ result
                              = (Ok (VFloat (x / SF2Prim q)%float), st2)
        | NFloat x, NFloat y => result = (Ok (VFloat (x / y)%float), st2)
        end
  | _, _ =>
      is_bool vl = false -> is_bool vr = false ->
      exists msg, result = (Raise (RuntimeError msg), st2)
  end.
Proof.
  intros E1 E2. cbn zeta.
  erewrite visit_BinOp_eq; [|exact E1|exact E2].
  assert (Hdiv : forall a b, as_num vl = Some a -> as_num vr = Some b ->
            binop_values (utf8 "/") vl vr
            = if num_is_zero b then Raise (RuntimeError (utf8 "除以零错误"))
              else true_divide a b).
  { intros a b Ha Hb. unfold binop_values.
    change (str_eqb (utf8 "/") (utf8 "+")) with false.
    change (str_eqb (utf8 "/") (utf8 "-")) with false.
    change (str_eqb (utf8 "/") (utf8 "*")) with false.
    change (str_eqb (utf8 "/") (utf8 "/")) with true.
    cbv iota. rewrite Ha, Hb. reflexivity. }
  destruct vl as [x|x|x|x|], vr as [y|y|y|y|]; cbn [number_of];
    try (intros B1 B2; try discriminate; eexists; reflexivity).
  - (* two integers *)
    rewrite (Hdiv (NInt x) (NInt y) eq_refl eq_refl).
    cbn [num_is_zero]. destruct (Z.eqb_spec y 0) as [_|Hy]; [reflexivity|].
    unfold true_divide.
    pose proof (int_true_divide_nearest x y Hy) as Hq.
    destruct (too_large x y).
    + rewrite Hq. reflexivity.
    + destruct Hq as (q & Hn & ->). exists q. split; [exact Hn|reflexivity].
  - (* an integer by a fraction *)
    rewrite (Hdiv (NInt x) (NFloat y) eq_refl eq_refl).
    destruct (num_is_zero (NFloat y)); [reflexivity|].
    unfold true_divide.
    pose proof (float_of_int_nearest x) as Hq.
    destruct (too_large x 1).
    + rewrite Hq. reflexivity.
    + destruct Hq as (q & Hn & ->). exists q. split; [exact Hn|reflexivity].
  - (* a fraction by an integer *)
    rewrite (Hdiv (NFloat x) (NInt y) eq_refl eq_refl).
    destruct (num_is_zero (NInt y)); [reflexivity|].
    unfold true_divide.
    pose proof (float_of_int_nearest y) as Hq.
    destruct (too_large y 1).
    + rewrite Hq. reflexivity.
    + destruct Hq as (q & Hn & ->). exists q. split; [exact Hn|reflexivity].
  - (* two fractions *)
    rewrite (Hdiv (NFloat x) (NFloat y) eq_refl eq_refl).
    destruct (num_is_zero (NFloat y)); reflexivity.
Qed.

End Operators.

(** ** A world to run examples in: CPython's character classes, no files. *)

Definition no_files : FileSystem := Files [].

Definition visit0 : AST -> State -> effect :=
  visit (H := CPython) (F := no_files)
    (interpret (H := CPython) (F := no_files) 0).

(** An environment with two names, in which [z] is looked up. *)
Definition x_and_y : State :=
  mkState [(utf8 "x", VInt 1); (utf8 "y", VInt 2)] [] [] [].

Lemma C7_unbound_variable_message_witness :
  (exists msg names listing,
     visit0 (Variable_ (utf8 "z")) x_and_y = (Raise (RuntimeError msg), x_and_y)
     /\ contains msg (utf8 "z")
     /\ contains msg listing
     /\ comma_separated names listing
     /\ (forall k, In k names <-> bound x_and_y k)
     /\ (forall k, bound x_and_y k -> contains msg k)
     /\ listing = join (utf8 ", ") (dict_keys (variables x_and_y)))
  /\ visit0 (Variable_ (utf8 "z")) x_and_y
     = (Raise (RuntimeError (utf8 "未定义的变量: 'z'。可用的变量: [x, y]")),
        x_and_y).
Proof.
  split.
  - apply (C7_unbound_variable_message (H := CPython) (F := no_files)).
    reflexivity.
  - vm_compute. reflexivity.
Defined.

(** C5 as stated fails on an integer compared with a fraction: the check
    of the operand types comes first and raises. *)
Lemma C5_counterexample_int_and_fraction :
  visit0 (Comparison (Number (VInt 1)) (utf8 "<") (Number (VFloat 2.5)))
    Interpreter_init
  = (Raise (RuntimeError (utf8 "比较运算类型不匹配: int 和 float")),
     Interpreter_init).
Proof. vm_compute. reflexivity. Qed.

Lemma C5_ordering_same_numeric_type_witness :
  visit0 (Comparison (Number (VInt 1)) (utf8 "<") (Number (VInt 2)))
    Interpreter_init
  = (Ok (VBool (Z_order (utf8 "<") 1 2)), Interpreter_init).
Proof.
  exact (@C5_ordering_same_numeric_type CPython no_files
           (interpret (H := CPython) (F := no_files) 0)
           (Number (VInt 1)) (Number (VInt 2)) (utf8 "<")
           Interpreter_init Interpreter_init Interpreter_init
           (VInt 1) (VInt 2) (or_introl eq_refl) eq_refl eq_refl).
Defined.

(** C8 as stated fails on [1 / 3]: the result is the binary64 nearest to
    the quotient, not the quotient. *)
Lemma C8_counterexample_one_third :
  exists q,
    visit0 (BinOp (Number (VInt 1)) (utf8 "/") (Number (VInt 3)))
      Interpreter_init
    = (Ok (VFloat q), Interpreter_init)
    /\ exact_quotient q 1 3 = false.
Proof. eexists. split; vm_compute; reflexivity. Qed.

(** Nor does every division by a number that is not zero give a value:
    the quotient of two integers can be too large for a binary64. *)
Lemma division_overflow :
  visit0 (BinOp (Number (VInt (10 ^ 400))) (utf8 "/") (Number (VInt 1)))
    Interpreter_init
  = (Raise (RuntimeError
              (utf8 "运行时错误: integer division result too large for a float")),
     Interpreter_init).
Proof. vm_compute. reflexivity. Qed.

(** [7 / 2] is 3.5, the binary64 [7881299347898368 * 2^-51]; so is
    [7 / 2.0]; [10^400 / 1] is too large and [7 / 0] divides by zero. *)
Lemma C8_division_witness :
  (exists q,
     nearest_binary64 7 2 q
     /\ visit0 (BinOp (Number (VInt 7)) (utf8 "/") (Number (VInt 2)))
          Interpreter_init
        = (Ok (VFloat (SF2Prim q)), Interpreter_init))
  /\ visit0 (BinOp (Number (VInt 7)) (utf8 "/") (Number (VInt 2)))
       Interpreter_init
     = (Ok (VFloat 3.5), Interpreter_init)
  /\ (exists q,
        nearest_binary64 7 1 q
        /\ visit0 (BinOp (Number (VInt 7)) (utf8 "/") (Number (VFloat 2)))
             Interpreter_init
           = (Ok (VFloat (SF2Prim q / 2)%float), Interpreter_init))
  /\ visit0 (BinOp (Number (VInt (10 ^ 400))) (utf8 "/") (Number (VInt 1)))
       Interpreter_init
     = (Raise (RuntimeError (utf8 "运行时错误: " ++ division_too_large)),
        Interpreter_init)
  /\ visit0 (BinOp (Number (VInt 7)) (utf8 "/") (Number (VInt 0)))
       Interpreter_init
     = (Raise (RuntimeError (utf8 "除以零错误")), Interpreter_init).
Proof.
  split; [|split; [|split; [|split]]].
  - exact (@C8_division CPython no_files
             (interpret (H := CPython) (F := no_files) 0)
             (Number (VInt 7)) (Number (VInt 2))
             Interpreter_init Interpreter_init Interpreter_init
             (VInt 7) (VInt 2) eq_refl eq_refl).
  - vm_compute. reflexivity.
  - exact (@C8_division CPython no_files
             (interpret (H := CPython) (F := no_files) 0)
             (Number (VInt 7)) (Number (VFloat 2))
             Interpreter_init Interpreter_init Interpreter_init
             (VInt 7) (VFloat 2) eq_refl eq_refl).
  - exact (@C8_division CPython no_files
             (interpret (H := CPython) (F := no_files) 0)
             (Number (VInt (10 ^ 400))) (Number (VInt 1))
             Interpreter_init Interpreter_init Interpreter_init
             (VInt (10 ^ 400)) (VInt 1) eq_refl eq_refl).
  - exact (@C8_division CPython no_files
             (interpret (H := CPython) (F := no_files) 0)
             (Number (VInt 7)) (Number (VInt 0))
             Interpreter_init Interpreter_init Interpreter_init
             (VInt 7) (VInt 0) eq_refl eq_refl).
Defined.

Lemma seven_halves :
  SFdiv prec emax (SF_of_Z 7) (SF_of_Z 2)
  = S754_finite false 7881299347898368 (-51)
  /\ nearest_binary64 7 2 (S754_finite false 7881299347898368 (-51)).
Proof.
  split; [vm_compute; reflexivity|].
  exact (SFdiv_integers 7 2 ltac:(discriminate)).
Qed.

(** Large integers divide as long as the quotient is in range, and
    integers that divide evenly give a fraction; zero takes the sign of
    the quotient. *)
Lemma division_of_large_integers :
  visit0 (BinOp (Number (VInt (10 ^ 400))) (utf8 "/")
            (Number (VInt (10 ^ 399)))) Interpreter_init
  = (Ok (VFloat 10), Interpreter_init).
Proof. vm_compute. reflexivity. Qed.

Lemma division_of_even_integers :
  visit0 (BinOp (Number (VInt 6)) (utf8 "/") (Number (VInt 3)))
    Interpreter_init
  = (Ok (VFloat 2), Interpreter_init).
Proof. vm_compute. reflexivity. Qed.

Lemma conversion_overflow :
  visit0 (BinOp (Number (VInt (10 ^ 400))) (utf8 "/") (Number (VFloat 2)))
    Interpreter_init
  = (Raise (RuntimeError
              (utf8 "运行时错误: int too large to convert to float")),
     Interpreter_init).
Proof. vm_compute. reflexivity. Qed.

(** ** The dict *)

Lemma dict_get_set_same (d : dict) (k : pystr) (v : value) :
  dict_get (dict_set d k v) k = Some v.
Proof.
  induction d as [|[k' v'] d IH]; simpl.
  - rewrite str_eqb_refl. reflexivity.
  - destruct (str_eqb k k') eqn:E; simpl; rewrite E; auto.
Qed.

Lemma dict_get_set_other (d : dict) (k k' : pystr) (v : value) :
  k' <> k -> dict_get (dict_set d k v) k' = dict_get d k'.
Proof.
  intros Hk. induction d as [|[k0 v0] d IH]; simpl.
  - destruct (str_eqb_spec k' k); [contradiction|reflexivity].
  - destruct (str_eqb_spec k k0) as [->|Hk0]; simpl.
    + destruct (str_eqb_spec k' k0); [contradiction|reflexivity].
    + destruct (str_eqb k' k0); auto.
Qed.

(** ** Messages are never empty *)

Lemma app_nonempty (a b : pystr) : a <> [] -> a ++ b <> [].
Proof. destruct a; simpl; congruence. Qed.

Ltac nonempty :=
  solve [ apply app_nonempty; vm_compute; discriminate
        | vm_compute; discriminate ].

(** An effect whose [RuntimeError], if it is one, has a message. *)
Definition has_message (r : effect) : Prop :=
  forall m st, r = (Raise (RuntimeError m), st) -> m <> [].

Lemma has_message_Ok (v : value) (st : State) : has_message (Ok v, st).
Proof. intros m st' E. discriminate. Qed.

Lemma has_message_Diverge (st : State) : has_message (Diverge, st).
Proof. intros m st' E. discriminate. Qed.

Lemma has_message_HostError (m : pystr) (st : State) :
  has_message (Raise (HostError m), st).
Proof. intros m' st' E. discriminate. Qed.

Lemma has_message_raise (m : pystr) (st : State) :
  m <> [] -> has_message (raise_RuntimeError m st).
Proof. intros Hm m' st' E. inversion E; subst. exact Hm. Qed.

Lemma has_message_outcome (r : outcome value) (st : State) :
  (forall m, r = Raise (RuntimeError m) -> m <> []) -> has_message (r, st).
Proof. intros Hr m st' E. inversion E; subst. apply Hr. reflexivity. Qed.

Lemma visit_guard_has_message (r : effect) :
  has_message r -> has_message (visit_guard r).
Proof.
  intros Hr m st E. destruct r as [[v|[m0|m0|m0|m0]|] st0]; simpl in E;
    inversion E; subst; try nonempty.
  eapply Hr. reflexivity.
Qed.

Create HintDb messages.
#[local] Hint Resolve has_message_Ok has_message_Diverge has_message_HostError
  has_message_raise visit_guard_has_message : messages.

Lemma compare_values_message (op : pystr) (l r : value) (m : pystr) :
  compare_values op l r = Raise (RuntimeError m) -> m <> [].
Proof.
  unfold compare_values.
  repeat match goal with
         | |- context [if ?b then _ else _] => destruct b
         end; intros E; inversion E; nonempty.
Qed.

Lemma bind_HostError {A B} (c : outcome A) (k : A -> outcome B) (m : pystr) :
  (forall m', c <> Raise (RuntimeError m')) ->
  (forall a m', k a <> Raise (RuntimeError m')) ->
  bind c k <> Raise (RuntimeError m).
Proof.
  intros Hc Hk. destruct c; simpl; [apply Hk | | discriminate].
  intros E. apply (Hc m). congruence.
Qed.

Lemma float_of_int_raises (z : Z) (m : pystr) :
  float_of_int z <> Raise (RuntimeError m).
Proof.
  unfold float_of_int.
  destruct (binary_normalize prec emax z 0 false); discriminate.
Qed.

Lemma arith_raises iop fop (a b : num) (m : pystr) :
  arith iop fop a b <> Raise (RuntimeError m).
Proof.
  destruct a, b; simpl; try discriminate;
    apply bind_HostError; intros; try apply float_of_int_raises; discriminate.
Qed.

Lemma true_divide_raises (a b : num) (m : pystr) :
  true_divide a b <> Raise (RuntimeError m).
Proof.
  unfold true_divide. apply bind_HostError; [|discriminate].
  intros m'. destruct a, b; try discriminate.
  - unfold int_true_divide.
    destruct (SFdiv prec emax (SF_of_Z z) (SF_of_Z z0)); discriminate.
  - apply bind_HostError; intros; try apply float_of_int_raises; discriminate.
  - apply bind_HostError; intros; try apply float_of_int_raises; discriminate.
Qed.

Lemma str_repeat_raises (s : pystr) (n : Z) (m : pystr) :
  str_repeat s n <> Raise (RuntimeError m).
Proof.
  unfold str_repeat.
  repeat match goal with
         | |- context [if ?b then _ else _] => destruct b
         end; discriminate.
Qed.

Lemma binop_values_message {H : Host} (op : pystr) (l r : value) (m : pystr) :
  binop_values op l r = Raise (RuntimeError m) -> m <> [].
Proof.
  unfold binop_values.
  repeat match goal with
         | |- context [if ?b then _ else _] => destruct b
         | |- context [match as_num ?v with _ => _ end] => destruct (as_num v)
         end; intros E;
    try (exfalso; revert E;
         first [ apply arith_raises | apply true_divide_raises
               | apply str_repeat_raises ]);
    inversion E; nonempty.
Qed.

Section WhileFacts.
Variable condition body : State -> effect.

(** A property of effects that the condition and the body have at every
    state, and that the guard's own error has, holds of the loop. *)
Lemma while_loop_ind (P : effect -> Prop) :
  (forall st, P (condition st)) ->
  (forall st, P (body st)) ->
  (forall st, P (Ok VNone, st)) ->
  (forall st, P (Diverge, st)) ->
  (forall st,
      P (raise_RuntimeError loop_limit_message st)) ->
  forall budget iterations st,
    P (while_loop condition body budget iterations st).
Proof.
  intros Hc Hb Hok Hdiv Hmax.
  induction budget as [|n IH]; intros i st; simpl;
    (specialize (Hc st); destruct (condition st) as [[c|e|] st1]; auto;
     destruct (truthy c); auto;
     specialize (Hb st1); destruct (body st1) as [[w|e|] st2]; auto;
     destruct (i + 1 >? max_iterations); auto).
Qed.

End WhileFacts.

(** ** Shapes of the nodes the parser builds

    [expr] builds numbers, strings, variables and binary operations over
    them; [comparison] builds an [expr] or one comparison of two; a
    statement has an [expr] where a value is printed or assigned and a
    [comparison] as its condition. *)

Fixpoint expr_shape (n : AST) : bool :=
  match n with
  | Number (VInt _) | Number (VFloat _) => true
  | String (VStr _) => true
  | Variable_ _ => true
  | BinOp l _ r => expr_shape l && expr_shape r
  | _ => false
  end.

Definition comparison_shape (n : AST) : bool :=
  match n with
  | Comparison l _ r => expr_shape l && expr_shape r
  | _ => expr_shape n
  end.

Fixpoint statement_shape (n : AST) : bool :=
  match n with
  | Print e => expr_shape e
  | Assign _ e => expr_shape e
  | If c t f =>
      comparison_shape c && forallb statement_shape t
      && match f with
         | Some l => forallb statement_shape l
         | None => true
         end
  | While c b => comparison_shape c && forallb statement_shape b
  | Import _ => true
  | TryCatch t c _ => forallb statement_shape t && forallb statement_shape c
  | _ => false
  end.

Section Messages.
Context {H : Host} {F : FileSystem}.
Variable hook : list AST -> State -> effect.

Lemma for_each_ind (P : effect -> Prop) (stmts : list AST) :
  Forall (fun s => forall st, P (visit hook s st)) stmts ->
  (forall st, P (Ok VNone, st)) ->
  forall st, P (for_each (visit hook) stmts st).
Proof.
  intros Hall Hok. induction Hall as [|s l Hs _ IH]; intros st; simpl.
  - apply Hok.
  - specialize (Hs st). destruct (visit hook s st) as [[v|e|] st1]; auto.
Qed.

Lemma visit_Import_has_message (m : pystr) (st : State) :
  has_message (visit_Import hook m st).
Proof.
  unfold visit_Import.
  destruct (set_in m (imported_modules st)); auto with messages.
  destruct (find_module m) as [[[|c p]|]|msg]; auto with messages;
    try (apply has_message_raise; nonempty).
  destruct (read_text (c :: p)) as [code|msg];
    [|apply has_message_raise; nonempty].
  destruct (match parse_text code (c :: p) with
            | Ok ast => hook ast _
            | Raise e => _
            | Diverge => _
            end) as [[v|e|] st'];
    auto with messages.
  destruct e; simpl; auto with messages; apply has_message_raise; nonempty.
Qed.

(** Every [RuntimeError] that [visit] raises has a message. *)
Lemma visit_has_message (node : AST) :
  forall st, has_message (visit hook node st).
Proof.
  induction node using AST_induction; intros st; cbn [visit];
    apply visit_guard_has_message.
  - (* Print *)
    specialize (IHnode st).
    destruct (visit hook node st) as [[v|e|] st1]; auto with messages.
  - (* Assign *)
    specialize (IHnode st).
    destruct (visit hook node st) as [[v|e|] st1]; auto with messages.
  - (* Variable *)
    unfold visit_Variable. destruct (dict_get (variables st) x);
      auto with messages. apply has_message_raise; nonempty.
  - auto with messages.
  - auto with messages.
  - (* If *)
    specialize (IHnode st).
    destruct (visit hook node st) as [[v|e|] st1]; auto with messages.
    destruct (negb (is_bool v)); [apply has_message_raise; nonempty|].
    destruct (truthy v).
    + apply for_each_ind; auto with messages.
    + destruct f as [[|s l]|]; auto with messages.
      apply for_each_ind; auto with messages.
  - (* While *)
    apply while_loop_ind; auto with messages.
    + intros st'. apply for_each_ind; auto with messages.
    + intros st'. apply has_message_raise; nonempty.
  - (* Comparison *)
    specialize (IHnode1 st).
    destruct (visit hook node1 st) as [[v|e|] st1]; auto with messages.
    specialize (IHnode2 st1).
    destruct (visit hook node2 st1) as [[w|e|] st2]; auto with messages.
    apply has_message_outcome. apply compare_values_message.
  - (* BinOp *)
    specialize (IHnode1 st).
    destruct (visit hook node1 st) as [[v|e|] st1]; auto with messages.
    specialize (IHnode2 st1).
    destruct (visit hook node2 st1) as [[w|e|] st2]; auto with messages.
    apply has_message_outcome. apply binop_values_message.
  - (* Import *)
    apply visit_Import_has_message.
  - (* TryCatch *)
    pose proof (for_each_ind has_message t H0 (has_message_Ok VNone) st)
      as Ht.
    destruct (for_each (visit hook) t st) as [[v|e|] st1]; auto with messages.
    apply for_each_ind; auto with messages.
Qed.

(** What a statement raises has a message that is not empty. *)
Lemma visit_raise_nonempty (node : AST) (st st' : State) (e : exn) :
  visit hook node st = (Raise e, st') -> exn_str e <> [].
Proof.
  intros E. destruct (visit_raises _ _ _ _ _ E) as [m ->].
  simpl. eapply visit_has_message. exact E.
Qed.

End Messages.

(** ** Expressions do not change the state *)

Section Expressions.
Context {H : Host} {F : FileSystem}.
Variable hook : list AST -> State -> effect.

Lemma visit_expr_state (e : AST) :
  expr_shape e = true -> forall st, snd (visit hook e st) = st.
Proof.
  induction e using AST_induction; cbn [expr_shape]; intros Hs st;
    try discriminate; cbn [visit]; rewrite visit_guard_state.
  - unfold visit_Variable. destruct (dict_get (variables st) x); reflexivity.
  - reflexivity.
  - reflexivity.
  - apply andb_prop in Hs as [Hs1 Hs2].
    specialize (IHe1 Hs1 st).
    destruct (visit hook e1 st) as [[v|e|] st1]; simpl in IHe1; subst;
      try reflexivity.
    specialize (IHe2 Hs2 st).
    destruct (visit hook e2 st) as [[w|e|] st2]; simpl in IHe2; subst;
      reflexivity.
Qed.

(** A [Print] or an [Assign] whose expression fails leaves the state as
    it was. *)
Definition simple_statement (s : AST) : bool :=
  match s with
  | Print e | Assign _ e => expr_shape e
  | _ => false
  end.

Lemma simple_statement_raise (s : AST) (st st' : State) (e : exn) :
  simple_statement s = true ->
  visit hook s st = (Raise e, st') -> st' = st.
Proof.
  destruct s; simpl simple_statement; intros Hs; try discriminate;
    cbn [visit]; pose proof (visit_expr_state s Hs st) as Hp;
    destruct (visit hook s st) as [[v|e0|] st1]; simpl in Hp; subst;
    intros E; try discriminate E.
  - destruct e0; inversion E; reflexivity.
  - destruct e0; inversion E; reflexivity.
Qed.

Lemma for_each_Ok (stmts : list AST) (st st' : State) (v : value) :
  for_each (visit hook) stmts st = (Ok v, st') -> v = VNone.
Proof.
  revert st; induction stmts as [|s l IH]; intros st; simpl.
  - congruence.
  - destruct (visit hook s st) as [[w|e|] st1]; try discriminate. apply IH.
Qed.

(** ** TryCatch *)

(** The state in which the catch-block starts: the state the failure left,
    with the error variable set to the message. *)
Definition catch_entry (st : State) (error_var : pystr) (e : exn) : State :=
  set_variables st (dict_set (variables st) error_var (VStr (exn_str e))).

(** C6: when a statement of the try-block fails, the catch-block runs
    from the state the failure left with the catch variable bound to the
    message of the failure, a text that is not empty; when the try-block
    completes, the [TryCatch] ends in the state the try-block left: the
    catch-block is not run and the catch variable is not bound. *)
Theorem C6_try_catch (try_block catch_block : list AST) (error_var : pystr)
  (st : State) :
  (forall pre bad post v st1 e st2,
      try_block = pre ++ bad :: post ->
      for_each (visit hook) pre st = (Ok v, st1) ->
      visit hook bad st1 = (Raise e, st2) ->
      visit hook (TryCatch try_block catch_block error_var) st
      = for_each (visit hook) catch_block (catch_entry st2 error_var e)
      /\ dict_get (variables (catch_entry st2 error_var e)) error_var
         = Some (VStr (exn_str e))
      /\ exn_str e <> [])
  /\ (forall v st1,
         for_each (visit hook) try_block st = (Ok v, st1) ->
         visit hook (TryCatch try_block catch_block error_var) st
         = (Ok VNone, st1)).
Proof.
  split.
  - intros pre bad post v st1 e st2 -> Epre Ebad.
    rewrite visit_TryCatch_eq.
    erewrite for_each_app_raise; [|exact Epre|exact Ebad].
    split; [reflexivity|]. split.
    + apply dict_get_set_same.
    + eapply visit_raise_nonempty. exact Ebad.
  - intros v st1 Etry. rewrite visit_TryCatch_eq, Etry.
    rewrite (for_each_Ok _ _ _ _ Etry). reflexivity.
Qed.

(** C10, as the code has it: nothing is rolled back.  The catch-block
    starts from the state in which the failing statement left the try-block
    and sees every binding of it, except that of the catch variable, which
    holds the message; when the failing statement is a [Print] or an
    [Assign], these are the bindings that the statements before it left. *)
Theorem C10_no_rollback (pre post catch_block : list AST) (bad : AST)
  (error_var : pystr) (st st1 st2 : State) (v : value) (e : exn) :
  for_each (visit hook) pre st = (Ok v, st1) ->
  visit hook bad st1 = (Raise e, st2) ->
  visit hook (TryCatch (pre ++ bad :: post) catch_block error_var) st
  = for_each (visit hook) catch_block (catch_entry st2 error_var e)
  /\ (forall x, x <> error_var ->
        dict_get (variables (catch_entry st2 error_var e)) x
        = dict_get (variables st2) x)
  /\ (simple_statement bad = true ->
      forall x, x <> error_var ->
        dict_get (variables (catch_entry st2 error_var e)) x
        = dict_get (variables st1) x).
Proof.
  intros Epre Ebad. split; [|split].
  - rewrite visit_TryCatch_eq.
    erewrite for_each_app_raise; [|exact Epre|exact Ebad]. reflexivity.
  - intros x Hx. apply dict_get_set_other. exact Hx.
  - intros Hs x Hx.
    rewrite <- (simple_statement_raise bad st1 st2 e Hs Ebad).
    apply dict_get_set_other. exact Hx.
Qed.

End Expressions.

(** ** Examples of TryCatch *)

Definition div_10_0 : AST := BinOp (Number (VInt 10)) (utf8 "/") (Number (VInt 0)).

Definition division_by_zero : exn := RuntimeError (utf8 "除以零错误").

Definition hook0 : list AST -> State -> effect :=
  interpret (H := CPython) (F := no_files) 0.

Lemma C6_try_catch_witness :
  (visit0 (TryCatch [Assign (utf8 "x") div_10_0; Print (Variable_ (utf8 "x"))]
             [Print (Variable_ (utf8 "e"))] (utf8 "e")) Interpreter_init
   = for_each visit0 [Print (Variable_ (utf8 "e"))]
       (catch_entry Interpreter_init (utf8 "e") division_by_zero)
   /\ dict_get
        (variables (catch_entry Interpreter_init (utf8 "e") division_by_zero))
        (utf8 "e")
      = Some (VStr (exn_str division_by_zero))
   /\ exn_str division_by_zero <> [])
  /\ visit0 (TryCatch [Assign (utf8 "x") (Number (VInt 1))]
               [Print (Variable_ (utf8 "e"))] (utf8 "e")) Interpreter_init
     = (Ok VNone, mkState [(utf8 "x", VInt 1)] [] [] []).
Proof.
  split.
  - apply (proj1 (C6_try_catch (H := CPython) (F := no_files) hook0
                    [Assign (utf8 "x") div_10_0; Print (Variable_ (utf8 "x"))]
                    [Print (Variable_ (utf8 "e"))] (utf8 "e")
                    Interpreter_init)
             [] (Assign (utf8 "x") div_10_0) [Print (Variable_ (utf8 "x"))]
             VNone Interpreter_init division_by_zero Interpreter_init);
      reflexivity.
  - apply (proj2 (C6_try_catch (H := CPython) (F := no_files) hook0
                    [Assign (utf8 "x") (Number (VInt 1))]
                    [Print (Variable_ (utf8 "e"))] (utf8 "e")
                    Interpreter_init) VNone).
    reflexivity.
Defined.

(** C10 as stated fails for an assignment to the name of the catch
    variable: the try-block completes [e = 1] and then fails, and the
    catch-block, which copies [e] to [y], finds the message in [e]. *)
Lemma C10_counterexample_catch_variable :
  exists st',
    visit0 (TryCatch [Assign (utf8 "e") (Number (VInt 1));
                      Assign (utf8 "x") div_10_0]
              [Assign (utf8 "y") (Variable_ (utf8 "e"))] (utf8 "e"))
      Interpreter_init
    = (Ok VNone, st')
    /\ dict_get (variables st') (utf8 "y")
       = Some (VStr (utf8 "除以零错误")).
Proof. eexists. split; vm_compute; reflexivity. Qed.

Lemma C10_no_rollback_witness :
  visit0 (TryCatch ([Assign (utf8 "x") (Number (VInt 1))]
                      ++ Assign (utf8 "y") div_10_0 :: [])
            [Print (Variable_ (utf8 "x"))] (utf8 "e")) Interpreter_init
  = for_each visit0 [Print (Variable_ (utf8 "x"))]
      (catch_entry (mkState [(utf8 "x", VInt 1)] [] [] []) (utf8 "e")
         division_by_zero)
  /\ (forall x, x <> utf8 "e" ->
        dict_get
          (variables (catch_entry (mkState [(utf8 "x", VInt 1)] [] [] [])
                        (utf8 "e") division_by_zero)) x
        = dict_get (variables (mkState [(utf8 "x", VInt 1)] [] [] [])) x)
  /\ (simple_statement (Assign (utf8 "y") div_10_0) = true ->
      forall x, x <> utf8 "e" ->
        dict_get
          (variables (catch_entry (mkState [(utf8 "x", VInt 1)] [] [] [])
                        (utf8 "e") division_by_zero)) x
        = dict_get (variables (mkState [(utf8 "x", VInt 1)] [] [] [])) x).
Proof.
  apply (C10_no_rollback (H := CPython) (F := no_files) hook0
           [Assign (utf8 "x") (Number (VInt 1))] []
           [Print (Variable_ (utf8 "x"))] (Assign (utf8 "y") div_10_0)
           (utf8 "e") Interpreter_init
           (mkState [(utf8 "x", VInt 1)] [] [] [])
           (mkState [(utf8 "x", VInt 1)] [] [] []) VNone division_by_zero);
    reflexivity.
Defined.

(** ** The guard of While *)

Section WhileGuard.
Variable condition body : State -> effect.
Variable step : State -> State.
Hypothesis condition_true :
  forall st, exists c, condition st = (Ok c, st) /\ truthy c = true.
Hypothesis body_completes : forall st, exists v, body st = (Ok v, step st).

Lemma while_loop_always_true_from (budget : nat) (iterations : Z) (st : State) :
  iterations + Z.of_nat budget = max_iterations ->
  while_loop condition body budget iterations st
  = raise_RuntimeError loop_limit_message (Nat.iter (S budget) step st).
Proof.
  revert iterations st. induction budget as [|n IH]; intros i st Hi;
    cbn [while_loop];
    destruct (condition_true st) as [c [-> ->]];
    destruct (body_completes st) as [v ->].
  - destruct (Z.gtb_spec (i + 1) max_iterations) as [_|Hle];
      [reflexivity|]. rewrite Z.add_0_r in Hi. lia.
  - destruct (Z.gtb_spec (i + 1) max_iterations) as [Hgt|_]; [lia|].
    rewrite IH by lia. rewrite <- Nat.iter_succ_r. reflexivity.
Qed.

(** The bodies a loop runs when its condition stays true. *)
Definition bodies_run : nat := S (Z.to_nat max_iterations).

Lemma bodies_run_10001 : Z.of_nat bodies_run = 10001.
Proof. vm_compute. reflexivity. Qed.

(** A loop whose condition is always true and whose body always completes
    raises after the body has run 10001 times. *)
Lemma while_loop_always_true (st : State) :
  while_loop condition body (Z.to_nat max_iterations) 0 st
  = raise_RuntimeError loop_limit_message (Nat.iter bodies_run step st).
Proof.
  apply while_loop_always_true_from.
  rewrite Z2Nat.id; [reflexivity|]. unfold max_iterations. lia.
Qed.

End WhileGuard.

(** ** Conditions that are not booleans *)

Section Conditions.
Context {H : Host} {F : FileSystem}.
Variable hook : list AST -> State -> effect.

(** [visit_If] checks the type of its condition. *)
Lemma visit_If_not_boolean (c : AST) (t : list AST) (f : option (list AST))
  (st st1 : State) (v : value) :
  visit hook c st = (Ok v, st1) ->
  is_bool v = false ->
  visit hook (If c t f) st
  = raise_RuntimeError
      (utf8 "条件表达式必须为布尔值，得到: " ++ type_name v) st1.
Proof.
  intros E Hv. erewrite visit_If_eq by exact E. rewrite Hv. reflexivity.
Qed.

(** [visit_While] does not: a condition that is false as a truth value
    ends the loop, whatever its type. *)
Lemma visit_While_falsy (c : AST) (body : list AST) (st st1 : State)
  (v : value) :
  visit hook c st = (Ok v, st1) ->
  truthy v = false ->
  visit hook (While c body) st = (Ok VNone, st1).
Proof.
  intros E Hv. rewrite visit_While_eq.
  destruct (Z.to_nat max_iterations); cbn [while_loop];
    rewrite E, Hv; reflexivity.
Qed.

(** A [While] whose condition always holds and whose body always
    completes: the error of the guard, after [bodies_run] bodies. *)
Lemma visit_While_always_true (c : AST) (body : list AST)
  (step : State -> State) :
  (forall st, exists v, visit hook c st = (Ok v, st) /\ truthy v = true) ->
  (forall st, exists v, for_each (visit hook) body st = (Ok v, step st)) ->
  forall st,
    visit hook (While c body) st
    = raise_RuntimeError loop_limit_message (Nat.iter bodies_run step st).
Proof.
  intros Hc Hb st. rewrite visit_While_eq.
  rewrite (while_loop_always_true _ _ step Hc Hb). reflexivity.
Qed.

End Conditions.

(** ** Token positions *)

Definition first_token (text : pystr) : outcome Token :=
  '(tok, _) <- get_next_token (H := CPython) (Lexer_init text (utf8 "<stdin>")) ;;
  Ok tok.

(** C3: the lexer at four texts that are one token each, starting at
    line 1, column 1.  The identifier, the keyword, the number and the
    string each carry the column after their last character. *)
Theorem C3_token_carries_end_position :
  first_token (utf8 "abc") = Ok (mkToken IDENTIFIER (VStr (utf8 "abc")) 1 4)
  /\ first_token (utf8 "打印") = Ok (mkToken PRINT (VStr (utf8 "打印")) 1 3)
  /\ first_token (utf8 "42") = Ok (mkToken NUMBER (VInt 42) 1 3)
  /\ first_token (dquote :: utf8 "hi" ++ [dquote])
     = Ok (mkToken STRING (VStr (utf8 "hi")) 1 5).
Proof. split; [|split; [|split]]; vm_compute; reflexivity. Qed.

(** The tokens built before [advance] do carry their first column. *)
Lemma operator_tokens_carry_start_position :
  first_token (utf8 "<= 1") = Ok (mkToken COMPARISON (VStr (utf8 "<=")) 1 1)
  /\ first_token (utf8 "  ;") = Ok (mkToken SEMICOLON (VStr (utf8 ";")) 1 3).
Proof. split; vm_compute; reflexivity. Qed.

(** ** Imports *)

Definition quoted (s : pystr) : pystr := dquote :: s ++ [dquote].

(** [a.mylang] imports [lib]; [lib.mylang] sets [k]. *)
Definition two_modules : FileSystem :=
  Files [ (utf8 "a.mylang", utf8 "导入 " ++ quoted (utf8 "lib") ++ utf8 ";");
          (utf8 "lib.mylang", utf8 "k = 42;") ].

Section ImportTwice.
Context {H : Host} {F : FileSystem}.
Variable hook : list AST -> State -> effect.

Lemma set_in_add (k : pystr) (s : pyset) : set_in k (set_add k s) = true.
Proof.
  unfold set_add. destruct (set_in k s) eqn:E; [exact E|].
  unfold set_in. rewrite existsb_app. simpl. rewrite str_eqb_refl.
  rewrite orb_true_r. reflexivity.
Qed.

(** In one interpreter an [Import] of a name already in its set does
    nothing, and an [Import] puts the name in the set, whatever comes of
    loading the module. *)
Lemma visit_Import_again (m : pystr) (st : State) :
  set_in m (imported_modules st) = true ->
  visit hook (Import m) st = (Ok VNone, st).
Proof.
  intros Hm. cbn [visit]. unfold visit_Import. rewrite Hm. reflexivity.
Qed.

Lemma visit_Import_records (m : pystr) (st : State) :
  set_in m (imported_modules (snd (visit hook (Import m) st))) = true.
Proof.
  cbn [visit]. rewrite visit_guard_state. unfold visit_Import.
  destruct (set_in m (imported_modules st)) eqn:Hm; [exact Hm|].
  destruct (find_module m) as [[[|c p]|]|msg]; simpl; try apply set_in_add.
  destruct (read_text (c :: p)) as [code|msg]; simpl; try apply set_in_add.
  destruct (match parse_text code (c :: p) with
            | Ok ast => hook ast _
            | Raise e => _
            | Diverge => _
            end) as [[v|e|] st'];
    simpl; try apply set_in_add.
  destruct (is_MyLangError e); simpl; apply set_in_add.
Qed.

End ImportTwice.

(** ** What the front end builds *)

(** The value of a [NUMBER] token is a number, that of a [STRING] token a
    text. *)
Definition token_value_ok (tok : Token) : bool :=
  match tok_type tok, tok_value tok with
  | NUMBER, (VInt _ | VFloat _) => true
  | NUMBER, _ => false
  | STRING, VStr _ => true
  | STRING, _ => false
  | _, _ => true
  end.

Lemma bind_Ok {A B} (c : outcome A) (k : A -> outcome B) (b : B) :
  bind c k = Ok b -> exists a, c = Ok a /\ k a = Ok b.
Proof. destruct c; simpl; intros E; try discriminate. eauto. Qed.

(** Take apart a hypothesis that says a sequence of calls returned. *)
Ltac returned E :=
  match type of E with
  | bind ?c _ = Ok _ =>
      let a := fresh "a" in
      let E1 := fresh "E" in
      let E2 := fresh "E" in
      apply bind_Ok in E; destruct E as [a [E1 E2]];
      try returned E1; try returned E2
  | (let '(_, _) := ?x in _) = Ok _ =>
      destruct x; try returned E
  | (if ?b then _ else _) = Ok _ =>
      let Hb := fresh "Hb" in
      destruct b eqn:Hb; try returned E
  | Ok _ = Ok _ => inversion E; subst; clear E
  | Raise _ = Ok _ => discriminate E
  | Diverge = Ok _ => discriminate E
  | lexer_error _ _ = Ok _ => discriminate E
  | parser_error _ _ = Ok _ => discriminate E
  end.

Section FrontEnd.
Context {H : Host}.

Lemma keywords_get_not_NUMBER (s : pystr) :
  keywords_get keywords s IDENTIFIER <> NUMBER.
Proof.
  unfold keywords, keywords_get.
  repeat match goal with
         | |- context [if ?b then _ else _] => destruct b
         end; discriminate.
Qed.

Lemma get_next_token_loop_value (n : nat) :
  forall lx tok lx',
    get_next_token_loop n lx = Ok (tok, lx') -> token_value_ok tok = true.
Proof.
  induction n as [|n IH]; intros lx tok lx' E; cbn [get_next_token_loop] in E.
  - inversion E. reflexivity.
  - destruct (current_char lx) as [c|]; [|inversion E; reflexivity].
    unfold single in E.
    repeat match type of E with
           | (if ?b then _ else _) = _ => destruct b
           end;
      try (eapply IH; exact E);
      try (inversion E; reflexivity).
    + returned E. reflexivity.
    + unfold number in E.
      destruct (digits_loop _ _ lx) as [ip lx1].
      destruct (is_char (current_char lx1) (ch ".")).
      * destruct (digits_loop _ _ (advance lx1)) as [fp lx3].
        returned E. reflexivity.
      * returned E. reflexivity.
    + unfold identifier in E.
      destruct (identifier_loop _ _ lx) as [r lx1].
      pose proof (keywords_get_not_NUMBER r) as Hk.
      remember (keywords_get keywords r IDENTIFIER) as tt eqn:Ett. clear Ett.
      injection E as <- _. unfold token_value_ok. cbn [tok_type tok_value].
      destruct tt; try reflexivity. congruence.
Qed.

Lemma get_next_token_value (lx lx' : Lexer) (tok : Token) :
  get_next_token lx = Ok (tok, lx') -> token_value_ok tok = true.
Proof. apply get_next_token_loop_value. Qed.

(** The tokens whose text a helper method reads: strings, numbers,
    identifiers and keywords. *)
Definition helper_token_types : list TokenType :=
  [STRING; NUMBER; IDENTIFIER; PRINT; IF; ELSE; WHILE; IMPORT; TRY; CATCH].

Lemma get_next_token_loop_end_position (n : nat) :
  forall lx tok lx',
    get_next_token_loop n lx = Ok (tok, lx') ->
    type_in (tok_type tok) helper_token_types = true ->
    tok_line tok = line lx' /\ tok_column tok = column lx'.
Proof.
  induction n as [|n IH]; intros lx tok lx' E Ht;
    cbn [get_next_token_loop] in E.
  - inversion E; subst. discriminate Ht.
  - destruct (current_char lx) as [c|];
      [|inversion E; subst; discriminate Ht].
    unfold single in E.
    repeat match type of E with
           | (if ?b then _ else _) = _ => destruct b
           end;
      try (eapply IH; eassumption);
      try (inversion E; subst; discriminate Ht).
    + returned E. split; reflexivity.
    + unfold number in E.
      destruct (digits_loop _ _ lx) as [ip lx1].
      destruct (is_char (current_char lx1) (ch ".")).
      * destruct (digits_loop _ _ (advance lx1)) as [fp lx3].
        returned E. split; reflexivity.
      * returned E. split; reflexivity.
    + destruct (identifier lx) as [[tt v] lx1].
      inversion E; subst. split; reflexivity.
Qed.

(** Such a token carries the position at which the lexer stands after
    it, in every text. *)
Lemma helper_tokens_carry_end_position (lx lx' : Lexer) (tok : Token) :
  get_next_token lx = Ok (tok, lx') ->
  type_in (tok_type tok) helper_token_types = true ->
  tok_line tok = line lx' /\ tok_column tok = column lx'.
Proof. apply get_next_token_loop_end_position. Qed.

End FrontEnd.

Section ParserShapes.
Context {H : Host}.

(** The parser holds a well-formed token. *)
Definition token_ok (p : Parser) : Prop :=
  token_value_ok (current_token p) = true.

(** [f] returns only nodes of shape [Q], and a parser that holds a
    well-formed token. *)
Definition parses_to (Q : AST -> bool) (f : Parser -> parsing) : Prop :=
  forall p e p', token_ok p -> f p = Ok (e, p') -> Q e = true /\ token_ok p'.

Lemma Parser_init_ok (lx : Lexer) (p : Parser) :
  Parser_init lx = Ok p -> token_ok p.
Proof.
  unfold Parser_init. intros E. returned E.
  eapply get_next_token_value. eassumption.
Qed.

Lemma eat_ok (p p' : Parser) (t : TokenType) : eat p t = Ok p' -> token_ok p'.
Proof.
  unfold eat. intros E. returned E.
  eapply get_next_token_value. eassumption.
Qed.

(** Carry [token_ok] and the shapes along the calls that returned. *)
Ltac forward :=
  repeat match goal with
         | E : eat _ _ = Ok ?q |- _ =>
             lazymatch goal with
             | _ : token_ok q |- _ => fail
             | _ => pose proof (eat_ok _ _ _ E)
             end
         | Hf : parses_to _ ?f, Hp : token_ok ?p, E : ?f ?p = Ok (_, ?q) |- _ =>
             lazymatch goal with
             | _ : token_ok q |- _ => fail
             | _ => destruct (Hf _ _ _ Hp E)
             end
         end.

Lemma factor_shape (ex : Parser -> parsing) :
  parses_to expr_shape ex -> parses_to expr_shape (factor ex).
Proof.
  intros Hex p e p' Hp E. unfold factor in E.
  destruct (tok_type (current_token p)) eqn:Et; try discriminate E;
    returned E; forward; split; try assumption; try reflexivity;
    unfold token_ok, token_value_ok in Hp; rewrite Et in Hp;
    cbn [expr_shape]; destruct (tok_value (current_token p)); congruence.
Qed.

Lemma binop_loop_shape (ops : list TokenType) (operand : Parser -> parsing) :
  parses_to expr_shape operand ->
  forall n node p e p',
    expr_shape node = true -> token_ok p ->
    binop_loop ops operand n node p = Ok (e, p') ->
    expr_shape e = true /\ token_ok p'.
Proof.
  intros Hop. induction n as [|n IH]; intros node p e p' Hn Hp E;
    cbn [binop_loop] in E;
    destruct (type_in (tok_type (current_token p)) ops);
    try discriminate E; try (inversion E; subst; auto; fail).
  returned E. forward.
  match goal with
  | E' : binop_loop _ _ _ _ _ = Ok _ |- _ => eapply IH; [| |exact E']
  end; [|assumption].
  cbn [expr_shape]. apply andb_true_intro. split; assumption.
Qed.

Lemma term_shape (ex : Parser -> parsing) (n : nat) :
  parses_to expr_shape ex -> parses_to expr_shape (term ex n).
Proof.
  intros Hex p e p' Hp E. unfold term in E. returned E.
  pose proof (factor_shape ex Hex) as Hf. forward.
  eapply binop_loop_shape; [exact Hf| | |eassumption]; assumption.
Qed.

Lemma expr_parses (n : nat) : parses_to expr_shape (expr n).
Proof.
  induction n as [|n IH]; intros p e p' Hp E; cbn [expr] in E;
    [discriminate E|].
  returned E. pose proof (term_shape (expr n) n IH) as Ht. forward.
  eapply binop_loop_shape; [exact Ht| | |eassumption]; assumption.
Qed.

Lemma expr_shape_comparison (e : AST) :
  expr_shape e = true -> comparison_shape e = true.
Proof. destruct e; simpl; congruence. Qed.

Lemma comparison_parses (n : nat) : parses_to comparison_shape (comparison n).
Proof.
  intros p e p' Hp E. unfold comparison in E.
  pose proof (expr_parses n) as He.
  returned E; forward; split; try assumption.
  - cbn [comparison_shape]. apply andb_true_intro. split; assumption.
  - apply expr_shape_comparison. assumption.
Qed.

Lemma statements_loop_shape (stop : list TokenType)
  (stmt : Parser -> parsing) :
  parses_to statement_shape stmt ->
  forall n acc p l p',
    forallb statement_shape acc = true -> token_ok p ->
    statements_loop stop stmt n acc p = Ok (l, p') ->
    forallb statement_shape l = true /\ token_ok p'.
Proof.
  intros Hst. induction n as [|n IH]; intros acc p l p' Hacc Hp E;
    cbn [statements_loop] in E;
    destruct (negb (type_in (tok_type (current_token p)) stop));
    try discriminate E; try (inversion E; subst; auto; fail).
  returned E. forward.
  match goal with
  | E' : statements_loop _ _ _ _ _ = Ok _ |- _ => eapply IH; [| |exact E']
  end; [|assumption].
  rewrite forallb_app, Hacc. simpl. apply andb_true_intro. auto.
Qed.

(** A block, as a node of its own for [forward]. *)
Lemma block_shape (stmt : Parser -> parsing) (n : nat) (p p' : Parser)
  (l : list AST) :
  parses_to statement_shape stmt -> token_ok p ->
  block stmt n p = Ok (l, p') ->
  forallb statement_shape l = true /\ token_ok p'.
Proof.
  intros Hst Hp E. unfold block in E.
  eapply statements_loop_shape; [exact Hst| |exact Hp|exact E]. reflexivity.
Qed.

Ltac forward_blocks Hst :=
  repeat (forward;
          match goal with
          | Hp : token_ok ?p, E : block _ _ ?p = Ok (_, ?q) |- _ =>
              lazymatch goal with
              | _ : token_ok q |- _ => fail
              | _ => destruct (block_shape _ _ _ _ _ Hst Hp E)
              end
          end); forward.

Lemma statement_parses (n : nat) : parses_to statement_shape (statement n).
Proof.
  induction n as [|n IH]; intros p e p' Hp E; cbn [statement] in E;
    [discriminate E|].
  pose proof (expr_parses n) as He.
  pose proof (comparison_parses n) as Hc.
  destruct (tok_type (current_token p)) eqn:Et; try discriminate E;
    returned E; forward_blocks IH; split; try assumption;
    cbn [statement_shape];
    repeat (apply andb_true_intro; split); try assumption; reflexivity.
Qed.

Lemma parse_shape (n : nat) (p : Parser) (l : list AST) :
  token_ok p -> parse n p = Ok l -> forallb statement_shape l = true.
Proof.
  intros Hp E. unfold parse in E. returned E.
  match goal with
  | E' : statements_loop _ _ _ _ _ = Ok _ |- _ =>
      eapply (statements_loop_shape _ _ (statement_parses n)); [| |exact E']
  end; [reflexivity|exact Hp].
Qed.

(** Whatever the front end returns for a text is a list of statements in
    the shapes of the grammar. *)
Lemma parse_text_shape (text filename : pystr) (l : list AST) :
  parse_text text filename = Ok l -> forallb statement_shape l = true.
Proof.
  unfold parse_text. intros E. returned E.
  match goal with
  | E' : Parser_init _ = Ok _ |- _ => apply Parser_init_ok in E'
  end.
  eapply parse_shape; eassumption.
Qed.

End ParserShapes.

(** ** No boolean in the environment *)

(** An integer, a fraction or a text. *)
Definition plain (v : value) : bool :=
  match v with
  | VInt _ | VFloat _ | VStr _ => true
  | _ => false
  end.

Definition plain_env (st : State) : Prop :=
  forall k v, dict_get (variables st) k = Some v -> plain v = true.

Lemma plain_env_set (st : State) (k : pystr) (v : value) :
  plain_env st -> plain v = true ->
  plain_env (set_variables st (dict_set (variables st) k v)).
Proof.
  intros Hst Hv k' v'. cbn [set_variables variables].
  destruct (str_eqb_spec k' k) as [->|Hk].
  - rewrite dict_get_set_same. congruence.
  - rewrite dict_get_set_other by exact Hk. apply Hst.
Qed.

Lemma plain_env_same_variables (st st' : State) :
  variables st' = variables st -> plain_env st -> plain_env st'.
Proof. unfold plain_env. intros ->. auto. Qed.

Lemma arith_plain iop fop (a b : num) (v : value) :
  arith iop fop a b = Ok v -> plain v = true.
Proof.
  destruct a, b; simpl; intros E; returned E; reflexivity.
Qed.

Lemma true_divide_plain (a b : num) (v : value) :
  true_divide a b = Ok v -> plain v = true.
Proof. unfold true_divide. intros E. returned E. reflexivity. Qed.

Lemma str_repeat_plain (s : pystr) (n : Z) (v : value) :
  str_repeat s n = Ok v -> plain v = true.
Proof. unfold str_repeat. intros E. returned E. reflexivity. Qed.

Lemma binop_values_plain {H : Host} (op : pystr) (l r v : value) :
  binop_values op l r = Ok v -> plain v = true.
Proof.
  unfold binop_values.
  repeat match goal with
         | |- context [if ?b then _ else _] => destruct b
         | |- context [match as_num ?x with _ => _ end] => destruct (as_num x)
         end; intros E; try discriminate E;
    first [ exact (arith_plain _ _ _ _ _ E)
          | exact (true_divide_plain _ _ _ E)
          | exact (str_repeat_plain _ _ _ E)
          | inversion E; reflexivity ].
Qed.

Section WhileInvariant.
Variable condition body : State -> effect.
Variable I : State -> Prop.
Hypothesis condition_keeps : forall st, I st -> I (snd (condition st)).
Hypothesis body_keeps : forall st, I st -> I (snd (body st)).

(** An invariant of the condition and of the body is one of the loop. *)
Lemma while_loop_keeps (budget : nat) :
  forall iterations st,
    I st -> I (snd (while_loop condition body budget iterations st)).
Proof.
  induction budget as [|n IH]; intros i st Hst; cbn [while_loop];
    (pose proof (condition_keeps st Hst) as Hc;
     destruct (condition st) as [[c|e|] st1]; try exact Hc;
     destruct (truthy c); try exact Hc;
     pose proof (body_keeps st1 Hc) as Hb;
     destruct (body st1) as [[w|e|] st2]; try exact Hb;
     destruct (i + 1 >? max_iterations); try exact Hb).
  apply IH. exact Hb.
Qed.

End WhileInvariant.

Section Environment.
Context {H : Host} {F : FileSystem}.
Variable hook : list AST -> State -> effect.

(** The interpreter of a module keeps the environment plain when it runs
    statements in the shapes of the grammar. *)
Hypothesis hook_keeps : forall ast st,
  forallb statement_shape ast = true ->
  plain_env st -> plain_env (snd (hook ast st)).

Lemma visit_expr_plain (e : AST) :
  expr_shape e = true ->
  forall st st' v,
    plain_env st -> visit hook e st = (Ok v, st') -> plain v = true.
Proof.
  induction e using AST_induction; cbn [expr_shape]; intros Hs st st' w Hst;
    try discriminate; cbn [visit].
  - (* Variable *)
    unfold visit_Variable.
    destruct (dict_get (variables st) x) as [v|] eqn:Ex; simpl; intros E;
      inversion E; subst. eapply Hst. exact Ex.
  - (* Number *)
    simpl. intros E. inversion E; subst.
    destruct w; cbn in Hs; try discriminate Hs; reflexivity.
  - (* String *)
    simpl. intros E. inversion E; subst.
    destruct w; cbn in Hs; try discriminate Hs; reflexivity.
  - (* BinOp *)
    apply andb_prop in Hs as [Hs1 Hs2].
    pose proof (visit_expr_state hook e1 Hs1 st) as Hp1.
    destruct (visit hook e1 st) as [[v1|e|] st1];
      simpl in Hp1; subst; try (destruct e; discriminate); try discriminate.
    pose proof (visit_expr_state hook e2 Hs2 st) as Hp2.
    destruct (visit hook e2 st) as [[v2|e|] st2];
      simpl in Hp2; subst; try (destruct e; discriminate); try discriminate.
    destruct (binop_values op v1 v2) as [v|e|] eqn:Eb;
      try (destruct e; discriminate); try discriminate.
    simpl. intros E. inversion E; subst.
    eapply binop_values_plain. exact Eb.
Qed.

Lemma visit_comparison_state (c : AST) :
  comparison_shape c = true -> forall st, snd (visit hook c st) = st.
Proof.
  intros Hc st.
  destruct c; try (apply visit_expr_state; exact Hc).
  cbn [comparison_shape] in Hc. apply andb_prop in Hc as [Hs1 Hs2].
  cbn [visit]. rewrite visit_guard_state.
  pose proof (visit_expr_state hook c1 Hs1 st) as Hp1.
  destruct (visit hook c1 st) as [[v1|e|] st1]; simpl in Hp1; subst;
    try reflexivity.
  pose proof (visit_expr_state hook c2 Hs2 st) as Hp2.
  destruct (visit hook c2 st) as [[v2|e|] st2]; simpl in Hp2; subst;
    reflexivity.
Qed.

Lemma for_each_keeps (stmts : list AST) :
  Forall (fun s => statement_shape s = true ->
                   forall st, plain_env st ->
                              plain_env (snd (visit hook s st))) stmts ->
  forallb statement_shape stmts = true ->
  forall st, plain_env st -> plain_env (snd (for_each (visit hook) stmts st)).
Proof.
  intros Hall. induction Hall as [|s l Hs _ IH]; intros Hsh st Hst;
    cbn [for_each]; [exact Hst|].
  cbn [forallb] in Hsh. apply andb_prop in Hsh as [Hs1 Hs2].
  specialize (Hs Hs1 st Hst).
  destruct (visit hook s st) as [[v|e|] st1]; try exact Hs.
  apply IH; assumption.
Qed.

Lemma visit_Import_keeps (m : pystr) (st : State) :
  plain_env st -> plain_env (snd (visit_Import hook m st)).
Proof.
  intros Hst. unfold visit_Import.
  destruct (set_in m (imported_modules st)); [exact Hst|].
  destruct (find_module m) as [[[|c p]|]|msg]; try exact Hst.
  destruct (read_text (c :: p)) as [code|msg]; [|exact Hst].
  match goal with
  | |- context [mkState ?a [] ?b ?d] => set (mi := mkState a [] b d)
  end.
  assert (Hmi : plain_env mi) by exact Hst.
  destruct (parse_text code (c :: p)) as [ast|e|] eqn:Ep.
  - pose proof (hook_keeps ast mi (parse_text_shape _ _ _ Ep) Hmi) as Hm.
    destruct (hook ast mi) as [[v|e|] st']; simpl in Hm; try exact Hm.
    destruct (is_MyLangError e); exact Hm.
  - destruct (is_MyLangError e); exact Hst.
  - exact Hst.
Qed.

(** A statement in the shapes of the grammar keeps the environment
    plain, however it ends. *)
Lemma visit_keeps (s : AST) :
  statement_shape s = true ->
  forall st, plain_env st -> plain_env (snd (visit hook s st)).
Proof.
  induction s using AST_induction; cbn [statement_shape]; intros Hs st Hst;
    try discriminate; cbn [visit]; rewrite visit_guard_state.
  - (* Print *)
    pose proof (visit_expr_state hook s Hs st) as Hp.
    destruct (visit hook s st) as [[v|e|] st1]; simpl in Hp; subst;
      exact Hst.
  - (* Assign *)
    pose proof (visit_expr_state hook s Hs st) as Hp.
    pose proof (visit_expr_plain s Hs st) as Hv.
    destruct (visit hook s st) as [[v|e|] st1]; simpl in Hp; subst;
      try exact Hst.
    apply plain_env_set; [exact Hst|]. eapply Hv; [exact Hst|reflexivity].
  - (* If *)
    apply andb_prop in Hs as [Hs Hf]. apply andb_prop in Hs as [Hc Ht].
    pose proof (visit_comparison_state s Hc st) as Hp.
    destruct (visit hook s st) as [[v|e|] st1]; simpl in Hp; subst;
      try exact Hst.
    destruct (negb (is_bool v)); [exact Hst|].
    destruct (truthy v).
    + apply for_each_keeps; assumption.
    + destruct f as [[|s0 l]|]; try exact Hst.
      apply for_each_keeps; try assumption. apply H1. reflexivity.
  - (* While *)
    apply andb_prop in Hs as [Hc Hb].
    apply while_loop_keeps; [| |exact Hst].
    + intros st0 Hst0. rewrite (visit_comparison_state s Hc). exact Hst0.
    + intros st0 Hst0. apply for_each_keeps; assumption.
  - (* Import *)
    apply visit_Import_keeps. exact Hst.
  - (* TryCatch *)
    apply andb_prop in Hs as [Ht Hc].
    pose proof (for_each_keeps t H0 Ht st Hst) as Htry.
    destruct (for_each (visit hook) t st) as [[v|e|] st1]; simpl in Htry;
      try exact Htry.
    apply for_each_keeps; try assumption.
    apply plain_env_set; [exact Htry|reflexivity].
Qed.

Lemma interpret_with_keeps (ast : list AST) (st : State) :
  forallb statement_shape ast = true ->
  plain_env st -> plain_env (snd (interpret_with hook ast st)).
Proof.
  intros Hs Hst. unfold interpret_with. apply for_each_keeps; try assumption.
  apply Forall_forall. intros s _. apply visit_keeps.
Qed.

End Environment.

Section EnvironmentAtDepth.
Context {H : Host} {F : FileSystem}.

Lemma interpret_keeps (depth : nat) :
  forall ast st,
    forallb statement_shape ast = true ->
    plain_env st -> plain_env (snd (interpret depth ast st)).
Proof.
  induction depth as [|d IH]; intros ast st Hs Hst; cbn [interpret];
    apply interpret_with_keeps; try assumption.
  intros ast' st' _ Hst'. exact Hst'.
Qed.

(** C9: after the statements of any text that the front end accepts have
    run, to their end or to a failure, from an environment without a
    boolean (that of a new interpreter is empty), every value bound to a
    name is an integer, a fraction or a text. *)
Theorem C9_no_boolean_in_environment (text filename : pystr) (ast : list AST)
  (depth : nat) (st : State) (k : pystr) (v : value) :
  parse_text text filename = Ok ast ->
  plain_env st ->
  dict_get (variables (snd (interpret depth ast st))) k = Some v ->
  (exists z, v = VInt z) \/ (exists f, v = VFloat f) \/ (exists s, v = VStr s).
Proof.
  intros Ep Hst Hk.
  pose proof (interpret_keeps depth ast st (parse_text_shape _ _ _ Ep) Hst k v Hk)
    as Hv.
  destruct v; try discriminate Hv; eauto.
Qed.

End EnvironmentAtDepth.

Lemma plain_env_init : plain_env Interpreter_init.
Proof. intros k v E. discriminate E. Qed.

Lemma C9_no_boolean_in_environment_witness :
  parse_text (H := CPython) (utf8 "x = 1; y = x + 2;") (utf8 "<stdin>")
  = Ok [Assign (utf8 "x") (Number (VInt 1));
        Assign (utf8 "y")
          (BinOp (Variable_ (utf8 "x")) (utf8 "+") (Number (VInt 2)))]
  /\ ((exists z, VInt 3 = VInt z) \/ (exists f, VInt 3 = VFloat f)
      \/ (exists s, VInt 3 = VStr s)).
Proof.
  assert (Ep : parse_text (H := CPython) (utf8 "x = 1; y = x + 2;")
                 (utf8 "<stdin>")
               = Ok [Assign (utf8 "x") (Number (VInt 1));
                     Assign (utf8 "y")
                       (BinOp (Variable_ (utf8 "x")) (utf8 "+")
                          (Number (VInt 2)))])
    by (vm_compute; reflexivity).
  split; [exact Ep|].
  apply (C9_no_boolean_in_environment (H := CPython) (F := no_files)
           (utf8 "x = 1; y = x + 2;") (utf8 "<stdin>") _ 0 Interpreter_init
           (utf8 "y") (VInt 3) Ep plain_env_init).
  vm_compute. reflexivity.
Defined.

(** ** The front end always returns

    Every token takes at least one character, and every loop round and
    nested call of the parser takes at least one token; so the budget that
    [parse_text] gives the parser is never used up. *)

(** [r] returned a value that satisfies [Q], or raised. *)
Definition post {A} (r : outcome A) (Q : A -> Prop) : Prop :=
  match r with
  | Ok a => Q a
  | Raise _ => True
  | Diverge => False
  end.

Lemma post_bind {A B} (c : outcome A) (k : A -> outcome B)
  (P : A -> Prop) (Q : B -> Prop) :
  post c P -> (forall a, P a -> post (k a) Q) -> post (bind c k) Q.
Proof. destruct c; simpl; auto. Qed.

Lemma bind_assoc {A B C} (c : outcome A) (k1 : A -> outcome B)
  (k2 : B -> outcome C) :
  bind (bind c k1) k2 = bind c (fun a => bind (k1 a) k2).
Proof. destruct c; reflexivity. Qed.

Lemma post_weaken {A} (r : outcome A) (P Q : A -> Prop) :
  post r P -> (forall a, P a -> Q a) -> post r Q.
Proof. destruct r; simpl; auto. Qed.

Lemma post_returns {A} (r : outcome A) (P : A -> Prop) :
  post r P -> r <> Diverge.
Proof. destruct r; simpl; intros Hp; [discriminate|discriminate|contradiction]. Qed.

Definition left_ (lx : Lexer) : nat := List.length (rest lx).
Arguments left_ lx : simpl never.

Lemma advance_left (lx : Lexer) : left_ (advance lx) = pred (left_ lx).
Proof. unfold left_, advance. simpl. destruct (rest lx); reflexivity. Qed.

Lemma current_char_left (lx : Lexer) (c : char) :
  current_char lx = Some c -> (0 < left_ lx)%nat.
Proof.
  unfold current_char, left_. destruct (rest lx); simpl; [discriminate|lia].
Qed.

Section LexerProgress.
Context {H : Host}.

Lemma skip_whitespace_loop_left (n : nat) :
  forall lx, (left_ (skip_whitespace_loop n lx) <= left_ lx)%nat.
Proof.
  induction n as [|n IH]; intros lx; cbn [skip_whitespace_loop]; [lia|].
  destruct (current_char lx) as [c|]; [|lia].
  destruct (isspace c); [|lia].
  specialize (IH (advance lx)). rewrite advance_left in IH. lia.
Qed.

Lemma skip_whitespace_left (lx : Lexer) (c : char) :
  current_char lx = Some c -> isspace c = true ->
  (left_ (skip_whitespace lx) < left_ lx)%nat.
Proof.
  intros Ec Hc. pose proof (current_char_left lx c Ec) as Hl.
  unfold skip_whitespace. fold (left_ lx).
  destruct (left_ lx) as [|n] eqn:El; [lia|].
  cbn [skip_whitespace_loop]. rewrite Ec, Hc.
  pose proof (skip_whitespace_loop_left n (advance lx)) as Hs.
  rewrite advance_left, El in Hs. cbn [Nat.pred] in Hs. lia.
Qed.

Lemma skip_comment_loop_left (n : nat) :
  forall lx, (left_ (skip_comment_loop n lx) <= left_ lx)%nat.
Proof.
  induction n as [|n IH]; intros lx; cbn [skip_comment_loop]; [lia|].
  destruct (current_char lx) as [c|]; [|lia].
  destruct (negb (char_eqb c newline)); [|lia].
  specialize (IH (advance lx)). rewrite advance_left in IH. lia.
Qed.

Lemma skip_comment_left (lx : Lexer) :
  current_char lx = Some (ch "#") ->
  (left_ (skip_comment lx) < left_ lx)%nat.
Proof.
  intros Ec. pose proof (current_char_left lx _ Ec) as Hl.
  unfold skip_comment. fold (left_ lx).
  assert (Hs : (left_ (skip_comment_loop (left_ lx) lx) < left_ lx)%nat).
  { destruct (left_ lx) as [|n] eqn:El; [lia|].
    cbn [skip_comment_loop]. rewrite Ec.
    change (negb (char_eqb (ch "#") newline)) with true. cbv iota.
    pose proof (skip_comment_loop_left n (advance lx)) as Hs.
    rewrite advance_left, El in Hs. cbn [Nat.pred] in Hs. lia. }
  destruct (is_char _ newline); [rewrite advance_left|]; lia.
Qed.

Lemma string_loop_left (n : nat) :
  forall acc lx,
    post (string_loop n acc lx)
      (fun r => (left_ (snd r) <= left_ lx)%nat).
Proof.
  induction n as [|n IH]; intros acc lx; cbn [string_loop];
    [cbn [post snd]; lia|].
  destruct (current_char lx) as [c|]; [|cbn [post snd]; lia].
  destruct (negb (char_eqb c dquote)); [|cbn [post snd]; lia].
  destruct (char_eqb c (ch "\")).
  - eapply post_bind with (P := fun _ => True).
    + repeat match goal with
             | |- context [if ?b then _ else _] => destruct b
             end; exact I.
    + intros r _. eapply post_weaken; [apply IH|].
      intros a Ha. cbv beta in Ha. rewrite !advance_left in Ha. lia.
  - eapply post_weaken; [apply IH|].
    intros a Ha. cbv beta in Ha. rewrite advance_left in Ha. lia.
Qed.

Lemma string_left (lx : Lexer) (c : char) :
  current_char lx = Some c ->
  post (string_ lx) (fun r => (left_ (snd r) < left_ lx)%nat).
Proof.
  intros Ec. pose proof (current_char_left lx c Ec) as Hl.
  unfold string_. eapply post_bind; [apply string_loop_left|].
  intros [r lx1] Ha. cbn [snd] in Ha. rewrite advance_left in Ha.
  destruct (is_char (current_char lx1) dquote); cbn [post snd]; [|exact I].
  rewrite advance_left. lia.
Qed.

Lemma digits_loop_left (n : nat) :
  forall acc lx, (left_ (snd (digits_loop n acc lx)) <= left_ lx)%nat.
Proof.
  induction n as [|n IH]; intros acc lx; cbn [digits_loop]; [cbn [post snd]; lia|].
  destruct (current_char lx) as [c|]; [|cbn [post snd]; lia].
  destruct (isdigit c); [|cbn [post snd]; lia].
  specialize (IH (acc ++ [c]) (advance lx)). rewrite advance_left in IH. lia.
Qed.

Lemma int_of_str_returns (s : pystr) : post (int_of_str s) (fun _ => True).
Proof. unfold int_of_str. destruct (decimals s); exact I. Qed.

Lemma float_of_str_returns (a b : pystr) :
  post (float_of_str a b) (fun _ => True).
Proof.
  unfold float_of_str. destruct (decimals a), (decimals b); exact I.
Qed.

Lemma number_left (lx : Lexer) (c : char) :
  current_char lx = Some c -> isdigit c = true ->
  post (number lx) (fun r => (left_ (snd r) < left_ lx)%nat).
Proof.
  intros Ec Hc. pose proof (current_char_left lx c Ec) as Hl.
  unfold number. fold (left_ lx).
  assert (Hd : (left_ (snd (digits_loop (left_ lx) [] lx)) < left_ lx)%nat).
  { destruct (left_ lx) as [|n] eqn:El; [lia|].
    cbn [digits_loop]. rewrite Ec, Hc.
    pose proof (digits_loop_left n ([] ++ [c]) (advance lx)) as Hs.
    rewrite advance_left, El in Hs. cbn [Nat.pred] in Hs. lia. }
  destruct (digits_loop (left_ lx) [] lx) as [ip lx1]. cbn [snd] in Hd.
  destruct (is_char (current_char lx1) (ch ".")).
  - pose proof (digits_loop_left (List.length (rest (advance lx1))) []
                  (advance lx1)) as Hf.
    destruct (digits_loop _ [] (advance lx1)) as [fp lx3]. cbn [snd] in Hf.
    rewrite advance_left in Hf.
    eapply post_bind; [apply float_of_str_returns|].
    intros f _. cbn [post snd]. lia.
  - eapply post_bind; [apply int_of_str_returns|].
    intros z _. cbn [post snd]. lia.
Qed.

Lemma identifier_loop_left (n : nat) :
  forall acc lx, (left_ (snd (identifier_loop n acc lx)) <= left_ lx)%nat.
Proof.
  induction n as [|n IH]; intros acc lx; cbn [identifier_loop];
    [cbn [post snd]; lia|].
  destruct (current_char lx) as [c|]; [|cbn [post snd]; lia].
  destruct (isalnum c || char_eqb c (ch "_")); [|cbn [post snd]; lia].
  specialize (IH (acc ++ [c]) (advance lx)). rewrite advance_left in IH. lia.
Qed.

Lemma identifier_left (lx : Lexer) (c : char) :
  current_char lx = Some c ->
  isalpha c || char_eqb c (ch "_") = true ->
  (left_ (snd (identifier lx)) < left_ lx)%nat.
Proof.
  intros Ec Hc. pose proof (current_char_left lx c Ec) as Hl.
  assert (Hn : isalnum c || char_eqb c (ch "_") = true).
  { apply orb_true_iff in Hc as [Hc|Hc]; apply orb_true_iff;
      [left; apply isalpha_isalnum; exact Hc|right; exact Hc]. }
  unfold identifier. fold (left_ lx).
  assert (Hd : (left_ (snd (identifier_loop (left_ lx) [] lx)) < left_ lx)%nat).
  { destruct (left_ lx) as [|n] eqn:El; [lia|].
    cbn [identifier_loop]. rewrite Ec, Hn.
    pose proof (identifier_loop_left n ([] ++ [c]) (advance lx)) as Hs.
    rewrite advance_left, El in Hs. cbn [Nat.pred] in Hs. lia. }
  destruct (identifier_loop (left_ lx) [] lx) as [r lx1]. exact Hd.
Qed.

(** What is left after a token: less than before, or as much when the token
    is [EOF]. *)
Definition token_cost (tok : Token) : nat :=
  if TokenType_eqb (tok_type tok) EOF then 0%nat else 1%nat.

Ltac lefts :=
  cbn [post fst snd]; unfold token_cost; cbn [tok_type TokenType_eqb];
  rewrite ?advance_left; try exact I; try lia.

Lemma get_next_token_loop_left (n : nat) :
  forall lx,
    (left_ lx <= n)%nat ->
    post (get_next_token_loop n lx)
      (fun r => (left_ (snd r) + token_cost (fst r) <= left_ lx)%nat).
Proof.
  induction n as [|n IH]; intros lx Hn; cbn [get_next_token_loop];
    [lefts|].
  destruct (current_char lx) as [c|] eqn:Ec; [|lefts].
  pose proof (current_char_left lx c Ec) as Hl.
  destruct (isspace c) eqn:Hsp.
  { pose proof (skip_whitespace_left lx c Ec Hsp) as Hs.
    eapply post_weaken; [apply IH; lia|]. intros a Ha. cbv beta in Ha. lia. }
  destruct (char_eqb c (ch "#")) eqn:Hhash.
  { apply N.eqb_eq in Hhash. subst c.
    pose proof (skip_comment_left lx Ec) as Hs.
    eapply post_weaken; [apply IH; lia|]. intros a Ha. cbv beta in Ha. lia. }
  destruct (char_eqb c dquote).
  { eapply post_bind; [apply (string_left lx c Ec)|].
    intros [s lx1] Ha. cbn [snd] in Ha. lefts. }
  destruct (isdigit c) eqn:Hdig.
  { eapply post_bind; [apply (number_left lx c Ec Hdig)|].
    intros [v lx1] Ha. cbn [snd] in Ha. lefts. }
  destruct (isalpha c || char_eqb c (ch "_")) eqn:Hal.
  { pose proof (identifier_left lx c Ec Hal) as Hi.
    destruct (identifier lx) as [[tt v] lx1]. cbn [snd] in Hi.
    cbn [post fst snd]. unfold token_cost.
    destruct (TokenType_eqb _ EOF); lia. }
  unfold single.
  repeat match goal with
         | |- context [if ?b then _ else _] => destruct b
         end; lefts.
Qed.

Lemma get_next_token_left (lx : Lexer) :
  post (get_next_token lx)
    (fun r => (left_ (snd r) + token_cost (fst r) <= left_ lx)%nat).
Proof. apply get_next_token_loop_left. unfold left_. lia. Qed.

End LexerProgress.

Section ParserProgress.
Context {H : Host}.

(** The tokens a parser still has to read, counted in characters: what is
    left of the text, and one for the token it holds unless that is
    [EOF]. *)
Definition size (p : Parser) : nat :=
  (left_ (lexer p) + token_cost (current_token p))%nat.

Lemma Parser_init_size (lx : Lexer) :
  post (Parser_init lx) (fun p => (size p <= left_ lx)%nat).
Proof.
  unfold Parser_init. eapply post_bind; [apply get_next_token_left|].
  intros [tok lx1] Ha. exact Ha.
Qed.

Lemma eat_size (p : Parser) (t : TokenType) :
  t <> EOF -> post (eat p t) (fun q => (size q < size p)%nat).
Proof.
  intros Ht. unfold eat.
  destruct (TokenType_eqb (tok_type (current_token p)) t) eqn:Et;
    [|exact I].
  apply TokenType_eqb_eq in Et.
  eapply post_bind; [apply get_next_token_left|].
  intros [tok lx1] Ha. cbn [post fst snd] in *. unfold size.
  cbn [lexer current_token].
  assert (Hc : token_cost (current_token p) = 1%nat).
  { unfold token_cost. rewrite Et. destruct t; try reflexivity.
    contradiction Ht. reflexivity. }
  lia.
Qed.

Lemma type_in_not_EOF (p : Parser) (l : list TokenType) :
  type_in EOF l = false ->
  type_in (tok_type (current_token p)) l = true ->
  (0 < size p)%nat.
Proof.
  intros Hl Hp. unfold size, token_cost.
  destruct (TokenType_eqb (tok_type (current_token p)) EOF) eqn:Et; [|lia].
  apply TokenType_eqb_eq in Et. rewrite Et in Hp. congruence.
Qed.

Lemma not_type_in_not_EOF (p : Parser) (l : list TokenType) :
  type_in EOF l = true ->
  type_in (tok_type (current_token p)) l = false ->
  (0 < size p)%nat.
Proof.
  intros Hl Hp. unfold size, token_cost.
  destruct (TokenType_eqb (tok_type (current_token p)) EOF) eqn:Et; [|lia].
  apply TokenType_eqb_eq in Et. rewrite Et in Hp. congruence.
Qed.

(** [f] returns on every parser of size below [b], with a smaller one. *)
Definition shrinking (f : Parser -> parsing) (b : nat) : Prop :=
  forall p, (size p < b)%nat ->
            post (f p) (fun r => (size (snd r) < size p)%nat).

(** One step of a sequence of calls: the call returns by a lemma at hand,
    and what it returns is named. *)
Ltac step :=
  first
    [ match goal with
      | |- post (bind (if ?b then _ else _) _) _ => destruct b
      | |- post (bind (bind _ _) _) _ => rewrite bind_assoc
      | |- post (bind (Ok _) _) _ => cbn [bind]
      | |- post (let '(_, _) := ?x in _) _ => destruct x
      end
    | eapply post_bind;
      [ first [ apply eat_size; discriminate
              | match goal with
                | Hf : shrinking ?f _ |- post (?f _) _ => apply Hf; lia
                end ]
      | let a := fresh "p" in
        let Ha := fresh "Hp" in
        intros a Ha; cbv beta in Ha;
        match type of a with
        | (_ * _)%type => destruct a; cbn [snd fst] in Ha
        | _ => idtac
        end ]
    | match goal with
      | |- post (if ?b then _ else _) _ => destruct b
      | |- post (Ok _) _ => cbn [post snd fst]; lia
      | |- post (parser_error _ _) _ => exact I
      end ].

Lemma factor_size (ex : Parser -> parsing) (b : nat) :
  shrinking ex b -> shrinking (factor ex) (S b).
Proof.
  intros Hex p Hp. unfold factor.
  destruct (tok_type (current_token p)); try exact I; repeat step.
Qed.

Lemma binop_loop_size (ops : list TokenType) (operand : Parser -> parsing)
  (b : nat) :
  type_in EOF ops = false -> shrinking operand b ->
  forall n node p,
    (size p <= n)%nat -> (size p <= b)%nat ->
    post (binop_loop ops operand n node p)
      (fun r => (size (snd r) <= size p)%nat).
Proof.
  intros Hops Hop. induction n as [|n IH]; intros node p Hn Hb;
    cbn [binop_loop];
    destruct (type_in (tok_type (current_token p)) ops) eqn:Et;
    try (cbn [post snd]; lia);
    pose proof (type_in_not_EOF p ops Hops Et) as Hpos; [lia|].
  eapply post_bind;
    [apply eat_size; intros Heof; rewrite Heof in Et; congruence|].
  intros p1 Hp1. cbv beta in Hp1. step.
  eapply post_weaken; [apply IH; lia|].
  intros r Hr. cbv beta in Hr. lia.
Qed.

Lemma term_size (ex : Parser -> parsing) (b n : nat) :
  shrinking ex b ->
  forall p, (size p <= b)%nat -> (size p <= n)%nat ->
            post (term ex n p) (fun r => (size (snd r) < size p)%nat).
Proof.
  intros Hex p Hb Hn. unfold term.
  pose proof (factor_size ex b Hex) as Hf.
  step.
  eapply post_weaken;
    [apply (binop_loop_size [MULTIPLY; DIVIDE] (factor ex) (S b));
     [reflexivity|exact Hf|lia|lia]|].
  intros r Hr. cbv beta in Hr. lia.
Qed.

Lemma expr_size (n : nat) : shrinking (expr n) n.
Proof.
  induction n as [|n IH]; intros p Hp; [lia|]. cbn [expr].
  assert (Ht : shrinking (term (expr n) n) (S n)).
  { intros q Hq. apply (term_size (expr n) n n IH); lia. }
  step.
  eapply post_weaken;
    [apply (binop_loop_size [PLUS; MINUS] (term (expr n) n) (S n));
     [reflexivity|exact Ht|lia|lia]|].
  intros r Hr. cbv beta in Hr. lia.
Qed.

Lemma comparison_size (n : nat) : shrinking (comparison n) n.
Proof.
  intros p Hp. unfold comparison.
  pose proof (expr_size n) as He. repeat step.
Qed.

Lemma statements_loop_size (stop : list TokenType) (stmt : Parser -> parsing)
  (b : nat) :
  type_in EOF stop = true -> shrinking stmt b ->
  forall n acc p,
    (size p <= n)%nat -> (size p < b)%nat ->
    post (statements_loop stop stmt n acc p)
      (fun r => (size (snd r) <= size p)%nat).
Proof.
  intros Hstop Hst. induction n as [|n IH]; intros acc p Hn Hb;
    cbn [statements_loop];
    destruct (type_in (tok_type (current_token p)) stop) eqn:Et;
    cbn [negb]; try (cbn [post snd]; lia);
    pose proof (not_type_in_not_EOF p stop Hstop Et) as Hpos; [lia|].
  step.
  eapply post_weaken; [apply IH; lia|].
  intros r Hr. cbv beta in Hr. lia.
Qed.

Lemma block_size (stmt : Parser -> parsing) (b n : nat) (p : Parser) :
  shrinking stmt b -> (size p <= n)%nat -> (size p < b)%nat ->
  post (block stmt n p) (fun r => (size (snd r) <= size p)%nat).
Proof.
  intros Hst Hn Hb. unfold block.
  apply (statements_loop_size [RBRACE; EOF] stmt b); auto.
Qed.

(** A block inside a statement: it returns, with a parser no larger. *)
Ltac step_block IH :=
  eapply post_bind;
  [ eapply block_size; [exact IH|lia|lia]
  | let a := fresh "p" in
    let Ha := fresh "Hp" in
    intros a Ha; cbv beta in Ha; destruct a; cbn [snd fst] in Ha ].

Lemma statement_size (n : nat) : shrinking (statement n) n.
Proof.
  induction n as [|n IH]; intros p Hp; [lia|]. cbn [statement].
  pose proof (expr_size n) as He.
  pose proof (comparison_size n) as Hc.
  destruct (tok_type (current_token p)); try exact I;
    repeat first [step | step_block IH].
Qed.

Lemma parse_returns (n : nat) (p : Parser) :
  (size p < n)%nat -> post (parse n p) (fun _ => True).
Proof.
  intros Hp. unfold parse.
  eapply post_bind;
    [apply (statements_loop_size [EOF] (statement n) n);
     [reflexivity|apply statement_size|lia|lia]|].
  intros [l q] _. exact I.
Qed.

(** The front end returns for every text: statements, or an error. *)
Lemma parse_text_returns (text filename : pystr) :
  parse_text text filename <> Diverge.
Proof.
  apply (post_returns _ (fun _ => True)). unfold parse_text.
  eapply post_bind; [apply Parser_init_size|].
  intros p Hp. apply parse_returns.
  unfold left_, Lexer_init in Hp. cbn [rest] in Hp. lia.
Qed.

End ParserProgress.

(** ** The budget of the token loop

    [get_next_token] gives its loop one round per character left; any
    budget that large gives the same token, so the round at which the
    budget ends is never the one that returns. *)

Section TokenLoopBudget.
Context {H : Host}.

Lemma current_char_none (lx : Lexer) :
  left_ lx = 0%nat -> current_char lx = None.
Proof.
  unfold left_, current_char. destruct (rest lx); [reflexivity|discriminate].
Qed.

Lemma get_next_token_loop_budget (n : nat) :
  forall m lx,
    (left_ lx <= n)%nat -> (left_ lx <= m)%nat ->
    get_next_token_loop n lx = get_next_token_loop m lx.
Proof.
  induction n as [|n IH]; intros [|m] lx Hn Hm; cbn [get_next_token_loop];
    try reflexivity;
    try (rewrite current_char_none by lia; reflexivity).
  destruct (current_char lx) as [c|] eqn:Ec; [|reflexivity].
  destruct (isspace c) eqn:Hsp.
  { pose proof (skip_whitespace_left lx c Ec Hsp). apply IH; lia. }
  destruct (char_eqb c (ch "#")) eqn:Hhash; [|reflexivity].
  apply N.eqb_eq in Hhash. subst c.
  pose proof (skip_comment_left lx Ec). apply IH; lia.
Qed.

End TokenLoopBudget.

(** ** The evaluator returns unless the nesting of imports is too deep *)

Definition returns (r : effect) : Prop := fst r <> Diverge.

Lemma visit_guard_returns (r : effect) : returns (visit_guard r) <-> returns r.
Proof.
  unfold returns.
  destruct r as [[v|[m|m|m|m]|] st]; simpl; split; intros Hr; congruence.
Qed.

Section WhileReturns.
Variable condition body : State -> effect.
Hypothesis condition_returns : forall st, returns (condition st).
Hypothesis body_returns : forall st, returns (body st).

(** The budget that [visit_While] gives the loop is never used up. *)
Lemma while_loop_returns (budget : nat) :
  forall iterations st,
    max_iterations <= iterations + Z.of_nat budget ->
    returns (while_loop condition body budget iterations st).
Proof.
  induction budget as [|n IH]; intros i st Hi; cbn [while_loop];
    (pose proof (condition_returns st) as Hc;
     destruct (condition st) as [[c|e|] st1]; try exact Hc;
     destruct (truthy c); [|discriminate];
     pose proof (body_returns st1) as Hb;
     destruct (body st1) as [[w|e|] st2]; try exact Hb;
     destruct (Z.gtb_spec (i + 1) max_iterations) as [Hgt|Hle];
     [discriminate|]).
  - lia.
  - apply IH. lia.
Qed.

End WhileReturns.

Section WhileMonotone.
Variable c1 c2 b1 b2 : State -> effect.
Hypothesis c12 : forall st, returns (c1 st) -> c2 st = c1 st.
Hypothesis b12 : forall st, returns (b1 st) -> b2 st = b1 st.

Lemma while_loop_monotone (budget : nat) :
  forall iterations st,
    returns (while_loop c1 b1 budget iterations st) ->
    while_loop c2 b2 budget iterations st
    = while_loop c1 b1 budget iterations st.
Proof.
  induction budget as [|n IH]; intros i st; cbn [while_loop];
    (pose proof (c12 st) as Hc;
     destruct (c1 st) as [[c|e|] st1];
     [|intros _; rewrite Hc by discriminate; reflexivity
      |intros Hr; contradiction Hr; reflexivity];
     rewrite Hc by discriminate;
     destruct (truthy c); [|reflexivity];
     pose proof (b12 st1) as Hb;
     destruct (b1 st1) as [[w|e|] st2];
     [|intros _; rewrite Hb by discriminate; reflexivity
      |intros Hr; contradiction Hr; reflexivity];
     rewrite Hb by discriminate;
     destruct (i + 1 >? max_iterations); [reflexivity|]).
  - reflexivity.
  - apply IH.
Qed.

End WhileMonotone.

Lemma float_of_int_post (z : Z) : post (float_of_int z) (fun _ => True).
Proof.
  unfold float_of_int. destruct (binary_normalize prec emax z 0 false);
    exact I.
Qed.

Lemma arith_post iop fop (a b : num) : post (arith iop fop a b) (fun _ => True).
Proof.
  destruct a, b; simpl; try exact I;
    (eapply post_bind; [apply float_of_int_post|intros; exact I]).
Qed.

Lemma true_divide_post (a b : num) : post (true_divide a b) (fun _ => True).
Proof.
  unfold true_divide. eapply post_bind with (P := fun _ => True);
    [|intros; exact I].
  destruct a, b; try exact I;
    try (eapply post_bind; [apply float_of_int_post|intros; exact I]).
  unfold int_true_divide.
  destruct (SFdiv prec emax (SF_of_Z z) (SF_of_Z z0)); exact I.
Qed.

Lemma str_repeat_post (s : pystr) (n : Z) : post (str_repeat s n) (fun _ => True).
Proof.
  unfold str_repeat.
  repeat match goal with
         | |- context [if ?b then _ else _] => destruct b
         end; exact I.
Qed.

Lemma binop_values_post {H : Host} (op : pystr) (l r : value) :
  post (binop_values op l r) (fun _ => True).
Proof.
  unfold binop_values.
  repeat match goal with
         | |- context [if ?b then _ else _] => destruct b
         | |- context [match as_num ?x with _ => _ end] => destruct (as_num x)
         end;
    first [ exact I | apply arith_post | apply true_divide_post
          | apply str_repeat_post ].
Qed.

Lemma compare_values_post (op : pystr) (l r : value) :
  post (compare_values op l r) (fun _ => True).
Proof.
  unfold compare_values.
  repeat match goal with
         | |- context [if ?b then _ else _] => destruct b
         end; exact I.
Qed.

Lemma post_effect_returns (r : outcome value) (st : State) :
  post r (fun _ => True) -> returns (r, st).
Proof. apply post_returns. Qed.

Section Returns.
Context {H : Host} {F : FileSystem}.

Lemma for_each_returns (visit_ : AST -> State -> effect) (stmts : list AST) :
  Forall (fun s => forall st, returns (visit_ s st)) stmts ->
  forall st, returns (for_each visit_ stmts st).
Proof.
  intros Hall. induction Hall as [|s l Hs _ IH]; intros st; cbn [for_each];
    [discriminate|].
  specialize (Hs st). destruct (visit_ s st) as [[v|e|] st1]; auto.
Qed.

Lemma visit_Import_returns (hook : list AST -> State -> effect)
  (m : pystr) (st : State) :
  (forall ast st', returns (hook ast st')) ->
  returns (visit_Import hook m st).
Proof.
  intros Hhook. unfold visit_Import.
  destruct (set_in m (imported_modules st)); [discriminate|].
  destruct (find_module m) as [[[|c p]|]|msg]; try discriminate.
  destruct (read_text (c :: p)) as [code|msg]; [|discriminate].
  match goal with
  | |- context [mkState ?a [] ?b ?d] => set (mi := mkState a [] b d)
  end.
  pose proof (parse_text_returns code (c :: p)) as Hp.
  destruct (parse_text code (c :: p)) as [ast|e|]; [| |contradiction].
  - pose proof (Hhook ast mi) as Hh.
    destruct (hook ast mi) as [[v|e|] st']; try discriminate.
    + destruct (is_MyLangError e); discriminate.
    + contradiction Hh. reflexivity.
  - destruct (is_MyLangError e); discriminate.
Qed.

(** When the interpreter of modules returns, so does [visit]. *)
Lemma visit_returns (hook : list AST -> State -> effect) :
  (forall ast st, returns (hook ast st)) ->
  forall node st, returns (visit hook node st).
Proof.
  intros Hhook.
  induction node using AST_induction; intros st; cbn [visit];
    apply visit_guard_returns.
  - specialize (IHnode st).
    destruct (visit hook node st) as [[v|e|] st1]; auto; discriminate.
  - specialize (IHnode st).
    destruct (visit hook node st) as [[v|e|] st1]; auto; discriminate.
  - unfold visit_Variable. destruct (dict_get (variables st) x); discriminate.
  - discriminate.
  - discriminate.
  - specialize (IHnode st).
    destruct (visit hook node st) as [[v|e|] st1]; auto; try discriminate.
    destruct (negb (is_bool v)); [discriminate|].
    destruct (truthy v); [apply for_each_returns; assumption|].
    destruct f as [[|s l]|]; try discriminate.
    apply for_each_returns. apply H1. reflexivity.
  - apply while_loop_returns; auto.
    + intros st'. apply for_each_returns. assumption.
    + rewrite Z2Nat.id; unfold max_iterations; lia.
  - specialize (IHnode1 st).
    destruct (visit hook node1 st) as [[v|e|] st1]; auto; try discriminate.
    specialize (IHnode2 st1).
    destruct (visit hook node2 st1) as [[w|e|] st2]; auto; try discriminate.
    apply post_effect_returns, compare_values_post.
  - specialize (IHnode1 st).
    destruct (visit hook node1 st) as [[v|e|] st1]; auto; try discriminate.
    specialize (IHnode2 st1).
    destruct (visit hook node2 st1) as [[w|e|] st2]; auto; try discriminate.
    apply post_effect_returns, binop_values_post.
  - apply visit_Import_returns. exact Hhook.
  - pose proof (for_each_returns (visit hook) t H0 st) as Ht.
    destruct (for_each (visit hook) t st) as [[v|e|] st1]; auto.
    apply for_each_returns. assumption.
Qed.

Lemma for_each_monotone (v1 v2 : AST -> State -> effect) (stmts : list AST) :
  Forall (fun s => forall st, returns (v1 s st) -> v2 s st = v1 s st) stmts ->
  forall st,
    returns (for_each v1 stmts st) ->
    for_each v2 stmts st = for_each v1 stmts st.
Proof.
  intros Hall. induction Hall as [|s l Hs _ IH]; intros st; cbn [for_each];
    [reflexivity|].
  specialize (Hs st). destruct (v1 s st) as [[v|e|] st1].
  - rewrite Hs by discriminate. apply IH.
  - rewrite Hs by discriminate. reflexivity.
  - intros Hr. contradiction Hr. reflexivity.
Qed.

Section Hooks.
Variable h1 h2 : list AST -> State -> effect.
Hypothesis h12 : forall ast st, returns (h1 ast st) -> h2 ast st = h1 ast st.

Lemma visit_Import_monotone (m : pystr) (st : State) :
  returns (visit_Import h1 m st) ->
  visit_Import h2 m st = visit_Import h1 m st.
Proof.
  unfold visit_Import.
  destruct (set_in m (imported_modules st)); [reflexivity|].
  destruct (find_module m) as [[[|c p]|]|msg]; try reflexivity.
  destruct (read_text (c :: p)) as [code|msg]; [|reflexivity].
  match goal with
  | |- context [mkState ?a [] ?b ?d] => set (mi := mkState a [] b d)
  end.
  destruct (parse_text code (c :: p)) as [ast|e|]; try reflexivity.
  pose proof (h12 ast mi) as Hh.
  destruct (h1 ast mi) as [[v|e|] st'].
  - rewrite Hh by discriminate. reflexivity.
  - rewrite Hh by discriminate. reflexivity.
  - intros Hr. contradiction Hr. reflexivity.
Qed.

(** A deeper interpreter of modules changes nothing where the shallower
    one returned. *)
Lemma visit_monotone (node : AST) :
  forall st, returns (visit h1 node st) -> visit h2 node st = visit h1 node st.
Proof.
  induction node using AST_induction; intros st; cbn [visit];
    rewrite visit_guard_returns; intros Hr; apply (f_equal visit_guard).
  - specialize (IHnode st).
    destruct (visit h1 node st) as [[v|e|] st1]; rewrite IHnode;
      try reflexivity; try discriminate. exact Hr.
  - specialize (IHnode st).
    destruct (visit h1 node st) as [[v|e|] st1]; rewrite IHnode;
      try reflexivity; try discriminate. exact Hr.
  - reflexivity.
  - reflexivity.
  - reflexivity.
  - specialize (IHnode st).
    destruct (visit h1 node st) as [[v|e|] st1]; rewrite IHnode;
      try reflexivity; try discriminate; try exact Hr.
    destruct (negb (is_bool v)); [reflexivity|].
    destruct (truthy v); [apply for_each_monotone; assumption|].
    destruct f as [[|s l]|]; try reflexivity.
    apply for_each_monotone; [apply H1; reflexivity|exact Hr].
  - apply while_loop_monotone; [exact IHnode| |exact Hr].
    intros st'. apply for_each_monotone. assumption.
  - specialize (IHnode1 st).
    destruct (visit h1 node1 st) as [[v|e|] st1]; rewrite IHnode1;
      try reflexivity; try discriminate; try exact Hr.
    specialize (IHnode2 st1).
    destruct (visit h1 node2 st1) as [[w|e|] st2]; rewrite IHnode2;
      try reflexivity; try discriminate; try exact Hr.
  - specialize (IHnode1 st).
    destruct (visit h1 node1 st) as [[v|e|] st1]; rewrite IHnode1;
      try reflexivity; try discriminate; try exact Hr.
    specialize (IHnode2 st1).
    destruct (visit h1 node2 st1) as [[w|e|] st2]; rewrite IHnode2;
      try reflexivity; try discriminate; try exact Hr.
  - apply visit_Import_monotone. exact Hr.
  - pose proof (for_each_monotone (visit h1) (visit h2) t H0 st) as Ht.
    destruct (for_each (visit h1) t st) as [[v|e|] st1];
      rewrite Ht by (try discriminate; exact Hr); try reflexivity.
    apply for_each_monotone; assumption.
Qed.

End Hooks.

(** More depth does not change what a run returned. *)
Lemma interpret_deeper (depth : nat) :
  forall ast st,
    returns (interpret depth ast st) ->
    interpret (S depth) ast st = interpret depth ast st.
Proof.
  induction depth as [|d IH]; intros ast st Hr;
    change (interpret_with (interpret 0) ast st
            = interpret_with (fun _ st' => (Diverge, st')) ast st)
      || change (interpret_with (interpret (S d)) ast st
                 = interpret_with (interpret d) ast st);
    unfold interpret_with; apply for_each_monotone; try exact Hr;
    apply Forall_forall; intros s _; apply visit_monotone.
  - intros ast' st' Hd. contradiction Hd. reflexivity.
  - exact IH.
Qed.

Lemma interpret_depth (depth more : nat) (ast : list AST) (st : State) :
  returns (interpret depth ast st) ->
  interpret (more + depth) ast st = interpret depth ast st.
Proof.
  intros Hr. induction more as [|k IH]; [reflexivity|].
  cbn [Nat.add]. rewrite interpret_deeper; rewrite IH; auto.
Qed.

End Returns.

(** ** Runs of the evaluator

    The programs below import nothing, or nest their imports two deep;
    what they return at that depth they return at every greater one. *)

Lemma interpret_at_least {H : Host} {F : FileSystem} (depth depth' : nat)
  (ast : list AST) (st : State) :
  (depth <= depth')%nat ->
  returns (interpret depth ast st) ->
  interpret depth' ast st = interpret depth ast st.
Proof.
  intros Hd Hr. replace depth' with ((depth' - depth) + depth)%nat by lia.
  apply interpret_depth. exact Hr.
Qed.

Definition counting_loop : list AST :=
  [Assign (utf8 "i") (Number (VInt 0));
   While (Comparison (Variable_ (utf8 "i")) (utf8 "==") (Variable_ (utf8 "i")))
     [Assign (utf8 "i")
        (BinOp (Variable_ (utf8 "i")) (utf8 "+") (Number (VInt 1)))]].

Lemma counting_loop_parsed :
  parse_text (H := CPython) (utf8 "i = 0; 循环 (i == i) { i = i + 1; }")
    (utf8 "<stdin>")
  = Ok counting_loop.
Proof. vm_compute. reflexivity. Qed.

(** C1: the evaluator at [i = 0; while (i == i) { i = i + 1; }], with any
    files and at any depth.  The loop raises the error of the guard, and
    [i] is then 10001: the body has run once more than the 10000 of the
    claim. *)
Theorem C1_loop_guard_after_10001_bodies (F : FileSystem) (depth : nat) :
  exists st,
    run (H := CPython) (F := F) depth
      (utf8 "i = 0; 循环 (i == i) { i = i + 1; }")
    = (Raise (RuntimeError loop_limit_message), st)
    /\ dict_get (variables st) (utf8 "i") = Some (VInt 10001).
Proof.
  unfold run. rewrite counting_loop_parsed.
  rewrite (interpret_at_least 0 depth) by (try lia; vm_compute; discriminate).
  eexists. split; vm_compute; reflexivity.
Qed.

Definition skipped_loop : list AST :=
  [While (Number (VInt 0)) [Print (Number (VInt 1))];
   Print (Number (VInt 2))].

Lemma skipped_loop_parsed :
  parse_text (H := CPython) (utf8 "循环 (0) { 打印(1); } 打印(2);")
    (utf8 "<stdin>")
  = Ok skipped_loop.
Proof. vm_compute. reflexivity. Qed.

(** C2: the evaluator at [while (0) { print(1); } print(2);], with any
    files and at any depth.  The condition is a number; nothing is raised,
    the body is skipped and the program goes on. *)
Theorem C2_while_accepts_a_number (F : FileSystem) (depth : nat) :
  run (H := CPython) (F := F) depth (utf8 "循环 (0) { 打印(1); } 打印(2);")
  = (Ok VNone, mkState [] [] [utf8 "2"] []).
Proof.
  unfold run. rewrite skipped_loop_parsed.
  rewrite (interpret_at_least 0 depth) by (try lia; vm_compute; discriminate).
  vm_compute. reflexivity.
Qed.

(** A text as condition is accepted as well, and a number that is not
    zero runs the body until the guard of the loop stops it. *)
Lemma while_accepts_text_and_nonzero :
  visit0 (While (String (VStr [])) [Print (Number (VInt 1))]) Interpreter_init
  = (Ok VNone, Interpreter_init)
  /\ fst (run (H := CPython) (F := no_files) 0 (utf8 "循环 (1) { }"))
     = Raise (RuntimeError loop_limit_message).
Proof. split; vm_compute; reflexivity. Qed.

Definition import_a_then_lib : pystr :=
  utf8 "导入 " ++ quoted (utf8 "a") ++ utf8 "; 导入 " ++ quoted (utf8 "lib")
    ++ utf8 ";".

Lemma import_a_then_lib_parsed :
  parse_text (H := CPython) import_a_then_lib (utf8 "<stdin>")
  = Ok [Import (utf8 "a"); Import (utf8 "lib")].
Proof. vm_compute. reflexivity. Qed.

(** C4: the evaluator at [import "a"; import "lib";] with the files of
    [two_modules], at any depth that lets module [a] import.
    [lib.mylang] is opened twice: once by the interpreter of module [a],
    which starts with an empty set of its own, and once more by the top
    interpreter, whose set holds only [a]. *)
Theorem C4_module_read_twice (more : nat) :
  exists st,
    run (H := CPython) (F := two_modules) (more + 2) import_a_then_lib
    = (Ok VNone, st)
    /\ opened st = [utf8 "a.mylang"; utf8 "lib.mylang"; utf8 "lib.mylang"]
    /\ imported_modules st = [utf8 "a"; utf8 "lib"].
Proof.
  unfold run. rewrite import_a_then_lib_parsed.
  rewrite interpret_depth by (vm_compute; discriminate).
  eexists. split; [|split]; vm_compute; reflexivity.
Qed.

(** A module that imports itself is loaded again at every level, however
    deep the nesting may go. *)
Lemma self_import_opens_again :
  opened (snd (run (H := CPython)
                 (F := Files [(utf8 "m.mylang",
                               utf8 "导入 " ++ quoted (utf8 "m") ++ utf8 ";")])
                 3 (utf8 "导入 " ++ quoted (utf8 "m") ++ utf8 ";")))
  = [utf8 "m.mylang"; utf8 "m.mylang"; utf8 "m.mylang"; utf8 "m.mylang"].
Proof. vm_compute. reflexivity. Qed.


(** * Further properties of the front end *)

(** ** What the lexer consumes, and where it stands *)

Definition position (lx : Lexer) : Z * Z := (line lx, column lx).

(** The position after a character: a newline starts the next line at
    column 1, any other character is one column. *)
Definition after_char (lc : Z * Z) (c : char) : Z * Z :=
  if char_eqb c newline then (fst lc + 1, 1) else (fst lc, snd lc + 1).

Definition after_text (s : pystr) (lc : Z * Z) : Z * Z :=
  fold_left after_char s lc.

(** [lx'] is [lx] after it has read [consumed]. *)
Definition reads (lx : Lexer) (consumed : pystr) (lx' : Lexer) : Prop :=
  rest lx = consumed ++ rest lx'
  /\ pos lx' = pos lx + Z.of_nat (List.length consumed)
  /\ position lx' = after_text consumed (position lx)
  /\ filename lx' = filename lx.

Definition reaches (lx lx' : Lexer) : Prop :=
  exists consumed, reads lx consumed lx'.

Lemma reaches_refl (lx : Lexer) : reaches lx lx.
Proof.
  exists []. unfold reads, position. simpl. repeat split; lia.
Qed.

Lemma reaches_trans (a b c : Lexer) : reaches a b -> reaches b c -> reaches a c.
Proof.
  intros [s1 (R1 & P1 & L1 & F1)] [s2 (R2 & P2 & L2 & F2)].
  exists (s1 ++ s2). unfold reads. repeat split.
  - rewrite R1, R2, app_assoc. reflexivity.
  - rewrite P2, P1, length_app, Nat2Z.inj_add. lia.
  - rewrite L2, L1. unfold after_text. rewrite fold_left_app. reflexivity.
  - congruence.
Qed.

Lemma reads_advance (lx : Lexer) (c : char) :
  current_char lx = Some c -> reads lx [c] (advance lx).
Proof.
  unfold current_char, reads, position, advance, after_text, after_char.
  destruct (rest lx) as [|x r] eqn:Er; simpl; intros E; inversion E; subst.
  repeat split; try reflexivity.
  unfold current_char, is_char. rewrite Er. cbn [hd_error].
  destruct (char_eqb c newline); reflexivity.
Qed.

Lemma reaches_advance (lx : Lexer) (c : char) :
  current_char lx = Some c -> reaches lx (advance lx).
Proof. intros E. exists [c]. apply reads_advance. exact E. Qed.

Section LexerReads.
Context {H : Host}.

Lemma skip_whitespace_loop_reaches (n : nat) :
  forall lx, reaches lx (skip_whitespace_loop n lx).
Proof.
  induction n as [|n IH]; intros lx; cbn [skip_whitespace_loop];
    [apply reaches_refl|].
  destruct (current_char lx) as [c|] eqn:Ec; [|apply reaches_refl].
  destruct (isspace c); [|apply reaches_refl].
  eapply reaches_trans; [eapply reaches_advance; exact Ec|apply IH].
Qed.

Lemma skip_comment_reaches (lx : Lexer) : reaches lx (skip_comment lx).
Proof.
  unfold skip_comment.
  assert (Hl : forall n lx0, reaches lx0 (skip_comment_loop n lx0)).
  { induction n as [|n IH]; intros lx0; cbn [skip_comment_loop];
      [apply reaches_refl|].
    destruct (current_char lx0) as [c|] eqn:Ec; [|apply reaches_refl].
    destruct (negb (char_eqb c newline)); [|apply reaches_refl].
    eapply reaches_trans; [eapply reaches_advance; exact Ec|apply IH]. }
  specialize (Hl (List.length (rest lx)) lx).
  destruct (current_char (skip_comment_loop (List.length (rest lx)) lx))
    as [c|] eqn:Ec; [|exact Hl].
  destruct (is_char (Some c) newline); [|exact Hl].
  eapply reaches_trans; [exact Hl|eapply reaches_advance; exact Ec].
Qed.

Lemma is_char_Some (e : option char) (a : char) :
  is_char e a = true -> e = Some a.
Proof.
  destruct e as [x|]; simpl; [|discriminate].
  unfold char_eqb. intros E. apply N.eqb_eq in E. congruence.
Qed.

Lemma string_loop_reaches (n : nat) :
  forall acc lx r lx',
    string_loop n acc lx = Ok (r, lx') -> reaches lx lx'.
Proof.
  induction n as [|n IH]; intros acc lx r lx' E; cbn [string_loop] in E.
  - inversion E; subst. apply reaches_refl.
  - destruct (current_char lx) as [c|] eqn:Ec;
      [|inversion E; subst; apply reaches_refl].
    destruct (negb (char_eqb c dquote));
      [|inversion E; subst; apply reaches_refl].
    destruct (char_eqb c (ch "\")).
    + apply bind_Ok in E. destruct E as [a [Ea E]].
      apply IH in E.
      eapply reaches_trans; [eapply reaches_advance; exact Ec|].
      eapply reaches_trans; [|exact E].
      destruct (current_char (advance lx)) as [e|] eqn:Ee.
      * eapply reaches_advance. exact Ee.
      * simpl in Ea. discriminate Ea.
    + apply IH in E.
      eapply reaches_trans; [eapply reaches_advance; exact Ec|exact E].
Qed.

Lemma string_reaches (lx : Lexer) (c : char) (r : pystr) (lx' : Lexer) :
  current_char lx = Some c ->
  string_ lx = Ok (r, lx') -> reaches lx lx'.
Proof.
  intros Ec E. unfold string_ in E.
  apply bind_Ok in E. destruct E as [[r1 lx1] [E1 E]].
  apply string_loop_reaches in E1.
  destruct (is_char (current_char lx1) dquote) eqn:Eq; [|discriminate E].
  inversion E; subst. apply is_char_Some in Eq.
  eapply reaches_trans; [eapply reaches_advance; exact Ec|].
  eapply reaches_trans; [exact E1|eapply reaches_advance; exact Eq].
Qed.

Lemma digits_loop_reaches (n : nat) :
  forall acc lx, reaches lx (snd (digits_loop n acc lx)).
Proof.
  induction n as [|n IH]; intros acc lx; cbn [digits_loop];
    [apply reaches_refl|].
  destruct (current_char lx) as [c|] eqn:Ec; [|apply reaches_refl].
  destruct (isdigit c); [|apply reaches_refl].
  eapply reaches_trans; [eapply reaches_advance; exact Ec|apply IH].
Qed.

Lemma number_reaches (lx : Lexer) (v : value) (lx' : Lexer) :
  number lx = Ok (v, lx') -> reaches lx lx'.
Proof.
  unfold number. intros E.
  pose proof (digits_loop_reaches (List.length (rest lx)) [] lx) as H1.
  destruct (digits_loop (List.length (rest lx)) [] lx) as [ip lx1].
  cbn [snd] in H1.
  destruct (is_char (current_char lx1) (ch ".")) eqn:Ed.
  - apply is_char_Some in Ed.
    pose proof (digits_loop_reaches (List.length (rest (advance lx1))) []
                  (advance lx1)) as H2.
    destruct (digits_loop _ [] (advance lx1)) as [fp lx3]. cbn [snd] in H2.
    returned E.
    eapply reaches_trans; [exact H1|].
    eapply reaches_trans; [eapply reaches_advance; exact Ed|exact H2].
  - returned E. exact H1.
Qed.

Lemma identifier_loop_reaches (n : nat) :
  forall acc lx, reaches lx (snd (identifier_loop n acc lx)).
Proof.
  induction n as [|n IH]; intros acc lx; cbn [identifier_loop];
    [apply reaches_refl|].
  destruct (current_char lx) as [c|] eqn:Ec; [|apply reaches_refl].
  destruct (isalnum c || char_eqb c (ch "_")); [|apply reaches_refl].
  eapply reaches_trans; [eapply reaches_advance; exact Ec|apply IH].
Qed.

Lemma identifier_reaches (lx : Lexer) :
  reaches lx (snd (identifier lx)).
Proof.
  unfold identifier.
  pose proof (identifier_loop_reaches (List.length (rest lx)) [] lx) as H1.
  destruct (identifier_loop _ [] lx) as [r lx1]. exact H1.
Qed.

(** The tokens built before the lexer moves on: one character, or an
    operator of one or two. *)
Definition operator_token_types : list TokenType :=
  [SEMICOLON; LPAREN; RPAREN; LBRACE; RBRACE; PLUS; MINUS; MULTIPLY; DIVIDE;
   ASSIGN; COMPARISON].

Lemma keywords_get_not_operator (k : pystr) :
  type_in (keywords_get keywords k IDENTIFIER) operator_token_types = false.
Proof.
  unfold keywords. cbn [keywords_get].
  repeat match goal with
         | |- context [if ?b then _ else _] => destruct b
         end; reflexivity.
Qed.

(** The round of the token loop that returns: the lexer [lx0] at which it
    starts, after the white space and the comments. *)
Lemma get_next_token_loop_reads (n : nat) :
  forall lx tok lx',
    get_next_token_loop n lx = Ok (tok, lx') ->
    exists lx0,
      reaches lx lx0 /\ reaches lx0 lx'
      /\ (type_in (tok_type tok) operator_token_types = true ->
          (tok_line tok, tok_column tok) = position lx0
          /\ exists c s, current_char lx0 = Some c
                         /\ tok_value tok = VStr (c :: s)).
Proof.
  induction n as [|n IH]; intros lx tok lx' E;
    cbn [get_next_token_loop] in E.
  - inversion E; subst. exists lx'.
    repeat split; try apply reaches_refl; discriminate.
  - destruct (current_char lx) as [c|] eqn:Ec;
      [|inversion E; subst; exists lx';
        repeat split; try apply reaches_refl; discriminate].
    destruct (isspace c).
    { destruct (IH _ _ _ E) as [lx0 (R1 & R2 & Ht)]. exists lx0.
      split; [|split; assumption].
      eapply reaches_trans; [apply skip_whitespace_loop_reaches|exact R1]. }
    destruct (char_eqb c (ch "#")).
    { destruct (IH _ _ _ E) as [lx0 (R1 & R2 & Ht)]. exists lx0.
      split; [|split; assumption].
      eapply reaches_trans; [apply skip_comment_reaches|exact R1]. }
    exists lx. split; [apply reaches_refl|].
    destruct (char_eqb c dquote).
    { returned E. split; [eapply string_reaches; eassumption|].
      discriminate. }
    destruct (isdigit c).
    { returned E. split; [eapply number_reaches; eassumption|].
      discriminate. }
    destruct (isalpha c || char_eqb c (ch "_")).
    { pose proof (identifier_reaches lx) as Hi.
      unfold identifier in E, Hi.
      destruct (identifier_loop _ [] lx) as [v lx1]. cbn [snd] in Hi.
      remember (keywords_get keywords v IDENTIFIER) as tt eqn:Et.
      inversion E; subst tok lx'. split; [exact Hi|]. cbn [tok_type].
      subst tt.
      rewrite keywords_get_not_operator. discriminate. }
    unfold single in E.
    repeat match type of E with
           | (if ?b then _ else _) = _ =>
               let Hb := fresh "Hb" in destruct b eqn:Hb
           end;
      try discriminate E; inversion E; subst; clear E;
      (split;
       [ first [ eapply reaches_advance; exact Ec
               | eapply reaches_trans;
                 [ eapply reaches_advance; exact Ec
                 | eapply reaches_advance; eapply is_char_Some; eassumption ] ]
       | intros _; split; [reflexivity|];
         cbn [tok_value];
         repeat match goal with
                | Hc : char_eqb c _ = true |- _ =>
                    apply N.eqb_eq in Hc; subst c
                | Hc : _ || _ = true |- _ => apply orb_true_iff in Hc as [Hc|Hc]
                end;
         (eexists; eexists; split; [exact Ec|reflexivity]) ]).
Qed.

(** X1: a call of [get_next_token] that returns has read a prefix of what
    was left of the text; what is left afterwards is the rest of it, [pos]
    has grown by the length of the prefix, the line and column are those
    after the prefix, and the file name is the same. *)
Theorem lexer_reads_a_prefix (lx lx' : Lexer) (tok : Token) :
  get_next_token lx = Ok (tok, lx') ->
  exists consumed,
    rest lx = consumed ++ rest lx'
    /\ pos lx' = pos lx + Z.of_nat (List.length consumed)
    /\ (line lx', column lx') = after_text consumed (line lx, column lx)
    /\ filename lx' = filename lx.
Proof.
  intros E. apply get_next_token_loop_reads in E.
  destruct E as [lx0 (R1 & R2 & _)].
  exact (reaches_trans _ _ _ R1 R2).
Qed.


End LexerReads.

Definition stdin_name : pystr := utf8 "<stdin>".

Lemma lexer_reads_a_prefix_witness :
  exists consumed,
    rest (Lexer_init (utf8 "  abc = 1") stdin_name)
    = consumed ++ rest (mkLexer (utf8 " = 1") stdin_name 5 1 6)
    /\ pos (mkLexer (utf8 " = 1") stdin_name 5 1 6)
       = pos (Lexer_init (utf8 "  abc = 1") stdin_name)
         + Z.of_nat (List.length consumed)
    /\ (line (mkLexer (utf8 " = 1") stdin_name 5 1 6),
        column (mkLexer (utf8 " = 1") stdin_name 5 1 6))
       = after_text consumed
           (line (Lexer_init (utf8 "  abc = 1") stdin_name),
            column (Lexer_init (utf8 "  abc = 1") stdin_name))
    /\ filename (mkLexer (utf8 " = 1") stdin_name 5 1 6)
       = filename (Lexer_init (utf8 "  abc = 1") stdin_name).
Proof.
  apply (lexer_reads_a_prefix (H := CPython)
           (Lexer_init (utf8 "  abc = 1") stdin_name)
           (mkLexer (utf8 " = 1") stdin_name 5 1 6)
           (mkToken IDENTIFIER (VStr (utf8 "abc")) 1 6)).
  vm_compute. reflexivity.
Defined.


(** ** The loops of the lexer on a known text *)

(** [lx] after it has read [s], with [r] left. *)
Definition moved (lx : Lexer) (s r : pystr) : Lexer :=
  mkLexer r (filename lx) (pos lx + Z.of_nat (List.length s))
    (fst (after_text s (position lx))) (snd (after_text s (position lx))).

Lemma moved_nil (lx : Lexer) : moved lx [] (rest lx) = lx.
Proof.
  destruct lx as [r f p l c]. unfold moved, position, after_text. simpl.
  f_equal. lia.
Qed.

Lemma advance_moved (lx : Lexer) (c : char) (r : pystr) :
  rest lx = c :: r -> advance lx = moved lx [c] r.
Proof.
  intros Er. destruct lx as [r0 f p l k]. simpl in Er. subst r0.
  unfold advance, moved, position, after_text, after_char, current_char.
  simpl. destruct (char_eqb c newline); reflexivity.
Qed.

Lemma moved_moved (lx : Lexer) (s1 r1 s2 r2 : pystr) :
  moved (moved lx s1 r1) s2 r2 = moved lx (s1 ++ s2) r2.
Proof.
  unfold moved, position, after_text. cbn [filename pos line column].
  rewrite <- surjective_pairing, fold_left_app, length_app, Nat2Z.inj_add.
  f_equal. lia.
Qed.

Lemma moved_rest (lx : Lexer) (s r : pystr) : rest (moved lx s r) = r.
Proof. reflexivity. Qed.

(** The text goes on with a character that ends the run of [p], or is at
    its end. *)
Definition stops_at (p : char -> bool) (r : pystr) : bool :=
  match r with
  | [] => true
  | c :: _ => negb (p c)
  end.

Lemma stops_at_current (p : char -> bool) (lx : Lexer) :
  stops_at p (rest lx) = true ->
  match current_char lx with
  | Some c => p c = false
  | None => True
  end.
Proof.
  unfold current_char. destruct (rest lx) as [|c r]; simpl; [trivial|].
  intros E. apply negb_true_iff. exact E.
Qed.

Section LexerScans.
Context {H : Host}.

Definition word_char (c : char) : bool := isalnum c || char_eqb c (ch "_").

Lemma skip_whitespace_loop_scans (w : pystr) :
  forall n lx r,
    rest lx = w ++ r -> forallb isspace w = true ->
    stops_at isspace r = true -> (List.length w <= n)%nat ->
    skip_whitespace_loop n lx = moved lx w r.
Proof.
  induction w as [|c w IH]; intros n lx r Er Hw Hr Hn.
  - simpl in Er. subst r. rewrite moved_nil.
    apply stops_at_current in Hr.
    destruct n; cbn [skip_whitespace_loop]; destruct (current_char lx);
      try rewrite Hr; reflexivity.
  - destruct n as [|n]; [simpl in Hn; lia|].
    simpl in Hw. apply andb_true_iff in Hw as [Hc Hw].
    cbn [skip_whitespace_loop]. unfold current_char. rewrite Er.
    cbn [app hd_error]. rewrite Hc.
    rewrite (advance_moved lx c (w ++ r) Er).
    rewrite (IH n _ r (moved_rest _ _ _) Hw Hr) by (simpl in Hn; lia).
    apply moved_moved.
Qed.

Lemma skip_comment_loop_scans (w : pystr) :
  forall n lx r,
    rest lx = w ++ r ->
    forallb (fun c => negb (char_eqb c newline)) w = true ->
    stops_at (fun c => negb (char_eqb c newline)) r = true ->
    (List.length w <= n)%nat ->
    skip_comment_loop n lx = moved lx w r.
Proof.
  induction w as [|c w IH]; intros n lx r Er Hw Hr Hn.
  - simpl in Er. subst r. rewrite moved_nil.
    apply stops_at_current in Hr.
    destruct n; cbn [skip_comment_loop]; destruct (current_char lx);
      try rewrite Hr; reflexivity.
  - destruct n as [|n]; [simpl in Hn; lia|].
    simpl in Hw. apply andb_true_iff in Hw as [Hc Hw].
    cbn [skip_comment_loop]. unfold current_char. rewrite Er.
    cbn [app hd_error]. rewrite Hc.
    rewrite (advance_moved lx c (w ++ r) Er).
    rewrite (IH n _ r (moved_rest _ _ _) Hw Hr) by (simpl in Hn; lia).
    apply moved_moved.
Qed.

Lemma digits_loop_scans (w : pystr) :
  forall n acc lx r,
    rest lx = w ++ r -> forallb isdigit w = true ->
    stops_at isdigit r = true -> (List.length w <= n)%nat ->
    digits_loop n acc lx = (acc ++ w, moved lx w r).
Proof.
  induction w as [|c w IH]; intros n acc lx r Er Hw Hr Hn.
  - simpl in Er. subst r. rewrite moved_nil, app_nil_r.
    apply stops_at_current in Hr.
    destruct n; cbn [digits_loop]; destruct (current_char lx);
      try rewrite Hr; reflexivity.
  - destruct n as [|n]; [simpl in Hn; lia|].
    simpl in Hw. apply andb_true_iff in Hw as [Hc Hw].
    cbn [digits_loop]. unfold current_char. rewrite Er.
    cbn [app hd_error]. rewrite Hc.
    rewrite (advance_moved lx c (w ++ r) Er).
    rewrite (IH n _ _ r (moved_rest _ _ _) Hw Hr) by (simpl in Hn; lia).
    rewrite moved_moved, <- app_assoc. reflexivity.
Qed.

Lemma identifier_loop_scans (w : pystr) :
  forall n acc lx r,
    rest lx = w ++ r -> forallb word_char w = true ->
    stops_at word_char r = true -> (List.length w <= n)%nat ->
    identifier_loop n acc lx = (acc ++ w, moved lx w r).
Proof.
  induction w as [|c w IH]; intros n acc lx r Er Hw Hr Hn.
  - simpl in Er. subst r. rewrite moved_nil, app_nil_r.
    apply stops_at_current in Hr. unfold word_char in Hr.
    destruct n; cbn [identifier_loop]; destruct (current_char lx);
      try rewrite Hr; reflexivity.
  - destruct n as [|n]; [simpl in Hn; lia|].
    simpl in Hw. apply andb_true_iff in Hw as [Hc Hw].
    unfold word_char in Hc.
    cbn [identifier_loop]. unfold current_char. rewrite Er.
    cbn [app hd_error]. rewrite Hc.
    rewrite (advance_moved lx c (w ++ r) Er).
    rewrite (IH n _ _ r (moved_rest _ _ _) Hw Hr) by (simpl in Hn; lia).
    rewrite moved_moved, <- app_assoc. reflexivity.
Qed.

(** X3: an identifier or keyword is the longest run of letters, digits
    and underscores at the lexer: all of it is the token's text, looked up
    as a whole among the keywords, and the lexer stands right after it. *)
Theorem identifier_takes_the_longest_run (lx : Lexer) (w r : pystr) :
  rest lx = w ++ r ->
  forallb word_char w = true ->
  stops_at word_char r = true ->
  identifier lx = (keywords_get keywords w IDENTIFIER, w, moved lx w r).
Proof.
  intros Er Hw Hr. unfold identifier.
  rewrite (identifier_loop_scans w _ [] lx r Er Hw Hr)
    by (rewrite Er, length_app; lia).
  reflexivity.
Qed.

(** X4: a comment ends with its line.  With [body] up to the next newline,
    [skip_comment] leaves the lexer after that newline, at column 1 of the
    next line. *)
Theorem skip_comment_ends_with_the_line (lx : Lexer) (body r : pystr) :
  rest lx = body ++ newline :: r ->
  forallb (fun c => negb (char_eqb c newline)) body = true ->
  skip_comment lx
  = mkLexer r (filename lx) (pos lx + Z.of_nat (List.length body) + 1)
      (line lx + 1) 1.
Proof.
  intros Er Hb. unfold skip_comment.
  rewrite (skip_comment_loop_scans body _ lx (newline :: r) Er Hb)
    by (try reflexivity; rewrite Er, length_app; lia).
  unfold current_char. cbn [moved rest hd_error is_char].
  replace (char_eqb newline newline) with true by reflexivity.
  rewrite (advance_moved _ newline r) by reflexivity.
  rewrite moved_moved. unfold moved.
  rewrite length_app, Nat2Z.inj_add. cbn [List.length].
  unfold after_text. rewrite fold_left_app. cbn [fold_left].
  unfold after_char at 1 2.
  replace (char_eqb newline newline) with true by reflexivity.
  cbn [fst snd]. f_equal; try lia.
  assert (Hl : forall s lc,
             forallb (fun c => negb (char_eqb c newline)) s = true ->
             fst (fold_left after_char s lc) = fst lc).
  { induction s as [|c s IH]; intros lc Hs; [reflexivity|].
    simpl in Hs. apply andb_true_iff in Hs as [Hc Hs].
    cbn [fold_left]. rewrite (IH _ Hs). unfold after_char.
    apply negb_true_iff in Hc. rewrite Hc. reflexivity. }
  rewrite (Hl body _ Hb). reflexivity.
Qed.

(** X5: a run of digits with a dot after it is read as a fraction,
    together with the digits after the dot, even when there are none; a
    second dot is left in the text.  ([number] is called at a digit.) *)
Theorem number_takes_one_dot (lx : Lexer) (ip fp r : pystr) :
  isdigit (ch ".") = false ->
  ip <> [] ->
  rest lx = ip ++ ch "." :: fp ++ r ->
  forallb isdigit ip = true ->
  forallb isdigit fp = true ->
  stops_at isdigit r = true ->
  number lx
  = (f <- float_of_str ip fp ;;
     Ok (VFloat f, moved lx (ip ++ ch "." :: fp) r)).
Proof.
  intros Hdot _ Er Hip Hfp Hr. unfold number.
  rewrite (digits_loop_scans ip _ [] lx (ch "." :: fp ++ r) Er Hip)
    by (try (cbn [stops_at]; rewrite Hdot; reflexivity);
        rewrite Er, length_app; lia).
  unfold current_char. cbn [moved rest hd_error is_char app].
  change (char_eqb (ch ".") (ch ".")) with true. cbv iota.
  match goal with
  | |- context [advance ?l] =>
      rewrite (advance_moved l (ch ".") (fp ++ r) eq_refl), moved_moved
  end.
  rewrite (digits_loop_scans fp _ []
             (moved lx (ip ++ [ch "."]) (fp ++ r)) r eq_refl Hfp Hr)
    by (cbn [moved rest]; rewrite length_app; lia).
  rewrite moved_moved, <- app_assoc. reflexivity.
Qed.

End LexerScans.

Lemma identifier_takes_the_longest_run_witness :
  identifier (H := CPython) (Lexer_init (utf8 "打印x + 1") stdin_name)
  = (keywords_get keywords (utf8 "打印x") IDENTIFIER, utf8 "打印x",
     moved (Lexer_init (utf8 "打印x + 1") stdin_name) (utf8 "打印x")
       (utf8 " + 1")).
Proof.
  apply (identifier_takes_the_longest_run (H := CPython)
           (Lexer_init (utf8 "打印x + 1") stdin_name) (utf8 "打印x")
           (utf8 " + 1")); vm_compute; reflexivity.
Defined.

Lemma skip_comment_ends_with_the_line_witness :
  skip_comment
    (Lexer_init (utf8 "# note" ++ newline :: utf8 "x = 1;") stdin_name)
  = mkLexer (utf8 "x = 1;")
      (filename (Lexer_init (utf8 "# note" ++ newline :: utf8 "x = 1;")
                   stdin_name))
      (pos (Lexer_init (utf8 "# note" ++ newline :: utf8 "x = 1;")
              stdin_name)
       + Z.of_nat (List.length (utf8 "# note")) + 1)
      (line (Lexer_init (utf8 "# note" ++ newline :: utf8 "x = 1;")
               stdin_name) + 1) 1.
Proof.
  apply (skip_comment_ends_with_the_line
           (Lexer_init (utf8 "# note" ++ newline :: utf8 "x = 1;") stdin_name)
           (utf8 "# note") (utf8 "x = 1;")); vm_compute; reflexivity.
Defined.

Lemma number_takes_one_dot_witness :
  number (H := CPython) (Lexer_init (utf8 "1..5") stdin_name)
  = (f <- float_of_str (H := CPython) (utf8 "1") [] ;;
     Ok (VFloat f,
         moved (Lexer_init (utf8 "1..5") stdin_name)
           (utf8 "1" ++ ch "." :: []) (utf8 ".5"))).
Proof.
  apply (number_takes_one_dot (H := CPython)
           (Lexer_init (utf8 "1..5") stdin_name) (utf8 "1") [] (utf8 ".5"));
    try discriminate; vm_compute; reflexivity.
Defined.

(** ** String literals *)

(** A string written out as a literal's body: the four escapes of the
    lexer, every other character as it is. *)
Definition escape_char (c : char) : pystr :=
  if char_eqb c newline then [ch "\"; ch "n"]
  else if char_eqb c 9%N then [ch "\"; ch "t"]
  else if char_eqb c dquote then [ch "\"; dquote]
  else if char_eqb c (ch "\") then [ch "\"; ch "\"]
  else [c].

Definition escape (s : pystr) : pystr := flat_map escape_char s.

Definition closes (r : pystr) : bool :=
  stops_at (fun c => negb (char_eqb c dquote)) r.

Section StringLiterals.

Lemma string_loop_escape (s : pystr) :
  forall n acc lx r,
    rest lx = escape s ++ r -> closes r = true ->
    (List.length (escape s) <= n)%nat ->
    string_loop n acc lx = Ok (acc ++ s, moved lx (escape s) r).
Proof.
  induction s as [|c s IH]; intros n acc lx r Er Hr Hn.
  - simpl in Er. subst r. cbn [escape flat_map].
    rewrite moved_nil, app_nil_r.
    apply stops_at_current in Hr.
    destruct n; cbn [string_loop]; destruct (current_char lx);
      try rewrite Hr; reflexivity.
  - change (escape (c :: s)) with (escape_char c ++ escape s) in *.
    rewrite length_app in Hn. rewrite <- app_assoc in Er.
    rewrite <- moved_moved with (r1 := escape s ++ r).
    replace (acc ++ c :: s) with ((acc ++ [c]) ++ s)
      by (rewrite <- app_assoc; reflexivity).
    unfold escape_char in *.
    destruct (char_eqb c newline) eqn:E1;
      [|destruct (char_eqb c 9%N) eqn:E2;
        [|destruct (char_eqb c dquote) eqn:E3;
          [|destruct (char_eqb c (ch "\")) eqn:E4]]];
      try (apply N.eqb_eq in E1; subst c);
      try (apply N.eqb_eq in E2; subst c);
      try (apply N.eqb_eq in E3; subst c);
      try (apply N.eqb_eq in E4; subst c);
      (destruct n as [|n]; [simpl in Hn; lia|]);
      cbn [string_loop]; unfold current_char; rewrite Er;
      cbn [app hd_error].
    1-4: change (negb (char_eqb (ch "\") dquote)) with true;
      change (char_eqb (ch "\") (ch "\")) with true; cbv iota;
      rewrite (advance_moved lx (ch "\") _ Er); cbv zeta;
      unfold current_char; cbn [moved rest hd_error is_char];
      match goal with
      | |- context [advance ?l] =>
          rewrite (advance_moved l _ _ eq_refl), moved_moved
      end.
    + change (char_eqb (ch "n") (ch "n")) with true. cbv iota. cbn [bind].
      apply IH; [reflexivity|exact Hr|simpl in Hn; lia].
    + change (char_eqb (ch "t") (ch "n")) with false.
      change (char_eqb (ch "t") (ch "t")) with true. cbv iota. cbn [bind].
      apply IH; [reflexivity|exact Hr|simpl in Hn; lia].
    + change (char_eqb dquote (ch "n")) with false.
      change (char_eqb dquote (ch "t")) with false.
      change (char_eqb dquote dquote) with true. cbv iota. cbn [bind].
      apply IH; [reflexivity|exact Hr|simpl in Hn; lia].
    + change (char_eqb (ch "\") (ch "n")) with false.
      change (char_eqb (ch "\") (ch "t")) with false.
      change (char_eqb (ch "\") dquote) with false.
      cbv iota. cbn [bind].
      apply IH; [reflexivity|exact Hr|simpl in Hn; lia].
    + rewrite E3, E4. cbn [negb].
      rewrite (advance_moved lx c _ Er).
      apply IH; [reflexivity|exact Hr|simpl in Hn; lia].
Qed.

(** X6: reading back a written string.  A literal whose body is [escape s]
    is read as [s], and the lexer stands after the closing quote. *)
Theorem string_reads_back (lx : Lexer) (s r : pystr) :
  rest lx = dquote :: escape s ++ dquote :: r ->
  string_ lx = Ok (s, moved lx (dquote :: escape s ++ [dquote]) r).
Proof.
  intros Er. unfold string_. cbv zeta.
  rewrite (advance_moved lx dquote _ Er).
  rewrite (string_loop_escape s _ []
             (moved lx [dquote] (escape s ++ dquote :: r)) (dquote :: r)
             eq_refl eq_refl)
    by (cbn [moved rest]; rewrite length_app; lia).
  cbn [bind app]. rewrite moved_moved.
  unfold current_char. cbn [moved rest hd_error is_char].
  change (char_eqb dquote dquote) with true. cbv iota.
  match goal with
  | |- context [advance ?l] =>
      rewrite (advance_moved l dquote r eq_refl), moved_moved
  end.
  rewrite <- app_assoc. reflexivity.
Qed.


End StringLiterals.

(** ** The end of the text *)

Section EndOfText.
Context {H : Host}.

Lemma keywords_get_not_EOF (k : pystr) :
  keywords_get keywords k IDENTIFIER <> EOF.
Proof.
  unfold keywords. cbn [keywords_get].
  repeat match goal with
         | |- context [if ?b then _ else _] => destruct b
         end; discriminate.
Qed.

Lemma get_next_token_loop_EOF (n : nat) :
  forall lx tok lx',
    (left_ lx <= n)%nat ->
    get_next_token_loop n lx = Ok (tok, lx') ->
    tok_type tok = EOF ->
    rest lx' = [] /\ tok = mkToken EOF VNone (line lx') (column lx').
Proof.
  induction n as [|n IH]; intros lx tok lx' Hn E Ht;
    cbn [get_next_token_loop] in E.
  - inversion E; subst. split; [|reflexivity].
    unfold left_ in Hn. destruct (rest lx'); [reflexivity|simpl in Hn; lia].
  - destruct (current_char lx) as [c|] eqn:Ec.
    2:{ inversion E; subst. split; [|reflexivity].
        unfold current_char in Ec. destruct (rest lx'); [reflexivity|discriminate]. }
    destruct (isspace c) eqn:Hsp.
    { pose proof (skip_whitespace_left lx c Ec Hsp).
      eapply IH; [|exact E|exact Ht]; lia. }
    destruct (char_eqb c (ch "#")) eqn:Hh.
    { apply N.eqb_eq in Hh. subst c.
      pose proof (skip_comment_left lx Ec).
      eapply IH; [|exact E|exact Ht]; lia. }
    exfalso.
    destruct (char_eqb c dquote).
    { returned E. discriminate Ht. }
    destruct (isdigit c).
    { returned E. discriminate Ht. }
    destruct (isalpha c || char_eqb c (ch "_")).
    { unfold identifier in E.
      destruct (identifier_loop _ [] lx) as [v lx1].
      remember (keywords_get keywords v IDENTIFIER) as tt eqn:Et.
      inversion E; subst tok lx'. cbn [tok_type] in Ht. subst tt.
      exact (keywords_get_not_EOF v Ht). }
    unfold single in E.
    repeat match type of E with
           | (if ?b then _ else _) = _ => destruct b
           end;
      try discriminate E; inversion E; subst; discriminate Ht.
Qed.

(** X8: the end of the text is final.  When [get_next_token] returns the
    token [EOF] nothing is left of the text, and every further call returns
    the same token and leaves the lexer as it is. *)
Theorem end_of_text_is_final (lx lx' : Lexer) (tok : Token) :
  get_next_token lx = Ok (tok, lx') ->
  tok_type tok = EOF ->
  rest lx' = [] /\ get_next_token lx' = Ok (tok, lx').
Proof.
  intros E Ht.
  destruct (get_next_token_loop_EOF _ lx tok lx' (Nat.le_refl _) E Ht)
    as [Er Etok].
  split; [exact Er|].
  unfold get_next_token. rewrite Er. cbn [List.length get_next_token_loop].
  rewrite Etok. reflexivity.
Qed.

End EndOfText.

(** A text with a quote, a backslash, a newline and a tab in it. *)
Definition awkward_text : pystr :=
  utf8 "a" ++ [dquote; ch "\"; newline; 9%N] ++ utf8 "b".

Lemma string_reads_back_witness :
  string_
    (Lexer_init (dquote :: escape awkward_text ++ dquote :: utf8 ";")
       stdin_name)
  = Ok (awkward_text,
        moved (Lexer_init (dquote :: escape awkward_text
                             ++ dquote :: utf8 ";") stdin_name)
          (dquote :: escape awkward_text ++ [dquote]) (utf8 ";")).
Proof.
  apply (string_reads_back
           (Lexer_init (dquote :: escape awkward_text ++ dquote :: utf8 ";")
              stdin_name) awkward_text (utf8 ";")).
  reflexivity.
Defined.


Lemma end_of_text_is_final_witness :
  rest (mkLexer [] stdin_name 2 1 3) = []
  /\ get_next_token (H := CPython) (mkLexer [] stdin_name 2 1 3)
     = Ok (mkToken EOF VNone 1 3, mkLexer [] stdin_name 2 1 3).
Proof.
  apply (end_of_text_is_final (H := CPython)
           (Lexer_init (utf8 "  ") stdin_name)
           (mkLexer [] stdin_name 2 1 3) (mkToken EOF VNone 1 3)).
  - vm_compute. reflexivity.
  - reflexivity.
Defined.

(** * Further properties of the evaluator *)

(** ** Invariants of the state *)

(** The [Import] statements of a node name only modules that [allowed]
    accepts. *)
Fixpoint imports_only (allowed : pystr -> bool) (n : AST) : bool :=
  match n with
  | Import m => allowed m
  | Print e | Assign _ e => imports_only allowed e
  | If c t f =>
      imports_only allowed c && forallb (imports_only allowed) t
      && match f with
         | Some l => forallb (imports_only allowed) l
         | None => true
         end
  | While c b => imports_only allowed c && forallb (imports_only allowed) b
  | Comparison l _ r | BinOp l _ r =>
      imports_only allowed l && imports_only allowed r
  | TryCatch t c _ =>
      forallb (imports_only allowed) t && forallb (imports_only allowed) c
  | _ => true
  end.

Lemma Forall_forallb {A} (f : A -> bool) (l : list A) :
  Forall (fun x => f x = true) l -> forallb f l = true.
Proof.
  induction 1 as [|x l Hx _ IH]; [reflexivity|].
  cbn [forallb]. rewrite Hx, IH. reflexivity.
Qed.

Lemma imports_only_any (n : AST) : imports_only (fun _ => true) n = true.
Proof.
  induction n using AST_induction; cbn [imports_only]; try reflexivity;
    try assumption;
    repeat match goal with
           | Hl : Forall _ _ |- _ => apply Forall_forallb in Hl
           end;
    repeat (apply andb_true_intro; split); try assumption.
  destruct f as [l|]; [|reflexivity].
  apply Forall_forallb. auto.
Qed.

Lemma imports_only_any_all (l : list AST) :
  forallb (imports_only (fun _ => true)) l = true.
Proof. apply forallb_forall. intros n _. apply imports_only_any. Qed.

Section StateInvariant.
Context {H : Host} {F : FileSystem}.
Variable hook : list AST -> State -> effect.
Variable allowed : pystr -> bool.
Variable I : State -> Prop.

(** The three ways the visitor changes the state: it binds a name, it
    prints a line, it imports a module. *)
Hypothesis I_bind : forall st k v,
  I st -> I (set_variables st (dict_set (variables st) k v)).
Hypothesis I_print : forall st s,
  I st ->
  I (mkState (variables st) (imported_modules st) (stdout st ++ [s])
       (opened st)).
Hypothesis I_import : forall m st,
  allowed m = true -> I st -> I (snd (visit_Import hook m st)).

Lemma for_each_invariant (stmts : list AST) :
  Forall (fun s => imports_only allowed s = true ->
                   forall st, I st -> I (snd (visit hook s st))) stmts ->
  forallb (imports_only allowed) stmts = true ->
  forall st, I st -> I (snd (for_each (visit hook) stmts st)).
Proof.
  intros Hall. induction Hall as [|s l Hs _ IH]; intros Hsh st Hst;
    cbn [for_each]; [exact Hst|].
  cbn [forallb] in Hsh. apply andb_prop in Hsh as [Hs1 Hs2].
  specialize (Hs Hs1 st Hst).
  destruct (visit hook s st) as [[v|e|] st1]; try exact Hs.
  apply IH; assumption.
Qed.

(** What holds of the state and is kept by each of the three is kept by
    every node, however it ends. *)
Lemma visit_invariant (node : AST) :
  imports_only allowed node = true ->
  forall st, I st -> I (snd (visit hook node st)).
Proof.
  induction node using AST_induction; cbn [imports_only]; intros Hs st Hst;
    cbn [visit]; rewrite visit_guard_state.
  - (* Print *)
    specialize (IHnode Hs st Hst).
    destruct (visit hook node st) as [[v|e|] st1]; try exact IHnode.
    apply I_print. exact IHnode.
  - (* Assign *)
    specialize (IHnode Hs st Hst).
    destruct (visit hook node st) as [[v|e|] st1]; try exact IHnode.
    apply I_bind. exact IHnode.
  - (* Variable *)
    unfold visit_Variable. destruct (dict_get (variables st) x); exact Hst.
  - exact Hst.
  - exact Hst.
  - (* If *)
    apply andb_prop in Hs as [Hs Hf]. apply andb_prop in Hs as [Hc Ht].
    specialize (IHnode Hc st Hst).
    destruct (visit hook node st) as [[v|e|] st1]; try exact IHnode.
    destruct (negb (is_bool v)); [exact IHnode|].
    destruct (truthy v).
    + apply for_each_invariant; assumption.
    + destruct f as [[|s0 l]|]; try exact IHnode.
      apply for_each_invariant; try assumption. apply H1. reflexivity.
  - (* While *)
    apply andb_prop in Hs as [Hc Hb].
    apply while_loop_keeps; [| |exact Hst].
    + intros st0 Hst0. apply IHnode; assumption.
    + intros st0 Hst0. apply for_each_invariant; assumption.
  - (* Comparison *)
    apply andb_prop in Hs as [Hl Hr].
    specialize (IHnode1 Hl st Hst).
    destruct (visit hook node1 st) as [[v1|e|] st1]; try exact IHnode1.
    specialize (IHnode2 Hr st1 IHnode1).
    destruct (visit hook node2 st1) as [[v2|e|] st2]; exact IHnode2.
  - (* BinOp *)
    apply andb_prop in Hs as [Hl Hr].
    specialize (IHnode1 Hl st Hst).
    destruct (visit hook node1 st) as [[v1|e|] st1]; try exact IHnode1.
    specialize (IHnode2 Hr st1 IHnode1).
    destruct (visit hook node2 st1) as [[v2|e|] st2]; exact IHnode2.
  - (* Import *)
    apply I_import; assumption.
  - (* TryCatch *)
    apply andb_prop in Hs as [Ht Hc].
    pose proof (for_each_invariant t H0 Ht st Hst) as Htry.
    destruct (for_each (visit hook) t st) as [[v|e|] st1]; try exact Htry.
    apply for_each_invariant; try assumption.
    apply I_bind. exact Htry.
Qed.

Lemma interpret_with_invariant (ast : list AST) (st : State) :
  forallb (imports_only allowed) ast = true ->
  I st -> I (snd (interpret_with hook ast st)).
Proof.
  intros Hs Hst. unfold interpret_with.
  apply for_each_invariant; try assumption.
  apply Forall_forall. intros s _. apply visit_invariant.
Qed.

End StateInvariant.

(** ** Nothing is taken back *)

Definition mylang_file (p : pystr) : bool := endswith p (utf8 ".mylang").

(** From [st] to [st']: lines were printed and files with the suffix
    [.mylang] opened, after those of [st]; every module recorded and every
    name bound in [st] still is. *)
Definition grows (st st' : State) : Prop :=
  (exists out, stdout st' = stdout st ++ out)
  /\ (exists files,
        opened st' = opened st ++ files /\ forallb mylang_file files = true)
  /\ (forall m, set_in m (imported_modules st) = true ->
                set_in m (imported_modules st') = true)
  /\ (forall k, dict_get (variables st) k <> None ->
                dict_get (variables st') k <> None).

Lemma grows_refl (st : State) : grows st st.
Proof.
  repeat split; auto.
  - exists []. rewrite app_nil_r. reflexivity.
  - exists []. rewrite app_nil_r. split; reflexivity.
Qed.

Lemma grows_trans (a b c : State) : grows a b -> grows b c -> grows a c.
Proof.
  intros ([o1 O1] & [f1 [F1 M1]] & I1 & V1) ([o2 O2] & [f2 [F2 M2]] & I2 & V2).
  repeat split; auto.
  - exists (o1 ++ o2). rewrite O2, O1, app_assoc. reflexivity.
  - exists (f1 ++ f2). rewrite F2, F1, app_assoc, forallb_app, M1, M2.
    split; reflexivity.
Qed.

Lemma grows_bind (st : State) (k : pystr) (v : value) :
  grows st (set_variables st (dict_set (variables st) k v)).
Proof.
  repeat split; auto; cbn [set_variables stdout opened variables].
  - exists []. rewrite app_nil_r. reflexivity.
  - exists []. rewrite app_nil_r. split; reflexivity.
  - intros k' Hk'. destruct (str_eqb_spec k' k) as [->|Hne].
    + rewrite dict_get_set_same. discriminate.
    + rewrite dict_get_set_other by exact Hne. exact Hk'.
Qed.

Lemma grows_print (st : State) (s : pystr) :
  grows st (mkState (variables st) (imported_modules st) (stdout st ++ [s])
              (opened st)).
Proof.
  repeat split; auto; cbn [stdout opened].
  - exists [s]. reflexivity.
  - exists []. rewrite app_nil_r. split; reflexivity.
Qed.

Lemma startswith_app (s t p : pystr) :
  startswith s p = true -> startswith (s ++ t) p = true.
Proof.
  revert s. induction p as [|y p IH]; intros [|x s]; cbn [startswith app];
    intros E; try reflexivity; try discriminate E.
  - destruct t; reflexivity.
  - apply andb_prop in E as [E1 E2]. rewrite E1. cbn [andb]. auto.
Qed.

Lemma startswith_refl (p : pystr) : startswith p p = true.
Proof.
  induction p as [|y p IH]; simpl; [reflexivity|].
  unfold char_eqb. rewrite N.eqb_refl. exact IH.
Qed.

Lemma endswith_app (a b p : pystr) :
  endswith b p = true -> endswith (a ++ b) p = true.
Proof.
  unfold endswith. rewrite rev_app_distr. apply startswith_app.
Qed.

Lemma endswith_suffix (a p : pystr) : endswith (a ++ p) p = true.
Proof.
  apply endswith_app. unfold endswith. apply startswith_refl.
Qed.

Lemma endswith_path_join (a b p : pystr) :
  endswith b p = true -> endswith (path_join a b) p = true.
Proof.
  intros E. unfold path_join.
  destruct (startswith b (utf8 "/")); [exact E|].
  destruct (match a with [] => true | _ => endswith a (utf8 "/") end).
  - apply endswith_app. exact E.
  - apply endswith_app. apply endswith_app. exact E.
Qed.

Section Grows.
Context {H : Host} {F : FileSystem}.

(** Every path that [find_module] returns has the suffix [.mylang]. *)
Lemma find_module_mylang_file (m p : pystr) :
  find_module m = inl (Some p) -> mylang_file p = true.
Proof.
  unfold find_module, mylang_file.
  destruct (path_exists (m ++ utf8 ".mylang")).
  { intros E. inversion E. apply endswith_suffix. }
  match goal with
  | |- context [path_exists (path_join ?d (m ++ utf8 ".mylang"))] =>
      destruct (path_exists (path_join d (m ++ utf8 ".mylang")));
      [intros E; inversion E; apply endswith_path_join, endswith_suffix|];
      destruct (path_exists d); [|discriminate];
      destruct (listdir d) as [names|msg]; [|discriminate]
  end.
  match goal with
  | |- context [find ?f names] => destruct (find f names) as [x|] eqn:Ef
  end; [|discriminate].
  apply find_some in Ef. destruct Ef as [_ Ef].
  apply andb_prop in Ef as [_ Ef].
  intros E. inversion E. apply endswith_path_join. exact Ef.
Qed.

Section GrowsWith.
Variable hook : list AST -> State -> effect.
Hypothesis hook_grows : forall ast st, grows st (snd (hook ast st)).

Lemma visit_Import_grows (m : pystr) (st : State) :
  grows st (snd (visit_Import hook m st)).
Proof.
  unfold visit_Import.
  destruct (set_in m (imported_modules st)) eqn:Em; [apply grows_refl|].
  assert (Hadd : forall k, set_in k (imported_modules st) = true ->
                           set_in k (set_add m (imported_modules st)) = true).
  { intros k Hk. unfold set_add. rewrite Em. unfold set_in.
    rewrite existsb_app. unfold set_in in Hk. rewrite Hk. reflexivity. }
  assert (H1 : grows st (mkState (variables st)
                           (set_add m (imported_modules st))
                           (stdout st) (opened st))).
  { repeat split; auto; cbn [stdout opened].
    - exists []. rewrite app_nil_r. reflexivity.
    - exists []. rewrite app_nil_r. split; reflexivity. }
  destruct (find_module m) as [[p|]|msg] eqn:Ef; try exact H1.
  apply find_module_mylang_file in Ef.
  destruct p as [|c p]; [exact H1|].
  assert (H2 : grows st (mkState (variables st)
                           (set_add m (imported_modules st))
                           (stdout st) (opened st ++ [c :: p]))).
  { repeat split; auto; cbn [stdout opened].
    - exists []. rewrite app_nil_r. reflexivity.
    - exists [c :: p]. split; [reflexivity|]. cbn [forallb].
      rewrite Ef. reflexivity. }
  cbn [variables imported_modules stdout opened].
  destruct (read_text (c :: p)) as [code|msg]; [|exact H2].
  match goal with
  | |- context [mkState ?a [] ?b ?d] => set (mi := mkState a [] b d)
  end.
  assert (Hm : forall m',
             grows mi m' ->
             grows st (mkState (variables m')
                         (set_add m (imported_modules st))
                         (stdout m') (opened m'))).
  { intros m' ([o O] & [f [Fo Fm]] & _ & V).
    repeat split; auto; cbn [stdout opened variables].
    - exists o. exact O.
    - exists ([c :: p] ++ f). rewrite Fo. subst mi. cbn [opened].
      rewrite <- app_assoc. split; [reflexivity|].
      cbn [app forallb]. rewrite Ef, Fm. reflexivity. }
  destruct (parse_text code (c :: p)) as [ast|e|].
  - pose proof (hook_grows ast mi) as Hh.
    destruct (hook ast mi) as [[v|e|] m']; cbn [snd] in Hh;
      try (destruct (is_MyLangError e)); exact (Hm m' Hh).
  - destruct (is_MyLangError e); exact (Hm mi (grows_refl mi)).
  - exact (Hm mi (grows_refl mi)).
Qed.

Lemma interpret_with_grows (ast : list AST) (st : State) :
  grows st (snd (interpret_with hook ast st)).
Proof.
  apply (interpret_with_invariant hook (fun _ => true) (grows st)).
  - intros s k v Hs. eapply grows_trans; [exact Hs|apply grows_bind].
  - intros s l Hs. eapply grows_trans; [exact Hs|apply grows_print].
  - intros m s _ Hs. eapply grows_trans; [exact Hs|apply visit_Import_grows].
  - apply imports_only_any_all.
  - apply grows_refl.
Qed.

End GrowsWith.

Lemma interpret_grows (depth : nat) :
  forall ast st, grows st (snd (interpret depth ast st)).
Proof.
  induction depth as [|d IH]; intros ast st; cbn [interpret];
    apply interpret_with_grows.
  - intros ast' st'. apply grows_refl.
  - exact IH.
Qed.

(** X9: nothing is taken back.  Whatever statements run and however they
    end, the lines printed before are the first of those printed after,
    every module recorded as imported still is, and every name that was
    bound still is. *)
Theorem nothing_is_taken_back (depth : nat) (ast : list AST) (st : State) :
  (exists out,
     stdout (snd (interpret depth ast st)) = stdout st ++ out)
  /\ (forall m,
        set_in m (imported_modules st) = true ->
        set_in m (imported_modules (snd (interpret depth ast st))) = true)
  /\ (forall k v,
        dict_get (variables st) k = Some v ->
        exists v', dict_get (variables (snd (interpret depth ast st))) k
                   = Some v').
Proof.
  destruct (interpret_grows depth ast st) as (O & _ & I & V).
  split; [exact O|]. split; [exact I|].
  intros k v Hk.
  destruct (dict_get (variables (snd (interpret depth ast st))) k) as [v'|]
    eqn:E; [eauto|].
  exfalso. apply (V k); [congruence|exact E].
Qed.

(** X10: the files a run opens are module files.  Whatever statements run,
    each file opened in the course of it has a name that ends in
    [.mylang]. *)
Theorem only_module_files_are_opened (depth : nat) (ast : list AST)
  (st : State) :
  exists files,
    opened (snd (interpret depth ast st)) = opened st ++ files
    /\ Forall (fun p => endswith p (utf8 ".mylang") = true) files.
Proof.
  destruct (interpret_grows depth ast st) as (_ & [files [Ef Hm]] & _).
  exists files. split; [exact Ef|].
  apply Forall_forall. intros p Hp.
  exact (proj1 (forallb_forall _ _) Hm p Hp).
Qed.

End Grows.

(** ** Programs that import nothing *)

Definition import_free : AST -> bool := imports_only (fun _ => false).

Lemma expr_shape_import_free (e : AST) :
  expr_shape e = true -> import_free e = true.
Proof.
  unfold import_free.
  induction e using AST_induction; cbn [expr_shape imports_only];
    intros Hs; try discriminate Hs; try reflexivity.
  apply andb_prop in Hs as [H1 H2]. rewrite IHe1, IHe2 by assumption.
  reflexivity.
Qed.

Lemma comparison_shape_import_free (c : AST) :
  comparison_shape c = true -> import_free c = true.
Proof.
  destruct c; cbn [comparison_shape]; try apply expr_shape_import_free.
  intros Hs. apply andb_prop in Hs as [H1 H2].
  apply expr_shape_import_free in H1, H2.
  unfold import_free in *. cbn [imports_only]. rewrite H1, H2.
  reflexivity.
Qed.

Lemma while_loop_ext (c1 b1 c2 b2 : State -> effect) :
  (forall st, c1 st = c2 st) -> (forall st, b1 st = b2 st) ->
  forall budget iterations st,
    while_loop c1 b1 budget iterations st
    = while_loop c2 b2 budget iterations st.
Proof.
  intros Hc Hb. induction budget as [|n IH]; intros i st; cbn [while_loop];
    rewrite Hc; destruct (c2 st) as [[c|e|] st1]; try reflexivity;
    destruct (truthy c); try reflexivity;
    rewrite Hb; destruct (b2 st1) as [[w|e|] st2]; try reflexivity;
    destruct (i + 1 >? max_iterations); try reflexivity.
  apply IH.
Qed.

Lemma for_each_ext (v1 v2 : AST -> State -> effect) (stmts : list AST) :
  Forall (fun s => import_free s = true -> forall st, v1 s st = v2 s st)
    stmts ->
  forallb import_free stmts = true ->
  forall st, for_each v1 stmts st = for_each v2 stmts st.
Proof.
  intros Hall. induction Hall as [|s l Hs _ IH]; intros Hf st;
    cbn [for_each]; [reflexivity|].
  cbn [forallb] in Hf. apply andb_prop in Hf as [Hf1 Hf2].
  rewrite (Hs Hf1). destruct (v2 s st) as [[v|e|] st1]; auto.
Qed.

Section ImportFree.
Context {H : Host}.
Variable F1 F2 : FileSystem.
Variable h1 h2 : list AST -> State -> effect.

(** A node without [Import] does not look at the files or at the
    interpreter of modules. *)
Lemma visit_import_free (node : AST) :
  import_free node = true ->
  forall st, visit (F := F1) h1 node st = visit (F := F2) h2 node st.
Proof.
  unfold import_free.
  induction node using AST_induction; cbn [imports_only]; intros Hs st;
    try discriminate Hs; cbn [visit]; apply (f_equal visit_guard).
  - rewrite (IHnode Hs). reflexivity.
  - rewrite (IHnode Hs). reflexivity.
  - reflexivity.
  - reflexivity.
  - reflexivity.
  - apply andb_prop in Hs as [Hs Hf]. apply andb_prop in Hs as [Hc Ht].
    rewrite (IHnode Hc).
    destruct (visit h2 node st) as [[v|e|] st1]; try reflexivity.
    destruct (negb (is_bool v)); [reflexivity|].
    destruct (truthy v); [apply for_each_ext; assumption|].
    destruct f as [[|s0 l]|]; try reflexivity.
    apply for_each_ext; [|exact Hf]. apply H1. reflexivity.
  - apply andb_prop in Hs as [Hc Hb].
    apply while_loop_ext; [intros st0; apply IHnode; exact Hc|].
    intros st0. apply for_each_ext; assumption.
  - apply andb_prop in Hs as [Hl Hr]. rewrite (IHnode1 Hl).
    destruct (visit h2 node1 st) as [[v1|e|] st1]; try reflexivity.
    rewrite (IHnode2 Hr). reflexivity.
  - apply andb_prop in Hs as [Hl Hr]. rewrite (IHnode1 Hl).
    destruct (visit h2 node1 st) as [[v1|e|] st1]; try reflexivity.
    rewrite (IHnode2 Hr). reflexivity.
  - apply andb_prop in Hs as [Ht Hc].
    rewrite (for_each_ext _ _ t H0 Ht).
    destruct (for_each (visit h2) t st) as [[v|e|] st1]; try reflexivity.
    apply for_each_ext; assumption.
Qed.

Lemma interpret_with_import_free (ast : list AST) (st : State) :
  forallb import_free ast = true ->
  interpret_with (F := F1) h1 ast st = interpret_with (F := F2) h2 ast st.
Proof.
  intros Hf. unfold interpret_with. apply for_each_ext; [|exact Hf].
  apply Forall_forall. intros s _. apply visit_import_free.
Qed.

End ImportFree.

Lemma interpret_unfold {H : Host} {F : FileSystem} (depth : nat) :
  exists hook, forall ast st,
    interpret depth ast st = interpret_with hook ast st.
Proof.
  destruct depth as [|d]; eexists; intros ast st; reflexivity.
Qed.

Section ImportFreePrograms.
Context {H : Host}.

(** X11: a program that imports nothing runs by itself.  It ends or
    fails in the same way and in the same state whatever the files are and
    however deep modules may nest; it always does one of the two; it opens
    no file and records no module. *)
Theorem import_free_program_runs_by_itself (F1 F2 : FileSystem)
  (d1 d2 : nat) (ast : list AST) (st : State) :
  forallb import_free ast = true ->
  interpret (F := F1) d1 ast st = interpret (F := F2) d2 ast st
  /\ fst (interpret (F := F1) d1 ast st) <> Diverge
  /\ opened (snd (interpret (F := F1) d1 ast st)) = opened st
  /\ imported_modules (snd (interpret (F := F1) d1 ast st))
     = imported_modules st.
Proof.
  intros Hf.
  destruct (interpret_unfold (F := F1) d1) as [h1 E1].
  destruct (interpret_unfold (F := F2) d2) as [h2 E2].
  rewrite E1, E2. split; [apply interpret_with_import_free; exact Hf|].
  split.
  - rewrite (interpret_with_import_free F1 F1 h1 (fun _ s => (Ok VNone, s))
               ast st Hf).
    unfold interpret_with. apply for_each_returns.
    apply Forall_forall. intros s _ st0. apply visit_returns.
    intros ast' st'. discriminate.
  - apply (interpret_with_invariant h1 (fun _ => false)
             (fun s => opened s = opened st
                       /\ imported_modules s = imported_modules st)).
    + intros s k v Hs. exact Hs.
    + intros s l Hs. exact Hs.
    + intros m s Hm. discriminate Hm.
    + exact Hf.
    + split; reflexivity.
Qed.

End ImportFreePrograms.

(** ** A module is tried once *)

Section ImportOnce.
Context {H : Host} {F : FileSystem}.

Lemma for_each_one (v : AST -> State -> effect) (s : AST) (st : State) :
  snd (for_each v [s] st) = snd (v s st).
Proof.
  cbn [for_each]. destruct (v s st) as [[w|e|] st1]; reflexivity.
Qed.

(** X12: within one interpreter a module is tried once.  After an
    [Import] of [m] has run, to its end or to a failure, and whatever
    statements have run since, an [Import] of [m] does nothing. *)
Theorem import_is_tried_once (depth : nat) (m : pystr) (between : list AST)
  (st : State) :
  let st1 := snd (interpret depth [Import m] st) in
  let st2 := snd (interpret depth between st1) in
  interpret depth [Import m] st2 = (Ok VNone, st2).
Proof.
  intros st1 st2.
  assert (Hin : set_in m (imported_modules st2) = true).
  { destruct (interpret_grows depth between st1) as (_ & _ & Hi & _).
    apply Hi. subst st1.
    destruct (interpret_unfold depth) as [h E]. rewrite E.
    unfold interpret_with. rewrite for_each_one.
    apply visit_Import_records. }
  destruct (interpret_unfold depth) as [h E]. rewrite E.
  unfold interpret_with. cbn [for_each].
  rewrite (visit_Import_again h m st2 Hin). reflexivity.
Qed.

End ImportOnce.

(** ** Statements in sequence *)

Lemma for_each_app (v : AST -> State -> effect) (p1 p2 : list AST)
  (st : State) :
  for_each v (p1 ++ p2) st
  = match for_each v p1 st with
    | (Ok _, st1) => for_each v p2 st1
    | r => r
    end.
Proof.
  revert st. induction p1 as [|s p1 IH]; intros st; cbn [app for_each];
    [reflexivity|].
  destruct (v s st) as [[w|e|] st1]; auto.
Qed.

(** X13: statements in sequence.  Running [p1] followed by [p2] is running
    [p1] and, when it has ended, [p2] in the state it left; when [p1]
    fails, so does the whole in the same state, and nothing of [p2] is
    run. *)
Theorem statements_run_in_sequence {H : Host} {F : FileSystem} (depth : nat)
  (p1 p2 : list AST) (st : State) :
  interpret depth (p1 ++ p2) st
  = match interpret depth p1 st with
    | (Ok _, st1) => interpret depth p2 st1
    | r => r
    end.
Proof.
  destruct (interpret_unfold depth) as [h E]. rewrite !E.
  destruct (interpret_with h p1 st) as [[w|e|] st1] eqn:E1;
    try rewrite E; unfold interpret_with in *; rewrite for_each_app, E1;
    reflexivity.
Qed.

Definition bind_and_print : list AST :=
  [Assign (utf8 "x") (Number (VInt 1)); Print (Variable_ (utf8 "x"))].

Lemma import_free_program_runs_by_itself_witness :
  interpret (H := CPython) (F := no_files) 0 bind_and_print Interpreter_init
  = interpret (H := CPython) (F := two_modules) 3 bind_and_print
      Interpreter_init
  /\ fst (interpret (H := CPython) (F := no_files) 0 bind_and_print
            Interpreter_init) <> Diverge
  /\ opened (snd (interpret (H := CPython) (F := no_files) 0 bind_and_print
                    Interpreter_init))
     = opened Interpreter_init
  /\ imported_modules
       (snd (interpret (H := CPython) (F := no_files) 0 bind_and_print
               Interpreter_init))
     = imported_modules Interpreter_init.
Proof.
  apply (import_free_program_runs_by_itself (H := CPython) no_files
           two_modules 0 3 bind_and_print Interpreter_init).
  reflexivity.
Defined.

(** ** Failures *)

(** X14: a run fails only with a [RuntimeError], and the error carries a
    message. *)
Theorem failure_is_a_RuntimeError {H : Host} {F : FileSystem} (depth : nat)
  (ast : list AST) (st st' : State) (e : exn) :
  interpret depth ast st = (Raise e, st') ->
  exists msg, e = RuntimeError msg /\ msg <> [].
Proof.
  destruct (interpret_unfold depth) as [h E]. rewrite E. clear E.
  unfold interpret_with. revert st.
  induction ast as [|s ast IH]; intros st; cbn [for_each];
    [discriminate|].
  destruct (visit h s st) as [[w|x|] st1] eqn:Es; [apply IH| |discriminate].
  intros E. inversion E; subst x st1.
  destruct (visit_raises h s st st' e Es) as [msg ->].
  exists msg. split; [reflexivity|].
  exact (visit_raise_nonempty h s st st' _ Es).
Qed.

(** ** Expressions *)

Section ExpressionsAlone.
Context {H : Host}.

(** X15: evaluating an expression or a comparison changes nothing and
    needs nothing but the environment.  The state after it is the state
    before, whether it gave a value or failed; it does one of the two; and
    the outcome is the same whatever the files and the interpreter of
    modules are. *)
Theorem expression_changes_nothing (F1 F2 : FileSystem)
  (h1 h2 : list AST -> State -> effect) (c : AST) (st : State) :
  comparison_shape c = true ->
  snd (visit (F := F1) h1 c st) = st
  /\ fst (visit (F := F1) h1 c st) <> Diverge
  /\ visit (F := F1) h1 c st = visit (F := F2) h2 c st.
Proof.
  intros Hc. split; [apply visit_comparison_state; exact Hc|].
  pose proof (comparison_shape_import_free c Hc) as Hf.
  split; [|apply visit_import_free; exact Hf].
  rewrite (visit_import_free F1 F1 h1 (fun _ s => (Ok VNone, s)) c Hf).
  apply visit_returns. intros ast' st'. discriminate.
Qed.

End ExpressionsAlone.

(** ** Assignment *)

Section Assignment.
Context {H : Host} {F : FileSystem}.
Variable hook : list AST -> State -> effect.

(** X16: what an assignment binds is read back.  When [x = e] has
    returned, [x] evaluates to the value of [e], every other name is bound
    as before, and nothing else of the state has changed. *)
Theorem assignment_is_read_back (x : pystr) (e : AST) (st st' : State)
  (v : value) :
  expr_shape e = true ->
  visit hook (Assign x e) st = (Ok v, st') ->
  visit hook e st = (Ok v, st)
  /\ visit hook (Variable_ x) st' = (Ok v, st')
  /\ (forall y, y <> x ->
        dict_get (variables st') y = dict_get (variables st) y)
  /\ imported_modules st' = imported_modules st
  /\ stdout st' = stdout st
  /\ opened st' = opened st.
Proof.
  intros He. cbn [visit].
  pose proof (visit_expr_state hook e He st) as Hs.
  destruct (visit hook e st) as [[w|x0|] st1] eqn:Ee; cbn [snd] in Hs;
    subst st1.
  - cbn [visit_guard]. intros E. inversion E; subst v st'.
    split; [reflexivity|]. split.
    + unfold visit_Variable, set_variables. cbn [variables].
      rewrite dict_get_set_same. reflexivity.
    + split; [|repeat split].
      intros y Hy. cbn [set_variables variables].
      apply dict_get_set_other. exact Hy.
  - intros E. destruct x0; cbn [visit_guard] in E; discriminate E.
  - discriminate.
Qed.

End Assignment.

(** ** Conditions of If *)

Section IfConditions.
Context {H : Host} {F : FileSystem}.
Variable hook : list AST -> State -> effect.

(** X17: the condition of an [If] has to be a comparison.  With an
    expression that is none and an environment without booleans the
    statement fails, whatever the expression evaluates to; neither block
    is run and the state is as before. *)
Theorem If_without_comparison_fails (c : AST) (t : list AST)
  (f : option (list AST)) (st : State) :
  expr_shape c = true ->
  plain_env st ->
  exists msg, visit hook (If c t f) st = (Raise (RuntimeError msg), st).
Proof.
  intros Hc Hst.
  pose proof (visit_expr_state hook c Hc st) as Hs.
  destruct (visit hook c st) as [[v|e|] st1] eqn:Ec; cbn [snd] in Hs;
    subst st1.
  - rewrite (visit_If_eq hook c t f st st v Ec).
    pose proof (visit_expr_plain hook c Hc st st v Hst Ec) as Hv.
    destruct v; try discriminate Hv; cbn [is_bool negb];
      eexists; reflexivity.
  - destruct (visit_raises hook c st st e Ec) as [msg ->].
    exists msg. cbn [visit]. rewrite Ec. reflexivity.
  - exfalso.
    assert (Hr : returns (visit hook c st)).
    { rewrite (visit_import_free F F hook (fun _ s => (Ok VNone, s)) c
                 (expr_shape_import_free c Hc)).
      apply visit_returns. intros ast' st'. discriminate. }
    rewrite Ec in Hr. apply Hr. reflexivity.
Qed.

End IfConditions.

(** ** Loops within the limit *)

Section WhileCounts.
Variable condition body : State -> effect.
Variable step : State -> State.

Lemma while_loop_counts (k : nat) :
  forall budget iterations st,
    (forall j, (j < k)%nat ->
       exists c, condition (Nat.iter j step st) = (Ok c, Nat.iter j step st)
                 /\ truthy c = true) ->
    (forall j, (j < k)%nat ->
       exists v, body (Nat.iter j step st)
                 = (Ok v, Nat.iter (S j) step st)) ->
    (exists c, condition (Nat.iter k step st) = (Ok c, Nat.iter k step st)
               /\ truthy c = false) ->
    iterations + Z.of_nat k <= max_iterations ->
    (k <= budget)%nat ->
    while_loop condition body budget iterations st
    = (Ok VNone, Nat.iter k step st).
Proof.
  induction k as [|k IH]; intros budget i st Hc Hb Hend Hi Hk.
  - destruct Hend as [c [Ec Ht]]. cbn [Nat.iter nat_rect] in *.
    destruct budget; cbn [while_loop]; rewrite Ec, Ht; reflexivity.
  - destruct budget as [|n]; [lia|].
    destruct (Hc 0%nat ltac:(lia)) as [c [Ec Ht]].
    destruct (Hb 0%nat ltac:(lia)) as [v Ev].
    cbn [Nat.iter nat_rect] in Ec, Ev.
    cbn [while_loop]. rewrite Ec, Ht, Ev.
    destruct (Z.gtb_spec (i + 1) max_iterations) as [Hgt|_]; [lia|].
    rewrite (IH n (i + 1) (step st)).
    + rewrite <- Nat.iter_succ_r. reflexivity.
    + intros j Hj. rewrite <- !Nat.iter_succ_r. apply Hc. lia.
    + intros j Hj. rewrite <- !Nat.iter_succ_r. apply Hb. lia.
    + rewrite <- !Nat.iter_succ_r. exact Hend.
    + lia.
    + lia.
Qed.

End WhileCounts.

Section LoopsWithinTheLimit.
Context {H : Host} {F : FileSystem}.
Variable hook : list AST -> State -> effect.

(** X18: the guard leaves a loop of at most 10000 rounds alone.  When the
    condition holds [k] times and then fails, without changing the state,
    and the body completes each time, the loop returns in the state after
    [k] bodies, for every [k] up to [max_iterations]. *)
Theorem loop_within_the_limit_completes (c : AST) (body : list AST)
  (step : State -> State) (k : nat) (st : State) :
  (forall j, (j < k)%nat ->
     exists v, visit hook c (Nat.iter j step st)
               = (Ok v, Nat.iter j step st) /\ truthy v = true) ->
  (forall j, (j < k)%nat ->
     exists v, for_each (visit hook) body (Nat.iter j step st)
               = (Ok v, Nat.iter (S j) step st)) ->
  (exists v, visit hook c (Nat.iter k step st) = (Ok v, Nat.iter k step st)
             /\ truthy v = false) ->
  Z.of_nat k <= max_iterations ->
  visit hook (While c body) st = (Ok VNone, Nat.iter k step st).
Proof.
  intros Hc Hb Hend Hk. rewrite visit_While_eq.
  rewrite (while_loop_counts _ _ step k _ 0 st Hc Hb Hend);
    [reflexivity|lia|].
  apply Nat2Z.inj_le. rewrite Z2Nat.id; [exact Hk|].
  unfold max_iterations. lia.
Qed.

End LoopsWithinTheLimit.

Lemma failure_is_a_RuntimeError_witness :
  exists msg, division_by_zero = RuntimeError msg /\ msg <> [].
Proof.
  apply (failure_is_a_RuntimeError (H := CPython) (F := no_files) 0
           [Assign (utf8 "x") div_10_0] Interpreter_init Interpreter_init
           division_by_zero).
  vm_compute. reflexivity.
Defined.

Definition x_below_1 : AST :=
  Comparison (Variable_ (utf8 "x")) (utf8 "<") (Number (VInt 1)).

Lemma expression_changes_nothing_witness :
  snd (visit (H := CPython) (F := no_files) hook0 x_below_1
         (mkState [(utf8 "x", VInt 0)] [] [] []))
  = mkState [(utf8 "x", VInt 0)] [] [] []
  /\ fst (visit (H := CPython) (F := no_files) hook0 x_below_1
            (mkState [(utf8 "x", VInt 0)] [] [] [])) <> Diverge
  /\ visit (H := CPython) (F := no_files) hook0 x_below_1
       (mkState [(utf8 "x", VInt 0)] [] [] [])
     = visit (H := CPython) (F := two_modules)
         (interpret (H := CPython) (F := two_modules) 3) x_below_1
         (mkState [(utf8 "x", VInt 0)] [] [] []).
Proof.
  apply (expression_changes_nothing (H := CPython) no_files two_modules
           hook0 (interpret (H := CPython) (F := two_modules) 3) x_below_1
           (mkState [(utf8 "x", VInt 0)] [] [] [])).
  reflexivity.
Defined.

Lemma assignment_is_read_back_witness :
  visit0 (Number (VInt 1)) Interpreter_init = (Ok (VInt 1), Interpreter_init)
  /\ visit0 (Variable_ (utf8 "x")) (mkState [(utf8 "x", VInt 1)] [] [] [])
     = (Ok (VInt 1), mkState [(utf8 "x", VInt 1)] [] [] [])
  /\ (forall y, y <> utf8 "x" ->
        dict_get (variables (mkState [(utf8 "x", VInt 1)] [] [] [])) y
        = dict_get (variables Interpreter_init) y)
  /\ imported_modules (mkState [(utf8 "x", VInt 1)] [] [] [])
     = imported_modules Interpreter_init
  /\ stdout (mkState [(utf8 "x", VInt 1)] [] [] []) = stdout Interpreter_init
  /\ opened (mkState [(utf8 "x", VInt 1)] [] [] []) = opened Interpreter_init.
Proof.
  apply (assignment_is_read_back (H := CPython) (F := no_files) hook0
           (utf8 "x") (Number (VInt 1)) Interpreter_init
           (mkState [(utf8 "x", VInt 1)] [] [] []) (VInt 1)).
  - reflexivity.
  - vm_compute. reflexivity.
Defined.

Lemma If_without_comparison_fails_witness :
  exists msg,
    visit0 (If (Number (VInt 1)) [Print (Number (VInt 2))] None)
      Interpreter_init
    = (Raise (RuntimeError msg), Interpreter_init).
Proof.
  apply (If_without_comparison_fails (H := CPython) (F := no_files) hook0
           (Number (VInt 1)) [Print (Number (VInt 2))] None
           Interpreter_init).
  - reflexivity.
  - exact plain_env_init.
Defined.

Definition i_below_3 : AST :=
  Comparison (Variable_ (utf8 "i")) (utf8 "<") (Number (VInt 3)).

Definition add_1_to_i : list AST :=
  [Assign (utf8 "i")
     (BinOp (Variable_ (utf8 "i")) (utf8 "+") (Number (VInt 1)))].

Definition after_body (st : State) : State :=
  snd (for_each visit0 add_1_to_i st).

Lemma loop_within_the_limit_completes_witness :
  visit0 (While i_below_3 add_1_to_i) (mkState [(utf8 "i", VInt 0)] [] [] [])
  = (Ok VNone,
     Nat.iter 3 after_body (mkState [(utf8 "i", VInt 0)] [] [] [])).
Proof.
  apply (loop_within_the_limit_completes (H := CPython) (F := no_files)
           hook0 i_below_3 add_1_to_i after_body 3
           (mkState [(utf8 "i", VInt 0)] [] [] [])).
  - intros j Hj. destruct j as [|[|[|j]]]; [| | |lia];
      exists (VBool true); split; vm_compute; reflexivity.
  - intros j Hj. destruct j as [|[|[|j]]]; [| | |lia];
      exists VNone; vm_compute; reflexivity.
  - exists (VBool false). split; vm_compute; reflexivity.
  - vm_compute. discriminate.
Defined.

(** * Further properties of the parser *)

(** ** Errors of the front end name a position in the text *)

(** A line and column that the lexer has stood at since [lx0]. *)
Definition in_text (lx0 : Lexer) (lc : Z * Z) : Prop :=
  exists lx, reaches lx0 lx /\ lc = position lx.

(** The text of [self.error(msg)] of the lexer and of the parser. *)
Definition error_text (file : pystr) (lc : Z * Z) (msg : pystr) : pystr :=
  file ++ utf8 ":" ++ str_of_Z (fst lc) ++ utf8 ":" ++ str_of_Z (snd lc)
    ++ utf8 ": " ++ msg.

(** An exception of the front end: an error of the lexer or of the parser
    at a position in the text, or the [ValueError] of a number that [int]
    or [float] refuses. *)
Definition located (lx0 : Lexer) (e : exn) : Prop :=
  match e with
  | LexerError m | ParserError m =>
      exists lc msg, in_text lx0 lc /\ m = error_text (filename lx0) lc msg
  | HostError _ => True
  | RuntimeError _ => False
  end.

Definition fine (lx0 : Lexer) {A} (r : outcome A) (Q : A -> Prop) : Prop :=
  match r with
  | Ok a => Q a
  | Raise e => located lx0 e
  | Diverge => True
  end.

Lemma fine_bind (lx0 : Lexer) {A B} (c : outcome A) (k : A -> outcome B)
  (P : A -> Prop) (Q : B -> Prop) :
  fine lx0 c P -> (forall a, P a -> fine lx0 (k a) Q) ->
  fine lx0 (bind c k) Q.
Proof. destruct c; simpl; auto. Qed.

Lemma fine_weaken (lx0 : Lexer) {A} (r : outcome A) (P Q : A -> Prop) :
  fine lx0 r P -> (forall a, P a -> Q a) -> fine lx0 r Q.
Proof. destruct r; simpl; auto. Qed.

Lemma reaches_filename (lx lx' : Lexer) :
  reaches lx lx' -> filename lx' = filename lx.
Proof. intros [s (_ & _ & _ & E)]. exact E. Qed.

Lemma lexer_error_fine (lx0 lx : Lexer) {A} (msg : pystr) (Q : A -> Prop) :
  reaches lx0 lx -> fine lx0 (lexer_error lx msg) Q.
Proof.
  intros R. unfold lexer_error. cbn [fine located].
  exists (position lx), msg. split; [exists lx; split; [exact R|reflexivity]|].
  unfold error_text, position. cbn [fst snd].
  rewrite (reaches_filename _ _ R). reflexivity.
Qed.

Section LocatedErrors.
Context {H : Host}.
Variable lx0 : Lexer.

Lemma string_loop_fine (n : nat) :
  forall acc lx,
    reaches lx0 lx ->
    fine lx0 (string_loop n acc lx) (fun r => reaches lx0 (snd r)).
Proof.
  induction n as [|n IH]; intros acc lx R; cbn [string_loop];
    [exact R|].
  destruct (current_char lx) as [c|] eqn:Ec; [|exact R].
  destruct (negb (char_eqb c dquote)); [|exact R].
  pose proof (reaches_trans _ _ _ R (reaches_advance lx c Ec)) as R1.
  destruct (char_eqb c (ch "\")); [|apply IH; exact R1].
  destruct (current_char (advance lx)) as [e|] eqn:Ee.
  - pose proof (reaches_trans _ _ _ R1 (reaches_advance _ e Ee)) as R2.
    eapply fine_bind with (P := fun _ => True).
    + cbn [is_char].
      repeat match goal with
             | |- context [if ?b then _ else _] => destruct b
             end; try exact I.
      apply lexer_error_fine. exact R1.
    + intros a _. apply IH. exact R2.
  - cbn [is_char bind]. apply (lexer_error_fine lx0 (advance lx)). exact R1.
Qed.

Lemma string_fine (lx : Lexer) (c : char) :
  current_char lx = Some c -> reaches lx0 lx ->
  fine lx0 (string_ lx) (fun r => reaches lx0 (snd r)).
Proof.
  intros Ec R. unfold string_.
  pose proof (reaches_trans _ _ _ R (reaches_advance lx c Ec)) as R1.
  eapply fine_bind; [apply string_loop_fine; exact R1|].
  intros [r lx1] R2. cbn [snd] in R2.
  destruct (is_char (current_char lx1) dquote) eqn:Eq.
  - apply is_char_Some in Eq. cbn [fine snd].
    exact (reaches_trans _ _ _ R2 (reaches_advance lx1 _ Eq)).
  - apply lexer_error_fine. exact R2.
Qed.

Lemma number_fine (lx : Lexer) :
  reaches lx0 lx ->
  fine lx0 (number lx) (fun r => reaches lx0 (snd r)).
Proof.
  intros R. destruct (number lx) as [[v lx']|e|] eqn:E; cbn [fine snd].
  - exact (reaches_trans _ _ _ R (number_reaches lx v lx' E)).
  - unfold number in E.
    destruct (digits_loop (List.length (rest lx)) [] lx) as [ip lx1].
    destruct (is_char (current_char lx1) (ch ".")).
    + destruct (digits_loop _ [] (advance lx1)) as [fp lx3].
      unfold float_of_str in E.
      destruct (decimals ip), (decimals fp); inversion E; exact I.
    + unfold int_of_str in E. destruct (decimals ip); inversion E; exact I.
  - exact I.
Qed.

(** The parser stands in the text: its lexer, and the position of the
    token it holds. *)
Definition token_in_text (tok : Token) : Prop :=
  in_text lx0 (tok_line tok, tok_column tok).

Lemma token_at (lx : Lexer) (t : TokenType) (v : value) :
  reaches lx0 lx -> token_in_text (mkToken t v (line lx) (column lx)).
Proof. intros R. exists lx. split; [exact R|reflexivity]. Qed.

Lemma get_next_token_loop_fine (n : nat) :
  forall lx,
    reaches lx0 lx ->
    fine lx0 (get_next_token_loop n lx)
      (fun r => reaches lx0 (snd r) /\ token_in_text (fst r)).
Proof.
  induction n as [|n IH]; intros lx R; cbn [get_next_token_loop];
    [split; [exact R|apply token_at; exact R]|].
  destruct (current_char lx) as [c|] eqn:Ec;
    [|split; [exact R|apply token_at; exact R]].
  destruct (isspace c).
  { apply IH. eapply reaches_trans; [exact R|].
    apply skip_whitespace_loop_reaches. }
  destruct (char_eqb c (ch "#")).
  { apply IH. eapply reaches_trans; [exact R|apply skip_comment_reaches]. }
  destruct (char_eqb c dquote).
  { eapply fine_bind; [eapply string_fine; eassumption|].
    intros [s lx1] R1. cbn [fine fst snd] in *.
    split; [exact R1|apply token_at; exact R1]. }
  destruct (isdigit c).
  { eapply fine_bind; [eapply number_fine; eassumption|].
    intros [v lx1] R1. cbn [fine fst snd] in *.
    split; [exact R1|apply token_at; exact R1]. }
  pose proof (reaches_trans _ _ _ R (reaches_advance lx c Ec)) as R1.
  destruct (isalpha c || char_eqb c (ch "_")).
  { pose proof (identifier_reaches lx) as Hi.
    destruct (identifier lx) as [[tt v] lx1]. cbn [snd] in Hi.
    pose proof (reaches_trans _ _ _ R Hi) as R2.
    cbn [fine fst snd]. split; [exact R2|apply token_at; exact R2]. }
  unfold single.
  repeat match goal with
         | |- fine _ (if is_char ?e ?a then _ else _) _ =>
             let Hb := fresh "Hb" in
             destruct (is_char e a) eqn:Hb;
             [apply is_char_Some in Hb|]
         | |- fine _ (if ?b then _ else _) _ => destruct b
         end;
    try (apply lexer_error_fine; exact R);
    cbn [fine fst snd]; (split; [|apply token_at; exact R]);
    first [ exact R1
          | eapply reaches_trans; [exact R1|];
            eapply reaches_advance; eassumption ].
Qed.

Lemma get_next_token_fine (lx : Lexer) :
  reaches lx0 lx ->
  fine lx0 (get_next_token lx)
    (fun r => reaches lx0 (snd r) /\ token_in_text (fst r)).
Proof. apply get_next_token_loop_fine. Qed.

Definition parser_in_text (p : Parser) : Prop :=
  reaches lx0 (lexer p) /\ token_in_text (current_token p).

Lemma parser_error_fine (p : Parser) {A} (msg : pystr) (Q : A -> Prop) :
  parser_in_text p -> fine lx0 (parser_error p msg) Q.
Proof.
  intros [R [lx [Rl El]]]. unfold parser_error. cbn [fine located].
  exists (tok_line (current_token p), tok_column (current_token p)), msg.
  split; [exists lx; split; assumption|].
  unfold error_text. cbn [fst snd].
  rewrite (reaches_filename _ _ R). reflexivity.
Qed.

Lemma Parser_init_fine (lx : Lexer) :
  reaches lx0 lx -> fine lx0 (Parser_init lx) parser_in_text.
Proof.
  intros R. unfold Parser_init.
  eapply fine_bind; [apply get_next_token_fine; exact R|].
  intros [tok lx1] Ha. exact Ha.
Qed.

Lemma eat_fine (p : Parser) (t : TokenType) :
  parser_in_text p -> fine lx0 (eat p t) parser_in_text.
Proof.
  intros Hp. unfold eat.
  destruct (TokenType_eqb (tok_type (current_token p)) t);
    [|apply parser_error_fine; exact Hp].
  eapply fine_bind; [apply get_next_token_fine; exact (proj1 Hp)|].
  intros [tok lx1] Ha. exact Ha.
Qed.

(** [f] fails with a located error or returns a parser in the text. *)
Definition passes (f : Parser -> parsing) : Prop :=
  forall p, parser_in_text p ->
            fine lx0 (f p) (fun r => parser_in_text (snd r)).

Ltac pass :=
  first
    [ match goal with
      | |- fine _ (bind (if ?b then _ else _) _) _ => destruct b
      | |- fine _ (bind (bind _ _) _) _ => rewrite bind_assoc
      | |- fine _ (bind (Ok _) _) _ => cbn [bind]
      | |- fine _ (let '(_, _) := ?x in _) _ => destruct x
      end
    | eapply fine_bind;
      [ first [ apply eat_fine; assumption
              | match goal with
                | Hf : passes ?f |- fine _ (?f _) _ => apply Hf; assumption
                end ]
      | let a := fresh "p" in
        let Ha := fresh "Hp" in
        intros a Ha; cbv beta in Ha;
        match type of a with
        | (_ * _)%type => destruct a; cbn [snd fst] in Ha
        | _ => idtac
        end ]
    | match goal with
      | |- fine _ (if ?b then _ else _) _ => destruct b
      | |- fine _ (Ok _) _ => cbn [fine snd fst]; assumption
      | |- fine _ (parser_error _ _) _ => apply parser_error_fine; assumption
      end ].

Lemma factor_fine (ex : Parser -> parsing) : passes ex -> passes (factor ex).
Proof.
  intros Hex p Hp. unfold factor.
  destruct (tok_type (current_token p));
    try (apply parser_error_fine; exact Hp); repeat pass.
Qed.

Lemma binop_loop_fine (ops : list TokenType) (operand : Parser -> parsing) :
  passes operand ->
  forall n node p,
    parser_in_text p ->
    fine lx0 (binop_loop ops operand n node p)
      (fun r => parser_in_text (snd r)).
Proof.
  intros Hop. induction n as [|n IH]; intros node p Hp; cbn [binop_loop];
    destruct (type_in (tok_type (current_token p)) ops);
    try exact Hp; try exact I.
  pass. pass. apply IH. assumption.
Qed.

Lemma term_fine (ex : Parser -> parsing) (n : nat) :
  passes ex -> passes (term ex n).
Proof.
  intros Hex p Hp. unfold term.
  pose proof (factor_fine ex Hex) as Hf.
  pass. apply binop_loop_fine; assumption.
Qed.

Lemma expr_fine (n : nat) : passes (expr n).
Proof.
  induction n as [|n IH]; intros p Hp; [exact I|]. cbn [expr].
  pose proof (term_fine (expr n) n IH) as Ht.
  pass. apply binop_loop_fine; assumption.
Qed.

Lemma comparison_fine (n : nat) : passes (comparison n).
Proof.
  intros p Hp. unfold comparison.
  pose proof (expr_fine n) as He. repeat pass.
Qed.

Lemma statements_loop_fine (stop : list TokenType)
  (stmt : Parser -> parsing) :
  passes stmt ->
  forall n acc p,
    parser_in_text p ->
    fine lx0 (statements_loop stop stmt n acc p)
      (fun r => parser_in_text (snd r)).
Proof.
  intros Hst. induction n as [|n IH]; intros acc p Hp;
    cbn [statements_loop];
    destruct (negb (type_in (tok_type (current_token p)) stop));
    try exact Hp; try exact I.
  pass. apply IH. assumption.
Qed.

Ltac pass_block IH :=
  eapply fine_bind;
  [ unfold block; apply statements_loop_fine; [exact IH|assumption]
  | let a := fresh "p" in
    let Ha := fresh "Hp" in
    intros a Ha; cbv beta in Ha; destruct a; cbn [snd fst] in Ha ].

Lemma statement_fine (n : nat) : passes (statement n).
Proof.
  induction n as [|n IH]; intros p Hp; [exact I|]. cbn [statement].
  pose proof (expr_fine n) as He.
  pose proof (comparison_fine n) as Hc.
  destruct (tok_type (current_token p));
    try (apply parser_error_fine; exact Hp);
    repeat first [pass | pass_block IH].
Qed.

Lemma parse_fine (n : nat) (p : Parser) :
  parser_in_text p -> fine lx0 (parse n p) (fun _ => True).
Proof.
  intros Hp. unfold parse.
  eapply fine_bind;
    [apply statements_loop_fine; [apply statement_fine|exact Hp]|].
  intros [l q] _. exact I.
Qed.

End LocatedErrors.

Section FrontEndErrors.
Context {H : Host}.

(** X19: an error of the front end names a position in the text.  What
    [parse_text] raises is an error of the lexer or of the parser whose
    message starts with the file name and with the line and column that
    the lexer had after some prefix of the text, counted from line 1,
    column 1; or it is the error of a number that the host refuses.  (The
    limit of the host on nested calls is not part of the model.) *)
Theorem front_end_errors_are_located (text file : pystr) (e : exn) :
  parse_text text file = Raise e ->
  (exists m, e = HostError m)
  \/ exists before after msg,
       text = before ++ after
       /\ (e = LexerError (error_text file (after_text before (1, 1)) msg)
           \/ e = ParserError
                    (error_text file (after_text before (1, 1)) msg)).
Proof.
  intros E.
  assert (Hf : fine (Lexer_init text file) (parse_text text file)
                 (fun _ => True)).
  { unfold parse_text.
    eapply fine_bind; [apply Parser_init_fine, reaches_refl|].
    intros p Hp. apply parse_fine. exact Hp. }
  rewrite E in Hf. cbn [fine] in Hf.
  assert (Hl : forall m,
             (exists lc msg, in_text (Lexer_init text file) lc
                             /\ m = error_text
                                      (filename (Lexer_init text file)) lc
                                      msg) ->
             exists before after msg,
               text = before ++ after
               /\ m = error_text file (after_text before (1, 1)) msg).
  { intros m (lc & msg & (lx & [s (R & _ & P & _)] & El) & Em).
    exists s, (rest lx), msg. split; [exact R|].
    rewrite Em, El, P. reflexivity. }
  destruct e as [m|m|m|m]; cbn [located] in Hf.
  - right. destruct (Hl m Hf) as (b & a & msg & Et & Em).
    exists b, a, msg. split; [exact Et|]. left. rewrite Em. reflexivity.
  - right. destruct (Hl m Hf) as (b & a & msg & Et & Em).
    exists b, a, msg. split; [exact Et|]. right. rewrite Em. reflexivity.
  - contradiction.
  - left. exists m. reflexivity.
Qed.

(** X20: the parser comes to an end on every text.  Each round of its
    loops and each nested call takes a token of the text, so it returns a
    list of statements or raises an error.  (The limit of the host on
    nested calls is not part of the model.) *)
Theorem parser_comes_to_an_end (text file : pystr) :
  (exists ast, parse_text text file = Ok ast)
  \/ (exists e, parse_text text file = Raise e).
Proof.
  pose proof (parse_text_returns text file) as Hr.
  destruct (parse_text text file) as [ast|e|]; [left|right|]; eauto.
  contradiction Hr. reflexivity.
Qed.

(** X21: what the parser returns is in the shapes of the grammar.  Every
    statement is a print, an assignment, an if, a while, an import or a
    try; a comparison stands only as the condition of an if or a while,
    with expressions on both sides; an expression is made of numbers,
    strings, names and binary operations. *)
Theorem parsed_program_has_the_shapes_of_the_grammar (text file : pystr)
  (ast : list AST) :
  parse_text text file = Ok ast ->
  Forall (fun s => statement_shape s = true) ast.
Proof.
  intros E. apply Forall_forall. intros s Hs.
  exact (proj1 (forallb_forall _ _) (parse_text_shape text file ast E) s Hs).
Qed.

(** X22: a text of white space only is the empty program. *)
Theorem blank_text_is_the_empty_program (text file : pystr) :
  forallb isspace text = true -> parse_text text file = Ok [].
Proof.
  intros Hw. unfold parse_text, Parser_init, get_next_token, Lexer_init.
  cbn [rest].
  destruct text as [|c text]; [reflexivity|].
  cbn [List.length get_next_token_loop]. unfold current_char at 1.
  cbn [rest hd_error].
  pose proof Hw as Hw'. cbn [forallb] in Hw'.
  apply andb_prop in Hw' as [Hc _]. rewrite Hc.
  unfold skip_whitespace.
  rewrite (skip_whitespace_loop_scans (c :: text) _ _ []);
    [|cbn [rest]; rewrite app_nil_r; reflexivity|exact Hw|reflexivity
     |cbn [rest]; lia].
  assert (He : forall n lx, rest lx = [] ->
                 get_next_token_loop n lx
                 = Ok (mkToken EOF VNone (line lx) (column lx), lx)).
  { intros n lx Er. destruct n; cbn [get_next_token_loop];
      [reflexivity|]. unfold current_char. rewrite Er. reflexivity. }
  rewrite He by reflexivity. reflexivity.
Qed.

End FrontEndErrors.

Lemma front_end_errors_are_located_witness :
  (exists m, ParserError (utf8 "<stdin>:1:5: 意外的标记: 分号") = HostError m)
  \/ exists before after msg,
       utf8 "x = ;" = before ++ after
       /\ (ParserError (utf8 "<stdin>:1:5: 意外的标记: 分号")
           = LexerError
               (error_text stdin_name (after_text before (1, 1)) msg)
           \/ ParserError (utf8 "<stdin>:1:5: 意外的标记: 分号")
              = ParserError
                  (error_text stdin_name (after_text before (1, 1)) msg)).
Proof.
  apply (front_end_errors_are_located (H := CPython) (utf8 "x = ;")
           stdin_name (ParserError (utf8 "<stdin>:1:5: 意外的标记: 分号"))).
  vm_compute. reflexivity.
Defined.

Lemma parsed_program_has_the_shapes_of_the_grammar_witness :
  Forall (fun s => statement_shape s = true)
    [Assign (utf8 "x") (Number (VInt 1));
     Assign (utf8 "y")
       (BinOp (Variable_ (utf8 "x")) (utf8 "+") (Number (VInt 2)))].
Proof.
  apply (parsed_program_has_the_shapes_of_the_grammar (H := CPython)
           (utf8 "x = 1; y = x + 2;") stdin_name).
  vm_compute. reflexivity.
Defined.

Lemma blank_text_is_the_empty_program_witness :
  parse_text (H := CPython) (utf8 "  " ++ [newline; 9%N]) stdin_name = Ok [].
Proof.
  apply (blank_text_is_the_empty_program (H := CPython)
           (utf8 "  " ++ [newline; 9%N]) stdin_name).
  reflexivity.
Defined.

(** * The parser reads back what is written out as tokens *)

(** ** Tokens without their positions *)

Definition token : Type := (TokenType * value)%type.

Definition tk (tok : Token) : token := (tok_type tok, tok_value tok).

Section TokenStreams.
Context {H : Host}.

(** All tokens of the text left at [lx], the last of them [EOF]. *)
Fixpoint tokens_loop (n : nat) (lx : Lexer) : outcome (list token) :=
  '(tok, lx1) <- get_next_token lx ;;
  if TokenType_eqb (tok_type tok) EOF then Ok [tk tok]
  else
    match n with
    | O => Diverge
    | S n' =>
        ts <- tokens_loop n' lx1 ;;
        Ok (tk tok :: ts)
    end.

Definition tokens (lx : Lexer) : outcome (list token) :=
  tokens_loop (List.length (rest lx)) lx.

(** The calls of [get_next_token] from [lx] on return the tokens [ts], one
    after the other. *)
Fixpoint next_tokens (lx : Lexer) (ts : list token) : Prop :=
  match ts with
  | [] => True
  | t :: ts' =>
      exists tok lx1,
        get_next_token lx = Ok (tok, lx1) /\ tk tok = t /\ next_tokens lx1 ts'
  end.

Lemma tokens_loop_next (n : nat) :
  forall lx ts, tokens_loop n lx = Ok ts -> next_tokens lx ts.
Proof.
  induction n as [|n IH]; intros lx ts E; cbn [tokens_loop] in E;
    apply bind_Ok in E; destruct E as [[tok lx1] [Et E]];
    destruct (TokenType_eqb (tok_type tok) EOF).
  - inversion E; subst. exists tok, lx1. repeat split. exact Et.
  - discriminate E.
  - inversion E; subst. exists tok, lx1. repeat split. exact Et.
  - apply bind_Ok in E. destruct E as [ts' [E1 E]]. inversion E; subst.
    exists tok, lx1. split; [exact Et|]. split; [reflexivity|].
    apply IH. exact E1.
Qed.

(** The parser holds the first of [ts], and its lexer returns the others. *)
Definition holds (p : Parser) (ts : list token) : Prop :=
  match ts with
  | [] => False
  | t :: ts' => tk (current_token p) = t /\ next_tokens (lexer p) ts'
  end.

Lemma holds_type (p : Parser) (t : TokenType) (v : value) (ts : list token) :
  holds p ((t, v) :: ts) -> tok_type (current_token p) = t.
Proof. intros [E _]. inversion E. reflexivity. Qed.

Lemma holds_value (p : Parser) (t : TokenType) (v : value) (ts : list token) :
  holds p ((t, v) :: ts) -> tok_value (current_token p) = v.
Proof. intros [E _]. inversion E. reflexivity. Qed.

Lemma Parser_init_holds (lx : Lexer) (t : token) (ts : list token) :
  next_tokens lx (t :: ts) ->
  exists p, Parser_init lx = Ok p /\ holds p (t :: ts).
Proof.
  intros (tok & lx1 & E & Et & Hn). unfold Parser_init. rewrite E.
  eexists. split; [reflexivity|]. split; assumption.
Qed.

(** [eat] on the token held, with another one after it. *)
Lemma eat_holds (p : Parser) (t : TokenType) (v : value) (t2 : token)
  (ts : list token) :
  t <> EOF ->
  holds p ((t, v) :: t2 :: ts) ->
  exists p', eat p t = Ok p' /\ holds p' (t2 :: ts)
             /\ (size p' < size p)%nat.
Proof.
  intros Ht Hp. pose proof (eat_size p t Ht) as Hs.
  destruct Hp as [Ec (tok & lx1 & E & Et & Hn)].
  unfold eat in *. inversion Ec as [[Ety Ev]].
  rewrite Ety in *. rewrite (proj2 (TokenType_eqb_eq t t) eq_refl) in *.
  rewrite E in *. cbn [bind post] in *.
  eexists. split; [reflexivity|]. split; [split; assumption|exact Hs].
Qed.

End TokenStreams.

(** ** Expressions written out *)

Definition is_additive (op : pystr) : bool :=
  str_eqb op (utf8 "+") || str_eqb op (utf8 "-").

Definition is_multiplicative (op : pystr) : bool :=
  str_eqb op (utf8 "*") || str_eqb op (utf8 "/").

(** The token of a binary operator, as the lexer returns it. *)
Definition op_token (op : pystr) : token :=
  ((if str_eqb op (utf8 "+") then PLUS
    else if str_eqb op (utf8 "-") then MINUS
    else if str_eqb op (utf8 "*") then MULTIPLY
    else DIVIDE), VStr op).

(** How tightly a node binds: a sum or difference 0, a product or
    quotient 1, anything else 2. *)
Definition level (e : AST) : nat :=
  match e with
  | BinOp _ op _ => if is_additive op then 0 else 1
  | _ => 2
  end.

Definition lparen : token := (LPAREN, VStr (utf8 "(")).
Definition rparen : token := (RPAREN, VStr (utf8 ")")).

(** An expression where one that binds at least as tightly as [lvl] is
    expected: in parentheses if it binds less tightly, the left operand of
    an operator at the level of the operator, the right operand one level
    above. *)
Fixpoint show (e : AST) (lvl : nat) : list token :=
  match e with
  | Number v => [(NUMBER, v)]
  | String v => [(STRING, v)]
  | Variable_ x => [(IDENTIFIER, VStr x)]
  | BinOp l op r =>
      let here := if is_additive op then 0%nat else 1%nat in
      let body := show l here ++ op_token op :: show r (S here) in
      if (here <? lvl)%nat then lparen :: body ++ [rparen] else body
  | _ => []
  end.

(** The expressions that can be written out. *)
Fixpoint writable_expr (e : AST) : bool :=
  match e with
  | Number _ | String _ | Variable_ _ => true
  | BinOp l op r =>
      (is_additive op || is_multiplicative op)
      && writable_expr l && writable_expr r
  | _ => false
  end.

Definition additive : list TokenType := [PLUS; MINUS].
Definition multiplicative : list TokenType := [MULTIPLY; DIVIDE].

(** The token after an expression does not go on with it. *)
Definition ends_term (t : token) : bool := negb (type_in (fst t) multiplicative).
Definition ends_expr (t : token) : bool :=
  negb (type_in (fst t) additive) && negb (type_in (fst t) multiplicative).

Lemma op_token_additive (op : pystr) :
  is_additive op = true ->
  type_in (fst (op_token op)) additive = true /\ fst (op_token op) <> EOF
  /\ type_in (fst (op_token op)) multiplicative = false.
Proof.
  unfold is_additive, op_token. cbn [fst].
  destruct (str_eqb op (utf8 "+")); [repeat split; discriminate|].
  destruct (str_eqb op (utf8 "-")); [repeat split; discriminate|].
  discriminate.
Qed.

Lemma op_token_multiplicative (op : pystr) :
  is_additive op = false -> is_multiplicative op = true ->
  type_in (fst (op_token op)) multiplicative = true
  /\ fst (op_token op) <> EOF.
Proof.
  unfold is_additive, is_multiplicative, op_token. cbn [fst].
  destruct (str_eqb op (utf8 "+")); [discriminate|].
  destruct (str_eqb op (utf8 "-")); [discriminate|].
  destruct (str_eqb op (utf8 "*")); [repeat split; discriminate|].
  destruct (str_eqb op (utf8 "/")); [repeat split; discriminate|].
  discriminate.
Qed.

Lemma show_BinOp_factor (l r : AST) (op : pystr) :
  show (BinOp l op r) 2 = lparen :: show (BinOp l op r) 0 ++ [rparen].
Proof. cbn [show]. destruct (is_additive op); reflexivity. Qed.

Lemma show_additive (l r : AST) (op : pystr) (lvl : nat) :
  is_additive op = true ->
  show (BinOp l op r) 0 = show l 0 ++ op_token op :: show r 1
  /\ show (BinOp l op r) (S lvl) = show (BinOp l op r) 2.
Proof. intros E. cbn [show]. rewrite E. split; reflexivity. Qed.

Lemma show_multiplicative (l r : AST) (op : pystr) :
  is_additive op = false ->
  show (BinOp l op r) 1 = show l 1 ++ op_token op :: show r 2
  /\ show (BinOp l op r) 0 = show (BinOp l op r) 1.
Proof. intros E. cbn [show]. rewrite E. split; reflexivity. Qed.

Lemma app_cons_nonempty {A} (l : list A) (t : A) (ts : list A) :
  exists t2 ts2, l ++ t :: ts = t2 :: ts2.
Proof. destruct l as [|x l]; simpl; eauto. Qed.

Section ReadExpressions.
Context {H : Host}.

Lemma holds_size (p : Parser) (t : TokenType) (v : value) (ts : list token) :
  t <> EOF -> holds p ((t, v) :: ts) -> (0 < size p)%nat.
Proof.
  intros Ht Hp. apply holds_type in Hp. unfold size, token_cost.
  rewrite Hp. destruct t; try contradiction; cbn [TokenType_eqb]; lia.
Qed.

Lemma binop_loop_ends (ops : list TokenType) (operand : Parser -> parsing)
  (n : nat) (node : AST) (p : Parser) (t : token) (ts : list token) :
  holds p (t :: ts) -> type_in (fst t) ops = false ->
  binop_loop ops operand n node p = Ok (node, p).
Proof.
  intros Hp Ht. destruct t as [ty v]. apply holds_type in Hp.
  cbn [fst] in Ht. destruct n; cbn [binop_loop]; rewrite Hp, Ht; reflexivity.
Qed.

(** One round of the loop: the operator held, then its right operand. *)
Lemma binop_loop_round (ops : list TokenType) (operand : Parser -> parsing)
  (n : nat) (node r : AST) (op : pystr) (p p2 p3 : Parser)
  (rest_ : list token) :
  holds p (op_token op :: rest_) ->
  type_in (fst (op_token op)) ops = true ->
  (size p <= n)%nat ->
  eat p (fst (op_token op)) = Ok p2 ->
  operand p2 = Ok (r, p3) ->
  exists n',
    binop_loop ops operand n node p
    = binop_loop ops operand n' (BinOp node op r) p3
    /\ (S n' = n)%nat.
Proof.
  intros Hp Hop Hn Heat Hr.
  assert (Hpos : (0 < size p)%nat).
  { unfold op_token in Hp. eapply holds_size; [|exact Hp].
    repeat match goal with
           | |- context [if ?b then _ else _] => destruct b
           end; discriminate. }
  destruct n as [|n]; [lia|]. exists n. split; [|reflexivity].
  pose proof Hp as Hv. unfold op_token in Hp, Hv.
  apply holds_type in Hp. apply holds_value in Hv.
  cbn [binop_loop]. unfold op_token in Hop, Heat. cbn [fst] in Hop, Heat.
  rewrite Hp, Hop, Heat. cbn [bind]. rewrite Hr. cbn [bind].
  rewrite Hv. reflexivity.
Qed.

Definition reads_factor (n : nat) (e : AST) : Prop :=
  forall p t ts,
    (size p <= n)%nat -> holds p (show e 2 ++ t :: ts) ->
    exists p', factor (expr n) p = Ok (e, p') /\ holds p' (t :: ts)
               /\ (size p' < size p)%nat.

Definition joins_term (n : nat) (e : AST) : Prop :=
  forall m p t ts,
    (size p <= n)%nat -> (size p <= m)%nat ->
    holds p (show e 1 ++ t :: ts) ->
    exists m' p',
      term (expr n) m p
      = binop_loop multiplicative (factor (expr n)) m' e p'
      /\ holds p' (t :: ts) /\ (size p' <= m')%nat
      /\ (size p' < size p)%nat.

Definition reads_term (n : nat) (e : AST) : Prop :=
  forall p t ts,
    (size p <= n)%nat -> holds p (show e 1 ++ t :: ts) ->
    ends_term t = true ->
    exists p', term (expr n) n p = Ok (e, p') /\ holds p' (t :: ts)
               /\ (size p' < size p)%nat.

(** [expr (S n)] with [m] rounds for its loop. *)
Definition expr_with (n m : nat) (p : Parser) : parsing :=
  '(node, p1) <- term (expr n) n p ;;
  binop_loop additive (term (expr n) n) m node p1.

Definition joins_expr (n : nat) (e : AST) : Prop :=
  forall m p t ts,
    (size p <= n)%nat -> (size p <= m)%nat ->
    holds p (show e 0 ++ t :: ts) -> ends_term t = true ->
    exists m' p',
      expr_with n m p = binop_loop additive (term (expr n) n) m' e p'
      /\ holds p' (t :: ts) /\ (size p' <= m')%nat
      /\ (size p' < size p)%nat.

Definition reads_expr (n : nat) (e : AST) : Prop :=
  forall p t ts,
    (size p < n)%nat -> holds p (show e 0 ++ t :: ts) ->
    ends_expr t = true ->
    exists p', expr n p = Ok (e, p') /\ holds p' (t :: ts)
               /\ (size p' < size p)%nat.

Lemma joins_reads_term (n : nat) (e : AST) :
  joins_term n e -> reads_term n e.
Proof.
  intros Hj p t ts Hn Hp Ht.
  destruct (Hj n p t ts Hn Hn Hp) as (m' & p' & E & Hp' & _ & Hs).
  exists p'. split; [|split; assumption].
  rewrite E. eapply binop_loop_ends; [exact Hp'|].
  unfold ends_term in Ht. apply negb_true_iff in Ht. exact Ht.
Qed.

Lemma reads_term_joins_expr (n : nat) (e : AST) :
  show e 0 = show e 1 -> reads_term n e -> joins_expr n e.
Proof.
  intros Hshow Hr m p t ts Hn Hm Hp Ht. rewrite Hshow in Hp.
  destruct (Hr p t ts Hn Hp Ht) as (p' & E & Hp' & Hs).
  exists m, p'. unfold expr_with. rewrite E. cbn [bind].
  split; [reflexivity|]. split; [exact Hp'|]. split; lia.
Qed.

Lemma joins_reads_expr (e : AST) :
  (forall n, joins_expr n e) -> forall n, reads_expr n e.
Proof.
  intros Hj n p t ts Hn Hp Ht. destruct n as [|n]; [lia|].
  unfold ends_expr in Ht. apply andb_prop in Ht as [Ha Hm].
  destruct (Hj n n p t ts) as (m' & p' & E & Hp' & _ & Hs);
    try assumption; try lia.
  exists p'. split; [|split; assumption].
  change (expr (S n) p) with (expr_with n n p). rewrite E.
  eapply binop_loop_ends; [exact Hp'|].
  apply negb_true_iff in Ha. exact Ha.
Qed.

Lemma reads_expr_factor (e : AST) :
  show e 2 = lparen :: show e 0 ++ [rparen] ->
  (forall n, reads_expr n e) -> forall n, reads_factor n e.
Proof.
  intros Hshow He n p t ts Hn Hp. rewrite Hshow in Hp.
  cbn [app] in Hp. rewrite <- app_assoc in Hp. cbn [app] in Hp.
  destruct (app_cons_nonempty (show e 0) rparen (t :: ts))
    as (t2 & ts2 & Et).
  pose proof Hp as Hty. apply holds_type in Hty.
  rewrite Et in Hp.
  destruct (eat_holds p LPAREN _ t2 ts2 ltac:(discriminate) Hp)
    as (p1 & E1 & Hp1 & Hs1).
  rewrite <- Et in Hp1.
  destruct (He n p1 rparen (t :: ts) ltac:(lia) Hp1 eq_refl)
    as (p2 & E2 & Hp2 & Hs2).
  destruct (eat_holds p2 RPAREN _ t ts ltac:(discriminate) Hp2)
    as (p3 & E3 & Hp3 & Hs3).
  exists p3. unfold factor. rewrite Hty, E1. cbn [bind].
  rewrite E2. cbn [bind]. rewrite E3. cbn [bind].
  split; [reflexivity|]. split; [exact Hp3|lia].
Qed.

Lemma reads_factor_joins_term (n : nat) (e : AST) :
  show e 1 = show e 2 -> reads_factor n e -> joins_term n e.
Proof.
  intros Hshow Hf m p t ts Hn Hm Hp. rewrite Hshow in Hp.
  destruct (Hf p t ts Hn Hp) as (p' & E & Hp' & Hs).
  exists m, p'. unfold term. rewrite E. cbn [bind].
  split; [reflexivity|]. split; [exact Hp'|]. split; lia.
Qed.

Lemma reads_factor_atom (n : nat) (e : AST) (ty : TokenType) (v : value) :
  show e 2 = [(ty, v)] ->
  (forall p p', eat p ty = Ok p' ->
                tok_type (current_token p) = ty ->
                tok_value (current_token p) = v ->
                factor (expr n) p = Ok (e, p')) ->
  ty <> EOF ->
  reads_factor n e.
Proof.
  intros Hshow Hf Hty p t ts Hn Hp. rewrite Hshow in Hp. cbn [app] in Hp.
  destruct (eat_holds p ty v t ts Hty Hp) as (p1 & E1 & Hp1 & Hs1).
  exists p1. split; [|split; assumption].
  apply Hf; [exact E1|eapply holds_type; exact Hp|eapply holds_value; exact Hp].
Qed.

(** Every writable expression is read back at each of the three places
    an expression can stand in. *)
Lemma expression_is_read_back (e : AST) :
  writable_expr e = true ->
  (forall n, reads_factor n e) /\ (forall n, reads_term n e)
  /\ (forall n, reads_expr n e)
  /\ (forall n, joins_term n e) /\ (forall n, joins_expr n e).
Proof.
  induction e using AST_induction; cbn [writable_expr]; intros Hw;
    try discriminate Hw.
  - (* Variable *)
    assert (Hf : forall n, reads_factor n (Variable_ x)).
    { intros n. apply (reads_factor_atom n _ IDENTIFIER (VStr x));
        [reflexivity| |discriminate].
      intros p p' E Ety Ev. unfold factor. rewrite Ety, E, Ev. reflexivity. }
    assert (Hjt : forall n, joins_term n (Variable_ x))
      by (intros n; apply reads_factor_joins_term; [reflexivity|apply Hf]).
    assert (Hrt : forall n, reads_term n (Variable_ x))
      by (intros n; apply joins_reads_term, Hjt).
    assert (Hje : forall n, joins_expr n (Variable_ x))
      by (intros n; apply reads_term_joins_expr; [reflexivity|apply Hrt]).
    repeat split; try assumption. apply joins_reads_expr, Hje.
  - (* Number *)
    assert (Hf : forall n, reads_factor n (Number v)).
    { intros n. apply (reads_factor_atom n _ NUMBER v);
        [reflexivity| |discriminate].
      intros p p' E Ety Ev. unfold factor. rewrite Ety, E, Ev. reflexivity. }
    assert (Hjt : forall n, joins_term n (Number v))
      by (intros n; apply reads_factor_joins_term; [reflexivity|apply Hf]).
    assert (Hrt : forall n, reads_term n (Number v))
      by (intros n; apply joins_reads_term, Hjt).
    assert (Hje : forall n, joins_expr n (Number v))
      by (intros n; apply reads_term_joins_expr; [reflexivity|apply Hrt]).
    repeat split; try assumption. apply joins_reads_expr, Hje.
  - (* String *)
    assert (Hf : forall n, reads_factor n (String v)).
    { intros n. apply (reads_factor_atom n _ STRING v);
        [reflexivity| |discriminate].
      intros p p' E Ety Ev. unfold factor. rewrite Ety, E, Ev. reflexivity. }
    assert (Hjt : forall n, joins_term n (String v))
      by (intros n; apply reads_factor_joins_term; [reflexivity|apply Hf]).
    assert (Hrt : forall n, reads_term n (String v))
      by (intros n; apply joins_reads_term, Hjt).
    assert (Hje : forall n, joins_expr n (String v))
      by (intros n; apply reads_term_joins_expr; [reflexivity|apply Hrt]).
    repeat split; try assumption. apply joins_reads_expr, Hje.
  - (* BinOp *)
    apply andb_prop in Hw as [Hw Hw2]. apply andb_prop in Hw as [Hop Hw1].
    destruct (IHe1 Hw1) as (Lf & Lt & Le & Ljt & Lje).
    destruct (IHe2 Hw2) as (Rf & Rt & Re & Rjt & Rje).
    destruct (is_additive op) eqn:Ea.
    + (* a sum or difference *)
      destruct (op_token_additive op Ea) as (Hin & Heof & Hnm).
      destruct (show_additive e1 e2 op 0 Ea) as [S0 S1].
      assert (Hje : forall n, joins_expr n (BinOp e1 op e2)).
      { intros n m p t ts Hn Hm Hp Ht. rewrite S0 in Hp.
        rewrite <- app_assoc in Hp. cbn [app] in Hp.
        destruct (Lje n m p (op_token op) (show e2 1 ++ t :: ts) Hn Hm Hp)
          as (m1 & p1 & E1 & Hp1 & Hm1 & Hs1).
        { unfold ends_term. rewrite Hnm. reflexivity. }
        destruct (app_cons_nonempty (show e2 1) t ts) as (t2 & ts2 & Et).
        pose proof Hp1 as Hp1'. rewrite Et in Hp1'.
        destruct (op_token op) as [oty ov] eqn:Eo. cbn [fst] in *.
        destruct (eat_holds p1 oty ov t2 ts2 Heof Hp1')
          as (p2 & E2 & Hp2 & Hs2).
        rewrite <- Et in Hp2.
        destruct (Rt n p2 t ts ltac:(lia) Hp2 Ht) as (p3 & E3 & Hp3 & Hs3).
        rewrite <- Eo in Hp1.
        destruct (binop_loop_round additive (term (expr n) n) m1 e1 e2 op
                    p1 p2 p3 _ Hp1)
          as (m2 & E4 & Hm2);
          try (rewrite Eo; cbn [fst]; assumption); try assumption.
        exists m2, p3. rewrite E1, E4.
        split; [reflexivity|]. split; [exact Hp3|]. split; lia. }
      assert (He : forall n, reads_expr n (BinOp e1 op e2))
        by (apply joins_reads_expr, Hje).
      assert (Hf : forall n, reads_factor n (BinOp e1 op e2))
        by (apply reads_expr_factor; [apply show_BinOp_factor|exact He]).
      assert (Hjt : forall n, joins_term n (BinOp e1 op e2))
        by (intros n; apply reads_factor_joins_term; [exact S1|apply Hf]).
      repeat split; try assumption.
      intros n. apply joins_reads_term, Hjt.
    + (* a product or quotient *)
      cbn [orb] in Hop.
      destruct (op_token_multiplicative op Ea Hop) as (Hin & Heof).
      destruct (show_multiplicative e1 e2 op Ea) as [S1 S0].
      assert (Hjt : forall n, joins_term n (BinOp e1 op e2)).
      { intros n m p t ts Hn Hm Hp. rewrite S1 in Hp.
        rewrite <- app_assoc in Hp. cbn [app] in Hp.
        destruct (Ljt n m p (op_token op) (show e2 2 ++ t :: ts) Hn Hm Hp)
          as (m1 & p1 & E1 & Hp1 & Hm1 & Hs1).
        destruct (app_cons_nonempty (show e2 2) t ts) as (t2 & ts2 & Et).
        pose proof Hp1 as Hp1'. rewrite Et in Hp1'.
        destruct (op_token op) as [oty ov] eqn:Eo. cbn [fst] in *.
        destruct (eat_holds p1 oty ov t2 ts2 Heof Hp1')
          as (p2 & E2 & Hp2 & Hs2).
        rewrite <- Et in Hp2.
        destruct (Rf n p2 t ts ltac:(lia) Hp2) as (p3 & E3 & Hp3 & Hs3).
        rewrite <- Eo in Hp1.
        destruct (binop_loop_round multiplicative (factor (expr n)) m1 e1 e2
                    op p1 p2 p3 _ Hp1)
          as (m2 & E4 & Hm2);
          try (rewrite Eo; cbn [fst]; assumption); try assumption.
        exists m2, p3. rewrite E1, E4.
        split; [reflexivity|]. split; [exact Hp3|]. split; lia. }
      assert (Hrt : forall n, reads_term n (BinOp e1 op e2))
        by (intros n; apply joins_reads_term, Hjt).
      assert (Hje : forall n, joins_expr n (BinOp e1 op e2))
        by (intros n; apply reads_term_joins_expr; [exact S0|apply Hrt]).
      assert (He : forall n, reads_expr n (BinOp e1 op e2))
        by (apply joins_reads_expr, Hje).
      repeat split; try assumption.
      apply reads_expr_factor; [apply show_BinOp_factor|exact He].
Qed.

End ReadExpressions.

(** ** Statements written out *)

(** A keyword, as the lexer returns it: its text is its token type. *)
Definition kw (t : TokenType) : token := (t, VStr (TokenType_str t)).

Definition semicolon : token := (SEMICOLON, VStr (utf8 ";")).
Definition lbrace : token := (LBRACE, VStr (utf8 "{")).
Definition rbrace : token := (RBRACE, VStr (utf8 "}")).
Definition assign : token := (ASSIGN, VStr (utf8 "=")).

Definition condition_tokens (c : AST) : list token :=
  match c with
  | Comparison l op r => show l 0 ++ (COMPARISON, VStr op) :: show r 0
  | _ => show c 0
  end.

Definition writable_condition (c : AST) : bool :=
  match c with
  | Comparison l _ r => writable_expr l && writable_expr r
  | _ => writable_expr c
  end.

Fixpoint statement_tokens (s : AST) : list token :=
  match s with
  | Print e => kw PRINT :: lparen :: show e 0 ++ [rparen; semicolon]
  | Assign x e => (IDENTIFIER, VStr x) :: assign :: show e 0 ++ [semicolon]
  | If c t f =>
      kw IF :: lparen :: condition_tokens c
        ++ rparen :: lbrace :: flat_map statement_tokens t
        ++ rbrace
           :: match f with
              | Some l =>
                  kw ELSE :: lbrace :: flat_map statement_tokens l ++ [rbrace]
              | None => []
              end
  | While c b =>
      kw WHILE :: lparen :: condition_tokens c
        ++ rparen :: lbrace :: flat_map statement_tokens b ++ [rbrace]
  | Import m => [kw IMPORT; (STRING, VStr m); semicolon]
  | TryCatch t c x =>
      kw TRY :: lbrace :: flat_map statement_tokens t
        ++ rbrace :: kw CATCH :: lparen :: (IDENTIFIER, VStr x) :: rparen
           :: lbrace :: flat_map statement_tokens c ++ [rbrace]
  | _ => []
  end.

(** The statements that can be written out. *)
Fixpoint writable (s : AST) : bool :=
  match s with
  | Print e | Assign _ e => writable_expr e
  | If c t f =>
      writable_condition c && forallb writable t
      && match f with
         | Some l => forallb writable l
         | None => true
         end
  | While c b => writable_condition c && forallb writable b
  | Import _ => true
  | TryCatch t c _ => forallb writable t && forallb writable c
  | _ => false
  end.

Definition program_tokens (ast : list AST) : list token :=
  flat_map statement_tokens ast ++ [(EOF, VNone)].

(** A token that a statement neither starts with nor goes on with. *)
Definition closes_block (t : token) : bool := type_in (fst t) [RBRACE; EOF].

Definition starts_statement (t : token) : bool :=
  type_in (fst t) [PRINT; IDENTIFIER; IF; WHILE; IMPORT; TRY].

Lemma statement_tokens_start (s : AST) :
  writable s = true ->
  exists t ts, statement_tokens s = t :: ts /\ starts_statement t = true.
Proof.
  destruct s; cbn [writable statement_tokens]; intros Hw;
    try discriminate Hw; eexists; eexists; split; reflexivity.
Qed.

Ltac nonempty_tail :=
  first [ discriminate
        | match goal with
          | |- ?l ++ _ <> [] => destruct l; discriminate
          end ].

Section ReadStatements.
Context {H : Host}.

Lemma eat_next (p : Parser) (t : TokenType) (v : value) (l : list token) :
  t <> EOF -> l <> [] -> holds p ((t, v) :: l) ->
  exists p', eat p t = Ok p' /\ holds p' l /\ (size p' < size p)%nat.
Proof.
  intros Ht Hl Hp. destruct l as [|t2 ts]; [contradiction|].
  eapply eat_holds; eassumption.
Qed.

(** Eat the token held. *)
Ltac chew Hp p1 E1 Hp1 S1 :=
  match type of Hp with
  | holds ?p (?tok :: ?l) =>
      destruct (eat_next p (fst tok) (snd tok) l
                  ltac:(cbn; discriminate) ltac:(nonempty_tail) Hp)
        as (p1 & E1 & Hp1 & S1);
      cbv beta iota delta
        [fst kw lparen rparen semicolon lbrace rbrace assign] in E1
  end.

(** Bring the tokens held into the form of a list. *)
Ltac written Hp :=
  repeat first [ rewrite <- app_assoc in Hp | progress cbn [app] in Hp ].

(** Run the calls that are known to return. *)
Ltac run :=
  repeat first
    [ match goal with
      | E : ?c = Ok _ |- context [bind ?c _] => rewrite E
      end
    | progress cbn [bind] ].

Definition reads_condition (n : nat) (c : AST) : Prop :=
  forall p ts,
    (size p < n)%nat -> holds p (condition_tokens c ++ rparen :: ts) ->
    exists p', comparison n p = Ok (c, p') /\ holds p' (rparen :: ts)
               /\ (size p' < size p)%nat.

Lemma condition_is_read_back (c : AST) (n : nat) :
  writable_condition c = true -> reads_condition n c.
Proof.
  intros Hw p ts Hn Hp. unfold comparison.
  assert (He : forall e, writable_expr e = true ->
               condition_tokens c = show e 0 -> c = e ->
               exists p', comparison n p = Ok (c, p')
                          /\ holds p' (rparen :: ts)
                          /\ (size p' < size p)%nat).
  { intros e Hwe Hc Hce. rewrite Hc in Hp.
    destruct (expression_is_read_back e Hwe) as (_ & _ & Hr & _).
    destruct (Hr n p rparen ts Hn Hp eq_refl) as (p1 & E1 & Hp1 & S1).
    exists p1. unfold comparison. rewrite E1. cbn [bind].
    rewrite (holds_type _ _ _ _ Hp1). cbn [TokenType_eqb].
    subst c. split; [reflexivity|]. split; assumption. }
  destruct c; cbn [writable_condition] in Hw;
    try (apply (He _ Hw eq_refl eq_refl)).
  clear He. apply andb_prop in Hw as [Hw1 Hw2].
  cbn [condition_tokens] in Hp. rewrite <- app_assoc in Hp.
  cbn [app] in Hp.
  destruct (expression_is_read_back c1 Hw1) as (_ & _ & Hr1 & _).
  destruct (expression_is_read_back c2 Hw2) as (_ & _ & Hr2 & _).
  destruct (Hr1 n p _ _ Hn Hp eq_refl) as (p1 & E1 & Hp1 & S1).
  pose proof (holds_type _ _ _ _ Hp1) as Ty1.
  pose proof (holds_value _ _ _ _ Hp1) as Tv1.
  chew Hp1 p2 E2 Hp2 S2.
  destruct (Hr2 n p2 rparen ts ltac:(lia) Hp2 eq_refl)
    as (p3 & E3 & Hp3 & S3).
  exists p3. rewrite E1. cbn [bind]. rewrite Ty1. cbn [TokenType_eqb].
  rewrite E2. cbn [bind]. rewrite E3. cbn [bind]. rewrite Tv1.
  split; [reflexivity|]. split; [exact Hp3|lia].
Qed.

Definition reads_statement (n : nat) (s : AST) : Prop :=
  forall p t ts,
    (size p < n)%nat -> holds p (statement_tokens s ++ t :: ts) ->
    fst t <> ELSE ->
    exists p', statement n p = Ok (s, p') /\ holds p' (t :: ts)
               /\ (size p' < size p)%nat.

Lemma starts_statement_not (t : token) :
  starts_statement t = true ->
  fst t <> ELSE /\ fst t <> EOF /\ closes_block t = false
  /\ type_in (fst t) [EOF] = false.
Proof.
  unfold starts_statement, closes_block. destruct t as [ty v]. cbn [fst].
  destruct ty; cbn; intros E; try discriminate E; repeat split; discriminate.
Qed.

(** The loop of [block] and of [parse] on statements written out. *)
Lemma statements_loop_reads (stop : list TokenType) (m : nat)
  (l : list AST) :
  (forall t, starts_statement t = true -> type_in (fst t) stop = false) ->
  Forall (fun s => writable s = true /\ reads_statement m s) l ->
  forall n acc p t ts,
    (size p < m)%nat -> (size p <= n)%nat ->
    holds p (flat_map statement_tokens l ++ t :: ts) ->
    type_in (fst t) stop = true -> fst t <> ELSE ->
    exists p',
      statements_loop stop (statement m) n acc p = Ok (acc ++ l, p')
      /\ holds p' (t :: ts) /\ (size p' <= size p)%nat.
Proof.
  intros Hstop Hall. induction Hall as [|s l [Hw Hs] Hl IH];
    intros n acc p t ts Hm Hn Hp Ht Helse.
  - cbn [flat_map app] in Hp. destruct t as [ty v].
    pose proof (holds_type _ _ _ _ Hp) as Ty. cbn [fst] in Ht.
    exists p. rewrite app_nil_r.
    destruct n; cbn [statements_loop]; rewrite Ty, Ht; cbn [negb];
      (split; [reflexivity|]; split; [exact Hp|lia]).
  - cbn [flat_map] in Hp. rewrite <- app_assoc in Hp.
    destruct (statement_tokens_start s Hw) as (t1 & ts1 & Es & Hst).
    destruct (starts_statement_not t1 Hst) as (_ & Heof & _ & _).
    pose proof (Hstop t1 Hst) as Hns.
    assert (Hfollow : exists t2 ts2,
               flat_map statement_tokens l ++ t :: ts = t2 :: ts2
               /\ fst t2 <> ELSE).
    { destruct l as [|s2 l]; [exists t, ts; split; [reflexivity|exact Helse]|].
      cbn [flat_map]. rewrite <- app_assoc.
      apply Forall_inv in Hl. destruct Hl as [Hw2 _].
      destruct (statement_tokens_start s2 Hw2) as (t2 & ts2 & Es2 & Hst2).
      rewrite Es2. cbn [app]. eexists. eexists. split; [reflexivity|].
      apply (starts_statement_not t2 Hst2). }
    destruct Hfollow as (t2 & ts2 & Et2 & Helse2).
    assert (Ty : tok_type (current_token p) = fst t1).
    { rewrite Es in Hp. cbn [app] in Hp. destruct t1 as [ty1 v1].
      exact (holds_type _ _ _ _ Hp). }
    assert (Hpos : (0 < size p)%nat).
    { rewrite Es in Hp. cbn [app] in Hp. destruct t1 as [ty1 v1].
      eapply holds_size; [|exact Hp]. exact Heof. }
    rewrite Et2 in Hp.
    destruct (Hs p t2 ts2 Hm Hp Helse2) as (p1 & E1 & Hp1 & S1).
    rewrite <- Et2 in Hp1.
    destruct n as [|n]; [lia|].
    destruct (IH n (acc ++ [s]) p1 t ts ltac:(lia) ltac:(lia) Hp1 Ht Helse)
      as (p2 & E2 & Hp2 & S2).
    exists p2. cbn [statements_loop]. rewrite Ty, Hns. cbn [negb].
    rewrite E1. cbn [bind]. rewrite E2, <- app_assoc.
    split; [reflexivity|]. split; [exact Hp2|lia].
Qed.

Lemma block_reads (m : nat) (l : list AST) :
  Forall (fun s => writable s = true /\ reads_statement m s) l ->
  forall n p ts,
    (size p < m)%nat -> (size p <= n)%nat ->
    holds p (flat_map statement_tokens l ++ rbrace :: ts) ->
    exists p',
      block (statement m) n p = Ok (l, p')
      /\ holds p' (rbrace :: ts) /\ (size p' <= size p)%nat.
Proof.
  intros Hall n p ts Hm Hn Hp. unfold block.
  apply (statements_loop_reads [RBRACE; EOF] m l
           (fun t Ht => proj1 (proj2 (proj2 (starts_statement_not t Ht))))
           Hall n [] p rbrace ts Hm Hn Hp eq_refl).
  discriminate.
Qed.

Lemma Forall_reads (l : list AST) (m : nat) :
  Forall (fun s => writable s = true -> forall n, reads_statement n s) l ->
  forallb writable l = true ->
  Forall (fun s => writable s = true /\ reads_statement m s) l.
Proof.
  intros Hall. induction Hall as [|s l Hs _ IH]; intros Hw; constructor.
  - cbn [forallb] in Hw. apply andb_prop in Hw as [Hw _].
    split; [exact Hw|apply Hs; exact Hw].
  - apply IH. cbn [forallb] in Hw. apply andb_prop in Hw as [_ Hw]. exact Hw.
Qed.

(** Every writable statement is read back. *)
Lemma statement_is_read_back (s : AST) :
  writable s = true -> forall n, reads_statement n s.
Proof.
  induction s using AST_induction; cbn [writable];
    intros Hw n p tf tsf Hn Hp Helse; try discriminate Hw;
    (destruct n as [|n]; [lia|]);
    cbn [statement_tokens] in Hp; written Hp;
    pose proof Hp as Ty; apply holds_type in Ty;
    cbn [statement]; cbv zeta; rewrite Ty; cbv iota.
  - (* Print *)
    destruct (expression_is_read_back s Hw) as (_ & _ & He & _).
    chew Hp p1 E1 Hp1 S1. chew Hp1 p2 E2 Hp2 S2.
    destruct (He n p2 rparen _ ltac:(lia) Hp2 eq_refl)
      as (p3 & E3 & Hp3 & S3).
    chew Hp3 p4 E4 Hp4 S4. chew Hp4 p5 E5 Hp5 S5.
    exists p5. run. split; [reflexivity|]. split; [exact Hp5|lia].
  - (* Assign *)
    destruct (expression_is_read_back s Hw) as (_ & _ & He & _).
    pose proof (holds_value _ _ _ _ Hp) as Tv.
    chew Hp p1 E1 Hp1 S1. chew Hp1 p2 E2 Hp2 S2.
    destruct (He n p2 semicolon _ ltac:(lia) Hp2 eq_refl)
      as (p3 & E3 & Hp3 & S3).
    chew Hp3 p4 E4 Hp4 S4.
    exists p4. run. rewrite Tv. split; [reflexivity|].
    split; [exact Hp4|lia].
  - (* If *)
    apply andb_prop in Hw as [Hw Hf]. apply andb_prop in Hw as [Hc Ht].
    destruct f as [l|]; written Hp;
      chew Hp p1 E1 Hp1 S1; chew Hp1 p2 E2 Hp2 S2;
      destruct (condition_is_read_back s n Hc p2 _ ltac:(lia) Hp2)
        as (p3 & E3 & Hp3 & S3);
      chew Hp3 p4 E4 Hp4 S4; chew Hp4 p5 E5 Hp5 S5;
      destruct (block_reads n t (Forall_reads t n H0 Ht) n p5 _
                  ltac:(lia) ltac:(lia) Hp5)
        as (p6 & E6 & Hp6 & S6);
      chew Hp6 p7 E7 Hp7 S7.
    + pose proof (holds_type _ _ _ _ Hp7) as Ty7.
      chew Hp7 p8 E8 Hp8 S8. chew Hp8 p9 E9 Hp9 S9.
      destruct (block_reads n l (Forall_reads l n (H1 l eq_refl) Hf) n p9 _
                  ltac:(lia) ltac:(lia) Hp9)
        as (p10 & E10 & Hp10 & S10).
      chew Hp10 p11 E11 Hp11 S11.
      exists p11. run. rewrite Ty7. cbn [TokenType_eqb]. run.
      split; [reflexivity|]. split; [exact Hp11|lia].
    + assert (Ty7 : TokenType_eqb (tok_type (current_token p7)) ELSE = false).
      { destruct tf as [ty v]. rewrite (holds_type _ _ _ _ Hp7).
        cbn [fst] in Helse. destruct ty; try reflexivity. contradiction. }
      exists p7. run. rewrite Ty7.
      split; [reflexivity|]. split; [exact Hp7|lia].
  - (* While *)
    apply andb_prop in Hw as [Hc Hb].
    chew Hp p1 E1 Hp1 S1. chew Hp1 p2 E2 Hp2 S2.
    destruct (condition_is_read_back s n Hc p2 _ ltac:(lia) Hp2)
      as (p3 & E3 & Hp3 & S3).
    chew Hp3 p4 E4 Hp4 S4. chew Hp4 p5 E5 Hp5 S5.
    destruct (block_reads n b (Forall_reads b n H0 Hb) n p5 _
                ltac:(lia) ltac:(lia) Hp5)
      as (p6 & E6 & Hp6 & S6).
    chew Hp6 p7 E7 Hp7 S7.
    exists p7. run. split; [reflexivity|]. split; [exact Hp7|lia].
  - (* Import *)
    chew Hp p1 E1 Hp1 S1.
    pose proof (holds_type _ _ _ _ Hp1) as Ty1.
    pose proof (holds_value _ _ _ _ Hp1) as Tv1.
    chew Hp1 p2 E2 Hp2 S2. chew Hp2 p3 E3 Hp3 S3.
    exists p3. run. rewrite Ty1. cbn [TokenType_eqb negb]. rewrite Tv1.
    run. split; [reflexivity|]. split; [exact Hp3|lia].
  - (* TryCatch *)
    apply andb_prop in Hw as [Ht Hc].
    chew Hp p1 E1 Hp1 S1. chew Hp1 p2 E2 Hp2 S2.
    destruct (block_reads n t (Forall_reads t n H0 Ht) n p2 _
                ltac:(lia) ltac:(lia) Hp2)
      as (p3 & E3 & Hp3 & S3).
    chew Hp3 p4 E4 Hp4 S4. chew Hp4 p5 E5 Hp5 S5.
    pose proof (holds_type _ _ _ _ Hp5) as Ty5.
    chew Hp5 q1 E6 Hq1 S6.
    pose proof (holds_type _ _ _ _ Hq1) as Ty6.
    pose proof (holds_value _ _ _ _ Hq1) as Tv6.
    chew Hq1 q2 E7 Hq2 S7. chew Hq2 q3 E8 Hq3 S8.
    chew Hq3 p7 E9 Hp7 S9.
    destruct (block_reads n c (Forall_reads c n H1 Hc) n p7 _
                ltac:(lia) ltac:(lia) Hp7)
      as (p8 & E10 & Hp8 & S10).
    chew Hp8 p9 E11 Hp9 S11.
    exists p9. run. rewrite Ty5. cbn [TokenType_eqb]. run.
    rewrite Ty6. cbn [TokenType_eqb]. run. rewrite Tv6. cbn [text_of].
    run. split; [reflexivity|]. split; [exact Hp9|lia].
Qed.

End ReadStatements.

Section ReadPrograms.
Context {H : Host}.

(** X23: the parser reads back what is written out.  When the tokens of a
    text are those of a program written out, with operators of one level
    from left to right, a product or quotient as an operand of a sum or
    difference as it is, and parentheses around an operand that binds
    less tightly than its place, then parsing the text gives that
    program.  (The limit of the host on nested calls is not part of the
    model.) *)
Theorem parser_reads_back_a_written_program (text file : pystr)
  (ast : list AST) :
  forallb writable ast = true ->
  tokens (Lexer_init text file) = Ok (program_tokens ast) ->
  parse_text text file = Ok ast.
Proof.
  intros Hw Ht. apply tokens_loop_next in Ht.
  assert (Hne : program_tokens ast <> []).
  { unfold program_tokens.
    destruct (flat_map statement_tokens ast); discriminate. }
  destruct (program_tokens ast) as [|t ts] eqn:Et; [contradiction|].
  destruct (Parser_init_holds _ t ts Ht) as (p & Ep & Hp).
  rewrite <- Et in Hp. unfold program_tokens in Hp.
  pose proof (Parser_init_size (Lexer_init text file)) as Hs.
  rewrite Ep in Hs. cbn [post] in Hs.
  unfold left_, Lexer_init in Hs. cbn [rest] in Hs.
  unfold parse_text. rewrite Ep. cbn [bind]. unfold parse.
  destruct (statements_loop_reads [EOF] (S (List.length text)) ast
              (fun t0 Ht0 =>
                 proj2 (proj2 (proj2 (starts_statement_not t0 Ht0))))
              (proj2 (Forall_forall _ _)
                 (fun s Hin =>
                    conj (proj1 (forallb_forall _ _) Hw s Hin)
                      (statement_is_read_back s
                         (proj1 (forallb_forall _ _) Hw s Hin) _)))
              (S (List.length text)) [] p (EOF, VNone) []
              ltac:(lia) ltac:(lia) Hp eq_refl ltac:(discriminate))
    as (p' & E & _).
  rewrite E. reflexivity.
Qed.

End ReadPrograms.

(** [x = 1 - 2 - 3 * (4 + 5); if (x < 0) { print(x); } else { }] *)
Definition written_text : pystr :=
  utf8 "x = 1 - 2 - 3 * (4 + 5); 如果 (x < 0) { 打印(x); } 否则 { }".

Definition written_program : list AST :=
  [Assign (utf8 "x")
     (BinOp
        (BinOp (Number (VInt 1)) (utf8 "-") (Number (VInt 2))) (utf8 "-")
        (BinOp (Number (VInt 3)) (utf8 "*")
           (BinOp (Number (VInt 4)) (utf8 "+") (Number (VInt 5)))));
   If (Comparison (Variable_ (utf8 "x")) (utf8 "<") (Number (VInt 0)))
     [Print (Variable_ (utf8 "x"))] (Some [])].

Lemma parser_reads_back_a_written_program_witness :
  parse_text (H := CPython) written_text stdin_name = Ok written_program.
Proof.
  apply (parser_reads_back_a_written_program (H := CPython) written_text
           stdin_name written_program).
  - reflexivity.
  - vm_compute. reflexivity.
Defined.

(** * The operators of a parsed program *)

Definition arithmetic_operators : list pystr :=
  [utf8 "+"; utf8 "-"; utf8 "*"; utf8 "/"].

(** The texts of a [COMPARISON] token: one of [=], [<], [>], [!] doubled
    with [=], or [<], [>], [!] alone. *)
Definition comparison_operators : list pystr :=
  [utf8 "=="; utf8 "<="; utf8 ">="; utf8 "!="; utf8 "<"; utf8 ">"; utf8 "!"].

Definition one_of (ops : list pystr) (op : pystr) : bool :=
  existsb (str_eqb op) ops.

(** An operator token carries its own text. *)
Definition operator_value_ok (tok : Token) : bool :=
  match tok_type tok with
  | PLUS => str_eqb (text_of (tok_value tok)) (utf8 "+")
  | MINUS => str_eqb (text_of (tok_value tok)) (utf8 "-")
  | MULTIPLY => str_eqb (text_of (tok_value tok)) (utf8 "*")
  | DIVIDE => str_eqb (text_of (tok_value tok)) (utf8 "/")
  | COMPARISON => one_of comparison_operators (text_of (tok_value tok))
  | _ => true
  end.

(** The operators of the nodes below [n] are among these. *)
Fixpoint operators_ok (n : AST) : bool :=
  match n with
  | BinOp l op r =>
      one_of arithmetic_operators op && operators_ok l && operators_ok r
  | Comparison l op r =>
      one_of comparison_operators op && operators_ok l && operators_ok r
  | Print e | Assign _ e => operators_ok e
  | If c t f =>
      operators_ok c && forallb operators_ok t
      && match f with
         | Some l => forallb operators_ok l
         | None => true
         end
  | While c b => operators_ok c && forallb operators_ok b
  | TryCatch t c _ => forallb operators_ok t && forallb operators_ok c
  | _ => true
  end.

Section ParsedOperators.
Context {H : Host}.

Lemma keywords_get_not_operator_type (s : pystr) (v : value) (l c : Z) :
  operator_value_ok (mkToken (keywords_get keywords s IDENTIFIER) v l c)
  = true.
Proof.
  unfold operator_value_ok, keywords. cbn [keywords_get tok_type].
  repeat match goal with
         | |- context [if ?b then _ else _] => destruct b
         end; reflexivity.
Qed.

Lemma get_next_token_loop_operator (n : nat) :
  forall lx tok lx',
    get_next_token_loop n lx = Ok (tok, lx') -> operator_value_ok tok = true.
Proof.
  induction n as [|n IH]; intros lx tok lx' E; cbn [get_next_token_loop] in E.
  - inversion E. reflexivity.
  - destruct (current_char lx) as [c|]; [|inversion E; reflexivity].
    destruct (isspace c); [eapply IH; exact E|].
    destruct (char_eqb c (ch "#")); [eapply IH; exact E|].
    destruct (char_eqb c dquote); [returned E; reflexivity|].
    destruct (isdigit c); [returned E; reflexivity|].
    destruct (isalpha c || char_eqb c (ch "_")).
    { unfold identifier in E.
      destruct (identifier_loop _ _ lx) as [r lx1].
      inversion E. apply keywords_get_not_operator_type. }
    unfold single in E.
    repeat match type of E with
           | (if ?b then _ else _) = _ =>
               let Hb := fresh "Hb" in destruct b eqn:Hb
           end;
      try discriminate E; inversion E; subst; clear E;
      try reflexivity;
      repeat match goal with
             | Hc : _ || _ = true |- _ => apply orb_true_iff in Hc as [Hc|Hc]
             | Hc : char_eqb c _ = true |- _ => apply N.eqb_eq in Hc; subst c
             end; reflexivity.
Qed.

Definition operator_ok (p : Parser) : Prop :=
  operator_value_ok (current_token p) = true.

Definition parses_operators (f : Parser -> parsing) : Prop :=
  forall p e p',
    operator_ok p -> f p = Ok (e, p') ->
    operators_ok e = true /\ operator_ok p'.

Lemma Parser_init_operator (lx : Lexer) (p : Parser) :
  Parser_init lx = Ok p -> operator_ok p.
Proof.
  unfold Parser_init. intros E. returned E.
  eapply get_next_token_loop_operator. eassumption.
Qed.

Lemma eat_operator (p p' : Parser) (t : TokenType) :
  eat p t = Ok p' -> operator_ok p'.
Proof.
  unfold eat. intros E. returned E.
  eapply get_next_token_loop_operator. eassumption.
Qed.

Ltac onward :=
  repeat match goal with
         | E : eat _ _ = Ok ?q |- _ =>
             lazymatch goal with
             | _ : operator_ok q |- _ => fail
             | _ => pose proof (eat_operator _ _ _ E)
             end
         | Hf : parses_operators ?f, Hp : operator_ok ?p,
           E : ?f ?p = Ok (_, ?q) |- _ =>
             lazymatch goal with
             | _ : operator_ok q |- _ => fail
             | _ => destruct (Hf _ _ _ Hp E)
             end
         end.

Lemma factor_operators (ex : Parser -> parsing) :
  parses_operators ex -> parses_operators (factor ex).
Proof.
  intros Hex p e p' Hp E. unfold factor in E.
  destruct (tok_type (current_token p)) eqn:Et; try discriminate E;
    returned E; onward; split; try assumption; reflexivity.
Qed.

Lemma binop_loop_operators (ops : list TokenType)
  (operand : Parser -> parsing) :
  (forall tok, type_in (tok_type tok) ops = true ->
               operator_value_ok tok = true ->
               one_of arithmetic_operators (text_of (tok_value tok)) = true) ->
  parses_operators operand ->
  forall n node p e p',
    operators_ok node = true -> operator_ok p ->
    binop_loop ops operand n node p = Ok (e, p') ->
    operators_ok e = true /\ operator_ok p'.
Proof.
  intros Hops Hop. induction n as [|n IH]; intros node p e p' Hn Hp E;
    cbn [binop_loop] in E;
    destruct (type_in (tok_type (current_token p)) ops) eqn:Et;
    try discriminate E; try (inversion E; subst; auto; fail).
  returned E. onward.
  match goal with
  | E' : binop_loop _ _ _ _ _ = Ok _ |- _ => eapply IH; [| |exact E']
  end; [|assumption].
  cbn [operators_ok]. rewrite (Hops _ Et Hp), Hn. cbn [andb]. assumption.
Qed.

Lemma multiplicative_operators (tok : Token) :
  type_in (tok_type tok) [MULTIPLY; DIVIDE] = true ->
  operator_value_ok tok = true ->
  one_of arithmetic_operators (text_of (tok_value tok)) = true.
Proof.
  unfold operator_value_ok, one_of, arithmetic_operators.
  destruct (tok_type tok); try discriminate; intros _ E; cbn [existsb];
    rewrite E; repeat rewrite orb_true_r; reflexivity.
Qed.

Lemma additive_operators (tok : Token) :
  type_in (tok_type tok) [PLUS; MINUS] = true ->
  operator_value_ok tok = true ->
  one_of arithmetic_operators (text_of (tok_value tok)) = true.
Proof.
  unfold operator_value_ok, one_of, arithmetic_operators.
  destruct (tok_type tok); try discriminate; intros _ E; cbn [existsb];
    rewrite E; repeat rewrite orb_true_r; reflexivity.
Qed.

Lemma term_operators (ex : Parser -> parsing) (n : nat) :
  parses_operators ex -> parses_operators (term ex n).
Proof.
  intros Hex p e p' Hp E. unfold term in E. returned E.
  pose proof (factor_operators ex Hex) as Hf. onward.
  eapply (binop_loop_operators _ _ multiplicative_operators Hf);
    [| |eassumption]; assumption.
Qed.

Lemma expr_operators (n : nat) : parses_operators (expr n).
Proof.
  induction n as [|n IH]; intros p e p' Hp E; cbn [expr] in E;
    [discriminate E|].
  returned E. pose proof (term_operators (expr n) n IH) as Ht. onward.
  eapply (binop_loop_operators _ _ additive_operators Ht);
    [| |eassumption]; assumption.
Qed.

Lemma comparison_operators_ok (n : nat) : parses_operators (comparison n).
Proof.
  intros p e p' Hp E. unfold comparison in E.
  pose proof (expr_operators n) as He.
  returned E; onward; split; try assumption.
  cbn [operators_ok].
  match goal with
  | Ht : TokenType_eqb (tok_type (current_token ?q)) COMPARISON = true,
    Hq : operator_ok ?q |- _ =>
      apply TokenType_eqb_eq in Ht; unfold operator_ok, operator_value_ok in Hq;
      rewrite Ht in Hq; rewrite Hq
  end.
  cbn [andb]. apply andb_true_intro. split; assumption.
Qed.

Lemma statements_loop_operators (stop : list TokenType)
  (stmt : Parser -> parsing) :
  parses_operators stmt ->
  forall n acc p l p',
    forallb operators_ok acc = true -> operator_ok p ->
    statements_loop stop stmt n acc p = Ok (l, p') ->
    forallb operators_ok l = true /\ operator_ok p'.
Proof.
  intros Hst. induction n as [|n IH]; intros acc p l p' Hacc Hp E;
    cbn [statements_loop] in E;
    destruct (negb (type_in (tok_type (current_token p)) stop));
    try discriminate E; try (inversion E; subst; auto; fail).
  returned E. onward.
  match goal with
  | E' : statements_loop _ _ _ _ _ = Ok _ |- _ => eapply IH; [| |exact E']
  end; [|assumption].
  rewrite forallb_app, Hacc. cbn [forallb andb].
  apply andb_true_intro. auto.
Qed.

Lemma block_operators (stmt : Parser -> parsing) (n : nat) (p p' : Parser)
  (l : list AST) :
  parses_operators stmt -> operator_ok p ->
  block stmt n p = Ok (l, p') ->
  forallb operators_ok l = true /\ operator_ok p'.
Proof.
  intros Hst Hp E. unfold block in E.
  eapply statements_loop_operators; [exact Hst| |exact Hp|exact E].
  reflexivity.
Qed.

Ltac onward_blocks Hst :=
  repeat (onward;
          match goal with
          | Hp : operator_ok ?p, E : block _ _ ?p = Ok (_, ?q) |- _ =>
              lazymatch goal with
              | _ : operator_ok q |- _ => fail
              | _ => destruct (block_operators _ _ _ _ _ Hst Hp E)
              end
          end); onward.

Lemma statement_operators (n : nat) : parses_operators (statement n).
Proof.
  induction n as [|n IH]; intros p e p' Hp E; cbn [statement] in E;
    [discriminate E|].
  pose proof (expr_operators n) as He.
  pose proof (comparison_operators_ok n) as Hc.
  destruct (tok_type (current_token p)) eqn:Et; try discriminate E;
    returned E; onward_blocks IH; split; try assumption;
    cbn [operators_ok];
    repeat (apply andb_true_intro; split); try assumption; reflexivity.
Qed.

(** X24: the operators of a parsed program are those of the lexer.  In
    whatever the parser returns, the operator of a [BinOp] is one of
    [+ - * /], and the operator of a [Comparison] is one of
    [== <= >= != < >] or a [!] alone, which the lexer also makes a
    comparison. *)
Theorem parsed_operators (text file : pystr) (ast : list AST) :
  parse_text text file = Ok ast ->
  Forall (fun s => operators_ok s = true) ast.
Proof.
  unfold parse_text, parse. intros E. returned E.
  match goal with
  | E' : Parser_init _ = Ok _ |- _ => apply Parser_init_operator in E'
  end.
  apply Forall_forall. apply forallb_forall.
  match goal with
  | E' : statements_loop _ _ _ _ _ = Ok _ |- _ =>
      eapply (statements_loop_operators _ _ (statement_operators _));
      [| |exact E']
  end; [reflexivity|assumption].
Qed.

End ParsedOperators.

Lemma parsed_operators_witness :
  Forall (fun s => operators_ok s = true)
    [If (Comparison (Number (VInt 1)) (utf8 "!") (Number (VInt 2)))
       [Assign (utf8 "x")
          (BinOp (Number (VInt 1)) (utf8 "/") (Number (VInt 2)))] None].
Proof.
  apply (parsed_operators (H := CPython) (utf8 "如果 (1 ! 2) { x = 1 / 2; }")
           stdin_name).
  vm_compute. reflexivity.
Defined.

Section LoneBang.
Context {H : Host} {F : FileSystem}.
Variable hook : list AST -> State -> effect.

(** X25: a comparison written with a [!] alone never gives a value, and
    once its operands are evaluated it fails: with the error of the
    operand types when they differ, and with the error of the unknown
    operator when they are the same. *)
Theorem lone_bang_never_compares (l r : AST) (st : State) :
  (forall v st', visit hook (Comparison l (utf8 "!") r) st <> (Ok v, st'))
  /\ (forall vl vr st1 st2,
        visit hook l st = (Ok vl, st1) ->
        visit hook r st1 = (Ok vr, st2) ->
        visit hook (Comparison l (utf8 "!") r) st
        = (Raise (RuntimeError
                    (if pytype_eqb (type_of vl) (type_of vr)
                     then utf8 "未知的比较运算符: !"
                     else utf8 "比较运算类型不匹配: " ++ type_name vl
                            ++ utf8 " 和 " ++ type_name vr)), st2)).
Proof.
  assert (Hc : forall vl vr,
            compare_values (utf8 "!") vl vr
            = Raise (RuntimeError
                       (if pytype_eqb (type_of vl) (type_of vr)
                        then utf8 "未知的比较运算符: !"
                        else utf8 "比较运算类型不匹配: " ++ type_name vl
                               ++ utf8 " 和 " ++ type_name vr))).
  { intros vl vr. unfold compare_values.
    destruct (pytype_eqb (type_of vl) (type_of vr)); [|reflexivity].
    change (str_eqb (utf8 "!") (utf8 "==")) with false.
    change (str_eqb (utf8 "!") (utf8 "!=")) with false.
    change (str_eqb (utf8 "!") (utf8 "<")) with false.
    change (str_eqb (utf8 "!") (utf8 "<=")) with false.
    change (str_eqb (utf8 "!") (utf8 ">")) with false.
    change (str_eqb (utf8 "!") (utf8 ">=")) with false.
    reflexivity. }
  split.
  - intros v st'. cbn [visit].
    destruct (visit hook l st) as [[vl|e|] st1];
      [|destruct e; discriminate|discriminate].
    destruct (visit hook r st1) as [[vr|e|] st2];
      [|destruct e; discriminate|discriminate].
    rewrite Hc. discriminate.
  - intros vl vr st1 st2 E1 E2.
    erewrite visit_Comparison_eq; [|exact E1|exact E2].
    rewrite Hc. reflexivity.
Qed.

End LoneBang.

Lemma lone_bang_never_compares_witness :
  visit0 (Comparison (Number (VInt 1)) (utf8 "!") (Number (VInt 2)))
    Interpreter_init
  = (Raise (RuntimeError (utf8 "未知的比较运算符: !")), Interpreter_init)
  /\ visit0 (Comparison (Number (VInt 1)) (utf8 "!") (String (VStr (utf8 "a"))))
       Interpreter_init
     = (Raise (RuntimeError (utf8 "比较运算类型不匹配: int 和 str")),
        Interpreter_init).
Proof.
  split.
  - refine (eq_trans
              (proj2 (lone_bang_never_compares (H := CPython) (F := no_files)
                 hook0 (Number (VInt 1)) (Number (VInt 2)) Interpreter_init)
                 (VInt 1) (VInt 2) Interpreter_init Interpreter_init
                 eq_refl eq_refl) _).
    vm_compute. reflexivity.
  - refine (eq_trans
              (proj2 (lone_bang_never_compares (H := CPython) (F := no_files)
                 hook0 (Number (VInt 1)) (String (VStr (utf8 "a")))
                 Interpreter_init)
                 (VInt 1) (VStr (utf8 "a")) Interpreter_init Interpreter_init
                 eq_refl eq_refl) _).
    vm_compute. reflexivity.
Defined.

(** * Arithmetic on integers *)

(** The integer that an expression of integers stands for: literals,
    names bound to integers, and sums, differences and products of
    these. *)
Fixpoint int_value (vars : dict) (e : AST) : option Z :=
  match e with
  | Number (VInt z) => Some z
  | Variable_ x =>
      match dict_get vars x with
      | Some (VInt z) => Some z
      | _ => None
      end
  | BinOp l op r =>
      match int_value vars l, int_value vars r with
      | Some a, Some b =>
          if str_eqb op (utf8 "+") then Some (a + b)
          else if str_eqb op (utf8 "-") then Some (a - b)
          else if str_eqb op (utf8 "*") then Some (a * b)
          else None
      | _, _ => None
      end
  | _ => None
  end.

Section IntegerArithmetic.
Context {H : Host} {F : FileSystem}.
Variable hook : list AST -> State -> effect.

(** X26: arithmetic on integers is exact.  An expression made of integer
    literals, names bound to integers and the operators [+], [-] and [*]
    evaluates to the integer it stands for, however large that integer is,
    and leaves the state as it is.  The evaluator calls itself once for
    each level of nesting; the limit that the host puts on the depth of
    calls is not modelled, this is about expressions within it. *)
Theorem integer_arithmetic_is_exact (e : AST) (st : State) (z : Z) :
  int_value (variables st) e = Some z ->
  visit hook e st = (Ok (VInt z), st).
Proof.
  revert z. induction e using AST_induction; intros z; cbn [int_value];
    try discriminate.
  - (* Variable *)
    destruct (dict_get (variables st) x) as [[a| | | |]|] eqn:Ex;
      try discriminate.
    intros E. inversion E; subst. apply visit_Variable_bound. exact Ex.
  - (* Number *)
    destruct v; try discriminate. intros E. inversion E. reflexivity.
  - (* BinOp *)
    destruct (int_value (variables st) e1) as [a|]; [|discriminate].
    destruct (int_value (variables st) e2) as [b|]; [|discriminate].
    rewrite (visit_BinOp_eq hook e1 e2 op st st st (VInt a) (VInt b)
               (IHe1 a eq_refl) (IHe2 b eq_refl)).
    unfold binop_values.
    destruct (str_eqb op (utf8 "+")).
    { intros E. inversion E. reflexivity. }
    destruct (str_eqb op (utf8 "-")).
    { intros E. inversion E. reflexivity. }
    destruct (str_eqb op (utf8 "*")); [|discriminate].
    intros E. inversion E. reflexivity.
Qed.

(** X27: a comparison that returns, returns a boolean, so that an [If]
    on it runs one of its branches: the first block when it holds,
    otherwise the else block if there is one with a statement in it, and
    nothing if not. *)
Theorem If_on_a_comparison_takes_a_branch (l r : AST) (op : pystr)
  (t : list AST) (f : option (list AST)) (st st1 : State) (v : value) :
  visit hook (Comparison l op r) st = (Ok v, st1) ->
  exists b,
    v = VBool b
    /\ visit hook (If (Comparison l op r) t f) st
       = if b then for_each (visit hook) t st1
         else match f with
              | Some ((_ :: _) as stmts) => for_each (visit hook) stmts st1
              | _ => (Ok VNone, st1)
              end.
Proof.
  intros E.
  assert (Hb : exists b, v = VBool b).
  { cbn [visit] in E.
    destruct (visit hook l st) as [[vl|e|] s1];
      [|destruct e; discriminate E|discriminate E].
    destruct (visit hook r s1) as [[vr|e|] s2];
      [|destruct e; discriminate E|discriminate E].
    unfold compare_values in E.
    repeat match type of E with
           | context [if ?c then _ else _] => destruct c
           end;
      cbn [visit_guard] in E; inversion E; eauto. }
  destruct Hb as [b ->]. exists b. split; [reflexivity|].
  rewrite (visit_If_eq hook _ t f st st1 (VBool b) E). reflexivity.
Qed.

End IntegerArithmetic.

Definition x_squared_plus_1 : AST :=
  BinOp (BinOp (Variable_ (utf8 "x")) (utf8 "*") (Variable_ (utf8 "x")))
    (utf8 "+") (Number (VInt 1)).

Lemma integer_arithmetic_is_exact_witness :
  visit0 x_squared_plus_1 (mkState [(utf8 "x", VInt (2 ^ 64))] [] [] [])
  = (Ok (VInt (2 ^ 128 + 1)), mkState [(utf8 "x", VInt (2 ^ 64))] [] [] []).
Proof.
  apply (integer_arithmetic_is_exact (H := CPython) (F := no_files) hook0
           x_squared_plus_1 (mkState [(utf8 "x", VInt (2 ^ 64))] [] [] [])
           (2 ^ 128 + 1)).
  vm_compute. reflexivity.
Defined.

Lemma If_on_a_comparison_takes_a_branch_witness :
  exists b,
    VBool false = VBool b
    /\ visit0 (If (Comparison (Number (VInt 2)) (utf8 "<") (Number (VInt 1)))
                 [Print (Number (VInt 1))] (Some [])) Interpreter_init
       = if b then for_each visit0 [Print (Number (VInt 1))] Interpreter_init
         else match Some (@nil AST) with
              | Some ((_ :: _) as stmts) =>
                  for_each visit0 stmts Interpreter_init
              | _ => (Ok VNone, Interpreter_init)
              end.
Proof.
  apply (If_on_a_comparison_takes_a_branch (H := CPython) (F := no_files)
           hook0 (Number (VInt 2)) (Number (VInt 1)) (utf8 "<")
           [Print (Number (VInt 1))] (Some []) Interpreter_init
           Interpreter_init (VBool false)).
  vm_compute. reflexivity.
Defined.

(** * The package installers

    [ml.py] and [mi.py] put a module file into the package directory in
    which [find_module] looks.  [install_from_file] is modelled up to its
    call of [shutil.copy2]: what it prints and the copy it asks for, or the
    message with which it gives up.  The file system is the one the
    installer sees; [get_package_dir] also creates the directory, which
    only matters to the file system after it. *)

Inductive installation : Type :=
| Refused (message : pystr)
| Copies (printed : list pystr) (source target package_name : pystr).

(** [os.path.basename(p)] on POSIX: what follows the last slash. *)
Fixpoint basename_from (p acc : pystr) : pystr :=
  match p with
  | [] => acc
  | c :: p' =>
      if char_eqb c (ch "/") then basename_from p' []
      else basename_from p' (acc ++ [c])
  end.

Definition basename (p : pystr) : pystr := basename_from p [].

(** [name[:-7]] after [name.endswith('.mylang')] *)
Definition without_extension (name : pystr) : pystr :=
  if endswith name (utf8 ".mylang")
  then firstn (List.length name - 7) name
  else name.

(** [part in s] for two strings *)
Fixpoint in_str (part s : pystr) : bool :=
  startswith s part
  || match s with
     | [] => false
     | _ :: s' => in_str part s'
     end.

(** [f"{package_name}-{version}.mylang"] if [version] is given and not
    empty, [f"{package_name}.mylang"] if not. *)
Definition target_name (package_name : pystr) (version : option pystr)
  : pystr :=
  match version with
  | Some ((_ :: _) as v) => package_name ++ utf8 "-" ++ v ++ utf8 ".mylang"
  | _ => package_name ++ utf8 ".mylang"
  end.

Module Ml.
Section Installer.
Context {H : Host} {F : FileSystem}.

Definition get_package_dir : pystr :=
  path_join (path_join home (utf8 ".mylang")) (utf8 "packages").

Definition version_ok (version : pystr) : bool :=
  forallb (fun c => isalnum c || in_str [c] (utf8 ".-_")) version.

Definition install_from_file (filename : pystr) (version : option pystr)
  : installation :=
  let package_dir := get_package_dir in
  if negb (path_exists filename) then
    Refused (utf8 "错误: 文件 '" ++ filename ++ utf8 "' 不存在")
  else if negb (endswith filename (utf8 ".mylang")) then
    Refused (utf8 "错误: 文件 '" ++ filename ++ utf8 "' 不是 .mylang 文件")
  else
    let package_name := without_extension (basename filename) in
    let bad_version :=
      match version with
      | Some ((_ :: _) as v) => if version_ok v then None else Some v
      | _ => None
      end in
    match bad_version with
    | Some v =>
        Refused (utf8 "错误: 版本号 '" ++ v ++ utf8 "' 包含非法字符")
    | None =>
        let target_path :=
          path_join package_dir (target_name package_name version) in
        match read_text filename with
        | inr msg => Refused (utf8 "✗ 安装失败: " ++ msg)
        | inl content =>
            let known :=
              existsb (fun keyword => in_str keyword content)
                [utf8 "打印"; utf8 "如果"; utf8 "循环"; utf8 "导入"] in
            Copies
              (if known then []
               else [utf8 "警告: 文件 '" ++ filename
                       ++ utf8 "' 可能不是有效的 MyLang 文件"])
              filename target_path package_name
        end
    end.

End Installer.
End Ml.

Module Mi.
Section Installer.
Context {F : FileSystem}.

Definition get_package_dir : pystr :=
  path_join (path_join home (utf8 ".mylang")) (utf8 "packages").

Definition install_from_file (filename : pystr) (version : option pystr)
  : installation :=
  let package_dir := get_package_dir in
  if negb (path_exists filename) then
    Refused (utf8 "错误: 文件 '" ++ filename ++ utf8 "' 不存在")
  else
    let package_name := without_extension (basename filename) in
    let target_path :=
      path_join package_dir (target_name package_name version) in
    Copies [] filename target_path package_name.

End Installer.
End Mi.

Lemma startswith_slash (c : char) (s : pystr) :
  startswith (c :: s) (utf8 "/") = char_eqb c (ch "/").
Proof.
  change (startswith (c :: s) (utf8 "/"))
    with (char_eqb c (ch "/") && startswith s []).
  replace (startswith s []) with true by (destruct s; reflexivity).
  apply andb_true_r.
Qed.

Lemma basename_from_plain (s acc : pystr) :
  in_str (utf8 "/") s = false -> basename_from s acc = acc ++ s.
Proof.
  revert acc. induction s as [|c s IH]; intros acc E; cbn [basename_from].
  - symmetry. apply app_nil_r.
  - cbn [in_str] in E. apply orb_false_elim in E. destruct E as [E1 E2].
    rewrite startswith_slash in E1. rewrite E1, (IH _ E2), <- app_assoc.
    reflexivity.
Qed.

Lemma basename_from_directory (d s acc : pystr) :
  basename_from (d ++ utf8 "/" ++ s) acc = basename_from s [].
Proof.
  revert acc. induction d as [|c d IH]; intros acc.
  - reflexivity.
  - cbn [app basename_from]. destruct (char_eqb c (ch "/")); apply IH.
Qed.

Lemma endswith_slash (dir : pystr) :
  endswith dir (utf8 "/") = true -> exists d, dir = d ++ utf8 "/".
Proof.
  unfold endswith. intros E. destruct (rev dir) as [|c t] eqn:Er.
  - discriminate E.
  - change (rev (utf8 "/")) with [ch "/"] in E. cbn [startswith] in E.
    apply andb_prop in E. destruct E as [E _].
    unfold char_eqb in E. apply N.eqb_eq in E. subst c.
    exists (rev t). rewrite <- (rev_involutive dir), Er. reflexivity.
Qed.

Lemma basename_of_module_file (dir base : pystr) :
  dir = [] \/ endswith dir (utf8 "/") = true ->
  in_str (utf8 "/") base = false ->
  without_extension (basename (dir ++ base ++ utf8 ".mylang")) = base.
Proof.
  intros Hd Hb.
  assert (Hp : in_str (utf8 "/") (base ++ utf8 ".mylang") = false).
  { clear Hd. induction base as [|c b IH].
    - reflexivity.
    - cbn [in_str] in Hb. apply orb_false_elim in Hb. destruct Hb as [E1 E2].
      rewrite startswith_slash in E1.
      cbn [app in_str]. rewrite (IH E2), orb_false_r.
      rewrite startswith_slash. exact E1. }
  assert (Hn : basename (dir ++ base ++ utf8 ".mylang")
               = base ++ utf8 ".mylang").
  { unfold basename. destruct Hd as [->|Hd].
    - apply (basename_from_plain _ [] Hp).
    - destruct (endswith_slash dir Hd) as [d ->]. rewrite <- app_assoc.
      rewrite basename_from_directory. apply (basename_from_plain _ [] Hp). }
  rewrite Hn. unfold without_extension. rewrite endswith_suffix.
  rewrite length_app. change (List.length (utf8 ".mylang")) with 7%nat.
  rewrite Nat.add_sub. rewrite firstn_app, Nat.sub_diag, firstn_all.
  cbn [firstn]. apply app_nil_r.
Qed.

Lemma find_after {A} (f : A -> bool) (before after : list A) (x : A) :
  (forall y, In y before -> f y = false) -> f x = true ->
  find f (before ++ x :: after) = Some x.
Proof.
  intros Hb Hx. induction before as [|y l IH]; cbn [app find].
  - rewrite Hx. reflexivity.
  - rewrite (Hb y (or_introl eq_refl)). apply IH.
    intros z Hz. apply Hb. right. exact Hz.
Qed.

Section InstalledPackages.
Context {H : Host}.

(** X28: what is installed is found.  When [install_from_file] of [ml.py]
    or of [mi.py], given the file [base.mylang] of some directory, asks for
    its copy, the name of the package is [base] and the copy goes from that
    file to the package directory, under [base.mylang], or under
    [base-version.mylang] if a version is given.  Once that file is there,
    [find_module] of [base] returns it, provided nothing comes before it:
    no [base.mylang] in the current directory, for a copy with a version no
    [base.mylang] in the package directory either, and no earlier entry of
    the package directory that starts with [base-] and ends with
    [.mylang]. *)
Theorem installed_package_is_found (F F' : FileSystem)
  (dir base : pystr) (version : option pystr) (printed before after : list pystr)
  (source target name : pystr) :
  dir = [] \/ endswith dir (utf8 "/") = true ->
  in_str (utf8 "/") base = false ->
  Ml.install_from_file (F := F) (dir ++ base ++ utf8 ".mylang") version
  = Copies printed source target name
  \/ Mi.install_from_file (F := F) (dir ++ base ++ utf8 ".mylang") version
     = Copies printed source target name ->
  home (FileSystem := F') = home (FileSystem := F) ->
  path_exists (FileSystem := F') target = true ->
  path_exists (FileSystem := F') (Mi.get_package_dir (F := F')) = true ->
  listdir (FileSystem := F') (Mi.get_package_dir (F := F'))
  = inl (before ++ target_name base version :: after) ->
  path_exists (FileSystem := F') (base ++ utf8 ".mylang") = false ->
  (target_name base version <> base ++ utf8 ".mylang" ->
   path_exists (FileSystem := F')
     (path_join (Mi.get_package_dir (F := F')) (base ++ utf8 ".mylang"))
   = false) ->
  (forall f, In f before ->
     startswith f (base ++ utf8 "-") && endswith f (utf8 ".mylang") = false) ->
  source = dir ++ base ++ utf8 ".mylang"
  /\ name = base
  /\ target
     = path_join (Mi.get_package_dir (F := F')) (target_name base version)
  /\ find_module (F := F') base = inl (Some target).
Proof.
  intros Hdir Hbase E Hh Ht Hd Hl Hcur Hplain Hbefore.
  pose proof (basename_of_module_file dir base Hdir Hbase) as Hn.
  assert (Hc : source = dir ++ base ++ utf8 ".mylang"
               /\ name = base
               /\ target = path_join (Mi.get_package_dir (F := F'))
                             (target_name base version)).
  { unfold Mi.get_package_dir. rewrite Hh.
    destruct E as [E|E].
    - unfold Ml.install_from_file, Ml.get_package_dir in E.
      rewrite Hn in E.
      destruct (negb (path_exists (dir ++ base ++ utf8 ".mylang")));
        [discriminate E|].
      destruct (negb (endswith (dir ++ base ++ utf8 ".mylang")
                        (utf8 ".mylang")));
        [discriminate E|].
      destruct version as [[|c v]|];
        try (destruct (Ml.version_ok (c :: v)); [|discriminate E]);
        destruct (read_text (dir ++ base ++ utf8 ".mylang"));
        try discriminate E;
        inversion E; subst; repeat split; reflexivity.
    - unfold Mi.install_from_file, Mi.get_package_dir in E.
      rewrite Hn in E.
      destruct (negb (path_exists (dir ++ base ++ utf8 ".mylang")));
        [discriminate E|].
      inversion E; subst; repeat split; reflexivity. }
  destruct Hc as (Hs & Hname & Htg).
  split; [exact Hs|]. split; [exact Hname|]. split; [exact Htg|].
  unfold find_module. fold (Mi.get_package_dir (F := F')).
  rewrite Hcur.
  assert (Hv : target_name base version = base ++ utf8 ".mylang"
               \/ exists v, target_name base version
                            = base ++ utf8 "-" ++ v ++ utf8 ".mylang"
                            /\ target_name base version
                               <> base ++ utf8 ".mylang").
  { unfold target_name. destruct version as [[|c v]|]; auto.
    right. exists (c :: v). split; [reflexivity|].
    intros Eq. apply app_inv_head in Eq. discriminate Eq. }
  destruct Hv as [Ev|(v & Ev & Hne)].
  - rewrite Ev in Htg. rewrite <- Htg, Ht. reflexivity.
  - rewrite (Hplain Hne), Hd, Hl.
    rewrite find_after; [rewrite Htg; reflexivity|exact Hbefore|].
    rewrite Ev. apply andb_true_intro. split.
    + rewrite app_assoc. apply startswith_app, startswith_refl.
    + rewrite !app_assoc. apply endswith_suffix.
Qed.

End InstalledPackages.

(** A home directory in which the package [math], version 1.0, is
    installed, next to a package [math-extra]. *)
Definition packages_path : pystr := utf8 "/home/user/.mylang/packages".

Definition after_installation : FileSystem := {|
  path_exists := fun p =>
    str_eqb p packages_path
    || str_eqb p (packages_path ++ utf8 "/math-1.0.mylang")
    || str_eqb p (packages_path ++ utf8 "/math-extra-0.1.mylang");
  listdir := fun p =>
    if str_eqb p packages_path
    then inl [utf8 "math-1.0.mylang"; utf8 "math-extra-0.1.mylang"]
    else inr (utf8 "[Errno 2] No such file or directory: '" ++ p ++ utf8 "'");
  home := utf8 "/home/user";
  read_text := fun p =>
    if str_eqb p (packages_path ++ utf8 "/math-1.0.mylang")
    then inl (utf8 "pi = 3;")
    else if str_eqb p (packages_path ++ utf8 "/math-extra-0.1.mylang")
    then inl (utf8 "e = 2;")
    else inr (utf8 "[Errno 2] No such file or directory: '" ++ p ++ utf8 "'")
|}.

Lemma installed_package_is_found_witness :
  utf8 "lib/math.mylang" = utf8 "lib/" ++ utf8 "math" ++ utf8 ".mylang"
  /\ utf8 "math" = utf8 "math"
  /\ packages_path ++ utf8 "/math-1.0.mylang"
     = path_join (Mi.get_package_dir (F := after_installation))
         (target_name (utf8 "math") (Some (utf8 "1.0")))
  /\ find_module (F := after_installation) (utf8 "math")
     = inl (Some (packages_path ++ utf8 "/math-1.0.mylang")).
Proof.
  apply (installed_package_is_found (H := CPython)
           (Files [(utf8 "lib/math.mylang", utf8 "pi = 3;")])
           after_installation (utf8 "lib/") (utf8 "math") (Some (utf8 "1.0"))
           [utf8 "警告: 文件 'lib/math.mylang' 可能不是有效的 MyLang 文件"]
           [] [utf8 "math-extra-0.1.mylang"]
           (utf8 "lib/math.mylang")
           (packages_path ++ utf8 "/math-1.0.mylang") (utf8 "math")).
  - right. vm_compute. reflexivity.
  - vm_compute. reflexivity.
  - left. vm_compute. reflexivity.
  - reflexivity.
  - vm_compute. reflexivity.
  - vm_compute. reflexivity.
  - vm_compute. reflexivity.
  - vm_compute. reflexivity.
  - intros _. vm_compute. reflexivity.
  - intros f [].
Defined.
